(** * Akumuli storage core: a shallow embedding and its checked properties

    The development follows the C++ sources: the Sequencer
    (sequencer.cpp), the Page (page.cpp), the column codec
    (compression.h), the chunk cache (buffer_cache.cpp) and the write path
    of Storage (storage.cpp).  Machine integers are [Z] with the
    wrap-around written out; a panic ([AKU_PANIC], a failed [assert], a
    division by zero, a thrown [StreamOutOfBounds]) is [None]. *)

From Stdlib Require Import ZArith List Lia Bool Permutation Sorted.
From stdpp Require Import base option list gmap sorting.
From Equations Require Import Equations.
Import ListNotations.

Local Open Scope Z_scope.

(** ** Machine integers *)

Definition wrap64 (x : Z) : Z := x mod 2 ^ 64.
Definition wrap32 (x : Z) : Z := x mod 2 ^ 32.
(** Two's complement reading of the low 32 (64) bits: C++ [int] and
    [int64_t] arithmetic as the hardware performs it. *)
Definition wrap_int32 (x : Z) : Z := (x + 2 ^ 31) mod 2 ^ 32 - 2 ^ 31.
Definition wrap_int64 (x : Z) : Z := (x + 2 ^ 63) mod 2 ^ 64 - 2 ^ 63.

(** Status codes of akumuli_def.h used by the modelled code. *)
Inductive aku_Status :=
| AKU_SUCCESS | AKU_ENO_DATA | AKU_EBUSY | AKU_EOVERFLOW
| AKU_EBAD_DATA | AKU_EBAD_ARG | AKU_EGENERAL | AKU_ELATE_WRITE.

#[global] Instance aku_Status_eq_dec : EqDecision aku_Status.
Proof. solve_decision. Defined.

(** [std::lower_bound] as the standard library implements it: a binary
    search that halves [len]; on a range that is not partitioned by [comp]
    it still returns the position the halving lands on. *)
Fixpoint lower_bound_loop {A} (comp : A -> bool) (l : list A) (d : A)
    (fuel first len : nat) : nat :=
  match fuel with
  | O => first
  | S fuel' =>
      match len with
      | O => first
      | _ =>
          let half := Nat.div2 len in
          let middle := (first + half)%nat in
          if comp (nth middle l d)
          then lower_bound_loop comp l d fuel' (S middle) (len - half - 1)%nat
          else lower_bound_loop comp l d fuel' first half
      end
  end.

Definition lower_bound {A} (comp : A -> bool) (l : list A) (d : A) : nat :=
  lower_bound_loop comp l d (length l) 0%nat (length l).

(** ** Cursors (cursor.cpp) *)
Module Cursor.

(** [InternalCursor] of cursor.h: what a producer of results calls.  The
    [Caller] argument of the C++ interface is the coroutine the producer
    runs in and carries no data. *)
Class InternalCursor (Result Cur : Type) := {
  cursor_put : Cur -> Result -> bool * Cur;
  cursor_complete : Cur -> Cur;
  cursor_set_error : Cur -> aku_Status -> Cur
}.

(** Results offered one after the other, whatever [put] answers: the
    answers and the cursor at the end. *)
Fixpoint puts {Result Cur} `{!InternalCursor Result Cur} (c : Cur) (rs : list Result)
    : list bool * Cur :=
  match rs with
  | [] => ([], c)
  | r :: rs' =>
      let '(ok, c1) := cursor_put c r in
      let '(oks, c') := puts c1 rs' in
      (ok :: oks, c')
  end.

Section WithResult.

Context {Result : Type}.

(** [RecordingCursor] *)
Record RecordingCursor := mkRecording {
  results : list Result;
  rec_completed : bool;
  rec_error_code : aku_Status
}.

#[global] Instance RecordingCursor_cursor : InternalCursor Result RecordingCursor := {|
  cursor_put c result :=
    (true, mkRecording (results c ++ [result]) (rec_completed c) (rec_error_code c));
  cursor_complete c := mkRecording (results c) true (rec_error_code c);
  cursor_set_error c error_code := mkRecording (results c) (rec_completed c) error_code
|}.

(** [BufferedCursor]: [results_buffer] is the caller's array, one list
    element for each of its [buffer_size] slots; [count] is the number of
    slots filled.  The constructor sets [count] to 0. *)
Record BufferedCursor := mkBuffered {
  results_buffer : list Result;
  count : nat;
  completed : bool;
  error_code : aku_Status
}.

Definition buffer_size (c : BufferedCursor) : nat := length (results_buffer c).

#[global] Instance BufferedCursor_cursor : InternalCursor Result BufferedCursor := {|
  cursor_put c result :=
    if (count c =? buffer_size c)%nat
    then (false, mkBuffered (results_buffer c) (count c) true AKU_EOVERFLOW)
    else (true, mkBuffered (<[count c := result]> (results_buffer c)) (S (count c))
                  (completed c) (error_code c));
  cursor_complete c := mkBuffered (results_buffer c) (count c) true (error_code c);
  cursor_set_error c code := mkBuffered (results_buffer c) (count c) true code
|}.

(** *** Facts about the cursors *)

Lemma buffered_puts_from (rs : list Result) :
  forall (filled free : list Result) (completed0 : bool) (error0 : aku_Status),
    puts (mkBuffered (filled ++ free) (length filled) completed0 error0) rs
    = (replicate (Nat.min (length rs) (length free)) true
       ++ replicate (length rs - length free) false,
       mkBuffered (filled ++ take (length free) rs ++ drop (length rs) free)
         (length filled + Nat.min (length rs) (length free))
         (if (length free <? length rs)%nat then true else completed0)
         (if (length free <? length rs)%nat then AKU_EOVERFLOW else error0)).
Proof.
  induction rs as [| r rs IH]; intros filled free completed0 error0.
  - cbn [puts length Nat.min Nat.sub replicate app]. rewrite take_nil, drop_0.
    replace (length free <? 0)%nat with false by (symmetry; apply Nat.ltb_ge; lia).
    rewrite Nat.add_0_r. reflexivity.
  - cbn [puts cursor_put BufferedCursor_cursor count results_buffer completed
         error_code]. unfold buffer_size. cbn [results_buffer].
    destruct free as [| x free].
    + rewrite app_nil_r, Nat.eqb_refl.
      pose proof (IH filled [] true AKU_EOVERFLOW) as IH'.
      rewrite app_nil_r in IH'. rewrite IH'.
      cbn [length]. rewrite !Nat.min_0_r, !Nat.sub_0_r, !Nat.add_0_r.
      rewrite !take_0, !drop_nil. cbn [replicate app].
      replace (0 <? S (length rs))%nat with true by (symmetry; apply Nat.ltb_lt; lia).
      destruct (0 <? length rs)%nat; reflexivity.
    + replace (length filled =? length (filled ++ x :: free))%nat with false
        by (symmetry; apply Nat.eqb_neq; rewrite length_app; simpl; lia).
      rewrite insert_app_r_alt by lia. rewrite Nat.sub_diag. cbn [insert list_insert].
      pose proof (IH (filled ++ [r]) free completed0 error0) as IH'.
      rewrite length_app in IH'. cbn [length] in IH'.
      rewrite Nat.add_1_r, <- app_assoc in IH'. cbn [app] in IH'. rewrite IH'.
      cbn [length Nat.min Nat.sub replicate app take drop].
      rewrite <- !app_assoc. cbn [app].
      replace (length filled + S (Nat.min (length rs) (length free)))%nat
        with (S (length filled) + Nat.min (length rs) (length free))%nat by lia.
      reflexivity.
Qed.

(** X1.  A [BufferedCursor] keeps the first results it is
    offered, as many as its buffer has slots, in the order they came.  It
    answers [true] for each of them and [false] for every later one; the
    slots beyond the last result are left as they were.  It is marked
    completed with [AKU_EOVERFLOW] exactly when more results were offered
    than the buffer holds. *)
Theorem buffered_cursor_keeps_first (buf rs : list Result) (completed0 : bool)
    (error0 : aku_Status) :
  let c := mkBuffered buf 0 completed0 error0 in
  let n := length buf in
  (puts c rs).1 = replicate (Nat.min (length rs) n) true
                  ++ replicate (length rs - n) false
  /\ results_buffer (puts c rs).2 = take n rs ++ drop (length rs) buf
  /\ count (puts c rs).2 = Nat.min (length rs) n
  /\ ((n < length rs)%nat ->
      completed (puts c rs).2 = true /\ error_code (puts c rs).2 = AKU_EOVERFLOW)
  /\ ((length rs <= n)%nat ->
      completed (puts c rs).2 = completed0 /\ error_code (puts c rs).2 = error0).
Proof.
  cbn zeta. pose proof (buffered_puts_from rs [] buf completed0 error0) as Hp.
  cbn [app length Nat.add] in Hp. rewrite Hp.
  cbn [fst snd results_buffer count completed error_code].
  repeat split; try reflexivity.
  - replace (length buf <? length rs)%nat with true
      by (symmetry; apply Nat.ltb_lt; assumption). reflexivity.
  - replace (length buf <? length rs)%nat with true
      by (symmetry; apply Nat.ltb_lt; assumption). reflexivity.
  - replace (length buf <? length rs)%nat with false
      by (symmetry; apply Nat.ltb_ge; assumption). reflexivity.
  - replace (length buf <? length rs)%nat with false
      by (symmetry; apply Nat.ltb_ge; assumption). reflexivity.
Qed.

(** A [RecordingCursor] takes everything. *)
Lemma recording_puts (rs : list Result) :
  forall c : RecordingCursor,
    puts c rs
    = (replicate (length rs) true,
       mkRecording (results c ++ rs) (rec_completed c) (rec_error_code c)).
Proof.
  induction rs as [| r rs IH]; intros c; cbn [puts].
  - rewrite app_nil_r. destruct c. reflexivity.
  - cbn [cursor_put RecordingCursor_cursor]. rewrite IH.
    cbn [results rec_completed rec_error_code length replicate].
    rewrite <- app_assoc. reflexivity.
Qed.

End WithResult.

Arguments RecordingCursor : clear implicits.
Arguments BufferedCursor : clear implicits.

(** *** FanInCursorCombinator *)

(** [ExternalCursor] of cursor.h: what a consumer of results calls.
    [cursor_read] gives the results copied to the caller's buffer, no
    more than [buf_len] of them. *)
Class ExternalCursor (Result Cur : Type) := {
  cursor_read : Cur -> nat -> list Result * Cur;
  cursor_is_done : Cur -> bool;
  cursor_is_error : Cur -> option aku_Status
}.

Section FanIn.

Context {Result In Out : Type}.
Context `{!ExternalCursor Result In} `{!InternalCursor Result Out}.

(** The two fields of [CursorResult] the combinator looks at, and the two
    directions of akumuli_def.h. *)
Variables timestamp param_id : Result -> Z.
Variables AKU_CURSOR_DIR_FORWARD AKU_CURSOR_DIR_BACKWARD : Z.

(** [HeapItem]: the result, [cur_index] and [cur_count]. *)
Definition HeapItem : Type := Result * nat * Z.

(** [<] on [std::make_tuple(timestamp, param_id)]. *)
Definition key_lt (l r : Result) : bool :=
  (timestamp l <? timestamp r)
  || ((timestamp l =? timestamp r) && (param_id l <? param_id r)).

(** [HeapPred::operator()]; [None] is the [AKU_PANIC]. *)
Definition HeapPred (dir : Z) (lhs rhs : HeapItem) : option bool :=
  let lres := lhs.1.1 in
  let rres := rhs.1.1 in
  if dir =? AKU_CURSOR_DIR_BACKWARD then Some (key_lt lres rres)
  else if dir =? AKU_CURSOR_DIR_FORWARD then Some (key_lt rres lres)
  else None.

(** [std::pop_heap], [heap.back()] and [heap.pop_back()] on a range that
    [std::make_heap] and [std::push_heap] have arranged: the element
    taken and the ones left.  The algorithms of the standard library are
    not part of this source tree; they are used through their contract,
    which leaves the arrangement of the range open. *)
Variable pop_heap :
  (HeapItem -> HeapItem -> bool) -> list HeapItem -> option (HeapItem * list HeapItem).

(** The comparison the heap algorithms are given, where it does not
    panic. *)
Definition heap_pred (dir : Z) (lhs rhs : HeapItem) : bool :=
  default false (HeapPred dir lhs rhs).

(** [std::make_heap] and [std::push_heap] compare elements as soon as the
    range holds two of them; with a direction that is neither of the two
    the first comparison panics. *)
Definition arrange (dir : Z) (heap : list HeapItem) : option (list HeapItem) :=
  if (2 <=? length heap)%nat
     && negb ((dir =? AKU_CURSOR_DIR_BACKWARD) || (dir =? AKU_CURSOR_DIR_FORWARD))
  then None else Some heap.

Definition BUF_LEN : nat := 512.

(** The keys made of one [read]: [(buffer[buf_ix], cur_index,
    nwrites - buf_ix)]. *)
Definition heap_items (buffer : list Result) (cur_index : nat) : list HeapItem :=
  imap (fun buf_ix r => (r, cur_index, Z.of_nat (length buffer - buf_ix))) buffer.

(** The precondition loop: the error of the first cursor that has one. *)
Fixpoint first_error (cursors : list In) : option aku_Status :=
  match cursors with
  | [] => None
  | cursor :: rest =>
      match cursor_is_error cursor with
      | Some error => Some error
      | None => first_error rest
      end
  end.

(** The loop that reads every cursor once; [seen] are the cursors before
    [cur_index] as the loop has left them. *)
Fixpoint fill_loop (todo : list In) (cur_index : nat) (seen : list In)
    (heap : list HeapItem) : aku_Status * list In + list In * list HeapItem :=
  match todo with
  | [] => inr (seen, heap)
  | cursor :: rest =>
      if negb (cursor_is_done cursor) then
        let '(buffer, cursor') := cursor_read cursor BUF_LEN in
        match cursor_is_error cursor' with
        | Some error => inl (error, seen ++ cursor' :: rest)
        | None =>
            fill_loop rest (S cur_index) (seen ++ [cursor'])
              (heap ++ heap_items buffer cur_index)
        end
      else fill_loop rest (S cur_index) (seen ++ [cursor]) heap
  end.

(** [heap.push_back(key); std::push_heap(...)] for every key. *)
Fixpoint push_all (dir : Z) (heap : list HeapItem) (keys : list HeapItem)
    : option (list HeapItem) :=
  match keys with
  | [] => Some heap
  | key :: keys' => heap' ← arrange dir (heap ++ [key]); push_all dir heap' keys'
  end.

(** The [while (!heap.empty())] loop and the [complete] behind it.
    [None] is a panic, an index outside [in_cursors_], or the fuel run
    out. *)
Fixpoint merge_loop (fuel : nat) (dir : Z) (cursors : list In)
    (heap : list HeapItem) (out : Out) : option (list In * Out) :=
  match heap with
  | [] => Some (cursors, cursor_complete out)
  | _ :: _ =>
      match fuel with
      | O => None
      | S fuel' =>
          '(item, heap1) ← pop_heap (heap_pred dir) heap;
          let '(cur_result, cur_index, cur_count) := item in
          let out1 := (cursor_put out cur_result).2 in
          if cur_count =? 1 then
            cursor ← cursors !! cur_index;
            if negb (cursor_is_done cursor) then
              let '(buffer, cursor') := cursor_read cursor BUF_LEN in
              let cursors1 := <[cur_index := cursor']> cursors in
              match cursor_is_error cursor' with
              | Some error => Some (cursors1, cursor_set_error out1 error)
              | None =>
                  heap2 ← push_all dir heap1 (heap_items buffer cur_index);
                  merge_loop fuel' dir cursors1 heap2 out1
              end
            else merge_loop fuel' dir cursors heap1 out1
          else merge_loop fuel' dir cursors heap1 out1
      end
  end.

(** [FanInCursorCombinator::read_impl_]: the input cursors and the
    output cursor when it returns. *)
Definition read_impl_ (fuel : nat) (direction_ : Z) (in_cursors_ : list In)
    (out_cursor_ : Out) : option (list In * Out) :=
  match first_error in_cursors_ with
  | Some error => Some (in_cursors_, cursor_set_error out_cursor_ error)
  | None =>
      match fill_loop in_cursors_ 0 [] [] with
      | inl (error, cursors) => Some (cursors, cursor_set_error out_cursor_ error)
      | inr (cursors, heap) =>
          heap' ← arrange direction_ heap;
          merge_loop fuel direction_ cursors heap' out_cursor_
      end
  end.

End FanIn.

(** An input cursor for the combinator to read: the results it still has
    to deliver, in order; how many of them each of the next reads finds
    ready (as many as the buffer takes once the list is used up); and the
    error it is in, if any. *)
Section Stream.

Context {Result : Type}.

Record StreamCursor := mkStream {
  stream : list Result;
  ready_sizes : list nat;
  failure : option aku_Status
}.

#[global] Instance StreamCursor_cursor : ExternalCursor Result StreamCursor := {|
  cursor_read c buf_len :=
    let n := Nat.min buf_len (hd buf_len (ready_sizes c)) in
    (take n (stream c), mkStream (drop n (stream c)) (tl (ready_sizes c)) (failure c));
  cursor_is_done c := match stream c with [] => true | _ :: _ => false end;
  cursor_is_error c := failure c
|}.

End Stream.

Arguments StreamCursor : clear implicits.

Section FanInFacts.

Context {Result Out : Type} `{!InternalCursor Result Out}.
Variables timestamp param_id : Result -> Z.
Variables AKU_CURSOR_DIR_FORWARD AKU_CURSOR_DIR_BACKWARD : Z.
Variable pop_heap :
  (@HeapItem Result -> @HeapItem Result -> bool) ->
  list (@HeapItem Result) -> option (@HeapItem Result * list (@HeapItem Result)).

Variable dir : Z.

(** The contract of [std::pop_heap] for the comparison the combinator
    hands it: the element taken is one the comparison puts before no
    other, and the rest is what was there. *)
Definition pop_heap_contract : Prop :=
  forall heap,
    heap <> [] ->
    exists item rest,
      pop_heap (heap_pred timestamp param_id AKU_CURSOR_DIR_FORWARD
                  AKU_CURSOR_DIR_BACKWARD dir) heap = Some (item, rest)
      /\ item :: rest ≡ₚ heap
      /\ Forall (fun e => heap_pred timestamp param_id AKU_CURSOR_DIR_FORWARD
                            AKU_CURSOR_DIR_BACKWARD dir item e = false) rest.

Hypothesis dir_ok : dir = AKU_CURSOR_DIR_FORWARD \/ dir = AKU_CURSOR_DIR_BACKWARD.
Hypothesis pop_heap_ok : pop_heap_contract.

(** The order of the output: no later result comes before an earlier one
    in the direction of the scan. *)
Definition before (x y : Result) : Prop :=
  if dir =? AKU_CURSOR_DIR_BACKWARD
  then key_lt timestamp param_id x y = false
  else key_lt timestamp param_id y x = false.

Lemma key_lt_false (x y : Result) :
  key_lt timestamp param_id x y = false
  <-> (timestamp y < timestamp x
       \/ (timestamp y = timestamp x /\ param_id y <= param_id x)).
Proof.
  unfold key_lt.
  destruct (Z.ltb_spec (timestamp x) (timestamp y));
    destruct (Z.eqb_spec (timestamp x) (timestamp y));
    destruct (Z.ltb_spec (param_id x) (param_id y)); cbn; split;
    try discriminate; try reflexivity; lia.
Qed.

#[local] Instance before_trans : Transitive before.
Proof.
  intros x y z. unfold before.
  destruct (dir =? AKU_CURSOR_DIR_BACKWARD); rewrite !key_lt_false; lia.
Qed.

Lemma pred_before (a b : @HeapItem Result) :
  heap_pred timestamp param_id AKU_CURSOR_DIR_FORWARD AKU_CURSOR_DIR_BACKWARD dir a b = false
  <-> before a.1.1 b.1.1.
Proof.
  unfold heap_pred, HeapPred, before.
  destruct (Z.eqb_spec dir AKU_CURSOR_DIR_BACKWARD) as [E | E]; [reflexivity |].
  destruct dir_ok as [-> | ->]; [| contradiction].
  rewrite Z.eqb_refl. reflexivity.
Qed.

Lemma arrange_ok (heap : list (@HeapItem Result)) :
  arrange AKU_CURSOR_DIR_FORWARD AKU_CURSOR_DIR_BACKWARD dir heap = Some heap.
Proof.
  unfold arrange.
  replace ((dir =? AKU_CURSOR_DIR_BACKWARD) || (dir =? AKU_CURSOR_DIR_FORWARD))
    with true.
  - rewrite andb_false_r. reflexivity.
  - symmetry. apply orb_true_iff.
    destruct dir_ok as [-> | ->]; [right | left]; apply Z.eqb_refl.
Qed.

Lemma push_all_ok (keys heap : list (@HeapItem Result)) :
  push_all AKU_CURSOR_DIR_FORWARD AKU_CURSOR_DIR_BACKWARD dir heap keys
  = Some (heap ++ keys).
Proof.
  revert heap. induction keys as [| key keys IH]; intros heap; cbn [push_all].
  - rewrite app_nil_r. reflexivity.
  - rewrite arrange_ok. cbn [mbind option_bind]. rewrite IH, <- app_assoc. reflexivity.
Qed.

Lemma heap_items_results (buffer : list Result) (cur_index : nat) :
  map (fun item : @HeapItem Result => item.1.1) (heap_items buffer cur_index) = buffer.
Proof.
  unfold heap_items. generalize (length buffer) as n.
  induction buffer as [| r buffer IH] using rev_ind; intros n; [reflexivity |].
  rewrite imap_app, map_app. cbn [imap map fst]. rewrite IH. reflexivity.
Qed.

Lemma heap_items_elem (buffer : list Result) (cur_index : nat)
    (item : @HeapItem Result) :
  item ∈ heap_items buffer cur_index ->
  item.1.2 = cur_index
  /\ item.1.1 ∈ buffer
  /\ (item.2 = 1 -> last buffer = Some item.1.1).
Proof.
  unfold heap_items. intros Hin.
  apply list_elem_of_lookup in Hin as [i Hi].
  rewrite list_lookup_imap in Hi.
  destruct (buffer !! i) as [r |] eqn:Er; [| discriminate].
  cbn in Hi. injection Hi as <-. cbn [fst snd].
  split; [reflexivity |]. split; [eapply list_elem_of_lookup_2; exact Er |].
  intros Hone. pose proof (lookup_lt_Some _ _ _ Er) as Hlt.
  rewrite last_lookup. replace (Nat.pred (length buffer)) with i by lia. exact Er.
Qed.

Lemma heap_items_last (buffer : list Result) (cur_index : nat) (r : Result) :
  last buffer = Some r -> (r, cur_index, 1) ∈ heap_items buffer cur_index.
Proof.
  intros Hl. unfold heap_items. rewrite last_lookup in Hl.
  apply list_elem_of_lookup. exists (Nat.pred (length buffer)).
  rewrite list_lookup_imap, Hl. cbn.
  pose proof (lookup_lt_Some _ _ _ Hl) as Hlt. do 2 f_equal. lia.
Qed.

Definition results_of (heap : list (@HeapItem Result)) : list Result :=
  map (fun item : @HeapItem Result => item.1.1) heap.

Definition streams (cursors : list (StreamCursor Result)) : list Result :=
  concat (map stream cursors).

(** An input the combinator merges in full: no error, every read of a
    cursor that is not done finds a result, and the results come in the
    order of the scan. *)
Definition cursor_ok (c : StreamCursor Result) : Prop :=
  failure c = None
  /\ Forall (fun n => (0 < n)%nat) (ready_sizes c)
  /\ StronglySorted before (stream c).

(** Between two steps of the loops: every cursor in [P] that has results
    left has the last result of its last read in the heap, with
    [cur_count] 1, and that one comes before all the cursor has left. *)
Definition primed (P : nat -> Prop) (cursors : list (StreamCursor Result))
    (heap : list (@HeapItem Result)) : Prop :=
  Forall cursor_ok cursors
  /\ (forall j c, P j -> cursors !! j = Some c -> stream c <> [] ->
                  exists r, (r, j, 1) ∈ heap)
  /\ (forall r j n,
        (r, j, n) ∈ heap ->
        (j < length cursors)%nat
        /\ (n = 1 -> forall c, cursors !! j = Some c -> Forall (before r) (stream c))).

Lemma primed_weaken (P Q : nat -> Prop) (cursors : list (StreamCursor Result))
    (heap : list (@HeapItem Result)) :
  primed Q cursors heap ->
  (forall j, P j -> Q j \/ forall c, cursors !! j = Some c -> stream c = []) ->
  primed P cursors heap.
Proof.
  intros (Ha & Hb & Hc) HPQ. split; [exact Ha |]. split; [| exact Hc].
  intros j c HP Hj Hne. destruct (HPQ j HP) as [HQ | Hnil].
  - exact (Hb j c HQ Hj Hne).
  - exfalso. apply Hne. exact (Hnil c Hj).
Qed.

Lemma primed_remove (P : nat -> Prop) (cursors : list (StreamCursor Result))
    (heap heap1 : list (@HeapItem Result)) (x : @HeapItem Result) :
  primed P cursors heap ->
  x :: heap1 ≡ₚ heap ->
  primed (fun j => P j /\ ~ (x.2 = 1 /\ j = x.1.2)) cursors heap1.
Proof.
  intros (Ha & Hb & Hc) Hperm. split; [exact Ha |]. split.
  - intros j c [HP Hx] Hj Hne. destruct (Hb j c HP Hj Hne) as [r Hr].
    rewrite <- Hperm in Hr. apply elem_of_cons in Hr as [<- | Hr].
    + exfalso. apply Hx. split; reflexivity.
    + exists r. exact Hr.
  - intros r j n Hin. apply (Hc r j n). rewrite <- Hperm.
    apply list_elem_of_further, Hin.
Qed.

Lemma read_ok (c : StreamCursor Result) :
  cursor_ok c -> stream c <> [] ->
  exists buffer c',
    cursor_read c BUF_LEN = (buffer, c')
    /\ buffer <> []
    /\ stream c = buffer ++ stream c'
    /\ cursor_ok c'
    /\ (forall r, last buffer = Some r -> Forall (before r) (stream c')).
Proof.
  intros (Hf & Hsz & Hs) Hne. cbn [cursor_read StreamCursor_cursor].
  set (n := Nat.min BUF_LEN (hd BUF_LEN (ready_sizes c))).
  assert (Hn : (0 < n)%nat).
  { unfold n, BUF_LEN. destruct (ready_sizes c) as [| m sizes]; cbn [hd]; [lia |].
    apply Forall_cons in Hsz as [Hm _]. lia. }
  eexists _, _. split; [reflexivity |]. cbn [stream ready_sizes failure].
  rewrite <- (take_drop n (stream c)) in Hs.
  apply StronglySorted_app in Hs as (Hall & Ht & Hd).
  split.
  { destruct (stream c) as [| r0 l]; [contradiction |].
    destruct n; [lia | discriminate]. }
  split; [symmetry; apply take_drop |].
  split.
  { split; [exact Hf |]. split; [| exact Hd].
    destruct (ready_sizes c); [constructor |].
    apply Forall_cons in Hsz as [_ Hsz]. exact Hsz. }
  intros r Hr. apply Forall_forall. intros y Hy.
  apply (Hall r y); [| exact Hy].
  apply last_Some_elem_of, Hr.
Qed.

Lemma primed_read (P : nat -> Prop) (cursors : list (StreamCursor Result))
    (heap : list (@HeapItem Result)) (i : nat) (c c' : StreamCursor Result)
    (buffer : list Result) :
  primed P cursors heap ->
  cursors !! i = Some c ->
  buffer <> [] ->
  stream c = buffer ++ stream c' ->
  cursor_ok c' ->
  (forall r, last buffer = Some r -> Forall (before r) (stream c')) ->
  primed (fun j => P j \/ j = i) (<[i := c']> cursors)
    (heap ++ heap_items buffer i).
Proof.
  intros (Ha & Hb & Hc) Hi Hbuf Hst Hok Hlast.
  pose proof (lookup_lt_Some _ _ _ Hi) as Hlt.
  split; [apply Forall_insert; assumption |]. split.
  - intros j cj HP Hj Hne. destruct (decide (j = i)) as [-> | Hji].
    + destruct (last buffer) as [rl |] eqn:El.
      * exists rl. apply elem_of_app. right. apply heap_items_last, El.
      * apply last_None in El. contradiction.
    + rewrite list_lookup_insert_ne in Hj by (intros E; apply Hji; symmetry; exact E).
      destruct HP as [HP | ->]; [| contradiction].
      destruct (Hb j cj HP Hj Hne) as [r Hr].
      exists r. apply elem_of_app. left. exact Hr.
  - intros r j n Hin. rewrite length_insert.
    apply elem_of_app in Hin as [Hin | Hin].
    + destruct (Hc r j n Hin) as [Hj Hone]. split; [exact Hj |].
      intros -> cj Hcj. destruct (decide (j = i)) as [-> | Hji].
      * rewrite list_lookup_insert_eq in Hcj by exact Hlt. injection Hcj as <-.
        specialize (Hone eq_refl c Hi). rewrite Hst in Hone.
        apply Forall_app in Hone as [_ Hone]. exact Hone.
      * rewrite list_lookup_insert_ne in Hcj
          by (intros E; apply Hji; symmetry; exact E).
        exact (Hone eq_refl cj Hcj).
    + apply heap_items_elem in Hin as (Hidx & _ & Hl). cbn [fst snd] in Hidx, Hl.
      subst j. split; [exact Hlt |].
      intros Hone cj Hcj.
      rewrite list_lookup_insert_eq in Hcj by exact Hlt. injection Hcj as <-.
      apply Hlast, Hl, Hone.
Qed.

Lemma streams_insert (cursors : list (StreamCursor Result)) (i : nat)
    (c c' : StreamCursor Result) (buffer : list Result) :
  cursors !! i = Some c ->
  stream c = buffer ++ stream c' ->
  streams cursors ≡ₚ buffer ++ streams (<[i := c']> cursors).
Proof.
  intros Hi Hst. unfold streams.
  rewrite <- (take_drop_middle cursors i c Hi) at 1.
  rewrite (insert_take_drop cursors i c') by (eapply lookup_lt_Some; exact Hi).
  rewrite !map_app, !concat_app. cbn [map concat]. rewrite Hst.
  rewrite <- !app_assoc. apply Permutation_app_swap_app.
Qed.

Lemma puts_cons_snd (out : Out) (r : Result) (rs : list Result) :
  (puts out (r :: rs)).2 = (puts (cursor_put out r).2 rs).2.
Proof.
  cbn [puts]. destruct (cursor_put out r) as [ok c1]. cbn [snd].
  destruct (puts c1 rs) as [oks c']. reflexivity.
Qed.

(** The result taken from the heap comes before everything that is still
    to come. *)
Lemma top_before_rest (cursors : list (StreamCursor Result))
    (heap heap1 : list (@HeapItem Result)) (x : @HeapItem Result) :
  primed (fun _ => True) cursors heap ->
  x :: heap1 ≡ₚ heap ->
  Forall (fun e => heap_pred timestamp param_id AKU_CURSOR_DIR_FORWARD
                     AKU_CURSOR_DIR_BACKWARD dir x e = false) heap1 ->
  Forall (before x.1.1) (results_of heap1 ++ streams cursors).
Proof.
  intros (Ha & Hb & Hc) Hperm Htop.
  assert (Hheap : Forall (fun e : @HeapItem Result => before x.1.1 e.1.1) heap1).
  { eapply Forall_impl; [exact Htop |]. intros e He. apply pred_before, He. }
  apply Forall_app. split.
  - unfold results_of. apply Forall_fmap. exact Hheap.
  - unfold streams. apply Forall_concat, Forall_fmap, Forall_forall.
    intros c Hin. cbn. apply list_elem_of_lookup in Hin as [j Hj].
    destruct (stream c) as [| y l] eqn:Es; [constructor |].
    destruct (Hb j c I Hj ltac:(rewrite Es; discriminate)) as [r Hr].
    pose proof (proj2 (Hc r j 1 Hr) eq_refl c Hj) as Hall. rewrite Es in Hall.
    rewrite <- Hperm in Hr. apply elem_of_cons in Hr as [<- | Hr].
    + exact Hall.
    + eapply Forall_impl; [exact Hall |]. intros z Hz. cbn beta.
      etransitivity; [| exact Hz].
      rewrite Forall_forall in Hheap. exact (Hheap _ Hr).
Qed.

#[local] Abbreviation merge_loop' :=
  (merge_loop timestamp param_id AKU_CURSOR_DIR_FORWARD AKU_CURSOR_DIR_BACKWARD
     pop_heap).

Lemma primed_all_done (cursors : list (StreamCursor Result)) :
  primed (fun _ => True) cursors [] ->
  Forall (fun c => stream c = []) cursors /\ streams cursors = [].
Proof.
  intros (_ & Hb & _).
  assert (Hall : Forall (fun c => stream c = []) cursors).
  { apply Forall_forall. intros c Hin. apply list_elem_of_lookup in Hin as [j Hj].
    destruct (stream c) as [| y l] eqn:Es; [reflexivity |].
    destruct (Hb j c I Hj ltac:(rewrite Es; discriminate)) as [r Hr].
    exfalso. eapply not_elem_of_nil. exact Hr. }
  split; [exact Hall |]. unfold streams. clear Hb.
  induction Hall as [| c l Hc _ IH]; [reflexivity |].
  cbn [map concat]. rewrite Hc, IH. reflexivity.
Qed.

Lemma merge_loop_spec (fuel : nat) :
  forall (cursors : list (StreamCursor Result)) (heap : list (@HeapItem Result))
         (out : Out),
    primed (fun _ => True) cursors heap ->
    (length heap + length (streams cursors) < fuel)%nat ->
    exists rest cursors',
      merge_loop' fuel dir cursors heap out
      = Some (cursors', cursor_complete (puts out rest).2)
      /\ StronglySorted before rest
      /\ rest ≡ₚ results_of heap ++ streams cursors
      /\ Forall (fun c => stream c = []) cursors'.
Proof.
  induction fuel as [| fuel IH]; intros cursors heap out Hinv Hsize; [lia |].
  destruct heap as [| h heap0].
  { destruct (primed_all_done cursors Hinv) as [Hdone Hnil].
    exists [], cursors. cbn [merge_loop puts snd results_of map app].
    rewrite Hnil. split; [reflexivity |]. split; [constructor |].
    split; [reflexivity | exact Hdone]. }
  cbn [merge_loop].
  destruct (pop_heap_ok (h :: heap0) ltac:(discriminate))
    as (x & heap1 & Hpop & Hperm & Htop).
  rewrite Hpop. cbn [mbind option_bind].
  pose proof (top_before_rest cursors _ heap1 x Hinv Hperm Htop) as Hbefore.
  assert (Hlen : length (h :: heap0) = S (length heap1))
    by (rewrite <- Hperm; reflexivity).
  assert (Hres : results_of (h :: heap0) ≡ₚ x.1.1 :: results_of heap1)
    by (unfold results_of; rewrite <- Hperm; reflexivity).
  destruct x as [[r i] n]. cbn [fst snd] in *.
  (* the step that reads nothing *)
  assert (Hplain : primed (fun _ => True) cursors heap1 ->
                   exists rest cursors',
                     merge_loop' fuel dir cursors heap1 (cursor_put out r).2
                     = Some (cursors', cursor_complete (puts out rest).2)
                     /\ StronglySorted before rest
                     /\ rest ≡ₚ results_of (h :: heap0) ++ streams cursors
                     /\ Forall (fun c => stream c = []) cursors').
  { intros Hinv1.
    destruct (IH cursors heap1 (cursor_put out r).2 Hinv1 ltac:(lia))
      as (rest & cursors' & Hrun & Hsorted & Hp & Hdone).
    exists (r :: rest), cursors'. rewrite puts_cons_snd.
    split; [exact Hrun |]. split.
    - constructor; [exact Hsorted |]. rewrite Hp. exact Hbefore.
    - split; [| exact Hdone]. rewrite Hres, Hp. reflexivity. }
  destruct (Z.eqb_spec n 1) as [-> | Hn].
  2:{ apply Hplain.
      eapply primed_weaken; [exact (primed_remove _ _ _ _ _ Hinv Hperm) |].
      intros j _. left. split; [exact I |]. cbn [fst snd]. intros [E _]. contradiction. }
  destruct Hinv as (Ha & Hb & Hc).
  assert (Hx : (r, i, 1) ∈ h :: heap0)
    by (rewrite <- Hperm; apply list_elem_of_here).
  destruct (Hc r i 1 Hx) as [Hi Hall].
  destruct (lookup_lt_is_Some_2 cursors i Hi) as [c Hci].
  rewrite Hci. cbn [mbind option_bind].
  pose proof (proj1 (Forall_lookup _ _) Ha i c Hci) as Hok.
  assert (Hinv : primed (fun _ => True) cursors (h :: heap0))
    by (split; [exact Ha | split; [exact Hb | exact Hc]]).
  destruct (stream c) as [| y l] eqn:Es.
  - (* the cursor is done *)
    cbn [cursor_is_done StreamCursor_cursor]. rewrite Es. cbn [negb].
    apply Hplain.
    eapply primed_weaken; [exact (primed_remove _ _ _ _ _ Hinv Hperm) |].
    intros j _. cbn [fst snd].
    destruct (decide (j = i)) as [-> | Hji].
    + right. intros c0 Hc0. rewrite Hci in Hc0. injection Hc0 as <-. exact Es.
    + left. split; [exact I |]. intros [_ E]. contradiction.
  - (* the next results of this cursor are read *)
    destruct (read_ok c Hok ltac:(rewrite Es; discriminate))
      as (buffer & c' & Hread & Hbuf & Hst & Hok' & Hlast).
    cbn [cursor_is_done StreamCursor_cursor]. rewrite Es. cbn [negb].
    rewrite Hread.
    destruct Hok' as (Hf' & Hsz' & Hs').
    cbn [cursor_is_error StreamCursor_cursor]. rewrite Hf'.
    rewrite push_all_ok. cbn [mbind option_bind].
    assert (Hinv2 : primed (fun _ => True) (<[i := c']> cursors)
                      (heap1 ++ heap_items buffer i)).
    { eapply primed_weaken.
      - apply (primed_read _ cursors heap1 i c c' buffer
                 (primed_remove _ _ _ _ _ Hinv Hperm) Hci Hbuf Hst
                 (conj Hf' (conj Hsz' Hs')) Hlast).
      - intros j _. left. cbn [fst snd].
        destruct (decide (j = i)) as [-> | Hji]; [right; reflexivity | left].
        split; [exact I |]. intros [_ E]. contradiction. }
    pose proof (streams_insert cursors i c c' buffer Hci Hst) as Hstreams.
    assert (Hsize2 : (length (heap1 ++ heap_items buffer i)
                      + length (streams (<[i := c']> cursors)) < fuel)%nat).
    { apply Permutation_length in Hstreams. rewrite length_app in Hstreams |- *.
      unfold heap_items. rewrite length_imap. lia. }
    destruct (IH _ _ (cursor_put out r).2 Hinv2 Hsize2)
      as (rest & cursors' & Hrun & Hsorted & Hp & Hdone).
    exists (r :: rest), cursors'. rewrite puts_cons_snd.
    split; [exact Hrun |].
    assert (Hp' : rest ≡ₚ results_of heap1 ++ streams cursors).
    { rewrite Hp. unfold results_of at 1. rewrite map_app.
      fold (results_of heap1). rewrite heap_items_results, <- app_assoc.
      rewrite Hstreams. reflexivity. }
    split.
    + constructor; [exact Hsorted |]. rewrite Hp'. exact Hbefore.
    + split; [| exact Hdone]. rewrite Hres, Hp'. reflexivity.
Qed.

Lemma first_error_none (cursors : list (StreamCursor Result)) :
  Forall cursor_ok cursors -> first_error cursors = None.
Proof.
  induction 1 as [| c l (Hf & _) _ IH]; [reflexivity |].
  cbn [first_error cursor_is_error StreamCursor_cursor]. rewrite Hf. exact IH.
Qed.

Lemma fill_loop_spec (todo : list (StreamCursor Result)) :
  forall (seen : list (StreamCursor Result)) (heap : list (@HeapItem Result)),
    primed (fun j => (j < length seen)%nat) (seen ++ todo) heap ->
    exists cursors' heap',
      fill_loop todo (length seen) seen heap = inr (cursors', heap')
      /\ primed (fun _ => True) cursors' heap'
      /\ results_of heap' ++ streams cursors'
         ≡ₚ results_of heap ++ streams (seen ++ todo).
Proof.
  induction todo as [| c rest IH]; intros seen heap Hinv; cbn [fill_loop].
  - exists seen, heap. rewrite app_nil_r in *. split; [reflexivity |].
    split; [| reflexivity].
    eapply primed_weaken; [exact Hinv |].
    intros j _. destruct (decide (j < length seen)%nat) as [Hlt | Hge]; [left; exact Hlt |].
    right. intros c Hc. apply lookup_lt_Some in Hc. lia.
  - assert (Hc : (seen ++ c :: rest) !! length seen = Some c)
      by (rewrite lookup_app_r, Nat.sub_diag by lia; reflexivity).
    assert (Hok : cursor_ok c).
    { destruct Hinv as (Ha & _). exact (proj1 (Forall_lookup _ _) Ha _ _ Hc). }
    destruct (stream c) as [| y l] eqn:Es.
    + cbn [cursor_is_done StreamCursor_cursor]. rewrite Es. cbn [negb].
      replace (S (length seen)) with (length (seen ++ [c]))
        by (rewrite length_app; cbn [length]; lia).
      destruct (IH (seen ++ [c]) heap) as (cursors' & heap' & Hrun & Hinv' & Hp).
      * rewrite <- app_assoc. cbn [app].
        eapply primed_weaken; [exact Hinv |].
        intros j Hj. rewrite length_app in Hj. cbn [length] in Hj.
        destruct (decide (j = length seen)) as [-> | Hne]; [right | left; lia].
        intros c0 Hc0. rewrite Hc in Hc0. injection Hc0 as <-. exact Es.
      * exists cursors', heap'. split; [exact Hrun |]. split; [exact Hinv' |].
        rewrite Hp, <- app_assoc. reflexivity.
    + destruct (read_ok c Hok ltac:(rewrite Es; discriminate))
        as (buffer & c' & Hread & Hbuf & Hst & Hok' & Hlast).
      cbn [cursor_is_done StreamCursor_cursor]. rewrite Es. cbn [negb].
      rewrite Hread.
      pose proof Hok' as (Hf' & _).
      cbn [cursor_is_error StreamCursor_cursor]. rewrite Hf'.
      replace (S (length seen)) with (length (seen ++ [c']))
        by (rewrite length_app; cbn [length]; lia).
      pose proof (primed_read _ _ heap (length seen) c c' buffer Hinv Hc Hbuf Hst
                    Hok' Hlast) as Hinv1.
      pose proof (streams_insert _ _ c c' buffer Hc Hst) as Hstreams.
      assert (Hins : <[length seen := c']> (seen ++ c :: rest) = (seen ++ [c']) ++ rest).
      { rewrite insert_app_r_alt, Nat.sub_diag by lia. cbn [insert list_insert].
        rewrite <- app_assoc. reflexivity. }
      rewrite Hins in Hinv1, Hstreams.
      destruct (IH (seen ++ [c']) (heap ++ heap_items buffer (length seen)))
        as (cursors' & heap' & Hrun & Hinv' & Hp).
      * eapply primed_weaken; [exact Hinv1 |].
        intros j Hj. rewrite length_app in Hj. cbn [length] in Hj. left. lia.
      * exists cursors', heap'. split; [exact Hrun |]. split; [exact Hinv' |].
        rewrite Hp, Hstreams. unfold results_of. rewrite map_app.
        rewrite heap_items_results, <- app_assoc. reflexivity.
Qed.

#[local] Abbreviation read_impl' :=
  (read_impl_ timestamp param_id AKU_CURSOR_DIR_FORWARD AKU_CURSOR_DIR_BACKWARD
     pop_heap).

Lemma read_impl_spec (cursors : list (StreamCursor Result)) (out : Out)
    (fuel : nat) :
  Forall cursor_ok cursors ->
  (length (streams cursors) < fuel)%nat ->
  exists merged cursors',
    read_impl' fuel dir cursors out
    = Some (cursors', cursor_complete (puts out merged).2)
    /\ StronglySorted before merged
    /\ merged ≡ₚ streams cursors
    /\ Forall (fun c => stream c = []) cursors'.
Proof.
  intros Hok Hfuel. unfold read_impl_.
  rewrite (first_error_none cursors Hok).
  destruct (fill_loop_spec cursors [] []) as (cursors1 & heap & Hfill & Hinv & Hp).
  { cbn [app length]. split; [exact Hok |]. split.
    - intros j c Hj. lia.
    - intros r j n Hin. exfalso. eapply not_elem_of_nil. exact Hin. }
  cbn [length] in Hfill. rewrite Hfill. rewrite arrange_ok. cbn [mbind option_bind].
  cbn [app results_of map] in Hp.
  destruct (merge_loop_spec fuel cursors1 heap out Hinv) as
    (merged & cursors' & Hrun & Hsorted & Hperm & Hdone).
  { apply Permutation_length in Hp. rewrite length_app in Hp.
    unfold results_of in Hp. rewrite length_map in Hp. lia. }
  exists merged, cursors'. split; [exact Hrun |]. split; [exact Hsorted |].
  split; [rewrite Hperm; exact Hp | exact Hdone].
Qed.

(** X2.  The combinator merges its inputs in the order of the scan.
    Every cursor without an error, whose reads find at least one result
    as long as it is not done, and whose results come in order: then
    whatever arrangement the heap algorithms choose, the results put to
    the output cursor are all the results of all the inputs, each once,
    in order, the output cursor is completed after the last of them and
    every input is read to its end. *)
Theorem fan_in_merges_in_order (cursors : list (StreamCursor Result)) (out : Out)
    (fuel : nat) :
  Forall (fun c => failure c = None
                   /\ Forall (fun n => (0 < n)%nat) (ready_sizes c)
                   /\ Sorted before (stream c)) cursors ->
  (length (streams cursors) < fuel)%nat ->
  exists merged cursors',
    read_impl' fuel dir cursors out
    = Some (cursors', cursor_complete (puts out merged).2)
    /\ Sorted before merged
    /\ merged ≡ₚ streams cursors
    /\ Forall (fun c => stream c = []) cursors'.
Proof.
  intros Hok Hfuel.
  destruct (read_impl_spec cursors out fuel) as
    (merged & cursors' & Hrun & Hsorted & Hperm & Hdone).
  - eapply Forall_impl; [exact Hok |]. intros c (Hf & Hsz & Hs).
    split; [exact Hf |]. split; [exact Hsz |].
    apply Sorted_StronglySorted; [exact before_trans | exact Hs].
  - exact Hfuel.
  - exists merged, cursors'. split; [exact Hrun |].
    split; [apply StronglySorted_Sorted, Hsorted |]. auto.
Qed.

End FanInFacts.

(** *** A heap to run the combinator on *)

(** An implementation of the contract of [std::pop_heap]: the first
    element that the comparison puts before no other. *)
Fixpoint pop_top {A} (comp : A -> A -> bool) (seen todo : list A)
    : option (A * list A) :=
  match todo with
  | [] => None
  | x :: rest =>
      if forallb (fun e => negb (comp x e)) (seen ++ rest)
      then Some (x, seen ++ rest)
      else pop_top comp (seen ++ [x]) rest
  end.

Lemma pop_top_spec {A} (comp : A -> A -> bool) (todo : list A) :
  forall seen,
    (exists t, t ∈ todo /\ Forall (fun e => comp t e = false) (seen ++ todo)) ->
    exists x rest,
      pop_top comp seen todo = Some (x, rest)
      /\ x :: rest ≡ₚ seen ++ todo
      /\ Forall (fun e => comp x e = false) rest.
Proof.
  induction todo as [| x todo IH]; intros seen (t & Ht & Hall).
  - exfalso. eapply not_elem_of_nil. exact Ht.
  - cbn [pop_top].
    destruct (forallb (fun e => negb (comp x e)) (seen ++ todo)) eqn:Ef.
    + exists x, (seen ++ todo). split; [reflexivity |].
      split; [apply Permutation_middle |].
      apply Forall_forall. intros e He.
      rewrite forallb_forall in Ef.
      apply list_elem_of_In in He. specialize (Ef e He).
      apply negb_true_iff in Ef. exact Ef.
    + apply elem_of_cons in Ht as [-> | Ht].
      * exfalso. rewrite <- not_true_iff_false in Ef. apply Ef.
        apply forallb_forall. intros e He. apply negb_true_iff.
        rewrite Forall_forall in Hall. apply Hall.
        apply list_elem_of_In in He.
        apply elem_of_app in He as [He | He]; apply elem_of_app;
          [left; exact He | right; apply list_elem_of_further, He].
      * destruct (IH (seen ++ [x])) as (y & rest & Hrun & Hperm & Hrest).
        { exists t. split; [exact Ht |]. rewrite <- app_assoc. exact Hall. }
        exists y, rest. split; [exact Hrun |]. split; [| exact Hrest].
        rewrite Hperm, <- app_assoc. reflexivity.
Qed.

(** Results as pairs of a timestamp and a parameter id, the forward
    direction 0 and the backward direction 1. *)
Definition pair_pred (dir : Z) : @HeapItem (Z * Z) -> @HeapItem (Z * Z) -> bool :=
  heap_pred (Result := Z * Z) fst snd 0 1 dir.

Lemma pair_pred_top (heap : list (@HeapItem (Z * Z))) :
  heap <> [] ->
  exists t, t ∈ heap /\ Forall (fun e => pair_pred 0 t e = false) heap.
Proof.
  induction heap as [| x heap IH]; intros Hne; [contradiction |].
  destruct heap as [| y heap].
  - exists x. split; [apply list_elem_of_here |].
    constructor; [| constructor].
    unfold pair_pred, heap_pred, HeapPred, key_lt. cbn.
    rewrite Z.ltb_irrefl, Z.ltb_irrefl, andb_false_r. reflexivity.
  - destruct (IH ltac:(discriminate)) as (t & Ht & Hall).
    assert (Hfalse : forall a b : @HeapItem (Z * Z),
               pair_pred 0 a b = false
               <-> (a.1.1.1 < b.1.1.1
                    \/ (a.1.1.1 = b.1.1.1 /\ a.1.1.2 <= b.1.1.2))).
    { intros a b. unfold pair_pred, heap_pred, HeapPred, key_lt. cbn.
      destruct (Z.ltb_spec b.1.1.1 a.1.1.1);
        destruct (Z.eqb_spec b.1.1.1 a.1.1.1);
        destruct (Z.ltb_spec b.1.1.2 a.1.1.2); cbn; split;
        try discriminate; try reflexivity; lia. }
    destruct (pair_pred 0 x t) eqn:Ext.
    + exists t. split; [apply list_elem_of_further, Ht |].
      constructor; [| exact Hall].
      apply Hfalse. apply not_false_iff_true in Ext.
      rewrite Hfalse in Ext. lia.
    + exists x. split; [apply list_elem_of_here |].
      constructor.
      * apply Hfalse. lia.
      * eapply Forall_impl; [exact Hall |]. intros e He. cbn beta in *.
        apply Hfalse. apply Hfalse in He, Ext. lia.
Qed.

Lemma pop_top_contract :
  pop_heap_contract (Result := Z * Z) fst snd 0 1
    (fun comp heap => pop_top comp [] heap) 0.
Proof.
  intros heap Hne.
  destruct (pair_pred_top heap Hne) as (t & Ht & Hall).
  exact (pop_top_spec (pair_pred 0) heap [] (ex_intro _ t (conj Ht Hall))).
Qed.

(** Two inputs, the first delivered two results at a time. *)
Definition two_streams : list (StreamCursor (Z * Z)) :=
  [mkStream [(1, 1); (4, 1); (7, 1)] [2%nat; 2%nat] None;
   mkStream [(2, 2); (4, 0); (9, 2)] [] None].

Lemma fan_in_merges_in_order_witness :
  exists merged cursors',
    read_impl_ (Result := Z * Z) (In := StreamCursor (Z * Z))
      (Out := RecordingCursor (Z * Z)) fst snd 0 1
      (fun comp heap => pop_top comp [] heap) 7 0 two_streams
      (mkRecording [] false AKU_SUCCESS)
    = Some (cursors',
            cursor_complete (puts (mkRecording [] false AKU_SUCCESS) merged).2)
    /\ Sorted (before (Result := Z * Z) fst snd 1 0) merged
    /\ merged ≡ₚ streams two_streams
    /\ Forall (fun c => stream c = []) cursors'.
Proof.
  apply (fan_in_merges_in_order (Result := Z * Z) (Out := RecordingCursor (Z * Z))
           fst snd 0 1 (fun comp heap => pop_top comp [] heap) 0).
  - left. reflexivity.
  - exact pop_top_contract.
  - unfold two_streams.
    repeat (constructor; [split; [reflexivity |]; split;
                          [repeat constructor |
                           repeat (constructor; try reflexivity)] |]).
    constructor.
  - cbn. lia.
Defined.

End Cursor.

(** ** Sequencer (sequencer.cpp) *)
Module Seq.

(** [TimeSeriesValue]: the key [(key_ts_, key_id_)] and the payload; the
    double is carried as its 64-bit pattern, the Sequencer never computes
    with it. *)
Record TimeSeriesValue := mkTSV {
  key_ts_ : Z;
  key_id_ : Z;
  value : Z
}.

#[global] Instance TimeSeriesValue_eq_dec : EqDecision TimeSeriesValue.
Proof. solve_decision. Defined.

(** [TimeSeriesValue()] *)
Definition tsv_default : TimeSeriesValue := mkTSV 0 0 0.

(** [operator <]: tuple comparison of [(key_ts_, key_id_)]. *)
Definition tsv_lt (lhs rhs : TimeSeriesValue) : bool :=
  (key_ts_ lhs <? key_ts_ rhs)
  || ((key_ts_ lhs =? key_ts_ rhs) && (key_id_ lhs <? key_id_ rhs)).

Definition SortedRun := list TimeSeriesValue.

(** [run->back()]; the runs the Sequencer keeps are never empty, the
    value-initialised element stands for the read of an empty vector. *)
Definition back (run : SortedRun) : TimeSeriesValue := List.last run tsv_default.

Definition top_element_less (x y : SortedRun) : bool := tsv_lt (back x) (back y).
Definition top_element_more (x y : SortedRun) : bool := top_element_less y x.

Record Sequencer := mkSequencer {
  window_size_ : Z;
  top_timestamp_ : Z;
  checkpoint_ : Z;
  sequence_number_ : Z;
  c_threshold_ : Z;
  runs_ : list SortedRun;
  ready_ : list SortedRun;
  key_ : SortedRun
}.

Definition set_runs (s : Sequencer) (r : list SortedRun) : Sequencer :=
  mkSequencer (window_size_ s) (top_timestamp_ s) (checkpoint_ s)
    (sequence_number_ s) (c_threshold_ s) r (ready_ s) (key_ s).
Definition set_ready (s : Sequencer) (r : list SortedRun) : Sequencer :=
  mkSequencer (window_size_ s) (top_timestamp_ s) (checkpoint_ s)
    (sequence_number_ s) (c_threshold_ s) (runs_ s) r (key_ s).
Definition set_sequence_number (s : Sequencer) (n : Z) : Sequencer :=
  mkSequencer (window_size_ s) (top_timestamp_ s) (checkpoint_ s)
    n (c_threshold_ s) (runs_ s) (ready_ s) (key_ s).
Definition set_checkpoint (s : Sequencer) (c : Z) : Sequencer :=
  mkSequencer (window_size_ s) (top_timestamp_ s) c
    (sequence_number_ s) (c_threshold_ s) (runs_ s) (ready_ s) (key_ s).
Definition set_top_timestamp (s : Sequencer) (t : Z) : Sequencer :=
  mkSequencer (window_size_ s) t (checkpoint_ s)
    (sequence_number_ s) (c_threshold_ s) (runs_ s) (ready_ s) (key_ s).
Definition set_key (s : Sequencer) (k : SortedRun) : Sequencer :=
  mkSequencer (window_size_ s) (top_timestamp_ s) (checkpoint_ s)
    (sequence_number_ s) (c_threshold_ s) (runs_ s) (ready_ s) k.

(** [Sequencer::Sequencer(config)] *)
Definition new_sequencer (window_size compression_threshold : Z) : Sequencer :=
  mkSequencer window_size 0 0 0 compression_threshold [] [] [tsv_default].

(** [sequence_number_.fetch_add(1)]: returns the old value, the counter
    wraps as an [int]. *)
Definition fetch_add1 (s : Sequencer) : Z * Sequencer :=
  (sequence_number_ s, set_sequence_number s (wrap_int32 (sequence_number_ s + 1))).

(** [get_checkpoint_]: [ts / window_size_]; the division by zero is a crash. *)
Definition get_checkpoint_ (s : Sequencer) (ts : Z) : option Z :=
  if window_size_ s =? 0 then None else Some (ts / window_size_ s).

(** [get_timestamp_]: [cp * window_size_] in 64 bits. *)
Definition get_timestamp_ (s : Sequencer) (cp : Z) : Z :=
  wrap64 (cp * window_size_ s).

Section WithLimits.

(** [AKU_LIMITS_MAX_ID] of akumuli_def.h, which is not part of this
    source tree. *)
Variable AKU_LIMITS_MAX_ID : Z.

(** One iteration of the loop of [make_checkpoint_] over [runs_]: the run
    is kept, moved, or split at [old_top]. *)
Definition checkpoint_step (old_top : Z)
    (acc : list SortedRun * list SortedRun) (sorted_run : SortedRun)
    : list SortedRun * list SortedRun :=
  let '(new_runs, ready) := acc in
  let it := lower_bound (fun x => tsv_lt x (mkTSV old_top AKU_LIMITS_MAX_ID 0))
              sorted_run tsv_default in
  if (it =? 0)%nat then (new_runs ++ [sorted_run], ready)
  else if (it =? length sorted_run)%nat then (new_runs, ready ++ [sorted_run])
  else (new_runs ++ [drop it sorted_run], ready ++ [take it sorted_run]).

Definition run_sizes (rs : list SortedRun) : Z :=
  fold_left (fun acc r => acc + Z.of_nat (length r)) rs 0.

(** [Sequencer::make_checkpoint_]; [None] is the [AKU_PANIC] of the even
    branch. *)
Definition make_checkpoint_ (s : Sequencer) (new_checkpoint : Z)
    : option (Z * Sequencer) :=
  let '(old, s1) := fetch_add1 s in
  let flag := wrap_int32 (old + 1) in
  if negb (Z.rem flag 2 =? 0) then
    let old_top := get_timestamp_ s1 (checkpoint_ s1) in
    let s2 := set_checkpoint s1 new_checkpoint in
    let '(new_runs, ready) :=
      fold_left (checkpoint_step old_top) (runs_ s2) ([], ready_ s2) in
    let s3 := set_ready (set_runs s2 new_runs) ready in
    let ready_size := run_sizes ready in
    if ready_size <? c_threshold_ s3 then
      let s4 := set_ready (set_runs s3 (new_runs ++ ready)) [] in
      let '(old', s5) := fetch_add1 s4 in
      Some (wrap_int32 (old' + 1), s5)
    else Some (flag, s3)
  else None.

(** The runs [make_checkpoint_] cuts in two: the boundary [old_top] falls
    strictly inside them. *)
Definition straddles (old_top : Z) (sorted_run : SortedRun) : bool :=
  let it := lower_bound (fun x => tsv_lt x (mkTSV old_top AKU_LIMITS_MAX_ID 0))
              sorted_run tsv_default in
  negb (it =? 0)%nat && negb (it =? length sorted_run)%nat.

(** The ready set as the split leaves it, before the size test. *)
Definition sealed_runs (s : Sequencer) : list SortedRun :=
  (fold_left (checkpoint_step (get_timestamp_ s (checkpoint_ s)))
     (runs_ s) ([], ready_ s)).2.

(** [Sequencer::check_timestamp_] *)
Definition check_timestamp_ (s : Sequencer) (ts : Z)
    : option (aku_Status * Z * Sequencer) :=
  if ts <? top_timestamp_ s then
    let delta := top_timestamp_ s - ts in
    if delta >? window_size_ s
    then Some (AKU_ELATE_WRITE, 0, s)
    else Some (AKU_SUCCESS, 0, s)
  else
    point ← get_checkpoint_ s ts;
    if point >? checkpoint_ s then
      '(flag, s') ← make_checkpoint_ s point;
      Some (AKU_SUCCESS, flag, set_top_timestamp s' ts)
    else Some (AKU_SUCCESS, 0, set_top_timestamp s ts).

(** [Sequencer::add] *)
Definition add (s : Sequencer) (v : TimeSeriesValue)
    : option (aku_Status * Z * Sequencer) :=
  '(status, lock, s1) ← check_timestamp_ s (key_ts_ v);
  if decide (status = AKU_SUCCESS) then
    let key := removelast (key_ s1) ++ [v] in
    let s2 := set_key s1 key in
    let run_ix := lower_bound (fun x => top_element_more x key) (runs_ s2) [] in
    let new_run_needed := (run_ix =? length (runs_ s2))%nat in
    if negb new_run_needed
    then Some (AKU_SUCCESS, lock, set_runs s2 (alter (fun run => run ++ [v]) run_ix (runs_ s2)))
    else Some (AKU_SUCCESS, lock, set_runs s2 (runs_ s2 ++ [[v]]))
  else Some (status, lock, s1).

(** [Sequencer::get_window] *)
Definition get_window (s : Sequencer) : Z * Z :=
  (if top_timestamp_ s >? window_size_ s
   then top_timestamp_ s - window_size_ s
   else top_timestamp_ s,
   sequence_number_ s).

End WithLimits.

(** *** The k-way merge *)

Inductive direction := AKU_CURSOR_DIR_FORWARD | AKU_CURSOR_DIR_BACKWARD.

(** [tuple<KeyType, int>]: an element and the index of the run it came from. *)
Definition HeapItem : Type := TimeSeriesValue * nat.

(** [operator <] of [std::tuple]: lexicographic, the first component
    compared with [operator <] of [TimeSeriesValue]. *)
Definition item_lt (a b : HeapItem) : bool :=
  tsv_lt a.1 b.1 || (negb (tsv_lt b.1 a.1) && (a.2 <? b.2)%nat).

(** [TimeOrderMergePredicate]: [greater] for the forward merge, [less]
    for the backward one. *)
Definition TimeOrderMergePredicate (dir : direction) (lhs rhs : HeapItem) : bool :=
  match dir with
  | AKU_CURSOR_DIR_FORWARD => item_lt rhs lhs
  | AKU_CURSOR_DIR_BACKWARD => item_lt lhs rhs
  end.

(** [RunIter::make_range]: the run front to back, or back to front. *)
Definition make_range (dir : direction) (run : SortedRun) : list TimeSeriesValue :=
  match dir with
  | AKU_CURSOR_DIR_FORWARD => run
  | AKU_CURSOR_DIR_BACKWARD => rev run
  end.

(** [boost::heap::skew_heap]: a binary tree whose root is [top()];
    [children[0]] is the left subtree, [children[1]] the right one. *)
Inductive skew_heap :=
| Leaf
| Node (l : skew_heap) (x : HeapItem) (r : skew_heap).

Fixpoint heap_size (h : skew_heap) : nat :=
  match h with
  | Leaf => 0
  | Node l _ r => S (heap_size l + heap_size r)
  end.

(** The items of the heap in the order its iterator visits them (root
    first); the order is the library's own business and no statement below
    depends on it. *)
Fixpoint heap_items (h : skew_heap) : list HeapItem :=
  match h with
  | Leaf => []
  | Node l x r => x :: heap_items r ++ heap_items l
  end.

(** [merge_nodes]: the node that compares lower goes below the other one,
    merged into its right subtree, and the children are swapped. *)
Equations merge_nodes (comp : HeapItem -> HeapItem -> bool)
    (node1 node2 : skew_heap) : skew_heap
    by wf (heap_size node1 + heap_size node2)%nat lt :=
  merge_nodes comp Leaf node2 := node2;
  merge_nodes comp node1 Leaf := node1;
  merge_nodes comp (Node l1 x1 r1) (Node l2 x2 r2) :=
    if comp x1 x2
    then Node (merge_nodes comp r2 (Node l1 x1 r1)) x2 l2
    else Node (merge_nodes comp r1 (Node l2 x2 r2)) x1 l1.
Next Obligation. simpl. lia. Qed.
Next Obligation. simpl. lia. Qed.

Definition heap_push (comp : HeapItem -> HeapItem -> bool)
    (item : HeapItem) (h : skew_heap) : skew_heap :=
  merge_nodes comp h (Node Leaf item Leaf).

(** The first loop of [kway_merge]: the front of every non-empty range
    goes to the heap. *)
Fixpoint init_heap (comp : HeapItem -> HeapItem -> bool)
    (ranges : list (list TimeSeriesValue)) (index : nat) (heap : skew_heap)
    : skew_heap * list (list TimeSeriesValue) :=
  match ranges with
  | [] => (heap, [])
  | range :: rest =>
      match range with
      | [] =>
          let '(h, rs) := init_heap comp rest (S index) heap in (h, [] :: rs)
      | value :: range' =>
          let '(h, rs) := init_heap comp rest (S index)
                            (heap_push comp (value, index) heap) in
          (h, range' :: rs)
      end
  end.

(** The run rebuilt from a heap item on interruption: the item, then the
    rest of its range. *)
Definition remaining_run (ranges : list (list TimeSeriesValue))
    (remaining_item : HeapItem) : SortedRun :=
  remaining_item.1 :: default [] (ranges !! remaining_item.2).

(** (S3): a run is monotonic non-decreasing in time order when no element
    is followed by a smaller one. *)
Definition time_le (a b : TimeSeriesValue) : Prop := tsv_lt b a = false.
Definition monotonic (run : SortedRun) : Prop := Sorted time_le run.

(** What the first loop of [kway_merge] does, read off the ranges: the
    items pushed, and the ranges left. *)
Fixpoint fronts (index : nat) (ranges : list (list TimeSeriesValue))
    : list HeapItem :=
  match ranges with
  | [] => []
  | [] :: rest => fronts (S index) rest
  | (value :: _) :: rest => (value, index) :: fronts (S index) rest
  end.

Section Consumer.

(** The consumer is a closure over mutable state: [St] is what it
    captures, the [bool] is what it returns. *)
Context {St : Type}.
Variable cons : St -> TimeSeriesValue -> bool * St.
Variable comp : HeapItem -> HeapItem -> bool.

(** The [while (!heap.empty())] loop of [kway_merge]; [None] only when
    the fuel runs out. *)
Fixpoint kway_loop (fuel : nat) (heap : skew_heap)
    (ranges : list (list TimeSeriesValue)) (st : St)
    : option (list SortedRun * St) :=
  match fuel with
  | O => None
  | S fuel' =>
      match heap with
      | Leaf => Some ([], st)
      | Node l item r =>
          let '(go_on, st') := cons st item.1 in
          if negb go_on
          then Some (map (remaining_run ranges) (heap_items heap), st')
          else
            let heap' := merge_nodes comp l r in
            match ranges !! item.2 with
            | Some (point :: range') =>
                kway_loop fuel' (heap_push comp (point, item.2) heap')
                  (<[item.2 := range']> ranges) st'
            | _ => kway_loop fuel' heap' ranges st'
            end
      end
  end.

End Consumer.

Definition total_size (rs : list (list TimeSeriesValue)) : nat :=
  length (concat rs).

(** [kway_merge<TimeOrderMergePredicate, dir>(runs, cons)]: the new
    contents of [runs] and the consumer's state. *)
Definition kway_merge {St} (dir : direction)
    (cons : St -> TimeSeriesValue -> bool * St)
    (runs : list SortedRun) (st : St) : option (list SortedRun * St) :=
  let comp := TimeOrderMergePredicate dir in
  let '(heap, ranges) := init_heap comp (map (make_range dir) runs) 0%nat Leaf in
  kway_loop cons comp (S (total_size runs)) heap ranges st.

(** *** merge_and_compress *)

(** [UncompressedChunk] of compression.h. *)
Record UncompressedChunk := mkChunk {
  timestamps : list Z;
  paramids : list Z;
  values : list Z
}.

Definition empty_chunk : UncompressedChunk := mkChunk [] [] [].

(** [TimeSeriesValue::add_to_header] *)
Definition add_to_header (val : TimeSeriesValue) (chunk_header : UncompressedChunk)
    : UncompressedChunk :=
  mkChunk (timestamps chunk_header ++ [key_ts_ val])
          (paramids chunk_header ++ [key_id_ val])
          (values chunk_header ++ [value val]).

(** The lambda [push_to_header]; it captures [threshold] and
    [chunk_header]. *)
Definition push_to_header (st : Z * UncompressedChunk) (val : TimeSeriesValue)
    : bool * (Z * UncompressedChunk) :=
  let '(threshold, chunk_header) := st in
  if threshold >? 0
  then (true, (wrap_int32 (threshold - 1), add_to_header val chunk_header))
  else (false, (wrap_int32 (threshold - 1), chunk_header)).

(** The run rebuilt from a chunk header: the loop over
    [chunk_header.paramids.size()] with [at(i)] on the three vectors; the
    vectors have one length, [add_to_header] being their only writer. *)
Fixpoint header_to_run (ts ids vs : list Z) : SortedRun :=
  match ts, ids, vs with
  | t :: ts', i :: ids', v :: vs' => mkTSV t i v :: header_to_run ts' ids' vs'
  | _, _, _ => []
  end.

Definition chunk_run (c : UncompressedChunk) : SortedRun :=
  header_to_run (timestamps c) (paramids c) (values c).

(** The three vectors of a chunk header have one length. *)
Definition chunk_wf (c : UncompressedChunk) : Prop :=
  length (timestamps c) = length (paramids c)
  /\ length (paramids c) = length (values c).

Section WithPage.

(** The target page and the two functions the flush calls on the way to
    it; the versions of [PageHeader::complete_chunk] and of
    [CompressionUtil::convert_from_time_order] that take an
    [UncompressedChunk] are not part of this source tree. *)
Context {Page : Type}.
Variable complete_chunk : Page -> UncompressedChunk -> aku_Status * Page.
Variable convert_from_time_order : UncompressedChunk -> option UncompressedChunk.

(** What one call of [merge_and_compress] did to the page: every chunk
    header handed to [complete_chunk], in time order, and the status that
    came back. *)
Definition FlushLog : Type := list (UncompressedChunk * aku_Status).

(** The samples of the chunks the page took. *)
Definition flushed (log : FlushLog) : list TimeSeriesValue :=
  concat (map (fun e => if decide (e.2 = AKU_SUCCESS) then chunk_run e.1 else [])
            log).

(** The [while (!ready_.empty())] loop.  The result is the status, the
    ready set and the page when the loop is left; [None] when a panic is
    hit or the fuel runs out.  The fuel [merge_and_compress] gives is
    enough whenever the threshold is above zero, every round then taking
    a sample.  With a threshold of zero no round takes one: the code goes
    on handing empty chunks to the page until the page turns one down,
    and the model, which does not know when that is, gives [None]. *)
Fixpoint compress_loop (fuel : nat) (enforce_write : bool) (c_threshold : Z)
    (ready : list SortedRun) (page : Page) (log : FlushLog)
    : option (aku_Status * list SortedRun * Page * FlushLog) :=
  match ready with
  | [] => Some (AKU_SUCCESS, ready, page, log)
  | _ :: _ =>
      match fuel with
      | O => None
      | S fuel' =>
          let threshold := wrap_int32 c_threshold in
          '(ready1, (_, chunk_header)) ←
            kway_merge AKU_CURSOR_DIR_FORWARD push_to_header ready
              (threshold, empty_chunk);
          if enforce_write
             || (c_threshold <=? Z.of_nat (length (paramids chunk_header)))
          then
            reindexed_header ← convert_from_time_order chunk_header;
            let '(status, page1) := complete_chunk page reindexed_header in
            let log1 := log ++ [(chunk_header, status)] in
            if decide (status = AKU_SUCCESS)
            then compress_loop fuel' enforce_write c_threshold ready1 page1 log1
            else
              Some (if decide (status = AKU_ENO_DATA) then AKU_SUCCESS else status,
                    ready1 ++ [chunk_run chunk_header], page1, log1)
          else
            Some (AKU_SUCCESS, ready1 ++ [chunk_run chunk_header], page, log)
      end
  end.

(** [Sequencer::merge_and_compress] *)
Definition merge_and_compress (s : Sequencer) (target : Page) (enforce_write : bool)
    : option (aku_Status * Sequencer * Page * FlushLog) :=
  let owns_lock := negb (Z.rem (sequence_number_ s) 2 =? 0) in
  if negb owns_lock then Some (AKU_EBUSY, s, target, [])
  else if (length (ready_ s) =? 0)%nat then Some (AKU_ENO_DATA, s, target, [])
  else
    '(status, ready, page, log) ←
      compress_loop (S (total_size (ready_ s))) enforce_write (c_threshold_ s)
        (ready_ s) target [];
    let s1 := set_ready s ready in
    let s2 := match ready with
              | [] => s1
              | _ => set_ready (set_runs s1 (runs_ s1 ++ ready)) []
              end in
    let '(_, s3) := fetch_add1 s2 in
    Some (status, s3, page, log).

End WithPage.

(** *** Facts about the counters and the binary search *)

Lemma rem2_odd (x : Z) : negb (Z.rem x 2 =? 0) = Z.odd x.
Proof.
  pose proof (Z.quot_rem x 2 ltac:(lia)) as Hq.
  destruct (Z.eqb_spec (Z.rem x 2) 0) as [H0 | H0]; simpl.
  - rewrite H0, Z.add_0_r in Hq. rewrite Hq, Z.odd_mul. reflexivity.
  - rewrite <- Z.negb_even. destruct (Z.even x) eqn:He; [| reflexivity].
    apply Z.even_spec in He as [k ->].
    exfalso. apply H0. rewrite Z.mul_comm. apply Z.rem_mul. lia.
Qed.

Lemma wrap_int32_even (x : Z) : Z.even (wrap_int32 x) = Z.even x.
Proof.
  unfold wrap_int32.
  rewrite (Z.mod_eq (x + 2 ^ 31) (2 ^ 32)) by lia.
  replace (x + 2 ^ 31 - 2 ^ 32 * ((x + 2 ^ 31) / 2 ^ 32) - 2 ^ 31)
    with (x + 2 * (- 2 ^ 31 * ((x + 2 ^ 31) / 2 ^ 32))) by lia.
  apply Z.even_add_mul_2.
Qed.

Lemma wrap_int32_succ_even (x : Z) : Z.even (wrap_int32 (x + 1)) = negb (Z.even x).
Proof.
  rewrite wrap_int32_even, Z.even_add. destruct (Z.even x); reflexivity.
Qed.

Lemma lower_bound_loop_le {A} (comp : A -> bool) (l : list A) (d : A)
    (fuel first len n : nat) :
  (first + len <= n)%nat -> (lower_bound_loop comp l d fuel first len <= n)%nat.
Proof.
  revert first len. induction fuel as [| fuel IH]; intros first len Hn; simpl.
  - lia.
  - destruct len as [| len']; [lia |].
    pose proof (Nat.le_div2 len').
    destruct (comp _); apply IH; lia.
Qed.

Lemma lower_bound_le {A} (comp : A -> bool) (l : list A) (d : A) :
  (lower_bound comp l d <= length l)%nat.
Proof. apply lower_bound_loop_le. lia. Qed.

Lemma concat_alter_snoc {A} (v : A) (l : list (list A)) (i : nat) :
  (i < length l)%nat ->
  concat (alter (fun run => run ++ [v]) i l) ≡ₚ v :: concat l.
Proof.
  revert i. induction l as [| r l IH]; intros i Hi; simpl in *; [lia |].
  destruct i as [| i]; simpl.
  - rewrite <- app_assoc. simpl. symmetry. apply Permutation_middle.
  - etransitivity; [apply Permutation_app_head, IH; lia |].
    symmetry. apply Permutation_middle.
Qed.

Section SequencerFacts.

Variable AKU_LIMITS_MAX_ID : Z.

(** C1.  The lateness check of [add], at the edge of the window.  A value
    exactly [window_size_] behind [top_timestamp_] is accepted: [add]
    returns [AKU_SUCCESS] with flush token 0, the value joins the runs (as
    the new last element of a run or as a run of its own) and nothing else
    of the staging area moves.  A value further behind, be it by one tick,
    is turned down with [AKU_ELATE_WRITE] and the Sequencer is left exactly
    as it was. *)
Theorem add_window_boundary (s : Sequencer) (v : TimeSeriesValue) :
  (0 < window_size_ s ->
   top_timestamp_ s - key_ts_ v = window_size_ s ->
   exists s',
     add AKU_LIMITS_MAX_ID s v = Some (AKU_SUCCESS, 0, s')
     /\ concat (runs_ s') ≡ₚ v :: concat (runs_ s)
     /\ ready_ s' = ready_ s
     /\ top_timestamp_ s' = top_timestamp_ s
     /\ sequence_number_ s' = sequence_number_ s)
  /\ (0 <= window_size_ s ->
      top_timestamp_ s - key_ts_ v > window_size_ s ->
      add AKU_LIMITS_MAX_ID s v = Some (AKU_ELATE_WRITE, 0, s)).
Proof.
  split.
  - intros HW Hd. unfold add, check_timestamp_.
    replace (key_ts_ v <? top_timestamp_ s) with true
      by (symmetry; apply Z.ltb_lt; lia).
    replace (top_timestamp_ s - key_ts_ v >? window_size_ s) with false
      by (symmetry; rewrite Z.gtb_ltb; apply Z.ltb_ge; lia).
    cbn [mbind option_bind decide_rel].
    destruct (decide (AKU_SUCCESS = AKU_SUCCESS)) as [_ | []]; [| reflexivity].
    cbn [runs_ set_key].
    pose proof (lower_bound_le
                  (fun x => top_element_more x (removelast (key_ s) ++ [v]))
                  (runs_ s) []) as Hix.
    destruct (Nat.eqb_spec
                (lower_bound
                   (fun x => top_element_more x (removelast (key_ s) ++ [v]))
                   (runs_ s) [])
                (length (runs_ s))) as [He | Hne]; cbn [negb].
    + eexists. split; [reflexivity |]. simpl.
      repeat split; try reflexivity.
      rewrite concat_app. simpl.
      rewrite <- Permutation_cons_append. reflexivity.
    + eexists. split; [reflexivity |]. simpl.
      repeat split; try reflexivity.
      apply concat_alter_snoc.
      destruct (proj1 (Nat.lt_eq_cases _ _) Hix) as [Hlt | Heq];
        [exact Hlt | contradiction].
  - intros HW Hd. unfold add, check_timestamp_.
    replace (key_ts_ v <? top_timestamp_ s) with true
      by (symmetry; apply Z.ltb_lt; lia).
    replace (top_timestamp_ s - key_ts_ v >? window_size_ s) with true
      by (symmetry; rewrite Z.gtb_ltb; apply Z.ltb_lt; lia).
    reflexivity.
Qed.

Lemma checkpoint_step_spec (old_top : Z) (new_runs ready : list SortedRun)
    (run : SortedRun) :
  let r := checkpoint_step AKU_LIMITS_MAX_ID old_top (new_runs, ready) run in
  (length r.1 + length r.2
   = length new_runs + length ready + 1
     + (if straddles AKU_LIMITS_MAX_ID old_top run then 1 else 0))%nat
  /\ concat r.1 ++ concat r.2 ≡ₚ (concat new_runs ++ concat ready) ++ run.
Proof.
  unfold checkpoint_step, straddles.
  set (it := lower_bound _ run tsv_default).
  destruct (it =? 0)%nat; [| destruct (it =? length run)%nat]; cbn [negb andb fst snd].
  - rewrite length_app, concat_app. simpl. rewrite app_nil_r. split; [lia |].
    rewrite <- !app_assoc. apply Permutation_app_head, Permutation_app_comm.
  - rewrite length_app, concat_app. simpl. rewrite app_nil_r. split; [lia |].
    rewrite <- !app_assoc. reflexivity.
  - rewrite !length_app, !concat_app. simpl. rewrite !app_nil_r. split; [lia |].
    rewrite <- (take_drop it run) at 3.
    rewrite <- !app_assoc. apply Permutation_app_head.
    rewrite (app_assoc (concat ready)). apply Permutation_app_comm.
Qed.

Lemma checkpoint_fold (old_top : Z) (runs new_runs ready : list SortedRun) :
  let r := fold_left (checkpoint_step AKU_LIMITS_MAX_ID old_top) runs
             (new_runs, ready) in
  (length r.1 + length r.2
   = length new_runs + length ready + length runs
     + length (filter (fun x => straddles AKU_LIMITS_MAX_ID old_top x = true) runs))%nat
  /\ concat r.1 ++ concat r.2 ≡ₚ (concat new_runs ++ concat ready) ++ concat runs.
Proof.
  revert new_runs ready.
  induction runs as [| run runs IH]; intros new_runs ready.
  - simpl. split; [lia |]. rewrite app_nil_r. reflexivity.
  - cbn [fold_left].
    pose proof (checkpoint_step_spec old_top new_runs ready run) as Hstep.
    destruct (checkpoint_step AKU_LIMITS_MAX_ID old_top (new_runs, ready) run)
      as [nr rd].
    cbn [fst snd] in Hstep. destruct Hstep as [Hl Hp].
    destruct (IH nr rd) as [Hl' Hp']. cbn zeta in *.
    split.
    + rewrite Hl', filter_cons. cbn [length].
      destruct (straddles AKU_LIMITS_MAX_ID old_top run);
        [rewrite decide_True by reflexivity | rewrite decide_False by discriminate];
        cbn [length]; lia.
    + rewrite Hp', Hp. cbn [concat]. rewrite <- !app_assoc. reflexivity.
Qed.

(** C4 (as the code has it).  [make_checkpoint_] entered at an even
    sequence number, with fewer than [c_threshold_] samples in the ready
    set after the split, reverts: the ready set ends empty, the sequence
    number is even again and is the flag returned, no sample is lost or
    duplicated.  The runs are not glued back together: every run the
    boundary cut in two comes back as two runs, so the number of runs
    grows by the number of runs cut (and by the runs that were waiting in
    the ready set). *)
Theorem make_checkpoint_revert (s : Sequencer) (new_checkpoint : Z) :
  Z.even (sequence_number_ s) = true ->
  run_sizes (sealed_runs AKU_LIMITS_MAX_ID s) < c_threshold_ s ->
  exists flag s',
    make_checkpoint_ AKU_LIMITS_MAX_ID s new_checkpoint = Some (flag, s')
    /\ Z.even (sequence_number_ s') = true
    /\ flag = sequence_number_ s'
    /\ ready_ s' = []
    /\ checkpoint_ s' = new_checkpoint
    /\ length (runs_ s')
       = (length (runs_ s)
          + length (filter (fun x => straddles AKU_LIMITS_MAX_ID
                                       (get_timestamp_ s (checkpoint_ s)) x = true)
                      (runs_ s))
          + length (ready_ s))%nat
    /\ concat (runs_ s') ≡ₚ concat (runs_ s) ++ concat (ready_ s).
Proof.
  intros Heven Hsmall.
  unfold make_checkpoint_, fetch_add1.
  rewrite rem2_odd, <- Z.negb_even, wrap_int32_succ_even, Heven.
  cbn [negb].
  unfold sealed_runs in Hsmall.
  change (get_timestamp_ (set_sequence_number s _) (checkpoint_ _))
    with (get_timestamp_ s (checkpoint_ s)).
  cbn [runs_ ready_ set_checkpoint set_sequence_number].
  pose proof (checkpoint_fold (get_timestamp_ s (checkpoint_ s))
                (runs_ s) [] (ready_ s)) as Hfold.
  destruct (fold_left _ (runs_ s) ([], ready_ s)) as [new_runs ready] eqn:Ef.
  cbn [fst snd] in Hfold, Hsmall. destruct Hfold as [Hl Hp].
  cbn [c_threshold_ set_ready set_runs set_checkpoint set_sequence_number].
  replace (run_sizes ready <? c_threshold_ s) with true
    by (symmetry; apply Z.ltb_lt; exact Hsmall).
  eexists _, _. split; [reflexivity |].
  cbn [sequence_number_ ready_ runs_ checkpoint_
       set_ready set_runs set_checkpoint set_sequence_number].
  repeat split.
  - rewrite wrap_int32_succ_even, wrap_int32_succ_even, Heven. reflexivity.
  - rewrite length_app, Hl. simpl. lia.
  - rewrite concat_app, Hp. simpl. apply Permutation_app_comm.
Qed.

(** C8 (as the code has it).  [get_window] yields
    [top_timestamp_ - window_size_] only once [top_timestamp_] has passed
    [window_size_]; up to then it yields [top_timestamp_] itself.  The
    second component is the sequence number in both cases. *)
Theorem get_window_guarded (s : Sequencer) :
  (window_size_ s < top_timestamp_ s ->
   get_window s = (top_timestamp_ s - window_size_ s, sequence_number_ s))
  /\ (top_timestamp_ s <= window_size_ s ->
      get_window s = (top_timestamp_ s, sequence_number_ s)).
Proof.
  unfold get_window. rewrite Z.gtb_ltb.
  split; intros H.
  - replace (window_size_ s <? top_timestamp_ s) with true
      by (symmetry; apply Z.ltb_lt; lia).
    reflexivity.
  - replace (window_size_ s <? top_timestamp_ s) with false
      by (symmetry; apply Z.ltb_ge; lia).
    reflexivity.
Qed.

End SequencerFacts.

(** *** Facts about the k-way merge *)

Lemma heap_items_merge (comp : HeapItem -> HeapItem -> bool) (a b : skew_heap) :
  heap_items (merge_nodes comp a b) ≡ₚ heap_items a ++ heap_items b.
Proof.
  funelim (merge_nodes comp a b); simp merge_nodes.
  - reflexivity.
  - rewrite app_nil_r. reflexivity.
  - destruct (comp x1 x2); cbn [heap_items].
    + rewrite H. cbn [heap_items].
      rewrite (Permutation_app_comm (_ :: _) (x2 :: _)). cbn [app].
      apply perm_skip.
      rewrite <- !app_assoc.
      rewrite (Permutation_app_comm (heap_items l2)).
      rewrite <- !app_assoc. apply Permutation_app_head.
      rewrite (Permutation_app_comm (heap_items l2)). reflexivity.
    + rewrite H0. cbn [heap_items app].
      apply perm_skip.
      rewrite <- !app_assoc.
      rewrite (Permutation_app_comm (heap_items l1)).
      rewrite <- !app_assoc. apply Permutation_app_head.
      apply Permutation_app_comm.
Qed.

Lemma heap_size_items (h : skew_heap) : heap_size h = length (heap_items h).
Proof.
  induction h as [| l IHl x r IHr]; simpl; [reflexivity |].
  rewrite length_app. lia.
Qed.

Lemma heap_items_push (comp : HeapItem -> HeapItem -> bool) (item : HeapItem)
    (h : skew_heap) :
  heap_items (heap_push comp item h) ≡ₚ item :: heap_items h.
Proof.
  unfold heap_push. rewrite heap_items_merge. simpl.
  rewrite <- Permutation_cons_append. reflexivity.
Qed.

Lemma init_heap_spec (comp : HeapItem -> HeapItem -> bool)
    (ranges : list (list TimeSeriesValue)) (index : nat) (heap : skew_heap) :
  (init_heap comp ranges index heap).2 = map tail ranges
  /\ heap_items (init_heap comp ranges index heap).1
     ≡ₚ fronts index ranges ++ heap_items heap.
Proof.
  revert index heap.
  induction ranges as [| range rest IH]; intros index heap; simpl.
  - split; reflexivity.
  - destruct range as [| value range'].
    + destruct (IH (S index) heap) as [H1 H2].
      destruct (init_heap comp rest (S index) heap) as [h rs]. simpl in *.
      split; [congruence | exact H2].
    + destruct (IH (S index) (heap_push comp (value, index) heap)) as [H1 H2].
      destruct (init_heap comp rest (S index) _) as [h rs]. simpl in *.
      split; [congruence |].
      rewrite H2, heap_items_push. symmetry. apply Permutation_middle.
Qed.

Lemma fronts_lookup (index : nat) (ranges : list (list TimeSeriesValue))
    (item : HeapItem) :
  item ∈ fronts index ranges ->
  exists j t, item.2 = (index + j)%nat /\ ranges !! j = Some (item.1 :: t).
Proof.
  revert index. induction ranges as [| range rest IH]; intros index Hin; simpl in Hin.
  - inversion Hin.
  - destruct range as [| value range'].
    + destruct (IH _ Hin) as (j & t & Hj & Hl).
      exists (S j), t. split; [lia | exact Hl].
    + apply elem_of_cons in Hin as [-> | Hin].
      * exists 0%nat, range'. split; [simpl; lia | reflexivity].
      * destruct (IH _ Hin) as (j & t & Hj & Hl).
        exists (S j), t. split; [lia | exact Hl].
Qed.

Lemma fronts_NoDup (index : nat) (ranges : list (list TimeSeriesValue)) :
  NoDup (map snd (fronts index ranges)).
Proof.
  revert index. induction ranges as [| range rest IH]; intros index; simpl.
  - constructor.
  - destruct range as [| value range']; [apply IH |].
    simpl. constructor; [| apply IH].
    intros Hin. apply list_elem_of_fmap in Hin as (item & Heq & Hin).
    apply fronts_lookup in Hin as (j & t & Hj & _). simpl in *. lia.
Qed.

Lemma fronts_content (index : nat) (ranges : list (list TimeSeriesValue)) :
  concat ranges ≡ₚ map fst (fronts index ranges) ++ concat (map tail ranges).
Proof.
  revert index. induction ranges as [| range rest IH]; intros index; simpl.
  - reflexivity.
  - destruct range as [| value range']; simpl.
    + apply IH.
    + apply perm_skip. rewrite (IH (S index)).
      rewrite !app_assoc. apply Permutation_app_tail, Permutation_app_comm.
Qed.

Lemma fronts_remaining (pre ranges : list (list TimeSeriesValue)) :
  concat (map (remaining_run (pre ++ map tail ranges)) (fronts (length pre) ranges))
  = concat ranges.
Proof.
  revert pre. induction ranges as [| range rest IH]; intros pre; simpl.
  - reflexivity.
  - specialize (IH (pre ++ [tail range])).
    rewrite length_app, Nat.add_1_r, <- app_assoc in IH. simpl in IH.
    destruct range as [| value range']; cbn [fronts map concat tail] in *.
    + exact IH.
    + rewrite IH. unfold remaining_run. cbn [fst snd].
      rewrite list_lookup_middle by reflexivity. reflexivity.
Qed.

Lemma concat_Permutation {A} (l l' : list (list A)) :
  l ≡ₚ l' -> concat l ≡ₚ concat l'.
Proof.
  induction 1 as [| x l l' _ IH | x y l | l l' l'' _ IH1 _ IH2]; simpl.
  - reflexivity.
  - apply Permutation_app_head, IH.
  - rewrite !app_assoc. apply Permutation_app_tail, Permutation_app_comm.
  - etransitivity; eassumption.
Qed.

Lemma concat_insert_tail (ranges : list (list TimeSeriesValue)) (i : nat)
    (point : TimeSeriesValue) (range' : list TimeSeriesValue) :
  ranges !! i = Some (point :: range') ->
  concat ranges ≡ₚ point :: concat (<[i := range']> ranges).
Proof.
  revert i. induction ranges as [| r rest IH]; intros i Hl.
  - destruct i; discriminate.
  - destruct i as [| i]; simpl in *.
    + injection Hl as ->. reflexivity.
    + rewrite (IH i Hl). symmetry. apply Permutation_middle.
Qed.

Lemma total_size_insert_tail (ranges : list (list TimeSeriesValue)) (i : nat)
    (point : TimeSeriesValue) (range' : list TimeSeriesValue) :
  ranges !! i = Some (point :: range') ->
  total_size ranges = S (total_size (<[i := range']> ranges)).
Proof.
  intros Hl. unfold total_size.
  rewrite (Permutation_length (concat_insert_tail _ _ _ _ Hl)). reflexivity.
Qed.

(** The rebuilt runs of the items other than the one just popped do not
    see the update of its range. *)
Lemma remaining_run_insert_ne (ranges : list (list TimeSeriesValue)) (i : nat)
    (range' : list TimeSeriesValue) (items : list HeapItem) :
  i ∉ map snd items ->
  map (remaining_run (<[i := range']> ranges)) items
  = map (remaining_run ranges) items.
Proof.
  intros Hni. apply map_ext_Forall, Forall_forall. intros item Hin.
  unfold remaining_run. rewrite list_lookup_insert_ne; [reflexivity |].
  intros ->. apply Hni. apply list_elem_of_In, in_map, list_elem_of_In. exact Hin.
Qed.

Section LoopFacts.

Context {St : Type}.
Variable cons : St -> TimeSeriesValue -> bool * St.
Variable comp : HeapItem -> HeapItem -> bool.

(** With more fuel than there are elements to hand out, the loop runs to
    its end. *)
Lemma kway_loop_total (fuel : nat) (heap : skew_heap)
    (ranges : list (list TimeSeriesValue)) (st : St) :
  (heap_size heap + total_size ranges < fuel)%nat ->
  is_Some (kway_loop cons comp fuel heap ranges st).
Proof.
  revert heap ranges st.
  induction fuel as [| fuel IH]; intros heap ranges st Hf; [lia |].
  simpl. destruct heap as [| l item r]; [eexists; reflexivity |].
  destruct (cons st item.1) as [go_on st1].
  destruct go_on; cbn [negb]; [| eexists; reflexivity].
  assert (Hs : heap_size (merge_nodes comp l r) = (heap_size l + heap_size r)%nat).
  { rewrite !heap_size_items, (Permutation_length (heap_items_merge _ _ _)).
    apply length_app. }
  simpl in Hf.
  destruct (ranges !! item.2) as [[| point range'] |] eqn:El.
  - apply IH. lia.
  - apply IH.
    rewrite heap_size_items, (Permutation_length (heap_items_push _ _ _)).
    simpl. rewrite <- heap_size_items, Hs.
    rewrite (total_size_insert_tail _ _ _ _ El) in Hf. lia.
  - apply IH. lia.
Qed.

(** Every run rebuilt on interruption is a heap item followed by the rest
    of its range; a property of runs that survives dropping the first
    element therefore survives the merge. *)
Lemma kway_loop_runs (P : SortedRun -> Prop) :
  (forall x p r, P (x :: p :: r) -> P (p :: r)) ->
  forall (fuel : nat) (heap : skew_heap) (ranges : list (list TimeSeriesValue))
         (st : St) (runs' : list SortedRun) (st' : St),
    NoDup (map snd (heap_items heap)) ->
    Forall (fun item => P (remaining_run ranges item)) (heap_items heap) ->
    kway_loop cons comp fuel heap ranges st = Some (runs', st') ->
    Forall P runs'.
Proof.
  intros Ptail.
  induction fuel as [| fuel IH]; intros heap ranges st runs' st' Hnd HP Hrun;
    [discriminate |].
  simpl in Hrun. destruct heap as [| l item r].
  { injection Hrun as <- <-. constructor. }
  destruct (cons st item.1) as [go_on st1].
  destruct go_on; cbn [negb] in Hrun.
  2:{ injection Hrun as <- <-.
      apply (proj2 (Forall_map (remaining_run ranges) P
                      (heap_items (Node l item r)))).
      exact HP. }
  assert (Hrest : heap_items (merge_nodes comp l r) ≡ₚ heap_items r ++ heap_items l).
  { rewrite heap_items_merge. apply Permutation_app_comm. }
  cbn [heap_items map] in Hnd, HP.
  apply NoDup_cons in Hnd as [Hni Hnd].
  apply Forall_cons in HP as [HPi HP].
  destruct (ranges !! item.2) as [[| point range'] |] eqn:El.
  - apply (IH _ _ _ _ _) in Hrun; [exact Hrun | |].
    + rewrite Hrest. exact Hnd.
    + rewrite Hrest. exact HP.
  - apply (IH _ _ _ _ _) in Hrun; [exact Hrun | |].
    + rewrite heap_items_push, Hrest. cbn [map]. apply NoDup_cons. split; assumption.
    + rewrite heap_items_push, Hrest. apply Forall_cons. split.
      * unfold remaining_run in *. cbn [fst snd] in *.
        rewrite list_lookup_insert_eq by (eapply lookup_lt_Some; exact El).
        rewrite El in HPi. cbn [default] in *. eapply Ptail. exact HPi.
      * apply (proj1 (Forall_map (remaining_run _) P _)).
        rewrite remaining_run_insert_ne by exact Hni.
        apply (proj2 (Forall_map (remaining_run _) P _)). exact HP.
  - apply (IH _ _ _ _ _) in Hrun; [exact Hrun | |].
    + rewrite Hrest. exact Hnd.
    + rewrite Hrest. exact HP.
Qed.

(** The loop hands its runs back empty unless the consumer interrupted
    it.  [Q] holds of the consumer's state as long as it answers [true],
    [R] once it has answered [false]. *)
Lemma kway_loop_progress (Q R : St -> Prop) :
  (forall st v, Q st -> if (cons st v).1 then Q (cons st v).2 else R (cons st v).2) ->
  forall (fuel : nat) (heap : skew_heap) (ranges : list (list TimeSeriesValue))
         (st : St) (runs' : list SortedRun) (st' : St),
    Q st ->
    kway_loop cons comp fuel heap ranges st = Some (runs', st') ->
    (runs' = [] /\ Q st') \/ (runs' <> [] /\ R st').
Proof.
  intros Hcons.
  induction fuel as [| fuel IH]; intros heap ranges st runs' st' HQ Hrun;
    [discriminate |].
  simpl in Hrun. destruct heap as [| l item r].
  { injection Hrun as <- <-. left. split; [reflexivity | exact HQ]. }
  specialize (Hcons st item.1 HQ).
  destruct (cons st item.1) as [go_on st1]. cbn [fst snd] in Hcons.
  destruct go_on; cbn [negb] in Hrun.
  - destruct (ranges !! item.2) as [[| point range'] |];
      (eapply IH; [exact Hcons | exact Hrun]).
  - injection Hrun as <- <-. right. split; [| exact Hcons].
    cbn [heap_items map]. intros Hnil. discriminate Hnil.
Qed.

(** Nothing is lost on the way: what the consumer took and what the
    rebuilt runs hold is what the heap and the ranges held.  [taken] reads
    the consumer's state, [Q] is the invariant it keeps. *)
Variable taken : St -> list TimeSeriesValue.
Variable Q : St -> Prop.
Hypothesis cons_taken : forall st v,
  Q st ->
  Q (cons st v).2
  /\ taken (cons st v).2 ≡ₚ (if (cons st v).1 then v :: taken st else taken st).

Lemma kway_loop_content (fuel : nat) :
  forall (heap : skew_heap) (ranges : list (list TimeSeriesValue))
         (st : St) (runs' : list SortedRun) (st' : St),
    NoDup (map snd (heap_items heap)) ->
    concat (map (remaining_run ranges) (heap_items heap))
      ≡ₚ map fst (heap_items heap) ++ concat ranges ->
    Q st ->
    kway_loop cons comp fuel heap ranges st = Some (runs', st') ->
    Q st'
    /\ taken st' ++ concat runs'
       ≡ₚ taken st ++ map fst (heap_items heap) ++ concat ranges.
Proof.
  induction fuel as [| fuel IH]; intros heap ranges st runs' st' Hnd HJ HQ Hrun;
    [discriminate |].
  simpl in Hrun. destruct heap as [| l item r].
  { injection Hrun as <- <-. split; [exact HQ |].
    simpl in *. apply Permutation_nil in HJ. rewrite HJ. reflexivity. }
  destruct (cons_taken st item.1 HQ) as [HQ1 Htk].
  destruct (cons st item.1) as [go_on st1]. cbn [fst snd] in HQ1, Htk.
  destruct go_on; cbn [negb] in Hrun.
  2:{ injection Hrun as <- <-. split; [exact HQ1 |].
      rewrite Htk, HJ. reflexivity. }
  assert (Hrest : heap_items (merge_nodes comp l r) ≡ₚ heap_items r ++ heap_items l).
  { rewrite heap_items_merge. apply Permutation_app_comm. }
  cbn [heap_items map concat] in Hnd, HJ |- *.
  apply NoDup_cons in Hnd as [Hni Hnd].
  set (rest := heap_items r ++ heap_items l) in *.
  assert (Hperm_fst : map fst (heap_items (merge_nodes comp l r)) ≡ₚ map fst rest)
    by (apply Permutation_map, Hrest).
  assert (Hperm_snd : map snd (heap_items (merge_nodes comp l r)) ≡ₚ map snd rest)
    by (apply Permutation_map, Hrest).
  assert (Hperm_run : forall rs,
             concat (map (remaining_run rs) (heap_items (merge_nodes comp l r)))
             ≡ₚ concat (map (remaining_run rs) rest))
    by (intros rs; apply concat_Permutation, Permutation_map, Hrest).
  unfold remaining_run at 1 in HJ. cbn [fst snd] in HJ.
  destruct (ranges !! item.2) as [[| point range'] |] eqn:El; cbn [default app] in HJ.
  - apply Permutation_cons_inv in HJ.
    apply (IH _ _ _ _ _) in Hrun as [HQ' Hrun]; [| | | exact HQ1].
    + split; [exact HQ' |]. rewrite Hrun, Htk, Hperm_fst. solve_Permutation.
    + rewrite Hperm_snd. exact Hnd.
    + rewrite Hperm_run, Hperm_fst. exact HJ.
  - apply Permutation_cons_inv in HJ.
    pose proof (concat_insert_tail _ _ _ _ El) as Hins.
    apply (IH _ _ _ _ _) in Hrun as [HQ' Hrun]; [| | | exact HQ1].
    + split; [exact HQ' |].
      rewrite Hrun, Htk, (Permutation_map fst (heap_items_push _ _ _)).
      cbn [map fst]. rewrite Hperm_fst, Hins. solve_Permutation.
    + rewrite (Permutation_map snd (heap_items_push _ _ _)). cbn [map snd].
      rewrite Hperm_snd. apply NoDup_cons. split; assumption.
    + rewrite (concat_Permutation _ _
                 (Permutation_map (remaining_run _) (heap_items_push _ _ _))).
      rewrite (Permutation_map fst (heap_items_push _ _ _)).
      cbn [map concat fst].
      rewrite (concat_Permutation _ _ (Permutation_map (remaining_run _) Hrest)).
      rewrite Hperm_fst.
      rewrite remaining_run_insert_ne by exact Hni.
      unfold remaining_run at 1. cbn [fst snd].
      rewrite list_lookup_insert_eq by (eapply lookup_lt_Some; exact El).
      cbn [default app]. apply perm_skip.
      rewrite Hins in HJ.
      apply (Permutation_cons_inv (a := point)).
      etransitivity; [exact HJ |]. solve_Permutation.
  - apply Permutation_cons_inv in HJ.
    apply (IH _ _ _ _ _) in Hrun as [HQ' Hrun]; [| | | exact HQ1].
    + split; [exact HQ' |]. rewrite Hrun, Htk, Hperm_fst. solve_Permutation.
    + rewrite Hperm_snd. exact Hnd.
    + rewrite Hperm_run, Hperm_fst. exact HJ.
Qed.

End LoopFacts.

Lemma make_range_content (dir : direction) (runs : list SortedRun) :
  concat (map (make_range dir) runs) ≡ₚ concat runs.
Proof.
  induction runs as [| run runs IH]; simpl; [reflexivity |].
  rewrite IH. apply Permutation_app_tail.
  destruct dir; simpl; [reflexivity |].
  symmetry. apply Permutation_rev.
Qed.

Lemma kway_merge_total {St} (dir : direction)
    (cons : St -> TimeSeriesValue -> bool * St) (runs : list SortedRun) (st : St) :
  is_Some (kway_merge dir cons runs st).
Proof.
  unfold kway_merge.
  pose proof (init_heap_spec (TimeOrderMergePredicate dir)
                (map (make_range dir) runs) 0 Leaf) as [Hr Hh].
  destruct (init_heap _ _ _ _) as [heap ranges]. cbn [fst snd] in Hr, Hh.
  apply kway_loop_total. subst ranges.
  rewrite heap_size_items, (Permutation_length Hh), app_nil_r.
  unfold total_size.
  rewrite <- (Permutation_length (make_range_content dir runs)).
  rewrite (Permutation_length (fronts_content 0 (map (make_range dir) runs))).
  rewrite length_app, length_map. apply Nat.lt_succ_diag_r.
Qed.

Lemma kway_merge_content {St} (dir : direction)
    (cons : St -> TimeSeriesValue -> bool * St)
    (taken : St -> list TimeSeriesValue) (Q : St -> Prop) :
  (forall st v,
     Q st ->
     Q (cons st v).2
     /\ taken (cons st v).2 ≡ₚ (if (cons st v).1 then v :: taken st else taken st)) ->
  forall (runs : list SortedRun) (st : St) (runs' : list SortedRun) (st' : St),
    Q st ->
    kway_merge dir cons runs st = Some (runs', st') ->
    Q st' /\ taken st' ++ concat runs' ≡ₚ taken st ++ concat runs.
Proof.
  intros Hcons runs st runs' st' HQ Hrun. unfold kway_merge in Hrun.
  pose proof (init_heap_spec (TimeOrderMergePredicate dir)
                (map (make_range dir) runs) 0 Leaf) as [Hr Hh].
  destruct (init_heap _ _ _ _) as [heap ranges]. cbn [fst snd] in Hr, Hh.
  rewrite app_nil_r in Hh. subst ranges.
  eapply (kway_loop_content cons _ taken Q Hcons) in Hrun as [HQ' Hrun];
    [| | | exact HQ].
  - split; [exact HQ' |]. rewrite Hrun. apply Permutation_app_head.
    rewrite (Permutation_map fst Hh), <- fronts_content.
    apply make_range_content.
  - rewrite (Permutation_map snd Hh). apply fronts_NoDup.
  - rewrite (concat_Permutation _ _ (Permutation_map (remaining_run _) Hh)).
    rewrite (Permutation_map fst Hh).
    pose proof (fronts_remaining [] (map (make_range dir) runs)) as Hfr.
    cbn [app length] in Hfr. rewrite Hfr.
    apply fronts_content.
Qed.

Lemma monotonic_tail (x p : TimeSeriesValue) (r : list TimeSeriesValue) :
  monotonic (x :: p :: r) -> monotonic (p :: r).
Proof. intros H. apply Sorted_inv in H as [H _]. exact H. Qed.

(** C6 (as the code has it).  The forward merge, the one the Sequencer
    runs on its own runs: whatever the consumer does, and wherever it
    interrupts, the merge ends and every run it leaves in [runs] is
    monotonic non-decreasing in time order, provided the runs it was given
    were. *)
Theorem kway_merge_forward_monotonic {St}
    (cons : St -> TimeSeriesValue -> bool * St) (runs : list SortedRun) (st : St) :
  Forall monotonic runs ->
  exists runs' st',
    kway_merge AKU_CURSOR_DIR_FORWARD cons runs st = Some (runs', st')
    /\ Forall monotonic runs'.
Proof.
  intros Hsorted.
  destruct (kway_merge_total AKU_CURSOR_DIR_FORWARD cons runs st)
    as [[runs' st'] Hrun].
  exists runs', st'. split; [exact Hrun |].
  unfold kway_merge in Hrun.
  pose proof (init_heap_spec (TimeOrderMergePredicate AKU_CURSOR_DIR_FORWARD)
                (map (make_range AKU_CURSOR_DIR_FORWARD) runs) 0 Leaf) as [Hr Hh].
  destruct (init_heap _ _ _ _) as [heap ranges]. cbn [fst snd] in Hr, Hh.
  rewrite app_nil_r in Hh. subst ranges.
  rewrite map_id in Hrun, Hh.
  eapply (kway_loop_runs cons _ monotonic monotonic_tail); [| | exact Hrun].
  - rewrite (Permutation_map snd Hh). apply fronts_NoDup.
  - rewrite Hh. apply Forall_forall. intros item Hin.
    apply fronts_lookup in Hin as (j & t & Hj & Hl).
    unfold remaining_run. simpl in Hj. rewrite Hj, list_lookup_fmap, Hl.
    simpl. eapply Forall_lookup_1 in Hsorted; [exact Hsorted | exact Hl].
Qed.

Lemma kway_merge_progress {St} (dir : direction)
    (cons : St -> TimeSeriesValue -> bool * St) (Q R : St -> Prop) :
  (forall st v, Q st -> if (cons st v).1 then Q (cons st v).2 else R (cons st v).2) ->
  forall (runs : list SortedRun) (st : St) (runs' : list SortedRun) (st' : St),
    Q st ->
    kway_merge dir cons runs st = Some (runs', st') ->
    (runs' = [] /\ Q st') \/ (runs' <> [] /\ R st').
Proof.
  intros Hcons runs st runs' st' HQ Hrun. unfold kway_merge in Hrun.
  destruct (init_heap _ _ _ _) as [heap ranges].
  eapply kway_loop_progress; eassumption.
Qed.

(** *** Facts about merge_and_compress *)

Lemma wrap_int32_small (x : Z) : - 2 ^ 31 <= x < 2 ^ 31 -> wrap_int32 x = x.
Proof. intros H. unfold wrap_int32. rewrite Z.mod_small; lia. Qed.

Lemma header_to_run_snoc (ts ids vs : list Z) (t i v : Z) :
  length ts = length ids -> length ids = length vs ->
  header_to_run (ts ++ [t]) (ids ++ [i]) (vs ++ [v])
  = header_to_run ts ids vs ++ [mkTSV t i v].
Proof.
  revert ids vs. induction ts as [| t0 ts IH]; intros [| i0 ids] [| v0 vs] H1 H2;
    simpl in *; try discriminate; [reflexivity |].
  f_equal. apply IH; congruence.
Qed.

Lemma header_to_run_length (ts ids vs : list Z) :
  length ts = length ids -> length ids = length vs ->
  length (header_to_run ts ids vs) = length ids.
Proof.
  revert ids vs. induction ts as [| t0 ts IH]; intros [| i0 ids] [| v0 vs] H1 H2;
    simpl in *; try discriminate; [reflexivity |].
  f_equal. apply IH; congruence.
Qed.

Lemma chunk_run_add (val : TimeSeriesValue) (c : UncompressedChunk) :
  chunk_wf c ->
  chunk_wf (add_to_header val c)
  /\ chunk_run (add_to_header val c) = chunk_run c ++ [val].
Proof.
  intros [H1 H2]. split.
  - unfold chunk_wf, add_to_header. simpl. rewrite !length_app. simpl. lia.
  - unfold chunk_run, add_to_header. simpl.
    rewrite header_to_run_snoc by assumption. destruct val. reflexivity.
Qed.

Lemma push_to_header_taken (st : Z * UncompressedChunk) (v : TimeSeriesValue) :
  chunk_wf st.2 ->
  chunk_wf (push_to_header st v).2.2
  /\ chunk_run (push_to_header st v).2.2
     ≡ₚ (if (push_to_header st v).1 then v :: chunk_run st.2 else chunk_run st.2).
Proof.
  destruct st as [threshold c]. intros Hwf. unfold push_to_header.
  destruct (threshold >? 0); cbn [fst snd].
  - destruct (chunk_run_add v c Hwf) as [Hwf' ->]. split; [exact Hwf' |].
    symmetry. apply Permutation_cons_append.
  - split; [exact Hwf | reflexivity].
Qed.

(** While it answers [true] the consumer has [threshold] slots left of
    the [T] it started with; when it answers [false] the header holds [T]
    samples. *)
Lemma push_to_header_progress (T : Z) (st : Z * UncompressedChunk)
    (v : TimeSeriesValue) :
  T < 2 ^ 31 ->
  (chunk_wf st.2 /\ 0 <= st.1 /\ st.1 + Z.of_nat (length (paramids st.2)) = T) ->
  if (push_to_header st v).1
  then chunk_wf (push_to_header st v).2.2
       /\ 0 <= (push_to_header st v).2.1
       /\ (push_to_header st v).2.1
          + Z.of_nat (length (paramids (push_to_header st v).2.2)) = T
  else chunk_wf (push_to_header st v).2.2
       /\ Z.of_nat (length (paramids (push_to_header st v).2.2)) = T.
Proof.
  destruct st as [threshold c]. cbn [fst snd]. intros HT (Hwf & H0 & Hsum).
  unfold push_to_header. rewrite Z.gtb_ltb.
  destruct (Z.ltb_spec 0 threshold) as [Hpos | Hle]; cbn [fst snd].
  - rewrite wrap_int32_small by lia.
    split; [apply chunk_run_add, Hwf |].
    unfold add_to_header. simpl. rewrite length_app. simpl. lia.
  - split; [exact Hwf | lia].
Qed.

Section CompressFacts.

Context {Page : Type}.
Variable complete_chunk : Page -> UncompressedChunk -> aku_Status * Page.
Variable convert_from_time_order : UncompressedChunk -> option UncompressedChunk.

Lemma flushed_app (log1 log2 : FlushLog) :
  flushed (log1 ++ log2) = flushed log1 ++ flushed log2.
Proof. unfold flushed. rewrite map_app, concat_app. reflexivity. Qed.

(** The loop of [merge_and_compress], whenever it ends: the chunks the
    page took, then at most one it turned down; the samples of the latter
    are the last run of the ready set; nothing is lost. *)
Lemma compress_loop_spec (enforce_write : bool) (c_threshold : Z) (fuel : nat) :
  forall (ready : list SortedRun) (page : Page) (log : FlushLog)
         (status : aku_Status) (ready' : list SortedRun) (page' : Page)
         (log' : FlushLog),
    compress_loop complete_chunk convert_from_time_order fuel enforce_write
      c_threshold ready page log = Some (status, ready', page', log') ->
    exists oks failed,
      log' = log ++ oks ++ failed
      /\ Forall (fun e => e.2 = AKU_SUCCESS) oks
      /\ flushed oks ++ concat ready' ≡ₚ concat ready
      /\ ((failed = [] /\ status = AKU_SUCCESS)
          \/ exists c st rest,
               failed = [(c, st)] /\ st <> AKU_SUCCESS
               /\ status = (if decide (st = AKU_ENO_DATA) then AKU_SUCCESS else st)
               /\ ready' = rest ++ [chunk_run c]).
Proof.
  induction fuel as [| fuel IH]; intros ready page log status ready' page' log' Hrun.
  - destruct ready; [| discriminate]. injection Hrun as <- <- <- <-.
    exists [], []. rewrite app_nil_r. repeat split; auto.
  - destruct ready as [| run ready0].
    { injection Hrun as <- <- <- <-.
      exists [], []. rewrite app_nil_r. repeat split; auto. }
    cbn [compress_loop] in Hrun. set (ready := run :: ready0) in *.
    destruct (kway_merge AKU_CURSOR_DIR_FORWARD push_to_header ready
                (wrap_int32 c_threshold, empty_chunk))
      as [[ready1 [threshold chunk_header]] |] eqn:Ek; [| discriminate].
    cbn [mbind option_bind] in Hrun.
    assert (Hwf0 : chunk_wf (wrap_int32 c_threshold, empty_chunk).2)
      by (split; reflexivity).
    destruct (kway_merge_content AKU_CURSOR_DIR_FORWARD push_to_header
                (fun st => chunk_run st.2) (fun st => chunk_wf st.2)
                push_to_header_taken _ _ _ _ Hwf0 Ek)
      as [_ Hcontent].
    cbn [fst snd app] in Hcontent.
    change (chunk_run empty_chunk) with (@nil TimeSeriesValue) in Hcontent.
    cbn [app] in Hcontent.
    destruct (enforce_write || (c_threshold <=? Z.of_nat (length (paramids chunk_header)))).
    + destruct (convert_from_time_order chunk_header) as [reindexed |];
        [| discriminate].
      cbn [mbind option_bind] in Hrun.
      destruct (complete_chunk page reindexed) as [st page1].
      destruct (decide (st = AKU_SUCCESS)) as [-> | Hne].
      * apply IH in Hrun as (oks & failed & Hlog & Hoks & Hperm & Hlast).
        exists ((chunk_header, AKU_SUCCESS) :: oks), failed.
        split; [rewrite Hlog, <- !app_assoc; reflexivity |].
        split; [constructor; [reflexivity | exact Hoks] |].
        split; [| exact Hlast].
        unfold flushed in *. cbn [map concat fst snd].
        rewrite decide_True by reflexivity.
        rewrite <- app_assoc, Hperm. exact Hcontent.
      * injection Hrun as <- <- <- <-.
        exists [], [(chunk_header, st)].
        split; [reflexivity |]. split; [constructor |].
        split.
        -- cbn [flushed map concat app]. rewrite concat_app. simpl.
           rewrite app_nil_r, Permutation_app_comm. exact Hcontent.
        -- right. exists chunk_header, st, ready1. repeat split; auto.
    + injection Hrun as <- <- <- <-.
      exists [], []. rewrite app_nil_r.
      split; [reflexivity |]. split; [constructor |].
      split; [| left; split; reflexivity].
      cbn [flushed map concat app]. rewrite concat_app. simpl.
      rewrite app_nil_r, Permutation_app_comm. exact Hcontent.
Qed.

(** With a threshold an [int] can hold and a conversion that does not
    fail, the loop ends within the fuel [merge_and_compress] gives it:
    every chunk the page takes removes [c_threshold] samples from the
    ready set. *)
Lemma compress_loop_total (enforce_write : bool) (c_threshold : Z) :
  0 < c_threshold < 2 ^ 31 ->
  (forall c, is_Some (convert_from_time_order c)) ->
  forall (fuel : nat) (ready : list SortedRun) (page : Page) (log : FlushLog),
    (total_size ready < fuel)%nat ->
    is_Some (compress_loop complete_chunk convert_from_time_order fuel
               enforce_write c_threshold ready page log).
Proof.
  intros HC Hconv.
  induction fuel as [| fuel IH]; intros ready page log Hfuel; [lia |].
  destruct ready as [| run ready0]; [eexists; reflexivity |].
  cbn [compress_loop]. set (ready := run :: ready0) in *.
  rewrite (wrap_int32_small c_threshold) by lia.
  destruct (kway_merge_total AKU_CURSOR_DIR_FORWARD push_to_header ready
              (c_threshold, empty_chunk)) as [[ready1 [threshold chunk_header]] Ek].
  rewrite Ek. cbn [mbind option_bind].
  assert (Hwf0 : chunk_wf (c_threshold, empty_chunk).2) by (split; reflexivity).
  destruct (kway_merge_content AKU_CURSOR_DIR_FORWARD push_to_header
              (fun st => chunk_run st.2) (fun st => chunk_wf st.2)
              push_to_header_taken _ _ _ _ Hwf0 Ek) as [Hwf Hcontent].
  apply Permutation_length in Hcontent.
  rewrite !length_app in Hcontent. cbn [fst snd length] in Hcontent, Hwf.
  change (length (chunk_run empty_chunk)) with 0%nat in Hcontent.
  unfold chunk_run in Hcontent.
  rewrite header_to_run_length in Hcontent by apply Hwf.
  destruct (kway_merge_progress AKU_CURSOR_DIR_FORWARD push_to_header
              (fun st => chunk_wf st.2 /\ 0 <= st.1
                         /\ st.1 + Z.of_nat (length (paramids st.2)) = c_threshold)
              (fun st => chunk_wf st.2
                         /\ Z.of_nat (length (paramids st.2)) = c_threshold)
              (fun st v => push_to_header_progress c_threshold st v (proj2 HC))
              _ _ _ _ (conj Hwf0 (conj (Z.lt_le_incl _ _ (proj1 HC))
                                       (Z.add_0_r c_threshold))) Ek)
    as [[Hnil _] | [Hne [_ Hfull]]].
  - subst ready1.
    destruct (enforce_write || _); [| eexists; reflexivity].
    destruct (Hconv chunk_header) as [reindexed ->]. cbn [mbind option_bind].
    destruct (complete_chunk page reindexed) as [st page1].
    destruct (decide (st = AKU_SUCCESS)); [| eexists; reflexivity].
    destruct fuel; eexists; reflexivity.
  - cbn [fst snd] in Hfull.
    destruct (enforce_write || _); [| eexists; reflexivity].
    destruct (Hconv chunk_header) as [reindexed ->]. cbn [mbind option_bind].
    destruct (complete_chunk page reindexed) as [st page1].
    destruct (decide (st = AKU_SUCCESS)); [| eexists; reflexivity].
    apply IH. unfold total_size in *. lia.
Qed.


End CompressFacts.

(** The value used for [AKU_LIMITS_MAX_ID] where a closed example needs
    one; the examples do not depend on the choice. *)
Definition max_id_sample : Z := 18446744073709551613.

Definition tick (ts : Z) : TimeSeriesValue := mkTSV ts 1 0.

(** Writes in a row, the statuses dropped. *)
Fixpoint adds (s : Sequencer) (vs : list TimeSeriesValue) : option Sequencer :=
  match vs with
  | [] => Some s
  | v :: vs' => '(_, _, s') ← add max_id_sample s v; adds s' vs'
  end.

(** The Sequencer with window 10 after the one write at timestamp 20. *)
Definition seen_20 : Sequencer :=
  mkSequencer 10 20 2 2 1000 [[tick 20]] [] [tick 20].

Lemma seen_20_reached :
  add max_id_sample (new_sequencer 10 1000) (tick 20) = Some (AKU_SUCCESS, 2, seen_20).
Proof. vm_compute. reflexivity. Qed.

Lemma add_window_boundary_witness :
  (exists s', add max_id_sample seen_20 (tick 10) = Some (AKU_SUCCESS, 0, s')
              /\ concat (runs_ s') ≡ₚ tick 10 :: concat (runs_ seen_20)
              /\ ready_ s' = ready_ seen_20
              /\ top_timestamp_ s' = top_timestamp_ seen_20
              /\ sequence_number_ s' = sequence_number_ seen_20)
  /\ add max_id_sample seen_20 (tick 9) = Some (AKU_ELATE_WRITE, 0, seen_20).
Proof.
  split.
  - apply (proj1 (add_window_boundary max_id_sample seen_20 (tick 10)));
      [simpl; lia | reflexivity].
  - apply (proj2 (add_window_boundary max_id_sample seen_20 (tick 9)));
      simpl; lia.
Defined.

(** C4, the claim as worded: three writes to a fresh Sequencer (window
    10, threshold 1000).  The third one crosses a checkpoint while the one
    run holds timestamps 5 and 15; the boundary 10 cuts it, one sample is
    too few to flush, and the revert leaves two runs where there was one. *)
Lemma make_checkpoint_split_grows :
  exists s1 s2 flag s3,
    add max_id_sample (new_sequencer 10 1000) (tick 5) = Some (AKU_SUCCESS, 0, s1)
    /\ add max_id_sample s1 (tick 15) = Some (AKU_SUCCESS, 2, s2)
    /\ run_sizes (sealed_runs max_id_sample s2) < c_threshold_ s2
    /\ make_checkpoint_ max_id_sample s2 2 = Some (flag, s3)
    /\ Z.even (sequence_number_ s3) = true
    /\ runs_ s2 = [[tick 5; tick 15]]
    /\ runs_ s3 = [[tick 15]; [tick 5]]
    /\ length (runs_ s3) <> length (runs_ s2).
Proof.
  eexists _, _, _, _.
  split; [vm_compute; reflexivity |].
  split; [vm_compute; reflexivity |].
  split; [vm_compute; reflexivity |].
  split; [vm_compute; reflexivity |].
  repeat split; vm_compute; discriminate.
Qed.

Lemma make_checkpoint_revert_witness :
  exists flag s',
    make_checkpoint_ max_id_sample seen_20 3 = Some (flag, s')
    /\ Z.even (sequence_number_ s') = true
    /\ flag = sequence_number_ s'
    /\ ready_ s' = []
    /\ checkpoint_ s' = 3
    /\ length (runs_ s')
       = (length (runs_ seen_20)
          + length (filter (fun x => straddles max_id_sample
                                       (get_timestamp_ seen_20 (checkpoint_ seen_20)) x = true)
                      (runs_ seen_20))
          + length (ready_ seen_20))%nat
    /\ concat (runs_ s') ≡ₚ concat (runs_ seen_20) ++ concat (ready_ seen_20).
Proof.
  apply (make_checkpoint_revert max_id_sample seen_20 3).
  - reflexivity.
  - vm_compute. reflexivity.
Defined.

(** A consumer that takes [n] elements and then interrupts. *)
Definition take_n (n : nat) (_ : TimeSeriesValue) : bool * nat :=
  match n with
  | O => (false, O)
  | S k => (true, k)
  end.

(** C6, the claim as worded: the backward merge walks the runs from their
    last element, so the run it rebuilds on interruption is the reversed
    rest of the run.  One monotonic run of three elements, interrupted at
    once, comes back in descending order. *)
Lemma kway_merge_backward_reverses :
  monotonic [tick 1; tick 2; tick 3]
  /\ kway_merge AKU_CURSOR_DIR_BACKWARD take_n [[tick 1; tick 2; tick 3]] 0%nat
     = Some ([[tick 3; tick 2; tick 1]], 0%nat)
  /\ ~ monotonic [tick 3; tick 2; tick 1].
Proof.
  split; [| split].
  - repeat constructor.
  - vm_compute. reflexivity.
  - intros H. apply Sorted_inv in H as [_ H]. apply HdRel_inv in H.
    vm_compute in H. discriminate.
Qed.

Lemma kway_merge_forward_monotonic_witness :
  exists runs' st',
    kway_merge AKU_CURSOR_DIR_FORWARD take_n
      [[tick 1; tick 4; tick 7]; [tick 2; tick 3; tick 9]] 3%nat
    = Some (runs', st')
    /\ Forall monotonic runs'.
Proof.
  apply (kway_merge_forward_monotonic take_n
           [[tick 1; tick 4; tick 7]; [tick 2; tick 3; tick 9]] 3%nat).
  repeat constructor.
Defined.

(** A page that has room for [n] more chunks, and a conversion that hands
    the chunk through: stand-ins for the two functions [merge_and_compress]
    is given. *)
Definition slot_page (slots : nat) (_ : UncompressedChunk) : aku_Status * nat :=
  match slots with
  | O => (AKU_EOVERFLOW, O)
  | S k => (AKU_SUCCESS, k)
  end.

Definition keep_order (c : UncompressedChunk) : option UncompressedChunk := Some c.

(** The Sequencer with window 10 and threshold 2 after writes at 1, 4, 7,
    2, 3, 95 and 100: the last one seals five samples in two runs and
    leaves the sequence number odd. *)
Definition sealed_5 : Sequencer :=
  mkSequencer 10 100 10 3 2 [[tick 95; tick 100]]
    [[tick 1; tick 4; tick 7]; [tick 2; tick 3]] [tick 100].

Lemma sealed_5_reached :
  adds (new_sequencer 10 2) (map tick [1; 4; 7; 2; 3; 95; 100]) = Some sealed_5.
Proof. vm_compute. reflexivity. Qed.


(** C8, the claim as worded: the Sequencer with window 10 that has seen
    only timestamp 5 reports the window start 5, which is neither [5 - 10]
    nor its 64-bit wrap-around. *)
Lemma get_window_below_window :
  exists s,
    add max_id_sample (new_sequencer 10 1000) (tick 5) = Some (AKU_SUCCESS, 0, s)
    /\ get_window s = (5, 0)
    /\ (get_window s).1 <> top_timestamp_ s - window_size_ s
    /\ (get_window s).1 <> wrap64 (top_timestamp_ s - window_size_ s).
Proof.
  eexists. split; [vm_compute; reflexivity |].
  split; [reflexivity |]. split; vm_compute; discriminate.
Qed.

Lemma get_window_guarded_witness :
  get_window seen_20 = (10, 2)
  /\ get_window (mkSequencer 10 5 0 0 1000 [[tick 5]] [] [tick 5]) = (5, 0).
Proof.
  split.
  - apply (proj1 (get_window_guarded seen_20)). simpl. lia.
  - apply (proj2 (get_window_guarded
                    (mkSequencer 10 5 0 0 1000 [[tick 5]] [] [tick 5]))).
    simpl. lia.
Defined.

(** *** The order of the merge *)

(** The output order of a merge: ascending for the forward merge,
    descending for the backward one. *)
Definition dir_le (dir : direction) (a b : TimeSeriesValue) : Prop :=
  match dir with
  | AKU_CURSOR_DIR_FORWARD => time_le a b
  | AKU_CURSOR_DIR_BACKWARD => time_le b a
  end.

(** The heap property of [boost::heap::skew_heap]: no item below a node
    compares above it. *)
Fixpoint heap_ordered (comp : HeapItem -> HeapItem -> bool) (h : skew_heap) : Prop :=
  match h with
  | Leaf => True
  | Node l x r =>
      Forall (fun y => comp x y = false) (heap_items l ++ heap_items r)
      /\ heap_ordered comp l /\ heap_ordered comp r
  end.

(** A consumer together with the record of the values it accepted. *)
Definition logged {St} (cons : St -> TimeSeriesValue -> bool * St)
    (s : St * list TimeSeriesValue) (v : TimeSeriesValue)
    : bool * (St * list TimeSeriesValue) :=
  let '(go_on, st') := cons s.1 v in
  (go_on, (st', if go_on then s.2 ++ [v] else s.2)).

Lemma tsv_lt_true (a b : TimeSeriesValue) :
  tsv_lt a b = true
  <-> key_ts_ a < key_ts_ b \/ (key_ts_ a = key_ts_ b /\ key_id_ a < key_id_ b).
Proof.
  unfold tsv_lt.
  rewrite orb_true_iff, andb_true_iff, !Z.ltb_lt, Z.eqb_eq. reflexivity.
Qed.

Lemma tsv_lt_false (a b : TimeSeriesValue) :
  tsv_lt a b = false
  <-> key_ts_ b < key_ts_ a \/ (key_ts_ b = key_ts_ a /\ key_id_ b <= key_id_ a).
Proof.
  rewrite <- not_true_iff_false, tsv_lt_true. lia.
Qed.

Lemma item_lt_false (x y : HeapItem) :
  item_lt x y = false
  <-> tsv_lt y.1 x.1 = true \/ (tsv_lt x.1 y.1 = false /\ (y.2 <= x.2)%nat).
Proof.
  unfold item_lt.
  rewrite orb_false_iff, andb_false_iff, negb_false_iff, Nat.ltb_ge.
  destruct (tsv_lt x.1 y.1) eqn:E1, (tsv_lt y.1 x.1) eqn:E2;
    try (apply tsv_lt_true in E1); try (apply tsv_lt_true in E2);
    try (apply tsv_lt_false in E1); try (apply tsv_lt_false in E2);
    split; intros; try lia; try tauto;
    repeat match goal with
           | H : _ /\ _ |- _ => destruct H
           | H : _ \/ _ |- _ => destruct H
           end; try discriminate; try lia; auto.
Qed.

Lemma time_le_refl (a : TimeSeriesValue) : time_le a a.
Proof. unfold time_le. rewrite tsv_lt_false. lia. Qed.

Lemma time_le_trans (a b c : TimeSeriesValue) :
  time_le a b -> time_le b c -> time_le a c.
Proof. unfold time_le. rewrite !tsv_lt_false. lia. Qed.

Lemma time_le_total (a b : TimeSeriesValue) : time_le a b \/ time_le b a.
Proof. unfold time_le. rewrite !tsv_lt_false. lia. Qed.

Lemma tsv_lt_time_le (a b : TimeSeriesValue) : tsv_lt a b = true -> time_le a b.
Proof. unfold time_le. rewrite tsv_lt_true, tsv_lt_false. lia. Qed.

#[local] Instance dir_le_trans (dir : direction) : Transitive (dir_le dir).
Proof.
  intros a b c. destruct dir; simpl; intros H1 H2;
    eauto using time_le_trans.
Qed.

Lemma item_lt_asym (x y : HeapItem) : item_lt x y = true -> item_lt y x = false.
Proof.
  intros H. apply item_lt_false.
  destruct (item_lt y x) eqn:E; [| apply item_lt_false in E; exact E].
  exfalso. unfold item_lt in H, E.
  apply orb_true_iff in H, E.
  rewrite andb_true_iff, negb_true_iff, Nat.ltb_lt in H, E.
  rewrite !tsv_lt_true, !tsv_lt_false in H, E. lia.
Qed.

Lemma item_lt_ntrans (x y z : HeapItem) :
  item_lt x y = false -> item_lt y z = false -> item_lt x z = false.
Proof.
  rewrite !item_lt_false, !tsv_lt_true, !tsv_lt_false. lia.
Qed.

Lemma comp_asym (dir : direction) (x y : HeapItem) :
  TimeOrderMergePredicate dir x y = true ->
  TimeOrderMergePredicate dir y x = false.
Proof. destruct dir; simpl; apply item_lt_asym. Qed.

Lemma comp_ntrans (dir : direction) (x y z : HeapItem) :
  TimeOrderMergePredicate dir x y = false ->
  TimeOrderMergePredicate dir y z = false ->
  TimeOrderMergePredicate dir x z = false.
Proof.
  destruct dir; simpl; intros H1 H2.
  - exact (item_lt_ntrans z y x H2 H1).
  - exact (item_lt_ntrans x y z H1 H2).
Qed.

Lemma comp_le (dir : direction) (x y : HeapItem) :
  TimeOrderMergePredicate dir x y = false -> dir_le dir x.1 y.1.
Proof.
  destruct dir; simpl; unfold time_le;
    rewrite item_lt_false, tsv_lt_true, !tsv_lt_false; lia.
Qed.

Lemma comp_succ (dir : direction) (v p : TimeSeriesValue) (i : nat) :
  dir_le dir v p -> TimeOrderMergePredicate dir (v, i) (p, i) = false.
Proof.
  destruct dir; simpl; unfold time_le;
    rewrite item_lt_false, tsv_lt_true, !tsv_lt_false; simpl; lia.
Qed.

Lemma merge_nodes_ordered_gen (comp : HeapItem -> HeapItem -> bool)
    (a b : skew_heap) :
  (forall x y, comp x y = true -> comp y x = false) ->
  (forall x y z, comp x y = false -> comp y z = false -> comp x z = false) ->
  heap_ordered comp a -> heap_ordered comp b ->
  heap_ordered comp (merge_nodes comp a b).
Proof.
  intros Hasym Hntrans.
  funelim (merge_nodes comp a b); simp merge_nodes; intros Ha Hb; try assumption.
  destruct Ha as (Ha1 & Hal & Har). destruct Hb as (Hb1 & Hbl & Hbr).
  destruct (comp x1 x2) eqn:Ec; cbn [heap_ordered].
  - split; [| split; [apply H; auto; cbn [heap_ordered]; auto | exact Hbl]].
    rewrite heap_items_merge. cbn [heap_items].
    apply Forall_app in Hb1 as [Hb1l Hb1r].
    repeat (apply Forall_app; split); try assumption.
    apply Forall_cons. split; [apply Hasym, Ec |].
    rewrite (Permutation_app_comm (heap_items r1)).
    eapply Forall_impl; [exact Ha1 |]. intros y Hy. cbn beta in Hy.
    eapply Hntrans; [apply Hasym, Ec | exact Hy].
  - split; [| split; [apply H0; auto; cbn [heap_ordered]; auto | exact Hal]].
    rewrite heap_items_merge. cbn [heap_items].
    apply Forall_app in Ha1 as [Ha1l Ha1r].
    repeat (apply Forall_app; split); try assumption.
    apply Forall_cons. split; [exact Ec |].
    rewrite (Permutation_app_comm (heap_items r2)).
    eapply Forall_impl; [exact Hb1 |]. intros y Hy. cbn beta in Hy.
    eapply Hntrans; [exact Ec | exact Hy].
Qed.

Lemma merge_nodes_ordered (dir : direction) (a b : skew_heap) :
  heap_ordered (TimeOrderMergePredicate dir) a ->
  heap_ordered (TimeOrderMergePredicate dir) b ->
  heap_ordered (TimeOrderMergePredicate dir) (merge_nodes (TimeOrderMergePredicate dir) a b).
Proof.
  apply merge_nodes_ordered_gen; [apply comp_asym | apply comp_ntrans].
Qed.

Lemma heap_push_ordered (dir : direction) (item : HeapItem) (h : skew_heap) :
  heap_ordered (TimeOrderMergePredicate dir) h ->
  heap_ordered (TimeOrderMergePredicate dir)
    (heap_push (TimeOrderMergePredicate dir) item h).
Proof.
  intros Hh. apply merge_nodes_ordered; [exact Hh |].
  cbn [heap_ordered heap_items app]. auto.
Qed.

Lemma init_heap_ordered (dir : direction) (ranges : list (list TimeSeriesValue)) :
  forall (index : nat) (heap : skew_heap),
    heap_ordered (TimeOrderMergePredicate dir) heap ->
    heap_ordered (TimeOrderMergePredicate dir)
      (init_heap (TimeOrderMergePredicate dir) ranges index heap).1.
Proof.
  induction ranges as [| range rest IH]; intros index heap Hh; simpl.
  - exact Hh.
  - destruct range as [| value range'].
    + specialize (IH (S index) heap Hh).
      destruct (init_heap _ rest (S index) heap) as [h rs]. exact IH.
    + specialize (IH (S index) _ (heap_push_ordered dir (value, index) heap Hh)).
      destruct (init_heap _ rest (S index) _) as [h rs]. exact IH.
Qed.

Lemma Sorted_all_above {A} (R : A -> A -> Prop) `{!Transitive R}
    (b x : A) (l : list A) :
  R b x -> Sorted R (x :: l) -> Forall (R b) (x :: l).
Proof.
  intros Hb Hs. apply Sorted_StronglySorted in Hs; [| assumption].
  apply StronglySorted_inv in Hs as [_ Hall].
  constructor; [exact Hb |].
  eapply Forall_impl; [exact Hall |]. intros y Hy. etransitivity; eassumption.
Qed.

Lemma remaining_runs_above (dir : direction) (ranges : list (list TimeSeriesValue))
    (b : TimeSeriesValue) (items : list HeapItem) :
  Forall (fun item => dir_le dir b item.1) items ->
  Forall (fun item => Sorted (dir_le dir) (remaining_run ranges item)) items ->
  Forall (dir_le dir b) (concat (map (remaining_run ranges) items)).
Proof.
  induction items as [| it items IH]; intros Hb Hs; cbn [map concat].
  - constructor.
  - apply Forall_cons in Hb as [Hbi Hb]. apply Forall_cons in Hs as [Hsi Hs].
    apply Forall_app. split; [| apply IH; assumption].
    unfold remaining_run in *.
    apply Sorted_all_above; [apply _ | exact Hbi | exact Hsi].
Qed.

Section OrderFacts.

Context {St : Type}.
Variable cons : St -> TimeSeriesValue -> bool * St.
Variable dir : direction.



(** The loop hands the consumer the heap's items in output order, and
    what it leaves in the rebuilt runs comes after everything it handed
    out. *)
Lemma kway_loop_order (fuel : nat) :
  forall (heap : skew_heap) (ranges : list (list TimeSeriesValue))
         (st : St) (log : list TimeSeriesValue) (runs' : list SortedRun)
         (st' : St) (log' : list TimeSeriesValue),
    NoDup (map snd (heap_items heap)) ->
    heap_ordered (TimeOrderMergePredicate dir) heap ->
    Forall (fun item => Sorted (dir_le dir) (remaining_run ranges item))
      (heap_items heap) ->
    kway_loop (logged cons) (TimeOrderMergePredicate dir) fuel heap ranges (st, log) = Some (runs', (st', log')) ->
    kway_loop cons (TimeOrderMergePredicate dir) fuel heap ranges st = Some (runs', st')
    /\ exists out,
         log' = log ++ out
         /\ Sorted (dir_le dir) out
         /\ (forall x y, x ∈ out -> y ∈ concat runs' -> dir_le dir x y)
         /\ (forall b, Forall (fun item => dir_le dir b item.1) (heap_items heap) ->
                       Forall (dir_le dir b) (out ++ concat runs')).
Proof.
  induction fuel as [| fuel IH];
    intros heap ranges st log runs' st' log' Hnd Hord Hrem Hrun; [discriminate |].
  cbn [kway_loop] in Hrun |- *. destruct heap as [| l item r].
  { injection Hrun as <- <- <-. split; [reflexivity |].
    exists []. rewrite app_nil_r. repeat split; auto.
    - intros x y Hx. inversion Hx. }
  unfold logged at 1 in Hrun. cbn [fst snd] in Hrun.
  destruct (cons st item.1) as [go_on st1].
  destruct go_on; cbn [negb] in Hrun |- *.
  2:{ injection Hrun as <- <- <-. split; [reflexivity |].
      exists []. rewrite app_nil_r. split; [reflexivity |].
      split; [constructor |]. split; [intros x y Hx; inversion Hx |].
      intros b Hb. cbn [app].
      exact (remaining_runs_above dir ranges b (heap_items (Node l item r)) Hb Hrem). }
  assert (Hrest : heap_items (merge_nodes (TimeOrderMergePredicate dir) l r) ≡ₚ heap_items r ++ heap_items l).
  { rewrite heap_items_merge. apply Permutation_app_comm. }
  cbn [heap_items map] in Hnd, Hrem.
  apply NoDup_cons in Hnd as [Hni Hnd].
  apply Forall_cons in Hrem as [Hri Hrem].
  destruct Hord as (Hroot & Hol & Hor).
  rewrite (Permutation_app_comm (heap_items l)) in Hroot.
  assert (Hom : heap_ordered (TimeOrderMergePredicate dir) (merge_nodes (TimeOrderMergePredicate dir) l r))
    by (apply merge_nodes_ordered; assumption).
  (* what the recursive call gives, whichever branch is taken *)
  assert (Hstep : forall heap2 ranges2,
             NoDup (map snd (heap_items heap2)) ->
             heap_ordered (TimeOrderMergePredicate dir) heap2 ->
             Forall (fun it => Sorted (dir_le dir) (remaining_run ranges2 it))
               (heap_items heap2) ->
             Forall (fun it => dir_le dir item.1 it.1) (heap_items heap2) ->
             kway_loop (logged cons) (TimeOrderMergePredicate dir) fuel heap2 ranges2 (st1, log ++ [item.1])
             = Some (runs', (st', log')) ->
             kway_loop cons (TimeOrderMergePredicate dir) fuel heap2 ranges2 st1 = Some (runs', st')
             /\ exists out,
                  log' = log ++ out
                  /\ Sorted (dir_le dir) out
                  /\ (forall x y, x ∈ out -> y ∈ concat runs' -> dir_le dir x y)
                  /\ (forall b, Forall (fun it => dir_le dir b it.1)
                                  (item :: heap_items heap2) ->
                                Forall (dir_le dir b) (out ++ concat runs'))).
  { intros heap2 ranges2 Hnd2 Hord2 Hrem2 Hge2 Hrun2.
    destruct (IH _ _ _ _ _ _ _ Hnd2 Hord2 Hrem2 Hrun2)
      as (Hplain & out & Hlog & Hsorted & Hsep & Hlow).
    split; [exact Hplain |].
    exists (item.1 :: out). split; [rewrite Hlog, <- app_assoc; reflexivity |].
    pose proof (Hlow item.1 Hge2) as Hall.
    apply Forall_app in Hall as [Hall_out Hall_runs].
    split; [| split].
    - constructor; [exact Hsorted |].
      destruct out as [| o out]; constructor.
      apply Forall_cons in Hall_out as [Ho _]. exact Ho.
    - intros x y Hx Hy. apply elem_of_cons in Hx as [-> | Hx].
      + exact (proj1 (Forall_forall _ _) Hall_runs y Hy).
      + exact (Hsep x y Hx Hy).
    - intros b Hb. apply Forall_cons in Hb as [Hbi Hb].
      cbn [app]. constructor; [exact Hbi |]. apply Hlow.
      eapply Forall_impl; [exact Hge2 |]. intros it Hit. cbn beta in Hit.
      etransitivity; eassumption. }
  assert (Hge_rest : Forall (fun it => dir_le dir item.1 it.1)
                       (heap_items (merge_nodes (TimeOrderMergePredicate dir) l r))).
  { rewrite Hrest. eapply Forall_impl; [exact Hroot |].
    intros y Hy. apply comp_le. exact Hy. }
  destruct (ranges !! item.2) as [[| point range'] |] eqn:El.
  - destruct (Hstep (merge_nodes (TimeOrderMergePredicate dir) l r) ranges) as (Hplain & out & H1 & H2 & H3 & H4);
      try assumption.
    + rewrite (Permutation_map snd Hrest). exact Hnd.
    + rewrite Hrest. exact Hrem.
    + split; [exact Hplain |]. exists out. repeat split; try assumption.
      intros b Hb. apply H4. cbn [heap_items] in Hb.
      apply Forall_cons in Hb as [Hb1 Hb2]. constructor; [exact Hb1 |].
      rewrite Hrest. exact Hb2.
  - assert (Hle_point : dir_le dir item.1 point).
    { unfold remaining_run in Hri. rewrite El in Hri. cbn [default] in Hri.
      apply Sorted_inv in Hri as [_ Hhd]. apply HdRel_inv in Hhd. exact Hhd. }
    destruct (Hstep (heap_push (TimeOrderMergePredicate dir) (point, item.2) (merge_nodes (TimeOrderMergePredicate dir) l r))
                (<[item.2 := range']> ranges))
      as (Hplain & out & H1 & H2 & H3 & H4); try assumption.
    + rewrite (Permutation_map snd (heap_items_push _ _ _)). cbn [map snd].
      rewrite (Permutation_map snd Hrest). apply NoDup_cons. split; assumption.
    + apply heap_push_ordered. exact Hom.
    + rewrite heap_items_push, Hrest. apply Forall_cons. split.
      * unfold remaining_run in *. cbn [fst snd] in *.
        rewrite list_lookup_insert_eq by (eapply lookup_lt_Some; exact El).
        rewrite El in Hri. cbn [default] in *.
        apply Sorted_inv in Hri as [Hri _]. exact Hri.
      * apply (proj1 (Forall_map (remaining_run _) (Sorted (dir_le dir)) _)).
        rewrite remaining_run_insert_ne by exact Hni.
        apply (proj2 (Forall_map (remaining_run _) (Sorted (dir_le dir)) _)).
        exact Hrem.
    + rewrite heap_items_push. constructor; [exact Hle_point | exact Hge_rest].
    + split; [exact Hplain |]. exists out. repeat split; try assumption.
      intros b Hb. apply H4. cbn [heap_items] in Hb.
      apply Forall_cons in Hb as [Hb1 Hb2]. constructor; [exact Hb1 |].
      rewrite heap_items_push, Hrest. constructor; [| exact Hb2].
      cbn [fst]. etransitivity; [exact Hb1 | exact Hle_point].
  - destruct (Hstep (merge_nodes (TimeOrderMergePredicate dir) l r) ranges) as (Hplain & out & H1 & H2 & H3 & H4);
      try assumption.
    + rewrite (Permutation_map snd Hrest). exact Hnd.
    + rewrite Hrest. exact Hrem.
    + split; [exact Hplain |]. exists out. repeat split; try assumption.
      intros b Hb. apply H4. cbn [heap_items] in Hb.
      apply Forall_cons in Hb as [Hb1 Hb2]. constructor; [exact Hb1 |].
      rewrite Hrest. exact Hb2.
Qed.

End OrderFacts.

Lemma Sorted_flip_rev {A} (R : A -> A -> Prop) (l : list A) :
  Sorted R l -> Sorted (flip R) (rev l).
Proof.
  induction 1 as [| x l Hs IH Hhd]; cbn [rev]; [constructor |].
  apply Sorted_snoc; [exact IH |].
  destruct Hhd as [| y l' Hxy]; cbn [rev]; [constructor |].
  apply TlRel_cons. exact Hxy.
Qed.

Lemma make_range_sorted (dir : direction) (run : SortedRun) :
  monotonic run -> Sorted (dir_le dir) (make_range dir run).
Proof.
  intros Hm. destruct dir; cbn [make_range]; [exact Hm |].
  apply (Sorted_flip_rev time_le run Hm).
Qed.

(** The plain run and the run with the record take the same steps. *)
Lemma kway_merge_order {St} (dir : direction)
    (cons : St -> TimeSeriesValue -> bool * St) (runs : list SortedRun)
    (st : St) (log : list TimeSeriesValue) (runs' : list SortedRun)
    (st' : St) (log' : list TimeSeriesValue) :
  Forall monotonic runs ->
  kway_merge dir (logged cons) runs (st, log) = Some (runs', (st', log')) ->
  kway_merge dir cons runs st = Some (runs', st')
  /\ exists out,
       log' = log ++ out
       /\ Sorted (dir_le dir) out
       /\ (forall x y, x ∈ out -> y ∈ concat runs' -> dir_le dir x y)
       /\ out ++ concat runs' ≡ₚ concat runs.
Proof.
  intros Hsorted Hrun.
  assert (Hcontent : log' ++ concat runs' ≡ₚ log ++ concat runs).
  { refine (proj2 (kway_merge_content dir (logged cons) snd (fun _ => True) _
                     runs (st, log) runs' (st', log') I Hrun)).
    intros [s l] v _. split; [exact I |]. unfold logged. cbn [fst snd].
    destruct (cons s v) as [[] s1]; cbn [fst snd]; [| reflexivity].
    symmetry. apply Permutation_cons_append. }
  unfold kway_merge in *.
  pose proof (init_heap_spec (TimeOrderMergePredicate dir)
                (map (make_range dir) runs) 0 Leaf) as [Hr Hh].
  pose proof (init_heap_ordered dir (map (make_range dir) runs) 0 Leaf I) as Ho.
  destruct (init_heap _ _ _ _) as [heap ranges]. cbn [fst snd] in Hr, Hh, Ho.
  rewrite app_nil_r in Hh. subst ranges.
  apply kway_loop_order in Hrun as (Hplain & out & Hlog & Hs & Hsep & _);
    [| rewrite (Permutation_map snd Hh); apply fronts_NoDup | exact Ho |].
  - split; [exact Hplain |]. exists out. repeat split; try assumption.
    subst log'. rewrite <- app_assoc in Hcontent.
    apply Permutation_app_inv_l in Hcontent. exact Hcontent.
  - rewrite Hh. apply Forall_forall. intros item Hin.
    apply fronts_lookup in Hin as (j & t & Hj & Hl).
    unfold remaining_run. simpl in Hj. rewrite Hj, list_lookup_fmap, Hl.
    cbn [fmap option_fmap option_map default tail].
    rewrite list_lookup_fmap in Hl.
    destruct (runs !! j) as [run |] eqn:Erun; [| discriminate].
    cbn [fmap option_fmap option_map] in Hl. injection Hl as Hl. unfold id. rewrite <- Hl.
    apply make_range_sorted.
    eapply Forall_lookup_1 in Hsorted; [exact Hsorted | exact Erun].
Qed.

(** X3.  Every merge of sorted runs reaches its end, hands the
    consumer the values in output order (ascending in time for the
    forward merge, descending for the backward one) and, when the
    consumer interrupts it, leaves in [runs] only values that come after
    every value the consumer accepted; no value is lost or made up. *)
Theorem kway_merge_in_order {St} (dir : direction)
    (cons : St -> TimeSeriesValue -> bool * St) (runs : list SortedRun) (st : St) :
  Forall monotonic runs ->
  exists runs' st' out,
    kway_merge dir cons runs st = Some (runs', st')
    /\ kway_merge dir (logged cons) runs (st, []) = Some (runs', (st', out))
    /\ Sorted (dir_le dir) out
    /\ (forall x y, x ∈ out -> y ∈ concat runs' -> dir_le dir x y)
    /\ out ++ concat runs' ≡ₚ concat runs.
Proof.
  intros Hsorted.
  destruct (kway_merge_total dir (logged cons) runs (st, []))
    as [[runs' [st' log']] Hrun].
  destruct (kway_merge_order dir cons runs st [] runs' st' log' Hsorted Hrun)
    as (Hplain & out & Hlog & Hs & Hsep & Hperm).
  cbn [app] in Hlog. subst log'.
  exists runs', st', out. auto.
Qed.

(** *** Facts about the runs the Sequencer keeps *)

(** Where [std::lower_bound] stops: at the end of the range, or at an
    element the predicate turns down; this holds on any range, partitioned
    or not. *)
Lemma lower_bound_loop_stop {A} (comp : A -> bool) (l : list A) (d : A) (fuel : nat) :
  forall first len : nat,
    (len <= fuel)%nat ->
    lower_bound_loop comp l d fuel first len = (first + len)%nat
    \/ comp (nth (lower_bound_loop comp l d fuel first len) l d) = false.
Proof.
  induction fuel as [| fuel IH]; intros first len Hlen; cbn [lower_bound_loop].
  - left. lia.
  - destruct len as [| len']; [left; lia |].
    pose proof (Nat.le_div2 len') as Hhalf.
    set (half := Nat.div2 (S len')) in *.
    destruct (comp (nth (first + half) l d)) eqn:Ec.
    + destruct (IH (S (first + half)) (S len' - half - 1)%nat ltac:(lia))
        as [Hr | Hr]; [left; rewrite Hr; lia | right; exact Hr].
    + destruct (IH first half ltac:(lia)) as [Hr | Hr];
        [right; rewrite Hr; exact Ec | right; exact Hr].
Qed.

Lemma lower_bound_stop {A} (comp : A -> bool) (l : list A) (d : A) :
  lower_bound comp l d = length l
  \/ ((lower_bound comp l d < length l)%nat
      /\ comp (nth (lower_bound comp l d) l d) = false).
Proof.
  pose proof (lower_bound_le comp l d) as Hle.
  destruct (lower_bound_loop_stop comp l d (length l) 0 (length l) (Nat.le_refl _))
    as [Hr | Hr]; [left; exact Hr |].
  destruct (Nat.eq_dec (lower_bound comp l d) (length l)) as [He | Hne];
    [left; exact He | right].
  split; [| exact Hr].
  destruct (proj1 (Nat.lt_eq_cases _ _) Hle) as [Hlt | Heq];
    [exact Hlt | contradiction].
Qed.

(** On a range the predicate partitions, [std::lower_bound] returns the
    partition point. *)
Lemma lower_bound_loop_partition {A} (comp : A -> bool) (l : list A) (d : A)
    (fuel : nat) :
  (forall i j, (i <= j < length l)%nat ->
               comp (nth j l d) = true -> comp (nth i l d) = true) ->
  forall first len : nat,
    (len <= fuel)%nat -> (first + len <= length l)%nat ->
    (forall i, (i < first)%nat -> comp (nth i l d) = true) ->
    (forall i, (first + len <= i < length l)%nat -> comp (nth i l d) = false) ->
    (forall i, (i < lower_bound_loop comp l d fuel first len)%nat ->
               comp (nth i l d) = true)
    /\ (forall i, (lower_bound_loop comp l d fuel first len <= i < length l)%nat ->
                  comp (nth i l d) = false).
Proof.
  intros Hmono.
  induction fuel as [| fuel IH]; intros first len Hlen Hin Hlo Hhi;
    cbn [lower_bound_loop].
  - split; [exact Hlo |]. intros i Hi. apply Hhi. lia.
  - destruct len as [| len']; [split; [exact Hlo | intros i Hi; apply Hhi; lia] |].
    pose proof (Nat.le_div2 len') as Hhalf.
    set (half := Nat.div2 (S len')) in *.
    destruct (comp (nth (first + half) l d)) eqn:Ec.
    + apply IH; [lia | lia | | intros i Hi; apply Hhi; lia].
      intros i Hi. apply (Hmono i (first + half)%nat); [lia | exact Ec].
    + apply IH; [lia | lia | exact Hlo |].
      intros i Hi.
      destruct (comp (nth i l d)) eqn:Ei; [| reflexivity].
      rewrite (Hmono (first + half)%nat i ltac:(lia) Ei) in Ec. discriminate.
Qed.

Lemma StronglySorted_nth {A} (R : A -> A -> Prop) `{!Reflexive R}
    (l : list A) (d : A) :
  StronglySorted R l ->
  forall i j, (i <= j < length l)%nat -> R (nth i l d) (nth j l d).
Proof.
  induction 1 as [| x l Hs IH Hall]; intros i j Hij; cbn [length] in Hij; [lia |].
  destruct i as [| i], j as [| j]; cbn [nth]; try lia.
  - reflexivity.
  - eapply (proj1 (Forall_forall _ _) Hall). apply list_elem_of_In, nth_In. lia.
  - apply IH. lia.
Qed.

#[local] Instance time_le_Reflexive : Reflexive time_le := time_le_refl.
#[local] Instance time_le_Transitive : Transitive time_le := time_le_trans.

Lemma tsv_lt_below (a b key : TimeSeriesValue) :
  time_le a b -> tsv_lt b key = true -> tsv_lt a key = true.
Proof. unfold time_le. rewrite tsv_lt_false, !tsv_lt_true. lia. Qed.

(** On a sorted run the split point of [make_checkpoint_] has the values
    below the key before it and the others from it on. *)
Lemma lower_bound_sorted (run : SortedRun) (key : TimeSeriesValue) :
  monotonic run ->
  Forall (fun x => tsv_lt x key = true)
    (take (lower_bound (fun x => tsv_lt x key) run tsv_default) run)
  /\ Forall (fun x => tsv_lt x key = false)
       (drop (lower_bound (fun x => tsv_lt x key) run tsv_default) run).
Proof.
  intros Hm. apply Sorted_StronglySorted in Hm; [| apply _].
  pose proof (lower_bound_le (fun x => tsv_lt x key) run tsv_default) as Hle.
  destruct (lower_bound_loop_partition (fun x => tsv_lt x key) run tsv_default
              (length run)) with (first := 0%nat) (len := length run)
    as [Hlo Hhi]; try lia.
  { intros i j Hij Hj. cbn beta in *.
    eapply tsv_lt_below; [| exact Hj].
    apply StronglySorted_nth; [apply _ | exact Hm | exact Hij]. }
  fold (lower_bound (fun x => tsv_lt x key) run tsv_default) in Hlo, Hhi.
  set (it := lower_bound _ run tsv_default) in *.
  split; apply Forall_lookup; intros i x Hx.
  - apply lookup_take_Some in Hx as [Hx Hi].
    rewrite <- (nth_lookup_Some run i tsv_default x Hx). apply Hlo. exact Hi.
  - rewrite lookup_drop in Hx.
    rewrite <- (nth_lookup_Some run (it + i) tsv_default x Hx). apply Hhi.
    split; [lia |]. eapply lookup_lt_Some. exact Hx.
Qed.

Lemma Sorted_app_inv {A} (R : A -> A -> Prop) (l1 l2 : list A) :
  Sorted R (l1 ++ l2) -> Sorted R l1 /\ Sorted R l2.
Proof.
  induction l1 as [| x l1 IH]; cbn [app]; intros Hs; [split; [constructor | exact Hs] |].
  apply Sorted_inv in Hs as [Hs Hhd]. destruct (IH Hs) as [H1 H2].
  split; [| exact H2]. constructor; [exact H1 |].
  destruct l1; [constructor |]. apply HdRel_inv in Hhd. constructor. exact Hhd.
Qed.

Lemma monotonic_take_drop (n : nat) (run : SortedRun) :
  monotonic run -> monotonic (take n run) /\ monotonic (drop n run).
Proof.
  intros Hm. apply (Sorted_app_inv time_le). rewrite take_drop. exact Hm.
Qed.

Lemma monotonic_snoc (run : SortedRun) (v : TimeSeriesValue) :
  monotonic run -> tsv_lt v (back run) = false -> monotonic (run ++ [v]).
Proof.
  intros Hm Hv. apply Sorted_snoc; [exact Hm |].
  destruct run as [| x run _] using rev_ind; [constructor |].
  apply TlRel_cons. unfold back in Hv. rewrite last_last in Hv. exact Hv.
Qed.

Section RunFacts.

Variable AKU_LIMITS_MAX_ID : Z.

Lemma checkpoint_fold_sorted (old_top : Z) (runs : list SortedRun) :
  forall new_runs ready : list SortedRun,
    Forall monotonic runs -> Forall monotonic new_runs -> Forall monotonic ready ->
    Forall monotonic
      (fold_left (checkpoint_step AKU_LIMITS_MAX_ID old_top) runs (new_runs, ready)).1
    /\ Forall monotonic
         (fold_left (checkpoint_step AKU_LIMITS_MAX_ID old_top) runs (new_runs, ready)).2.
Proof.
  induction runs as [| run runs IH]; intros new_runs ready Hruns Hnew Hready;
    cbn [fold_left]; [split; assumption |].
  apply Forall_cons in Hruns as [Hrun Hruns].
  destruct (monotonic_take_drop
              (lower_bound (fun x => tsv_lt x (mkTSV old_top AKU_LIMITS_MAX_ID 0))
                 run tsv_default) run Hrun) as [Htake Hdrop].
  unfold checkpoint_step at 2 4.
  destruct (_ =? 0)%nat; [| destruct (_ =? length run)%nat]; apply IH;
    try assumption; apply Forall_app; split; try assumption;
    constructor; try assumption; constructor.
Qed.

(** The sealed runs hold the values below the boundary, the runs that stay
    hold the others. *)
Lemma checkpoint_fold_boundary (old_top : Z) (runs : list SortedRun) :
  let key := mkTSV old_top AKU_LIMITS_MAX_ID 0 in
  forall new_runs ready sealed : list SortedRun,
    Forall monotonic runs ->
    Forall (fun x => tsv_lt x key = false) (concat new_runs) ->
    Forall (fun x => tsv_lt x key = true) (concat sealed) ->
    exists sealed',
      (fold_left (checkpoint_step AKU_LIMITS_MAX_ID old_top) runs
         (new_runs, ready ++ sealed)).2 = ready ++ sealed'
      /\ Forall (fun x => tsv_lt x key = true) (concat sealed')
      /\ Forall (fun x => tsv_lt x key = false)
           (concat (fold_left (checkpoint_step AKU_LIMITS_MAX_ID old_top) runs
                      (new_runs, ready ++ sealed)).1).
Proof.
  intros key.
  induction runs as [| run runs IH]; intros new_runs ready sealed Hruns Hnew Hsealed;
    cbn [fold_left].
  - exists sealed. auto.
  - apply Forall_cons in Hruns as [Hrun Hruns].
    destruct (lower_bound_sorted run key Hrun) as [Htake Hdrop].
    fold key.
    pose proof (lower_bound_le (fun x => tsv_lt x key) run tsv_default) as Hle.
    unfold checkpoint_step at 2 4. fold key.
    set (it := lower_bound (fun x => tsv_lt x key) run tsv_default) in *.
    destruct (Nat.eqb_spec it 0) as [H0 | H0];
      [| destruct (Nat.eqb_spec it (length run)) as [Hl | Hl]].
    + apply IH; try assumption.
      rewrite concat_app. apply Forall_app. split; [exact Hnew |].
      cbn [concat]. rewrite app_nil_r. rewrite H0, drop_0 in Hdrop. exact Hdrop.
    + rewrite <- app_assoc. apply IH; try assumption.
      rewrite concat_app. apply Forall_app. split; [exact Hsealed |].
      cbn [concat]. rewrite app_nil_r.
      rewrite Hl, firstn_all in Htake. exact Htake.
    + rewrite <- app_assoc. apply IH; try assumption.
      * rewrite concat_app. apply Forall_app. split; [exact Hnew |].
        cbn [concat]. rewrite app_nil_r. exact Hdrop.
      * rewrite concat_app. apply Forall_app. split; [exact Hsealed |].
        cbn [concat]. rewrite app_nil_r. exact Htake.
Qed.

End RunFacts.

Section AddFacts.

Variable AKU_LIMITS_MAX_ID : Z.

(** The two ways [make_checkpoint_] returns: the sealed runs stay in the
    ready set and the flag is odd, or they go back behind the runs and the
    flag is even. *)
Lemma make_checkpoint_cases (s : Sequencer) (new_checkpoint flag : Z) (s' : Sequencer) :
  make_checkpoint_ AKU_LIMITS_MAX_ID s new_checkpoint = Some (flag, s') ->
  let r := fold_left (checkpoint_step AKU_LIMITS_MAX_ID
                        (get_timestamp_ s (checkpoint_ s)))
             (runs_ s) ([], ready_ s) in
  Z.even (sequence_number_ s) = true
  /\ ((c_threshold_ s <= run_sizes r.2 /\ Z.odd flag = true
       /\ runs_ s' = r.1 /\ ready_ s' = r.2)
      \/ (run_sizes r.2 < c_threshold_ s /\ Z.even flag = true
          /\ runs_ s' = r.1 ++ r.2 /\ ready_ s' = []))
  /\ flag = sequence_number_ s'
  /\ checkpoint_ s' = new_checkpoint
  /\ window_size_ s' = window_size_ s
  /\ top_timestamp_ s' = top_timestamp_ s
  /\ c_threshold_ s' = c_threshold_ s
  /\ key_ s' = key_ s.
Proof.
  unfold make_checkpoint_, fetch_add1.
  rewrite rem2_odd, <- Z.negb_even, wrap_int32_succ_even, negb_involutive.
  destruct (Z.even (sequence_number_ s)) eqn:Heven; [| discriminate].
  change (get_timestamp_ (set_sequence_number s _) (checkpoint_ _))
    with (get_timestamp_ s (checkpoint_ s)).
  cbn [runs_ ready_ set_checkpoint set_sequence_number].
  destruct (fold_left _ (runs_ s) ([], ready_ s)) as [new_runs ready].
  cbn [c_threshold_ set_ready set_runs set_checkpoint set_sequence_number fst snd].
  destruct (Z.ltb_spec (run_sizes ready) (c_threshold_ s)) as [Hlt | Hge];
    intros Heq; apply (inj Some) in Heq;
    pose proof (f_equal fst Heq) as Hf; pose proof (f_equal snd Heq) as Hs;
    cbn [fst snd] in Hf, Hs; subst flag s';
    cbn [sequence_number_ ready_ runs_ checkpoint_ window_size_ top_timestamp_
         c_threshold_ key_ set_ready set_runs set_checkpoint set_sequence_number].
  - split; [reflexivity |]. split; [right | repeat split].
    repeat split; try assumption.
    rewrite !wrap_int32_succ_even, Heven. reflexivity.
  - split; [reflexivity |]. split; [left | repeat split].
    repeat split; try assumption.
    rewrite <- Z.negb_even, wrap_int32_succ_even, Heven. reflexivity.
Qed.

(** What [check_timestamp_] leaves of the Sequencer when it lets the write
    through. *)
Lemma check_timestamp_cases (s : Sequencer) (ts : Z) (status : aku_Status)
    (lock : Z) (s1 : Sequencer) :
  check_timestamp_ AKU_LIMITS_MAX_ID s ts = Some (status, lock, s1) ->
  (status = AKU_ELATE_WRITE /\ lock = 0 /\ s1 = s
   /\ ts < top_timestamp_ s /\ window_size_ s < top_timestamp_ s - ts)
  \/ (status = AKU_SUCCESS /\ lock = 0 /\ s1 = s
      /\ ts < top_timestamp_ s /\ top_timestamp_ s - ts <= window_size_ s)
  \/ (status = AKU_SUCCESS /\ lock = 0 /\ s1 = set_top_timestamp s ts
      /\ top_timestamp_ s <= ts)
  \/ (status = AKU_SUCCESS /\ top_timestamp_ s <= ts
      /\ window_size_ s <> 0
      /\ exists s', make_checkpoint_ AKU_LIMITS_MAX_ID s (ts / window_size_ s)
                    = Some (lock, s')
                    /\ s1 = set_top_timestamp s' ts).
Proof.
  unfold check_timestamp_, get_checkpoint_.
  destruct (Z.ltb_spec ts (top_timestamp_ s)) as [Hlt | Hge].
  - rewrite Z.gtb_ltb.
    destruct (Z.ltb_spec (window_size_ s) (top_timestamp_ s - ts)) as [Hl | Hl];
      intros [= <- <- <-]; [left | right; left]; repeat split; assumption.
  - destruct (Z.eqb_spec (window_size_ s) 0) as [H0 | H0]; [discriminate |].
    cbn [mbind option_bind]. rewrite Z.gtb_ltb.
    destruct (checkpoint_ s <? ts / window_size_ s).
    + destruct (make_checkpoint_ _ s _) as [[flag s'] |] eqn:Emk; [| discriminate].
      cbn [mbind option_bind]. intros [= <- <- <-].
      right; right; right. repeat split; try assumption.
      exists s'. split; reflexivity.
    + intros [= <- <- <-]. right; right; left. repeat split; assumption.
Qed.

(** What [add] does to the runs once [check_timestamp_] has let the write
    through: the value is the new last element of a run whose last element
    is not above it, or it opens a run of its own behind the others. *)
Lemma add_insert_cases (s1 : Sequencer) (v : TimeSeriesValue) :
  let run_ix := lower_bound
                  (fun x => top_element_more x (removelast (key_ s1) ++ [v]))
                  (runs_ s1) [] in
  (run_ix = length (runs_ s1)
   \/ exists run, runs_ s1 !! run_ix = Some run /\ tsv_lt v (back run) = false).
Proof.
  intros run_ix.
  destruct (lower_bound_stop
              (fun x => top_element_more x (removelast (key_ s1) ++ [v]))
              (runs_ s1) []) as [He | [Hlt Hc]]; [left; exact He | right].
  destruct (lookup_lt_is_Some_2 (runs_ s1) _ Hlt) as [run Hrun].
  exists run. split; [exact Hrun |].
  pose proof (nth_lookup_Some _ _ [] run Hrun) as Hn.
  assert (Hc' : top_element_more run (removelast (key_ s1) ++ [v]) = false)
    by (rewrite <- Hn; exact Hc).
  unfold top_element_more, top_element_less, back in Hc'.
  rewrite last_last in Hc'. exact Hc'.
Qed.

Lemma add_cases (s : Sequencer) (v : TimeSeriesValue) (status : aku_Status)
    (lock : Z) (s' : Sequencer) :
  add AKU_LIMITS_MAX_ID s v = Some (status, lock, s') ->
  exists s1,
    check_timestamp_ AKU_LIMITS_MAX_ID s (key_ts_ v) = Some (status, lock, s1)
    /\ ((status <> AKU_SUCCESS /\ s' = s1)
        \/ (status = AKU_SUCCESS
            /\ ready_ s' = ready_ s1 /\ window_size_ s' = window_size_ s1
            /\ top_timestamp_ s' = top_timestamp_ s1
            /\ sequence_number_ s' = sequence_number_ s1
            /\ checkpoint_ s' = checkpoint_ s1
            /\ c_threshold_ s' = c_threshold_ s1
            /\ (runs_ s' = runs_ s1 ++ [[v]]
                \/ exists i run,
                     runs_ s1 !! i = Some run /\ tsv_lt v (back run) = false
                     /\ runs_ s' = alter (fun run => run ++ [v]) i (runs_ s1)))).
Proof.
  unfold add.
  destruct (check_timestamp_ _ s (key_ts_ v)) as [[[st lk] s1] |]; [| discriminate].
  cbn [mbind option_bind].
  destruct (decide (st = AKU_SUCCESS)) as [-> | Hne].
  2:{ intros [= <- <- <-]. exists s1. split; [reflexivity |]. left. auto. }
  cbn [runs_ set_key].
  pose proof (add_insert_cases s1 v) as Hcase. cbn zeta in Hcase.
  destruct (Nat.eqb_spec
              (lower_bound (fun x => top_element_more x (removelast (key_ s1) ++ [v]))
                 (runs_ s1) [])
              (length (runs_ s1))) as [He | Hne]; cbn [negb];
    intros Heq; apply (inj Some) in Heq;
    pose proof (f_equal (fun x => x.1.1) Heq) as H1;
    pose proof (f_equal (fun x => x.1.2) Heq) as H2;
    pose proof (f_equal snd Heq) as H3; cbn [fst snd] in H1, H2, H3;
    subst status lock s'; exists s1; (split; [reflexivity |]); right;
    (split; [reflexivity |]); repeat (split; [reflexivity |]).
  - left. reflexivity.
  - right. destruct Hcase as [He | (run & Hrun & Hv)]; [contradiction |].
    eexists _, run. split; [exact Hrun |]. split; [exact Hv | reflexivity].
Qed.

(** X4.  The Sequencer keeps its runs sorted: when every run of
    [runs_] and of the ready set is in time order, it is so after [add],
    whatever [add] answers. *)
Theorem add_keeps_runs_sorted (s : Sequencer) (v : TimeSeriesValue)
    (status : aku_Status) (lock : Z) (s' : Sequencer) :
  Forall monotonic (runs_ s) -> Forall monotonic (ready_ s) ->
  add AKU_LIMITS_MAX_ID s v = Some (status, lock, s') ->
  Forall monotonic (runs_ s') /\ Forall monotonic (ready_ s').
Proof.
  intros Hruns Hready Hadd.
  apply add_cases in Hadd as (s1 & Hcheck & Hadd).
  assert (H1 : Forall monotonic (runs_ s1) /\ Forall monotonic (ready_ s1)).
  { apply check_timestamp_cases in Hcheck
      as [(_ & _ & -> & _) | [(_ & _ & -> & _) | [(_ & _ & -> & _)
          | (_ & _ & _ & s2 & Hmk & ->)]]]; try (split; assumption).
    apply make_checkpoint_cases in Hmk as (_ & Hcase & _). cbn zeta in Hcase.
    destruct (checkpoint_fold_sorted AKU_LIMITS_MAX_ID
                (get_timestamp_ s (checkpoint_ s)) (runs_ s) [] (ready_ s)
                Hruns (List.Forall_nil _) Hready) as [Hf1 Hf2].
    cbn [runs_ ready_ set_top_timestamp].
    destruct Hcase as [(_ & _ & -> & ->) | (_ & _ & -> & ->)].
    - split; assumption.
    - split; [apply Forall_app; split; assumption | constructor]. }
  destruct H1 as [Hr1 Hd1].
  destruct Hadd as [[_ ->] | (_ & -> & _ & _ & _ & _ & _ & Hins)];
    [split; assumption |].
  split; [| exact Hd1].
  destruct Hins as [-> | (i & run & Hrun & Hv & ->)].
  - apply Forall_app. split; [exact Hr1 |]. repeat constructor.
  - apply Forall_alter; [exact Hr1 |]. intros run' Hrun' Hm.
    rewrite Hrun in Hrun'. injection Hrun' as <-.
    apply monotonic_snoc; assumption.
Qed.

(** The two outcomes of [add]: the write is turned down and nothing
    changes, or the value joins the samples held. *)
Lemma add_two_outcomes (s : Sequencer) (v : TimeSeriesValue)
    (status : aku_Status) (lock : Z) (s' : Sequencer) :
  add AKU_LIMITS_MAX_ID s v = Some (status, lock, s') ->
  (status = AKU_ELATE_WRITE /\ lock = 0 /\ s' = s
   /\ window_size_ s < top_timestamp_ s - key_ts_ v)
  \/ (status = AKU_SUCCESS
      /\ concat (runs_ s') ++ concat (ready_ s')
         ≡ₚ v :: concat (runs_ s) ++ concat (ready_ s)
      /\ top_timestamp_ s' = Z.max (top_timestamp_ s) (key_ts_ v)
      /\ (key_ts_ v < top_timestamp_ s ->
          top_timestamp_ s - key_ts_ v <= window_size_ s)
      /\ window_size_ s' = window_size_ s
      /\ c_threshold_ s' = c_threshold_ s).
Proof.
  intros Hadd.
  apply add_cases in Hadd as (s1 & Hcheck & Hadd).
  assert (Hcheck' :
            (status = AKU_ELATE_WRITE /\ lock = 0 /\ s1 = s
             /\ window_size_ s < top_timestamp_ s - key_ts_ v)
            \/ (status = AKU_SUCCESS
                /\ concat (runs_ s1) ++ concat (ready_ s1)
                   ≡ₚ concat (runs_ s) ++ concat (ready_ s)
                /\ top_timestamp_ s1 = Z.max (top_timestamp_ s) (key_ts_ v)
                /\ (key_ts_ v < top_timestamp_ s ->
                    top_timestamp_ s - key_ts_ v <= window_size_ s)
                /\ window_size_ s1 = window_size_ s
                /\ c_threshold_ s1 = c_threshold_ s)).
  { apply check_timestamp_cases in Hcheck
      as [(-> & -> & -> & Hlt & Hw) | [(-> & -> & -> & Hlt & Hw)
          | [(-> & -> & -> & Hge) | (-> & Hge & HW & s2 & Hmk & ->)]]].
    - left. auto.
    - right. repeat split; try reflexivity; lia.
    - right. cbn [runs_ ready_ top_timestamp_ window_size_ c_threshold_
                  set_top_timestamp].
      repeat split; try reflexivity; lia.
    - right. apply make_checkpoint_cases in Hmk
        as (_ & Hcase & _ & _ & Hw & _ & Hc & _). cbn zeta in Hcase.
      destruct (checkpoint_fold AKU_LIMITS_MAX_ID
                  (get_timestamp_ s (checkpoint_ s)) (runs_ s) [] (ready_ s))
        as [_ Hperm]. cbn [concat app] in Hperm.
      cbn [runs_ ready_ top_timestamp_ window_size_ c_threshold_ set_top_timestamp].
      split; [reflexivity |]. split.
      + destruct Hcase as [(_ & _ & -> & ->) | (_ & _ & -> & ->)].
        * rewrite Hperm. apply Permutation_app_comm.
        * cbn [concat]. rewrite app_nil_r, concat_app, Hperm.
          apply Permutation_app_comm.
      + repeat split; try assumption; lia. }
  destruct Hcheck' as [(-> & -> & -> & Hw) | (-> & Hperm & Htop & Hwin & Hw & Hc)].
  - left. destruct Hadd as [[_ ->] | [Hs _]]; [auto | discriminate].
  - right. destruct Hadd as [[Hne _] | (_ & Hrd & Hw' & Ht' & _ & _ & Hc' & Hins)];
      [contradiction |].
    split; [reflexivity |]. rewrite Hrd, Hw', Ht', Hc'.
    split; [| repeat split; assumption].
    rewrite <- Hperm.
    destruct Hins as [-> | (i & run & Hrun & _ & ->)].
    + rewrite concat_app. cbn [concat]. rewrite app_nil_r.
      rewrite <- app_assoc. cbn [app].
      rewrite <- Permutation_middle. reflexivity.
    + rewrite concat_alter_snoc by (eapply lookup_lt_Some; exact Hrun).
      reflexivity.
Qed.

(** X5.  [add] has two outcomes.  It turns the write down with
    [AKU_ELATE_WRITE] and flush token 0, and then the Sequencer is as it
    was and the value is more than [window_size_] behind
    [top_timestamp_].  Or it answers [AKU_SUCCESS], and then the value has
    joined the samples the Sequencer holds, none of which is lost or
    duplicated, and [top_timestamp_] is the larger of its old value and the
    timestamp written. *)
Theorem add_stores_or_rejects (s : Sequencer) (v : TimeSeriesValue)
    (status : aku_Status) (lock : Z) (s' : Sequencer) :
  add AKU_LIMITS_MAX_ID s v = Some (status, lock, s') ->
  (status = AKU_ELATE_WRITE /\ lock = 0 /\ s' = s
   /\ window_size_ s < top_timestamp_ s - key_ts_ v)
  \/ (status = AKU_SUCCESS
      /\ concat (runs_ s') ++ concat (ready_ s')
         ≡ₚ v :: concat (runs_ s) ++ concat (ready_ s)
      /\ top_timestamp_ s' = Z.max (top_timestamp_ s) (key_ts_ v)
      /\ (key_ts_ v < top_timestamp_ s ->
          top_timestamp_ s - key_ts_ v <= window_size_ s)
      /\ window_size_ s' = window_size_ s
      /\ c_threshold_ s' = c_threshold_ s).
Proof. exact (add_two_outcomes s v status lock s'). Qed.

(** X6.  What [make_checkpoint_] seals.  With the runs in time order,
    when it returns an odd flag the runs it has added to the ready set
    hold the values below the boundary [(old_top, AKU_LIMITS_MAX_ID)],
    [old_top] being the timestamp of the checkpoint it was entered with,
    the runs that stay hold the values not below it, and the ready set is
    no smaller than the compression threshold. *)
Theorem make_checkpoint_seals_below_boundary (s : Sequencer)
    (new_checkpoint flag : Z) (s' : Sequencer) :
  Forall monotonic (runs_ s) ->
  make_checkpoint_ AKU_LIMITS_MAX_ID s new_checkpoint = Some (flag, s') ->
  Z.odd flag = true ->
  let boundary := mkTSV (get_timestamp_ s (checkpoint_ s)) AKU_LIMITS_MAX_ID 0 in
  exists sealed,
    ready_ s' = ready_ s ++ sealed
    /\ Forall (fun x => tsv_lt x boundary = true) (concat sealed)
    /\ Forall (fun x => tsv_lt x boundary = false) (concat (runs_ s'))
    /\ c_threshold_ s <= run_sizes (ready_ s')
    /\ concat (runs_ s') ++ concat sealed ≡ₚ concat (runs_ s).
Proof.
  intros Hruns Hmk Hodd boundary.
  apply make_checkpoint_cases in Hmk as (_ & Hcase & _). cbn zeta in Hcase.
  destruct Hcase as [(Hth & _ & Hr & Hd) | (_ & Heven & _)].
  2:{ rewrite <- Z.negb_even, Heven in Hodd. discriminate. }
  destruct (checkpoint_fold_boundary AKU_LIMITS_MAX_ID
              (get_timestamp_ s (checkpoint_ s)) (runs_ s) [] (ready_ s) []
              Hruns (List.Forall_nil _) (List.Forall_nil _))
    as (sealed & Hsealed & Hbelow & Habove).
  rewrite app_nil_r in Hsealed, Habove.
  destruct (checkpoint_fold AKU_LIMITS_MAX_ID
              (get_timestamp_ s (checkpoint_ s)) (runs_ s) [] (ready_ s))
    as [_ Hperm]. cbn [concat app] in Hperm.
  exists sealed. rewrite Hd, Hr, Hsealed.
  split; [reflexivity |]. split; [exact Hbelow |]. split; [exact Habove |].
  split; [rewrite <- Hsealed; exact Hth |].
  rewrite Hsealed, concat_app in Hperm.
  apply (Permutation_app_inv_l (concat (ready_ s))).
  etransitivity; [| exact Hperm]. solve_Permutation.
Qed.

End AddFacts.

(** *** The order of the flush *)

Section LoggedFacts.

Context {St : Type}.
Variable cons : St -> TimeSeriesValue -> bool * St.
Variable comp : HeapItem -> HeapItem -> bool.
Variable taken : St -> list TimeSeriesValue.
Variable Q : St -> Prop.
Hypothesis cons_appends : forall st v,
  Q st ->
  Q (cons st v).2
  /\ taken (cons st v).2 = (if (cons st v).1 then taken st ++ [v] else taken st).

(** A consumer that keeps the values it accepted, in the order it accepted
    them, ends with the record of the run appended to what it held. *)
Lemma kway_loop_logged_taken (fuel : nat) :
  forall (heap : skew_heap) (ranges : list (list TimeSeriesValue))
         (st : St) (log : list TimeSeriesValue) (runs' : list SortedRun)
         (st' : St) (log' : list TimeSeriesValue),
    Q st ->
    kway_loop (logged cons) comp fuel heap ranges (st, log) = Some (runs', (st', log')) ->
    Q st' /\ exists out, log' = log ++ out /\ taken st' = taken st ++ out.
Proof.
  induction fuel as [| fuel IH]; intros heap ranges st log runs' st' log' HQ Hrun;
    [discriminate |].
  cbn [kway_loop] in Hrun. destruct heap as [| l item r].
  { injection Hrun as <- <- <-. split; [exact HQ |].
    exists []. rewrite !app_nil_r. auto. }
  unfold logged at 1 in Hrun. cbn [fst snd] in Hrun.
  destruct (cons_appends st item.1 HQ) as [HQ1 Htk].
  destruct (cons st item.1) as [go_on st1]. cbn [fst snd] in HQ1, Htk.
  destruct go_on; cbn [negb] in Hrun.
  2:{ injection Hrun as <- <- <-. split; [exact HQ1 |].
      exists []. rewrite !app_nil_r. auto. }
  assert (Hstep : forall heap2 ranges2,
             kway_loop (logged cons) comp fuel heap2 ranges2 (st1, log ++ [item.1])
             = Some (runs', (st', log')) ->
             Q st' /\ exists out, log' = log ++ out /\ taken st' = taken st ++ out).
  { intros heap2 ranges2 Hrun2.
    destruct (IH _ _ _ _ _ _ _ HQ1 Hrun2) as (HQ' & out & Hlog & Htaken).
    split; [exact HQ' |]. exists (item.1 :: out).
    rewrite Hlog, Htaken, Htk, <- !app_assoc. auto. }
  destruct (ranges !! item.2) as [[| point range'] |]; eapply Hstep; exact Hrun.
Qed.

End LoggedFacts.

(** The values a merge of sorted runs hands to a consumer that keeps what
    it accepts: appended in output order, and before everything left. *)
Lemma kway_merge_taken_order {St} (dir : direction)
    (cons : St -> TimeSeriesValue -> bool * St)
    (taken : St -> list TimeSeriesValue) (Q : St -> Prop) :
  (forall st v,
     Q st ->
     Q (cons st v).2
     /\ taken (cons st v).2 = (if (cons st v).1 then taken st ++ [v] else taken st)) ->
  forall (runs : list SortedRun) (st : St) (runs' : list SortedRun) (st' : St),
    Forall monotonic runs -> Q st ->
    kway_merge dir cons runs st = Some (runs', st') ->
    Q st'
    /\ exists out,
         taken st' = taken st ++ out
         /\ Sorted (dir_le dir) out
         /\ (forall x y, x ∈ out -> y ∈ concat runs' -> dir_le dir x y)
         /\ out ++ concat runs' ≡ₚ concat runs.
Proof.
  intros Hcons runs st runs' st' Hsorted HQ Hrun.
  destruct (kway_merge_total dir (logged cons) runs (st, []))
    as [[runs2 [st2 log2]] Hlogged].
  destruct (kway_merge_order dir cons runs st [] runs2 st2 log2 Hsorted Hlogged)
    as (Hplain & out & Hlog & Hs & Hsep & Hperm).
  rewrite Hrun in Hplain. injection Hplain as <- <-.
  cbn [app] in Hlog. subst log2.
  unfold kway_merge in Hlogged.
  destruct (init_heap _ _ _ _) as [heap ranges].
  destruct (kway_loop_logged_taken cons _ taken Q Hcons _ _ _ _ _ _ _ _ HQ Hlogged)
    as (HQ' & out' & Hout & Htaken).
  cbn [app] in Hout. subst out'.
  split; [exact HQ' |]. exists out. auto.
Qed.

(** *** What the consumer of a merge is offered *)

(** Values offered to a consumer one after the other, whatever it
    answers: the answers and the consumer's state at the end. *)
Fixpoint offers {St} (cons : St -> TimeSeriesValue -> bool * St) (st : St)
    (vs : list TimeSeriesValue) : list bool * St :=
  match vs with
  | [] => ([], st)
  | v :: vs' =>
      let '(ok, st1) := cons st v in
      let '(oks, st') := offers cons st1 vs' in
      (ok :: oks, st')
  end.

Lemma offers_app {St} (cons : St -> TimeSeriesValue -> bool * St)
    (vs ws : list TimeSeriesValue) :
  forall st,
    offers cons st (vs ++ ws)
    = ((offers cons st vs).1 ++ (offers cons (offers cons st vs).2 ws).1,
       (offers cons (offers cons st vs).2 ws).2).
Proof.
  induction vs as [| v vs IH]; intros st; cbn [app offers fst snd].
  - destruct (offers cons st ws). reflexivity.
  - destruct (cons st v) as [ok st1]. rewrite IH.
    destruct (offers cons st1 vs) as [oks st2]. cbn [fst snd].
    destruct (offers cons st2 ws). reflexivity.
Qed.

Lemma Sorted_snoc {A} (R : A -> A -> Prop) (l : list A) (v : A) :
  Sorted R l -> (forall x, x ∈ l -> R x v) -> Sorted R (l ++ [v]).
Proof.
  induction 1 as [| a l Hs IH Hhd]; intros Hall; cbn [app].
  - repeat constructor.
  - constructor.
    + apply IH. intros x Hx. apply Hall, list_elem_of_further, Hx.
    + destruct Hhd as [| b l Hab]; cbn [app]; constructor;
        [apply Hall, list_elem_of_here | exact Hab].
Qed.

(** The loop offers the consumer the values of the record, which it
    accepts, and after them at most one more, which it refuses: the one
    at the top of the heap, the first of the runs handed back. *)
Lemma kway_loop_logged_offers {St} (cons : St -> TimeSeriesValue -> bool * St)
    (comp : HeapItem -> HeapItem -> bool) (fuel : nat) :
  forall (heap : skew_heap) (ranges : list (list TimeSeriesValue))
         (st : St) (log : list TimeSeriesValue) (runs' : list SortedRun)
         (st' : St) (log' : list TimeSeriesValue),
    kway_loop (logged cons) comp fuel heap ranges (st, log) = Some (runs', (st', log')) ->
    exists out refused,
      log' = log ++ out
      /\ offers cons st (out ++ refused)
         = (replicate (length out) true ++ replicate (length refused) false, st')
      /\ ((refused = [] /\ runs' = [])
          \/ exists v run rest, refused = [v] /\ runs' = (v :: run) :: rest).
Proof.
  induction fuel as [| fuel IH]; intros heap ranges st log runs' st' log' Hrun;
    [discriminate |].
  cbn [kway_loop] in Hrun. destruct heap as [| l item r].
  { injection Hrun as <- <- <-. exists [], []. rewrite app_nil_r.
    split; [reflexivity |]. split; [reflexivity |]. left. split; reflexivity. }
  unfold logged at 1 in Hrun. cbn [fst snd] in Hrun.
  destruct (cons st item.1) as [go_on st1] eqn:Ec.
  destruct go_on; cbn [negb] in Hrun.
  2:{ injection Hrun as <- <- <-. exists [], [item.1]. rewrite app_nil_r.
      split; [reflexivity |]. split.
      - cbn [app offers length replicate]. rewrite Ec. reflexivity.
      - right. cbn [heap_items map]. unfold remaining_run at 1. eauto. }
  assert (Hstep : forall heap2 ranges2,
             kway_loop (logged cons) comp fuel heap2 ranges2 (st1, log ++ [item.1])
             = Some (runs', (st', log')) ->
             exists out refused,
               log' = log ++ out
               /\ offers cons st (out ++ refused)
                  = (replicate (length out) true ++ replicate (length refused) false,
                     st')
               /\ ((refused = [] /\ runs' = [])
                   \/ exists v run rest, refused = [v] /\ runs' = (v :: run) :: rest)).
  { intros heap2 ranges2 Hrun2.
    destruct (IH _ _ _ _ _ _ _ Hrun2) as (out & refused & Hlog & Hoff & Hend).
    exists (item.1 :: out), refused.
    split; [rewrite Hlog, <- app_assoc; reflexivity |].
    split; [| exact Hend].
    cbn [app offers length replicate]. rewrite Ec, Hoff. reflexivity. }
  destruct (ranges !! item.2) as [[| point range'] |]; eapply Hstep; exact Hrun.
Qed.

(** A merge of sorted runs offers the consumer the values in output
    order: those it accepts, and after them at most one that it refuses,
    which goes back to the runs with everything not yet offered. *)
Lemma kway_merge_offers {St} (dir : direction)
    (cons : St -> TimeSeriesValue -> bool * St) (runs : list SortedRun) (st : St) :
  Forall monotonic runs ->
  exists runs' st' out refused,
    kway_merge dir cons runs st = Some (runs', st')
    /\ offers cons st (out ++ refused)
       = (replicate (length out) true ++ replicate (length refused) false, st')
    /\ ((refused = [] /\ runs' = [])
        \/ exists v, refused = [v] /\ v ∈ concat runs')
    /\ Sorted (dir_le dir) (out ++ refused)
    /\ (forall x y, x ∈ out -> y ∈ concat runs' -> dir_le dir x y)
    /\ out ++ concat runs' ≡ₚ concat runs.
Proof.
  intros Hsorted.
  destruct (kway_merge_total dir (logged cons) runs (st, []))
    as [[runs' [st' log']] Hlogged].
  destruct (kway_merge_order dir cons runs st [] runs' st' log' Hsorted Hlogged)
    as (Hplain & out & Hlog & Hs & Hsep & Hperm).
  cbn [app] in Hlog. subst log'.
  unfold kway_merge in Hlogged.
  destruct (init_heap _ _ _ _) as [heap ranges].
  destruct (kway_loop_logged_offers cons _ _ _ _ _ _ _ _ _ Hlogged)
    as (out' & refused & Hout & Hoff & Hend).
  cbn [app] in Hout. subst out'.
  exists runs', st', out, refused.
  split; [exact Hplain |]. split; [exact Hoff |].
  assert (Hend' : (refused = [] /\ runs' = [])
                  \/ exists v, refused = [v] /\ v ∈ concat runs').
  { destruct Hend as [Hend | (v & run & rest & -> & ->)]; [left; exact Hend |].
    right. exists v. split; [reflexivity |]. cbn [concat app].
    apply list_elem_of_here. }
  split; [exact Hend' |]. split; [| split; [exact Hsep | exact Hperm]].
  destruct Hend' as [[-> _] | (v & -> & Hv)]; [rewrite app_nil_r; exact Hs |].
  apply Sorted_snoc; [exact Hs |]. intros x Hx. exact (Hsep x v Hx Hv).
Qed.

Lemma kway_merge_runs_monotonic {St}
    (cons : St -> TimeSeriesValue -> bool * St) (runs : list SortedRun) (st : St)
    (runs' : list SortedRun) (st' : St) :
  Forall monotonic runs ->
  kway_merge AKU_CURSOR_DIR_FORWARD cons runs st = Some (runs', st') ->
  Forall monotonic runs'.
Proof.
  intros Hsorted Hrun. unfold kway_merge in Hrun.
  pose proof (init_heap_spec (TimeOrderMergePredicate AKU_CURSOR_DIR_FORWARD)
                (map (make_range AKU_CURSOR_DIR_FORWARD) runs) 0 Leaf) as [Hr Hh].
  destruct (init_heap _ _ _ _) as [heap ranges]. cbn [fst snd] in Hr, Hh.
  rewrite app_nil_r in Hh. subst ranges.
  rewrite map_id in Hrun, Hh.
  eapply (kway_loop_runs cons _ monotonic monotonic_tail); [| | exact Hrun].
  - rewrite (Permutation_map snd Hh). apply fronts_NoDup.
  - rewrite Hh. apply Forall_forall. intros item Hin.
    apply fronts_lookup in Hin as (j & t & Hj & Hl).
    unfold remaining_run. simpl in Hj. rewrite Hj, list_lookup_fmap, Hl.
    simpl. eapply Forall_lookup_1 in Hsorted; [exact Hsorted | exact Hl].
Qed.

Lemma push_to_header_appends (st : Z * UncompressedChunk) (v : TimeSeriesValue) :
  chunk_wf st.2 ->
  chunk_wf (push_to_header st v).2.2
  /\ chunk_run (push_to_header st v).2.2
     = (if (push_to_header st v).1 then chunk_run st.2 ++ [v] else chunk_run st.2).
Proof.
  destruct st as [threshold c]. intros Hwf. unfold push_to_header.
  destruct (threshold >? 0); cbn [fst snd].
  - exact (chunk_run_add v c Hwf).
  - split; [exact Hwf | reflexivity].
Qed.

Lemma monotonic_app (l1 l2 : list TimeSeriesValue) :
  monotonic l1 -> monotonic l2 ->
  (forall x y, x ∈ l1 -> y ∈ l2 -> time_le x y) ->
  monotonic (l1 ++ l2).
Proof.
  intros H1 H2 Hsep.
  apply StronglySorted_Sorted, StronglySorted_app_2; [exact Hsep | |];
    apply Sorted_StronglySorted; (apply _ || assumption).
Qed.

Section FlushOrder.

Context {Page : Type}.
Variable complete_chunk : Page -> UncompressedChunk -> aku_Status * Page.
Variable convert_from_time_order : UncompressedChunk -> option UncompressedChunk.

Lemma compress_loop_order (enforce_write : bool) (c_threshold : Z) (fuel : nat) :
  forall (ready : list SortedRun) (page : Page) (log : FlushLog)
         (status : aku_Status) (ready' : list SortedRun) (page' : Page)
         (log' : FlushLog),
    Forall monotonic ready ->
    compress_loop complete_chunk convert_from_time_order fuel enforce_write
      c_threshold ready page log = Some (status, ready', page', log') ->
    exists new,
      log' = log ++ new
      /\ monotonic (flushed new)
      /\ Forall monotonic ready'
      /\ (forall x y, x ∈ flushed new -> y ∈ concat ready' -> time_le x y)
      /\ flushed new ++ concat ready' ≡ₚ concat ready.
Proof.
  induction fuel as [| fuel IH];
    intros ready page log status ready' page' log' Hsorted Hrun.
  - destruct ready; [| discriminate]. injection Hrun as <- <- <- <-.
    exists []. rewrite app_nil_r. repeat split; auto; try constructor.
    intros x y Hx. inversion Hx.
  - destruct ready as [| run ready0].
    { injection Hrun as <- <- <- <-.
      exists []. rewrite app_nil_r. repeat split; auto; try constructor.
      intros x y Hx. inversion Hx. }
    cbn [compress_loop] in Hrun. set (ready := run :: ready0) in *.
    destruct (kway_merge AKU_CURSOR_DIR_FORWARD push_to_header ready
                (wrap_int32 c_threshold, empty_chunk))
      as [[ready1 [threshold chunk_header]] |] eqn:Ek; [| discriminate].
    cbn [mbind option_bind] in Hrun.
    assert (Hwf0 : chunk_wf (wrap_int32 c_threshold, empty_chunk).2)
      by (split; reflexivity).
    pose proof (kway_merge_runs_monotonic _ _ _ _ _ Hsorted Ek) as Hsorted1.
    destruct (kway_merge_taken_order AKU_CURSOR_DIR_FORWARD push_to_header
                (fun st => chunk_run st.2) (fun st => chunk_wf st.2)
                push_to_header_appends _ _ _ _ Hsorted Hwf0 Ek)
      as (_ & out & Hout & Hs & Hsep & Hperm).
    cbn [fst snd] in Hout.
    change (chunk_run empty_chunk) with (@nil TimeSeriesValue) in Hout.
    cbn [app] in Hout. cbn [dir_le] in Hs, Hsep.
    assert (Hback : Forall monotonic (ready1 ++ [chunk_run chunk_header])).
    { apply Forall_app. split; [exact Hsorted1 |].
      constructor; [| constructor]. rewrite Hout. exact Hs. }
    assert (Hback_perm : concat (ready1 ++ [chunk_run chunk_header]) ≡ₚ concat ready).
    { rewrite concat_app. cbn [concat]. rewrite app_nil_r, Hout.
      rewrite Permutation_app_comm. exact Hperm. }
    destruct (enforce_write || (c_threshold <=? Z.of_nat (length (paramids chunk_header)))).
    + destruct (convert_from_time_order chunk_header) as [reindexed |];
        [| discriminate].
      cbn [mbind option_bind] in Hrun.
      destruct (complete_chunk page reindexed) as [st page1].
      destruct (decide (st = AKU_SUCCESS)) as [-> | Hne].
      * apply IH in Hrun as (new & Hlog & Hm & Hr' & Hsep' & Hperm'); [| exact Hsorted1].
        exists ((chunk_header, AKU_SUCCESS) :: new).
        split; [rewrite Hlog, <- app_assoc; reflexivity |].
        assert (Hfl : flushed ((chunk_header, AKU_SUCCESS) :: new) = out ++ flushed new).
        { unfold flushed. cbn [map concat fst snd].
          rewrite decide_True by reflexivity. rewrite Hout. reflexivity. }
        rewrite Hfl.
        assert (Hin1 : forall y, y ∈ flushed new ++ concat ready' -> y ∈ concat ready1).
        { intros y Hy. rewrite <- Hperm'. exact Hy. }
        split; [| split; [exact Hr' | split]].
        -- apply monotonic_app; [exact Hs | exact Hm |].
           intros x y Hx Hy. apply (Hsep x y Hx). apply Hin1.
           apply elem_of_app. left. exact Hy.
        -- intros x y Hx Hy. apply elem_of_app in Hx as [Hx | Hx].
           ++ apply (Hsep x y Hx). apply Hin1. apply elem_of_app. right. exact Hy.
           ++ exact (Hsep' x y Hx Hy).
        -- rewrite <- app_assoc, Hperm'. exact Hperm.
      * injection Hrun as <- <- <- <-.
        exists [(chunk_header, st)]. split; [reflexivity |].
        assert (Hfl : flushed [(chunk_header, st)] = []).
        { unfold flushed. cbn [map concat fst snd].
          rewrite decide_False by exact Hne. reflexivity. }
        rewrite Hfl. split; [constructor |]. split; [exact Hback |].
        split; [intros x y Hx; inversion Hx | exact Hback_perm].
    + injection Hrun as <- <- <- <-.
      exists []. rewrite app_nil_r. split; [reflexivity |].
      split; [constructor |]. split; [exact Hback |].
      split; [intros x y Hx; inversion Hx | exact Hback_perm].
Qed.

(** X7.  The ready set reaches the page in time order.  With every
    run of the ready set sorted, the samples of the chunks the page took
    in one call of [merge_and_compress], chunk after chunk, are in
    non-decreasing time order; what the call puts back behind [runs_] is
    sorted runs, none of whose samples is older than a sample flushed. *)
Theorem merge_and_compress_in_order (s : Sequencer) (target : Page)
    (enforce_write : bool) (status : aku_Status) (s' : Sequencer)
    (page' : Page) (log : FlushLog) :
  Forall monotonic (ready_ s) ->
  merge_and_compress complete_chunk convert_from_time_order s target enforce_write
  = Some (status, s', page', log) ->
  monotonic (flushed log)
  /\ exists rest,
       runs_ s' = runs_ s ++ rest
       /\ Forall monotonic rest
       /\ (forall x y, x ∈ flushed log -> y ∈ concat rest -> time_le x y).
Proof.
  intros Hsorted. unfold merge_and_compress.
  assert (Hnil : monotonic (flushed []) /\
                 exists rest : list SortedRun,
                   runs_ s = runs_ s ++ rest /\ Forall monotonic rest
                   /\ (forall x y, x ∈ flushed [] -> y ∈ concat rest -> time_le x y)).
  { split; [constructor |]. exists []. rewrite app_nil_r.
    repeat split; [constructor |]. intros x y Hx. inversion Hx. }
  destruct (negb (negb (Z.rem (sequence_number_ s) 2 =? 0)));
    [intros [= <- <- <- <-]; exact Hnil |].
  destruct (length (ready_ s) =? 0)%nat; [intros [= <- <- <- <-]; exact Hnil |].
  destruct (compress_loop _ _ _ _ _ _ _ _) as [[[[st ready] page1] log1] |] eqn:El;
    [| discriminate].
  cbn [mbind option_bind]. intros Hrun.
  apply compress_loop_order in El as (new & Hlog & Hm & Hr' & Hsep & _);
    [| exact Hsorted].
  cbn [app] in Hlog. subst log1.
  assert (Hs' : runs_ s' = runs_ s ++ ready /\ log = new).
  { destruct ready; injection Hrun as <- <- <- <-; split; try reflexivity.
    cbn [runs_ set_ready set_runs set_sequence_number]. rewrite app_nil_r.
    reflexivity. }
  destruct Hs' as [Hruns ->].
  split; [exact Hm |]. exists ready. auto.
Qed.

End FlushOrder.

(** *** close and reset *)

(** What [reset] and [close] begin with: every run goes behind the ready
    set, [runs_] is cleared and the sequence number is set to 1. *)
Definition seal_all (s : Sequencer) : Sequencer :=
  set_sequence_number (set_runs (set_ready s (ready_ s ++ runs_ s)) []) 1.

(** [Sequencer::reset] *)
Definition reset (s : Sequencer) : Z * Sequencer := (1, seal_all s).

Section Close.

Context {Page : Type}.
Variable complete_chunk : Page -> UncompressedChunk -> aku_Status * Page.
Variable convert_from_time_order : UncompressedChunk -> option UncompressedChunk.

(** [Sequencer::close] *)
Definition close (s : Sequencer) (target : Page)
    : option (aku_Status * Sequencer * Page * FlushLog) :=
  let s1 := seal_all s in
  if negb (length (ready_ s1) =? 0)%nat
  then merge_and_compress complete_chunk convert_from_time_order s1 target true
  else Some (AKU_SUCCESS, s1, target, []).

(** With [enforce_write] the loop stops short of an empty ready set only
    when the page turns a chunk down. *)
Lemma compress_loop_enforced (c_threshold : Z) (fuel : nat) :
  forall (ready : list SortedRun) (page : Page) (log : FlushLog)
         (status : aku_Status) (ready' : list SortedRun) (page' : Page)
         (log' : FlushLog),
    compress_loop complete_chunk convert_from_time_order fuel true
      c_threshold ready page log = Some (status, ready', page', log') ->
    (ready' = [] /\ status = AKU_SUCCESS)
    \/ exists pre c st, log' = log ++ pre ++ [(c, st)] /\ st <> AKU_SUCCESS.
Proof.
  induction fuel as [| fuel IH]; intros ready page log status ready' page' log' Hrun.
  - destruct ready; [| discriminate]. injection Hrun as <- <- <- <-. left. auto.
  - destruct ready as [| run ready0].
    { injection Hrun as <- <- <- <-. left. auto. }
    cbn [compress_loop] in Hrun.
    destruct (kway_merge _ _ _ _) as [[ready1 [threshold chunk_header]] |];
      [| discriminate].
    cbn [mbind option_bind orb] in Hrun.
    destruct (convert_from_time_order chunk_header) as [reindexed |];
      [| discriminate].
    cbn [mbind option_bind] in Hrun.
    destruct (complete_chunk page reindexed) as [st page1].
    destruct (decide (st = AKU_SUCCESS)) as [-> | Hne].
    + apply IH in Hrun as [Hdone | (pre & c & st & Hlog & Hst)]; [left; exact Hdone |].
      right. exists ((chunk_header, AKU_SUCCESS) :: pre), c, st.
      split; [rewrite Hlog, <- !app_assoc; reflexivity | exact Hst].
    + injection Hrun as <- <- <- <-. right.
      exists [], chunk_header, st. split; [reflexivity | exact Hne].
Qed.

(** X8.  [close] seals everything the Sequencer holds and flushes
    it with [enforce_write].  Whenever it returns, the ready set is empty
    and every sample the Sequencer held is in a chunk the page took or
    back in [runs_]; when the page took every chunk it was handed,
    nothing is left in the Sequencer and the answer is [AKU_SUCCESS].  The
    sequence number ends at 2, except on a Sequencer that held no sample:
    there nothing is flushed and it is left at 1.  [close] returns when
    the threshold is an [int] above zero and the conversion to chunk
    order does not fail. *)
Theorem close_flushes_everything (s : Sequencer) (target : Page) :
  (forall status s' page' log,
     close s target = Some (status, s', page', log) ->
     ready_ s' = []
     /\ concat (runs_ s') ++ flushed log ≡ₚ concat (ready_ s) ++ concat (runs_ s)
     /\ (Forall (fun e => e.2 = AKU_SUCCESS) log ->
         runs_ s' = [] /\ status = AKU_SUCCESS)
     /\ sequence_number_ s'
        = (if (length (ready_ s ++ runs_ s) =? 0)%nat then 1 else 2))
  /\ (0 < c_threshold_ s < 2 ^ 31 ->
      (forall c, is_Some (convert_from_time_order c)) ->
      is_Some (close s target)).
Proof.
  unfold close, merge_and_compress, seal_all.
  cbn [ready_ runs_ sequence_number_ c_threshold_ set_sequence_number set_runs set_ready].
  change (negb (Z.rem 1 2 =? 0)) with true. cbn [negb].
  destruct (length (ready_ s ++ runs_ s) =? 0)%nat eqn:Elen; cbn [negb].
  - split; [| intros; eexists; reflexivity].
    intros status s' page' log [= <- <- <- <-].
    cbn [ready_ runs_ sequence_number_ set_sequence_number set_runs set_ready].
    apply Nat.eqb_eq, length_zero_iff_nil in Elen.
    apply app_eq_nil in Elen as [-> ->].
    repeat split; auto.
  - split.
    + intros status s' page' log Hrun.
      destruct (compress_loop _ _ _ _ _ _ _ _) as [[[[st ready] page1] log1] |] eqn:El;
        [| discriminate].
      cbn [mbind option_bind] in Hrun.
      pose proof (compress_loop_enforced _ _ _ _ _ _ _ _ _ El) as Henf.
      apply compress_loop_spec in El as (oks & failed & Hlog & Hoks & Hperm & Hlast).
      cbn [app] in Hlog.
      assert (Hfl : flushed log1 = flushed oks).
      { rewrite Hlog, flushed_app.
        destruct Hlast as [[-> _] | (c & st0 & rest & -> & Hne & _)].
        - apply app_nil_r.
        - unfold flushed at 2. cbn [map concat fst snd].
          rewrite decide_False by exact Hne. apply app_nil_r. }
      assert (Hs' : ready_ s' = [] /\ runs_ s' = ready
                    /\ sequence_number_ s' = 2
                    /\ status = st /\ log = log1).
      { destruct ready; injection Hrun as <- <- <- <-; repeat split. }
      destruct Hs' as (Hrd & Hrn & Hsq & -> & ->).
      split; [exact Hrd |]. rewrite Hrn, Hfl.
      split; [rewrite concat_app in Hperm; rewrite Permutation_app_comm; exact Hperm |].
      split; [| exact Hsq].
      intros Hall. destruct Henf as [Hdone | (pre & c & st0 & Hlog' & Hst)];
        [exact Hdone |].
      exfalso. cbn [app] in Hlog'. rewrite Hlog' in Hall.
      apply Forall_app in Hall as [_ Hall].
      apply Forall_cons in Hall as [Hall _]. exact (Hst Hall).
    + intros HC Hconv.
      destruct (compress_loop_total complete_chunk convert_from_time_order true
                  (c_threshold_ s) HC Hconv
                  (S (total_size (ready_ s ++ runs_ s))) (ready_ s ++ runs_ s) target []
                  (Nat.lt_succ_diag_r _)) as [[[[st ready] page1] log1] ->].
      cbn [mbind option_bind]. destruct ready; eexists; reflexivity.
Qed.

End Close.

(** *** merge, filter and search *)

(** [aku_Sample] of akumuli.h, the fields [to_result] fills. *)
Record aku_Sample := mkSample {
  sample_timestamp : Z;
  sample_paramid : Z;
  payload_type : Z;
  payload_float64 : Z;
  payload_size : Z
}.

(** [std::upper_bound] as the standard library implements it; [comp x] is
    [val < x]. *)
Fixpoint upper_bound_loop {A} (comp : A -> bool) (l : list A) (d : A)
    (fuel first len : nat) : nat :=
  match fuel with
  | O => first
  | S fuel' =>
      match len with
      | O => first
      | _ =>
          let half := Nat.div2 len in
          let middle := (first + half)%nat in
          if comp (nth middle l d)
          then upper_bound_loop comp l d fuel' first half
          else upper_bound_loop comp l d fuel' (S middle) (len - half - 1)%nat
      end
  end.

Definition upper_bound {A} (comp : A -> bool) (l : list A) (d : A) : nat :=
  upper_bound_loop comp l d (length l) 0%nat (length l).

(** [Sequencer::filter]: the part of a run between [lowerbound] and
    [upperbound] is appended to [results]; an empty run adds nothing.
    [None] is the copy of a range whose end lies before its beginning,
    which the code does not guard against. *)
Definition filter (run : SortedRun) (lowerbound upperbound : Z)
    (results : list SortedRun) : option (list SortedRun) :=
  match run with
  | [] => Some results
  | _ =>
      let lkey := mkTSV lowerbound 0 0 in
      let rkey := mkTSV upperbound (2 ^ 64 - 1) 0 in
      let begin := lower_bound (fun x => tsv_lt x lkey) run tsv_default in
      let end_ := upper_bound (fun x => tsv_lt rkey x) run tsv_default in
      if (end_ <? begin)%nat then None
      else Some (results ++ [take (end_ - begin) (drop begin run)])
  end.

(** The loop of [search] over the runs. *)
Fixpoint filter_all (runs : list SortedRun) (lowerbound upperbound : Z)
    (filtered : list SortedRun) : option (list SortedRun) :=
  match runs with
  | [] => Some filtered
  | run :: runs' =>
      filtered' ← filter run lowerbound upperbound filtered;
      filter_all runs' lowerbound upperbound filtered'
  end.

(** [QP::IQueryProcessor], as far as [search] uses it: the range of the
    query, the filter on parameter ids ([true] is [PROCESS]), [put] and
    [set_error]. *)
Class IQueryProcessor (Query : Type) := {
  range_lowerbound : Query -> Z;
  range_upperbound : Query -> Z;
  range_is_backward : Query -> bool;
  filter_apply : Query -> Z -> bool;
  query_put : Query -> aku_Sample -> bool * Query;
  query_set_error : Query -> aku_Status -> Query
}.

Section WithSample.

(** [AKU_PAYLOAD_FLOAT] and [sizeof(aku_Sample)] of akumuli.h. *)
Variable AKU_PAYLOAD_FLOAT : Z.
Variable sizeof_aku_Sample : Z.

(** [TimeSeriesValue::to_result] *)
Definition to_result (val : TimeSeriesValue) : aku_Sample :=
  mkSample (key_ts_ val) (key_id_ val) AKU_PAYLOAD_FLOAT (value val) sizeof_aku_Sample.

Section Merge.

Context {Cur : Type} `{!Cursor.InternalCursor aku_Sample Cur}.

(** The lambda [consumer] of [merge]. *)
Definition merge_consumer (cur : Cur) (val : TimeSeriesValue) : bool * Cur :=
  Cursor.cursor_put cur (to_result val).

(** [Sequencer::merge] *)
Definition merge (s : Sequencer) (cur : Cur) : option (Sequencer * Cur) :=
  let owns_lock := negb (Z.rem (sequence_number_ s) 2 =? 0) in
  if negb owns_lock then Some (s, Cursor.cursor_set_error cur AKU_EBUSY)
  else if (length (ready_ s) =? 0)%nat then Some (s, Cursor.cursor_set_error cur AKU_ENO_DATA)
  else
    '(_, cur1) ← kway_merge AKU_CURSOR_DIR_FORWARD merge_consumer (ready_ s) cur;
    let s1 := set_ready s [] in
    let cur2 := Cursor.cursor_complete cur1 in
    let '(_, s2) := fetch_add1 s1 in
    Some (s2, cur2).

Lemma puts_merge_consumer (vs : list TimeSeriesValue) :
  forall cur : Cur,
    Cursor.puts cur (map to_result vs) = offers merge_consumer cur vs.
Proof.
  induction vs as [| v vs IH]; intros cur; cbn [map Cursor.puts offers];
    [reflexivity |].
  unfold merge_consumer at 1. destruct (Cursor.cursor_put cur (to_result v)) as [ok cur1].
  rewrite IH. reflexivity.
Qed.

(** X9.  [merge] hands the ready set to a cursor.  At an even
    sequence number the cursor is told [AKU_EBUSY], at an odd one with an
    empty ready set [AKU_ENO_DATA], and the Sequencer is left alone.
    Otherwise, the runs of the ready set being sorted, the cursor is put
    the samples of the ready set in time order, each as [to_result] makes
    it, as long as it answers [true]; the sample it answers [false] for
    is the last one it is put.  It is then completed.  The ready set is
    cleared whether or not the cursor took everything, so the sample it
    refused and those behind it are dropped; the sequence number moves on
    by one. *)
Theorem merge_feeds_cursor_in_order (s : Sequencer) (cur : Cur) :
  (Z.even (sequence_number_ s) = true ->
   merge s cur = Some (s, Cursor.cursor_set_error cur AKU_EBUSY))
  /\ (Z.odd (sequence_number_ s) = true -> ready_ s = [] ->
      merge s cur = Some (s, Cursor.cursor_set_error cur AKU_ENO_DATA))
  /\ (Z.odd (sequence_number_ s) = true -> ready_ s <> [] ->
      Forall monotonic (ready_ s) ->
      exists out refused dropped,
        merge s cur
        = Some (set_sequence_number (set_ready s [])
                  (wrap_int32 (sequence_number_ s + 1)),
                Cursor.cursor_complete
                  (Cursor.puts cur (map to_result (out ++ refused))).2)
        /\ (Cursor.puts cur (map to_result (out ++ refused))).1
           = replicate (length out) true ++ replicate (length refused) false
        /\ ((refused = [] /\ dropped = [])
            \/ exists v, refused = [v] /\ v ∈ dropped)
        /\ monotonic (out ++ refused)
        /\ (forall x y, x ∈ out -> y ∈ dropped -> time_le x y)
        /\ out ++ dropped ≡ₚ concat (ready_ s)).
Proof.
  unfold merge. rewrite rem2_odd, <- Z.negb_even.
  split; [| split].
  - intros ->. reflexivity.
  - intros Hodd Hnil. apply negb_true_iff in Hodd. rewrite Hodd, Hnil. reflexivity.
  - intros Hodd Hne Hsorted. apply negb_true_iff in Hodd. rewrite Hodd. cbn [negb].
    destruct (ready_ s) as [| run ready0] eqn:Er; [contradiction |].
    cbn [length Nat.eqb].
    destruct (kway_merge_offers AKU_CURSOR_DIR_FORWARD merge_consumer
                (run :: ready0) cur Hsorted)
      as (runs' & cur1 & out & refused & Hrun & Hoff & Hend & Hs & Hsep & Hperm).
    exists out, refused, (concat runs').
    rewrite Hrun, puts_merge_consumer, Hoff. cbn [mbind option_bind fst snd].
    split; [reflexivity |]. split; [reflexivity |].
    split; [| split; [exact Hs | split; [exact Hsep | exact Hperm]]].
    destruct Hend as [[-> ->] | Hend]; [left; split; reflexivity | right; exact Hend].
Qed.

End Merge.

Section Search.

Context {Query : Type} `{!IQueryProcessor Query}.

(** The lambda [consumer] of [search]. *)
Definition search_consumer (query : Query) (val : TimeSeriesValue) : bool * Query :=
  if filter_apply query (key_id_ val)
  then query_put query (to_result val)
  else (true, query).

(** [Sequencer::search].  The sequence number is read again after the
    merge; nothing in between writes it. *)
Definition search (s : Sequencer) (query : Query) (sequence_number : Z)
    : option Query :=
  let seq_id := sequence_number_ s in
  if negb (Z.rem seq_id 2 =? 0) || negb (sequence_number =? seq_id)
  then Some (query_set_error query AKU_EBUSY)
  else
    filtered ← filter_all (runs_ s) (range_lowerbound query)
                 (range_upperbound query) [];
    '(_, query') ←
      kway_merge (if range_is_backward query then AKU_CURSOR_DIR_BACKWARD
                  else AKU_CURSOR_DIR_FORWARD)
        search_consumer filtered query;
    if negb (seq_id =? sequence_number_ s)
    then Some (query_set_error query' AKU_EBUSY)
    else Some query'.

End Search.

End WithSample.

(** *** Facts about filter and search *)

Lemma upper_bound_loop_lower {A} (comp : A -> bool) (l : list A) (d : A) (fuel : nat) :
  forall first len,
    upper_bound_loop comp l d fuel first len
    = lower_bound_loop (fun x => negb (comp x)) l d fuel first len.
Proof.
  induction fuel as [| fuel IH]; intros first len; cbn [upper_bound_loop lower_bound_loop];
    [reflexivity |].
  destruct len as [| len']; [reflexivity |].
  destruct (comp _); cbn [negb]; apply IH.
Qed.

(** On a sorted run a binary search for a predicate that holds on a
    prefix returns the length of the prefix. *)
Lemma lower_bound_prefix (comp : TimeSeriesValue -> bool) (run : SortedRun) :
  (forall a b, time_le a b -> comp b = true -> comp a = true) ->
  monotonic run ->
  Forall (fun x => comp x = true) (take (lower_bound comp run tsv_default) run)
  /\ Forall (fun x => comp x = false) (drop (lower_bound comp run tsv_default) run).
Proof.
  intros Hcomp Hm. apply Sorted_StronglySorted in Hm; [| apply _].
  pose proof (lower_bound_le comp run tsv_default) as Hle.
  destruct (lower_bound_loop_partition comp run tsv_default
              (length run)) with (first := 0%nat) (len := length run)
    as [Hlo Hhi]; try lia.
  { intros i j Hij Hj.
    eapply Hcomp; [| exact Hj].
    apply StronglySorted_nth; [apply _ | exact Hm | exact Hij]. }
  fold (lower_bound comp run tsv_default) in Hlo, Hhi.
  set (it := lower_bound _ run tsv_default) in *.
  split; apply Forall_lookup; intros i x Hx.
  - apply lookup_take_Some in Hx as [Hx Hi].
    rewrite <- (nth_lookup_Some run i tsv_default x Hx). apply Hlo. exact Hi.
  - rewrite lookup_drop in Hx.
    rewrite <- (nth_lookup_Some run (it + i) tsv_default x Hx). apply Hhi.
    split; [lia |]. eapply lookup_lt_Some. exact Hx.
Qed.

(** The samples a query with the range [lowerbound .. upperbound] asks
    for. *)
Definition in_range (lowerbound upperbound : Z) (x : TimeSeriesValue) : bool :=
  (lowerbound <=? key_ts_ x) && (key_ts_ x <=? upperbound).

Lemma filter_true {A} (P : A -> bool) (l : list A) :
  Forall (fun x => P x = true) l -> List.filter P l = l.
Proof.
  induction 1 as [| x l Hx _ IH]; cbn [List.filter]; [reflexivity |].
  rewrite Hx, IH. reflexivity.
Qed.

Lemma filter_false {A} (P : A -> bool) (l : list A) :
  Forall (fun x => P x = false) l -> List.filter P l = [].
Proof.
  induction 1 as [| x l Hx _ IH]; cbn [List.filter]; [reflexivity |].
  rewrite Hx, IH. reflexivity.
Qed.

Definition id_ok (x : TimeSeriesValue) : Prop := 0 <= key_id_ x < 2 ^ 64.

Lemma filter_sorted_run (run : SortedRun) (lowerbound upperbound : Z)
    (results : list SortedRun) :
  monotonic run -> Forall id_ok run -> lowerbound <= upperbound ->
  filter run lowerbound upperbound results
  = Some (match run with
          | [] => results
          | _ => results ++ [List.filter (in_range lowerbound upperbound) run]
          end).
Proof.
  intros Hm Hid Hlu. unfold filter.
  destruct run as [| x0 run0]; [reflexivity |].
  set (run := x0 :: run0) in *.
  set (lkey := mkTSV lowerbound 0 0).
  set (rkey := mkTSV upperbound (2 ^ 64 - 1) 0).
  unfold upper_bound. rewrite upper_bound_loop_lower.
  fold (lower_bound (fun x => negb (tsv_lt rkey x)) run tsv_default).
  destruct (lower_bound_prefix (fun x => tsv_lt x lkey) run) as [Hb1 Hb2];
    [intros a b; apply tsv_lt_below | exact Hm |].
  destruct (lower_bound_prefix (fun x => negb (tsv_lt rkey x)) run) as [He1 He2];
    [| exact Hm |].
  { intros a b Hab. rewrite !negb_true_iff. unfold time_le in Hab.
    rewrite !tsv_lt_false in *. lia. }
  pose proof (lower_bound_le (fun x => tsv_lt x lkey) run tsv_default) as Hble.
  pose proof (lower_bound_le (fun x => negb (tsv_lt rkey x)) run tsv_default) as Hele.
  set (b := lower_bound (fun x => tsv_lt x lkey) run tsv_default) in *.
  set (e := lower_bound (fun x => negb (tsv_lt rkey x)) run tsv_default) in *.
  assert (Hbe : (b <= e)%nat).
  { destruct (Nat.le_gt_cases b e) as [Hle | Hgt]; [exact Hle | exfalso].
    destruct (lookup_lt_is_Some_2 run e ltac:(lia)) as [x Hx].
    assert (H1 : tsv_lt x lkey = true).
    { eapply Forall_lookup_1 in Hb1; [exact Hb1 |].
      apply lookup_take_Some. split; [exact Hx | exact Hgt]. }
    assert (H2 : negb (tsv_lt rkey x) = false).
    { eapply Forall_lookup_1 in He2; [exact He2 |].
      rewrite lookup_drop, Nat.add_0_r. exact Hx. }
    apply negb_false_iff in H2. apply tsv_lt_true in H1, H2.
    cbn [key_ts_ key_id_ lkey rkey] in H1, H2. lia. }
  destruct (Nat.ltb_spec e b) as [Hlt | _]; [lia |].
  f_equal. f_equal. f_equal.
  assert (Hsplit : run = take b run ++ take (e - b) (drop b run) ++ drop e run).
  { rewrite <- (take_drop b run) at 1. f_equal.
    rewrite <- (take_drop (e - b) (drop b run)) at 1. f_equal.
    rewrite drop_drop. f_equal. lia. }
  rewrite Hsplit at 2. rewrite !List.filter_app.
  assert (Hids : forall i x, run !! i = Some x -> id_ok x)
    by (intros i x Hx; eapply Forall_lookup_1; eassumption).
  rewrite (filter_false _ (take b run)), (filter_false _ (drop e run)),
    (filter_true _ (take (e - b) (drop b run))).
  - rewrite app_nil_r. reflexivity.
  - apply Forall_lookup. intros i x Hx.
    apply lookup_take_Some in Hx as [Hx Hi]. rewrite lookup_drop in Hx.
    pose proof (Hids _ _ Hx) as Hidx. unfold id_ok in Hidx.
    assert (H1 : tsv_lt x lkey = false).
    { eapply Forall_lookup_1 in Hb2; [exact Hb2 |]. rewrite lookup_drop. exact Hx. }
    assert (H2 : negb (tsv_lt rkey x) = true).
    { eapply Forall_lookup_1 in He1; [exact He1 |].
      apply lookup_take_Some. split; [exact Hx | lia]. }
    apply negb_true_iff in H2. apply tsv_lt_false in H1, H2.
    cbn [key_ts_ key_id_ lkey rkey] in H1, H2.
    unfold in_range. apply andb_true_iff. rewrite !Z.leb_le. lia.
  - apply Forall_lookup. intros i x Hx. rewrite lookup_drop in Hx.
    pose proof (Hids _ _ Hx) as Hidx. unfold id_ok in Hidx.
    assert (H2 : negb (tsv_lt rkey x) = false).
    { eapply Forall_lookup_1 in He2; [exact He2 |]. rewrite lookup_drop. exact Hx. }
    apply negb_false_iff in H2. apply tsv_lt_true in H2.
    cbn [key_ts_ key_id_ rkey] in H2.
    unfold in_range. apply andb_false_iff. rewrite !Z.leb_gt. lia.
  - apply Forall_lookup. intros i x Hx.
    apply lookup_take_Some in Hx as [Hx Hi].
    pose proof (Hids _ _ Hx) as Hidx. unfold id_ok in Hidx.
    assert (H1 : tsv_lt x lkey = true).
    { eapply Forall_lookup_1 in Hb1; [exact Hb1 |].
      apply lookup_take_Some. split; [exact Hx | exact Hi]. }
    apply tsv_lt_true in H1. cbn [key_ts_ key_id_ lkey] in H1.
    unfold in_range. apply andb_false_iff. rewrite !Z.leb_gt. lia.
Qed.

Lemma monotonic_filter (P : TimeSeriesValue -> bool) (run : SortedRun) :
  monotonic run -> monotonic (List.filter P run).
Proof.
  intros Hm. apply Sorted_StronglySorted in Hm; [| apply _].
  apply StronglySorted_Sorted.
  induction Hm as [| x l Hs IH Hall]; cbn [List.filter]; [constructor |].
  destruct (P x); [| exact IH]. constructor; [exact IH |].
  apply Forall_forall. intros y Hy.
  apply list_elem_of_In, filter_In in Hy as [Hy _].
  exact (proj1 (Forall_forall _ _) Hall y (proj2 (list_elem_of_In _ _) Hy)).
Qed.

Lemma filter_all_sorted (lowerbound upperbound : Z) (runs : list SortedRun) :
  forall filtered0 : list SortedRun,
    Forall monotonic runs -> Forall (Forall id_ok) runs -> lowerbound <= upperbound ->
    exists filtered,
      filter_all runs lowerbound upperbound filtered0 = Some (filtered0 ++ filtered)
      /\ concat filtered = List.filter (in_range lowerbound upperbound) (concat runs)
      /\ Forall monotonic filtered.
Proof.
  induction runs as [| run runs IH]; intros filtered0 Hm Hid Hlu; cbn [filter_all].
  - exists []. rewrite app_nil_r. repeat split. constructor.
  - apply Forall_cons in Hm as [Hm1 Hm]. apply Forall_cons in Hid as [Hid1 Hid].
    rewrite (filter_sorted_run run lowerbound upperbound filtered0 Hm1 Hid1 Hlu).
    cbn [mbind option_bind concat]. rewrite List.filter_app.
    destruct run as [| x0 run0].
    + destruct (IH filtered0 Hm Hid Hlu) as (filtered & Hf & Hc & Hs).
      exists filtered. auto.
    + set (run := x0 :: run0) in *.
      destruct (IH (filtered0 ++ [List.filter (in_range lowerbound upperbound) run])
                  Hm Hid Hlu) as (filtered & Hf & Hc & Hs).
      exists (List.filter (in_range lowerbound upperbound) run :: filtered).
      split; [rewrite Hf, <- app_assoc; reflexivity |].
      split; [cbn [concat]; rewrite Hc; reflexivity |].
      constructor; [apply monotonic_filter; exact Hm1 | exact Hs].
Qed.

Section SearchFacts.

Variable AKU_PAYLOAD_FLOAT : Z.
Variable sizeof_aku_Sample : Z.
Context {Query : Type} `{!IQueryProcessor Query}.

(** What the consumer of [search] does with the values it is handed, one
    after the other: a value whose parameter id the filter of the query
    passes is [put] to the query as [to_result] makes it, the others are
    skipped.  The answers of the [put]s and the query at the end. *)
Fixpoint put_passing (query : Query) (vs : list TimeSeriesValue)
    : list bool * Query :=
  match vs with
  | [] => ([], query)
  | v :: vs' =>
      if filter_apply query (key_id_ v) then
        let '(ok, query1) :=
          query_put query (to_result AKU_PAYLOAD_FLOAT sizeof_aku_Sample v) in
        let '(oks, query') := put_passing query1 vs' in
        (ok :: oks, query')
      else put_passing query vs'
  end.

Lemma put_passing_app (vs ws : list TimeSeriesValue) :
  forall query,
    put_passing query (vs ++ ws)
    = ((put_passing query vs).1 ++ (put_passing (put_passing query vs).2 ws).1,
       (put_passing (put_passing query vs).2 ws).2).
Proof.
  induction vs as [| v vs IH]; intros query; cbn [app put_passing fst snd].
  - destruct (put_passing query ws). reflexivity.
  - destruct (filter_apply query (key_id_ v)); [| apply IH].
    destruct (query_put query _) as [ok query1]. rewrite IH.
    destruct (put_passing query1 vs) as [oks query2]. cbn [fst snd].
    destruct (put_passing query2 ws). reflexivity.
Qed.

(** Values the consumer answers [true] for: those among them that are
    [put] are accepted. *)
Lemma put_passing_accepted (vs : list TimeSeriesValue) :
  forall query query',
    offers (search_consumer AKU_PAYLOAD_FLOAT sizeof_aku_Sample) query vs
    = (replicate (length vs) true, query') ->
    (put_passing query vs).2 = query'
    /\ (put_passing query vs).1
       = replicate (length (put_passing query vs).1) true.
Proof.
  induction vs as [| v vs IH]; intros query query' Hoff;
    cbn [offers put_passing length replicate] in *.
  - injection Hoff as <-. split; reflexivity.
  - unfold search_consumer at 1 in Hoff.
    destruct (filter_apply query (key_id_ v)).
    + destruct (query_put query _) as [ok query1].
      destruct (offers _ query1 vs) as [oks query2] eqn:Eo.
      injection Hoff as -> -> ->.
      destruct (IH _ _ Eo) as [Hq Hoks].
      destruct (put_passing query1 vs) as [oks' query3]. cbn [fst snd] in *.
      split; [exact Hq |]. cbn [length replicate]. rewrite <- Hoks. reflexivity.
    + destruct (offers _ query vs) as [oks query2] eqn:Eo.
      injection Hoff as -> ->. exact (IH _ _ Eo).
Qed.

(** The value the consumer answers [false] for has been [put]. *)
Lemma put_passing_refused (query query' : Query) (v : TimeSeriesValue) :
  offers (search_consumer AKU_PAYLOAD_FLOAT sizeof_aku_Sample) query [v]
  = ([false], query') ->
  put_passing query [v] = ([false], query').
Proof.
  cbn [offers put_passing]. unfold search_consumer.
  destruct (filter_apply query (key_id_ v)); [| discriminate].
  destruct (query_put query _) as [ok query1]. exact (fun H => H).
Qed.

Lemma offers_accepted_refused {St} (cons : St -> TimeSeriesValue -> bool * St)
    (st st' : St) (out refused : list TimeSeriesValue) :
  offers cons st (out ++ refused)
  = (replicate (length out) true ++ replicate (length refused) false, st') ->
  offers cons st out = (replicate (length out) true, (offers cons st out).2)
  /\ offers cons (offers cons st out).2 refused
     = (replicate (length refused) false, st').
Proof.
  rewrite offers_app. intros Hoff. injection Hoff as Hoks Hst.
  assert (Hlen : forall vs s, length (offers cons s vs).1 = length vs).
  { induction vs as [| v vs IH]; intros s; cbn [offers]; [reflexivity |].
    destruct (cons s v) as [ok s1]. specialize (IH s1).
    destruct (offers cons s1 vs). cbn [fst length] in *. rewrite IH. reflexivity. }
  apply app_inj_1 in Hoks as [Ho Hr];
    [| rewrite Hlen, length_replicate; reflexivity].
  split.
  - rewrite <- Ho. destruct (offers cons st out). reflexivity.
  - rewrite <- Hr, <- Hst. destruct (offers cons _ refused). reflexivity.
Qed.

(** X10.  [search] reads the runs without changing the Sequencer.
    Asked at an odd sequence number, or with a sequence number that is
    not the current one, it reports [AKU_EBUSY] to the query and puts
    nothing to it.  Otherwise, the runs being sorted, the parameter ids
    within 64 bits and the range of the query not empty, it goes through
    the samples of [runs_] whose timestamp lies within the range, bounds
    included, and no other, in ascending time order for a forward query
    and in descending order for a backward one: a sample whose parameter
    id the filter of the query passes is [put] to the query, the others
    are skipped, and the sample the query answers [false] for is the last
    one it is put. *)
Theorem search_offers_range_in_order (s : Sequencer) (query : Query)
    (sequence_number : Z) :
  (Z.odd (sequence_number_ s) = true \/ sequence_number <> sequence_number_ s ->
   search AKU_PAYLOAD_FLOAT sizeof_aku_Sample s query sequence_number
   = Some (query_set_error query AKU_EBUSY))
  /\ (Z.even (sequence_number_ s) = true ->
      sequence_number = sequence_number_ s ->
      Forall monotonic (runs_ s) -> Forall (Forall id_ok) (runs_ s) ->
      range_lowerbound query <= range_upperbound query ->
      let dir := if range_is_backward query then AKU_CURSOR_DIR_BACKWARD
                 else AKU_CURSOR_DIR_FORWARD in
      exists out refused rest,
        search AKU_PAYLOAD_FLOAT sizeof_aku_Sample s query sequence_number
        = Some (put_passing query (out ++ refused)).2
        /\ (put_passing query (out ++ refused)).1
           = replicate (length (put_passing query out).1) true
             ++ replicate (length refused) false
        /\ ((refused = [] /\ rest = []) \/ exists v, refused = [v] /\ v ∈ rest)
        /\ Sorted (dir_le dir) (out ++ refused)
        /\ (forall x y, x ∈ out -> y ∈ rest -> dir_le dir x y)
        /\ out ++ rest
           ≡ₚ List.filter (in_range (range_lowerbound query) (range_upperbound query))
                (concat (runs_ s))).
Proof.
  unfold search. rewrite rem2_odd.
  split.
  - intros [Hodd | Hne].
    + rewrite Hodd. reflexivity.
    + replace (sequence_number =? sequence_number_ s) with false
        by (symmetry; apply Z.eqb_neq; exact Hne).
      rewrite orb_true_r. reflexivity.
  - intros Heven -> Hm Hid Hlu.
    set (dir := if range_is_backward query then AKU_CURSOR_DIR_BACKWARD
                else AKU_CURSOR_DIR_FORWARD).
    rewrite <- Z.negb_even, Heven, Z.eqb_refl. cbn [negb orb].
    destruct (filter_all_sorted (range_lowerbound query) (range_upperbound query)
                (runs_ s) [] Hm Hid Hlu) as (filtered & Hf & Hc & Hs).
    cbn [app] in Hf. rewrite Hf. cbn [mbind option_bind].
    destruct (kway_merge_offers dir
                (search_consumer AKU_PAYLOAD_FLOAT sizeof_aku_Sample)
                filtered query Hs)
      as (runs' & query' & out & refused & Hrun & Hoff & Hend & Hso & Hsep & Hperm).
    rewrite Hrun. cbn [mbind option_bind].
    apply offers_accepted_refused in Hoff as [Hout Href].
    destruct (put_passing_accepted out _ _ Hout) as [Hq Hoks].
    exists out, refused, (concat runs').
    rewrite put_passing_app. cbn [fst snd]. rewrite Hq.
    assert (Hlast : put_passing (offers (search_consumer AKU_PAYLOAD_FLOAT
                                          sizeof_aku_Sample) query out).2 refused
                    = (replicate (length refused) false, query')).
    { destruct Hend as [[-> _] | (v & -> & _)].
      - cbn [offers length replicate] in Href. injection Href as <-. reflexivity.
      - apply put_passing_refused. exact Href. }
    rewrite Hlast. cbn [fst snd]. rewrite <- Hoks.
    split; [reflexivity |]. split; [reflexivity |].
    split; [| split; [exact Hso | split; [exact Hsep | rewrite <- Hc; exact Hperm]]].
    destruct Hend as [[-> ->] | Hend]; [left; split; reflexivity | right; exact Hend].
Qed.

End SearchFacts.

(** *** Examples for the facts above *)

(** The Sequencer with window 10 and threshold 2 after the writes at 1, 4,
    7, 2, 3 and 95; the write at 100 that follows makes it [sealed_5]. *)
Definition before_seal : Sequencer :=
  mkSequencer 10 95 9 2 2 [[tick 1; tick 4; tick 7; tick 95]; [tick 2; tick 3]]
    [] [tick 95].

Lemma before_seal_reached :
  adds (new_sequencer 10 2) (map tick [1; 4; 7; 2; 3; 95]) = Some before_seal
  /\ add max_id_sample before_seal (tick 100) = Some (AKU_SUCCESS, 3, sealed_5).
Proof. split; vm_compute; reflexivity. Qed.

Lemma kway_merge_in_order_witness :
  exists runs' st' out,
    kway_merge AKU_CURSOR_DIR_BACKWARD take_n
      [[tick 1; tick 4; tick 7]; [tick 2; tick 3; tick 9]] 4%nat
    = Some (runs', st')
    /\ kway_merge AKU_CURSOR_DIR_BACKWARD (logged take_n)
         [[tick 1; tick 4; tick 7]; [tick 2; tick 3; tick 9]] (4%nat, [])
       = Some (runs', (st', out))
    /\ Sorted (dir_le AKU_CURSOR_DIR_BACKWARD) out
    /\ (forall x y, x ∈ out -> y ∈ concat runs' ->
                    dir_le AKU_CURSOR_DIR_BACKWARD x y)
    /\ out ++ concat runs'
       ≡ₚ concat [[tick 1; tick 4; tick 7]; [tick 2; tick 3; tick 9]].
Proof.
  apply (kway_merge_in_order AKU_CURSOR_DIR_BACKWARD take_n
           [[tick 1; tick 4; tick 7]; [tick 2; tick 3; tick 9]] 4%nat).
  repeat constructor.
Defined.

Lemma add_keeps_runs_sorted_witness :
  Forall monotonic (runs_ sealed_5) /\ Forall monotonic (ready_ sealed_5).
Proof.
  apply (add_keeps_runs_sorted max_id_sample before_seal (tick 100)
           AKU_SUCCESS 3 sealed_5);
    [repeat constructor | constructor | vm_compute; reflexivity].
Defined.

Lemma add_stores_or_rejects_witness :
  (AKU_SUCCESS = AKU_ELATE_WRITE /\ 3 = 0 /\ sealed_5 = before_seal
   /\ window_size_ before_seal < top_timestamp_ before_seal - key_ts_ (tick 100))
  \/ (AKU_SUCCESS = AKU_SUCCESS
      /\ concat (runs_ sealed_5) ++ concat (ready_ sealed_5)
         ≡ₚ tick 100 :: concat (runs_ before_seal) ++ concat (ready_ before_seal)
      /\ top_timestamp_ sealed_5
         = Z.max (top_timestamp_ before_seal) (key_ts_ (tick 100))
      /\ (key_ts_ (tick 100) < top_timestamp_ before_seal ->
          top_timestamp_ before_seal - key_ts_ (tick 100) <= window_size_ before_seal)
      /\ window_size_ sealed_5 = window_size_ before_seal
      /\ c_threshold_ sealed_5 = c_threshold_ before_seal).
Proof.
  apply (add_stores_or_rejects max_id_sample before_seal (tick 100)
           AKU_SUCCESS 3 sealed_5).
  vm_compute. reflexivity.
Defined.

(** [before_seal] after [make_checkpoint_ 10]: the boundary is 90. *)
Definition sealed_at_90 : Sequencer :=
  mkSequencer 10 95 10 3 2 [[tick 95]]
    [[tick 1; tick 4; tick 7]; [tick 2; tick 3]] [tick 95].

Lemma make_checkpoint_seals_below_boundary_witness :
  exists sealed,
    ready_ sealed_at_90 = ready_ before_seal ++ sealed
    /\ Forall (fun x => tsv_lt x (mkTSV 90 max_id_sample 0) = true) (concat sealed)
    /\ Forall (fun x => tsv_lt x (mkTSV 90 max_id_sample 0) = false)
         (concat (runs_ sealed_at_90))
    /\ c_threshold_ before_seal <= run_sizes (ready_ sealed_at_90)
    /\ concat (runs_ sealed_at_90) ++ concat sealed ≡ₚ concat (runs_ before_seal).
Proof.
  apply (make_checkpoint_seals_below_boundary max_id_sample before_seal 10 3
           sealed_at_90);
    [repeat constructor | vm_compute; reflexivity | reflexivity].
Defined.

Lemma merge_and_compress_in_order_witness :
  exists status s' page' log,
    merge_and_compress slot_page keep_order sealed_5 1%nat false
    = Some (status, s', page', log)
    /\ flushed log = [tick 1; tick 2]
    /\ monotonic (flushed log)
    /\ exists rest,
         runs_ s' = runs_ sealed_5 ++ rest
         /\ Forall monotonic rest
         /\ (forall x y, x ∈ flushed log -> y ∈ concat rest -> time_le x y).
Proof.
  eexists _, _, _, _. split; [vm_compute; reflexivity |].
  split; [vm_compute; reflexivity |].
  eapply (merge_and_compress_in_order slot_page keep_order sealed_5 1%nat false
            AKU_EOVERFLOW);
    [repeat constructor | vm_compute; reflexivity].
Defined.

Lemma close_flushes_everything_witness :
  (exists s' page' log,
     close slot_page keep_order before_seal 5%nat = Some (AKU_SUCCESS, s', page', log)
     /\ ready_ s' = []
     /\ concat (runs_ s') ++ flushed log
        ≡ₚ concat (ready_ before_seal) ++ concat (runs_ before_seal)
     /\ (Forall (fun e => e.2 = AKU_SUCCESS) log ->
         runs_ s' = [] /\ AKU_SUCCESS = AKU_SUCCESS)
     /\ sequence_number_ s' = 2)
  /\ is_Some (close slot_page keep_order before_seal 5%nat).
Proof.
  split.
  - eexists _, _, _. split; [vm_compute; reflexivity |].
    eapply (proj1 (close_flushes_everything slot_page keep_order before_seal 5%nat)).
    vm_compute. reflexivity.
  - apply (proj2 (close_flushes_everything slot_page keep_order before_seal 5%nat));
      [simpl; lia | intros c; eexists; reflexivity].
Defined.

(** The values used for [AKU_PAYLOAD_FLOAT] and [sizeof(aku_Sample)] where
    a closed example needs them. *)
Definition payload_float_sample : Z := 1.
Definition sizeof_sample : Z := 32.

(** A cursor over a buffer of two slots. *)
Definition two_slots : Cursor.BufferedCursor aku_Sample :=
  Cursor.mkBuffered [mkSample 0 0 0 0 0; mkSample 0 0 0 0 0] 0 false AKU_SUCCESS.

Lemma merge_feeds_cursor_in_order_witness :
  let cur := Cursor.mkRecording [] false AKU_SUCCESS in
  merge payload_float_sample sizeof_sample seen_20 cur
  = Some (seen_20, Cursor.cursor_set_error cur AKU_EBUSY)
  /\ merge payload_float_sample sizeof_sample
       (mkSequencer 10 20 2 3 1000 [[tick 20]] [] [tick 20]) cur
     = Some (mkSequencer 10 20 2 3 1000 [[tick 20]] [] [tick 20],
             Cursor.cursor_set_error cur AKU_ENO_DATA)
  /\ (exists out refused dropped,
        merge payload_float_sample sizeof_sample sealed_5 two_slots
        = Some (set_sequence_number (set_ready sealed_5 [])
                  (wrap_int32 (sequence_number_ sealed_5 + 1)),
                Cursor.cursor_complete
                  (Cursor.puts two_slots
                     (map (to_result payload_float_sample sizeof_sample)
                        (out ++ refused))).2)
        /\ (Cursor.puts two_slots
              (map (to_result payload_float_sample sizeof_sample)
                 (out ++ refused))).1
           = replicate (length out) true ++ replicate (length refused) false
        /\ ((refused = [] /\ dropped = [])
            \/ exists v, refused = [v] /\ v ∈ dropped)
        /\ monotonic (out ++ refused)
        /\ (forall x y, x ∈ out -> y ∈ dropped -> time_le x y)
        /\ out ++ dropped ≡ₚ concat (ready_ sealed_5))
  /\ (exists s' cur',
        merge payload_float_sample sizeof_sample sealed_5 two_slots = Some (s', cur')
        /\ ready_ s' = [] /\ runs_ s' = runs_ sealed_5
        /\ map sample_timestamp (Cursor.results_buffer cur') = [1; 2]
        /\ Cursor.error_code cur' = AKU_EOVERFLOW).
Proof.
  intros cur. split; [| split; [| split]].
  - apply (proj1 (merge_feeds_cursor_in_order payload_float_sample sizeof_sample
                    seen_20 cur)). reflexivity.
  - apply (proj1 (proj2 (merge_feeds_cursor_in_order payload_float_sample
                           sizeof_sample
                           (mkSequencer 10 20 2 3 1000 [[tick 20]] [] [tick 20]) cur)));
      reflexivity.
  - apply (proj2 (proj2 (merge_feeds_cursor_in_order payload_float_sample
                           sizeof_sample sealed_5 two_slots)));
      [reflexivity | discriminate | repeat constructor].
  - eexists _, _. split; [vm_compute; reflexivity |]. repeat split.
Defined.

(** A query processor for one parameter id with room for [room] samples:
    the range, the direction, the id its filter passes, and the samples
    and the error it has received.  [put] answers [false] when there is
    no room left. *)
Record RangeQuery := mkQuery {
  lowerbound : Z;
  upperbound : Z;
  backward : bool;
  wanted : Z;
  room : nat;
  found : list aku_Sample;
  failure : option aku_Status
}.

#[global] Instance RangeQuery_processor : IQueryProcessor RangeQuery := {|
  range_lowerbound := lowerbound;
  range_upperbound := upperbound;
  range_is_backward := backward;
  filter_apply q id := id =? wanted q;
  query_put q sample :=
    if (length (found q) <? room q)%nat
    then (true, mkQuery (lowerbound q) (upperbound q) (backward q) (wanted q)
                  (room q) (found q ++ [sample]) (failure q))
    else (false, q);
  query_set_error q status :=
    mkQuery (lowerbound q) (upperbound q) (backward q) (wanted q) (room q)
      (found q) (Some status)
|}.

(** The Sequencer with window 10 after the writes at 1, 4, 7, 2, 3, 8 and
    5, those at 4 and 3 for parameter 2 and the others for parameter 1:
    two runs, no checkpoint crossed. *)
Definition two_runs : Sequencer :=
  mkSequencer 10 8 0 0 100
    [[tick 1; mkTSV 4 2 0; tick 7; tick 8]; [tick 2; mkTSV 3 2 0; tick 5]] []
    [tick 5].

Lemma two_runs_reached :
  adds (new_sequencer 10 100)
    [tick 1; mkTSV 4 2 0; tick 7; tick 2; mkTSV 3 2 0; tick 8; tick 5]
  = Some two_runs.
Proof. vm_compute. reflexivity. Qed.

(** A backward query for parameter 1 at the timestamps 2 to 7, with room
    for two samples. *)
Definition query_2_7 : RangeQuery := mkQuery 2 7 true 1 2 [] None.

Lemma search_offers_range_in_order_witness :
  search payload_float_sample sizeof_sample two_runs query_2_7 1
  = Some (query_set_error query_2_7 AKU_EBUSY)
  /\ (exists query',
        search payload_float_sample sizeof_sample two_runs query_2_7 0 = Some query'
        /\ map sample_timestamp (found query') = [7; 5])
  /\ exists out refused rest,
       search payload_float_sample sizeof_sample two_runs query_2_7 0
       = Some (put_passing payload_float_sample sizeof_sample query_2_7
                 (out ++ refused)).2
       /\ (put_passing payload_float_sample sizeof_sample query_2_7
             (out ++ refused)).1
          = replicate (length (put_passing payload_float_sample sizeof_sample
                                 query_2_7 out).1) true
            ++ replicate (length refused) false
       /\ ((refused = [] /\ rest = []) \/ exists v, refused = [v] /\ v ∈ rest)
       /\ Sorted (dir_le AKU_CURSOR_DIR_BACKWARD) (out ++ refused)
       /\ (forall x y, x ∈ out -> y ∈ rest -> dir_le AKU_CURSOR_DIR_BACKWARD x y)
       /\ out ++ rest ≡ₚ List.filter (in_range 2 7) (concat (runs_ two_runs)).
Proof.
  split; [| split].
  - apply (proj1 (search_offers_range_in_order payload_float_sample sizeof_sample
                    two_runs query_2_7 1)).
    right. discriminate.
  - eexists. split; vm_compute; reflexivity.
  - pose proof (proj2 (search_offers_range_in_order payload_float_sample
                         sizeof_sample two_runs query_2_7 0)) as Hsearch.
    cbn [range_is_backward range_lowerbound range_upperbound RangeQuery_processor
         query_2_7 backward lowerbound upperbound] in Hsearch.
    apply Hsearch; [reflexivity | reflexivity | repeat constructor | | lia].
    repeat constructor; unfold id_ok; simpl; lia.
Defined.

End Seq.

(** ** Chunk codec (compression.h) *)
Module Codec.

(** The integer types the streams are instantiated at. *)
Inductive TVal := UInt32 | UInt64 | Int64.

(** A value converted to the type. *)
Definition as_TVal (t : TVal) (x : Z) : Z :=
  match t with
  | UInt32 => wrap32 x
  | UInt64 => wrap64 x
  | Int64 => wrap_int64 x
  end.

(** [Base128Int<TVal>::put(begin, end)] with [space = end - begin]: the
    bytes written, or [None] where the code returns [begin] (no room left
    before the value ran out).  [& 0x7F] and [>>= 7] on a negative
    [int64_t] are those of two's complement, as [Z.land] and [Z.shiftr]
    are. *)
Fixpoint base128_put (space : nat) (value : Z) : option (list Z) :=
  match space with
  | O => None
  | S space' =>
      let byte := Z.land value 127 in
      let value' := Z.shiftr value 7 in
      if value' =? 0 then Some [byte]
      else rest ← base128_put space' value'; Some (Z.lor byte 128 :: rest)
  end.

(** [Base128Int<TVal>::get(begin, end)]: the value and the bytes left, or
    [None] where the code returns [begin] (the bytes end inside a value)
    and where [assert(begin < end)] fails (there are no bytes at all). *)
Fixpoint base128_get (t : TVal) (bytes : list Z) (cnt acc : Z)
    : option (Z * list Z) :=
  match bytes with
  | [] => None
  | p :: rest =>
      let i := Z.land p 127 in
      let acc' := Z.lor acc (as_TVal t (Z.shiftl i cnt)) in
      if Z.land p 128 =? 0 then Some (acc', rest)
      else base128_get t rest (as_TVal t (cnt + 7)) acc'
  end.

(** [Base128StreamWriter]: a fixed region of [capacity] bytes and what has
    been written to it; [pos_ - begin_] is [length written]. *)
Record Base128StreamWriter := mkWriter {
  capacity : nat;
  written : list Z
}.

(** [Base128StreamWriter::put<TVal>]; [None] is [StreamOutOfBounds]. *)
Definition writer_put (value : Z) (w : Base128StreamWriter)
    : option Base128StreamWriter :=
  bytes ← base128_put (capacity w - length (written w)) value;
  Some (mkWriter (capacity w) (written w ++ bytes)).

Definition writer_size (w : Base128StreamWriter) : Z :=
  Z.of_nat (length (written w)).

(** [Base128StreamReader]: the bytes from [pos_] to [end_]. *)
Definition Base128StreamReader : Type := list Z.

(** [Base128StreamReader::next<TVal>]; [None] is [StreamOutOfBounds], and
    on an empty region the failed [assert(begin < end)] of [get]:
    [reader_next_outcome] tells the two apart. *)
Definition reader_next (t : TVal) (r : Base128StreamReader)
    : option (Z * Base128StreamReader) :=
  base128_get t r 0 0.

(** The three ways [Base128StreamReader::next<TVal>] ends: with a value
    and the reader behind it, with [StreamOutOfBounds] thrown ([get]
    returned [begin]), or in the [assert(begin < end)] of [get], which
    comes first and fails when the region is empty. *)
Inductive ReadOutcome :=
| ReadValue (value : Z) (rest : Base128StreamReader)
| ReadOutOfBounds
| ReadAssertFailed.

Definition reader_next_outcome (t : TVal) (r : Base128StreamReader) : ReadOutcome :=
  match r with
  | [] => ReadAssertFailed
  | _ :: _ =>
      match reader_next t r with
      | Some (value, rest) => ReadValue value rest
      | None => ReadOutOfBounds
      end
  end.

(** [RLEStreamWriter<TVal>]: [prev_] and [reps_]; the stream it writes to
    is passed along. *)
Record RLEStreamWriter := mkRLEWriter {
  rle_prev_ : Z;
  rle_reps_ : Z
}.

Definition new_RLEStreamWriter : RLEStreamWriter := mkRLEWriter 0 0.

(** [RLEStreamWriter<TVal>::put] *)
Definition rle_put (t : TVal) (value : Z)
    (st : RLEStreamWriter * Base128StreamWriter)
    : option (RLEStreamWriter * Base128StreamWriter) :=
  let '(rle, stream) := st in
  if negb (value =? rle_prev_ rle) then
    stream' ← (if negb (rle_reps_ rle =? 0)
               then stream1 ← writer_put (rle_reps_ rle) stream;
                    writer_put (rle_prev_ rle) stream1
               else Some stream);
    Some (mkRLEWriter value (as_TVal t (0 + 1)), stream')
  else Some (mkRLEWriter (rle_prev_ rle) (as_TVal t (rle_reps_ rle + 1)), stream).

(** [RLEStreamWriter<TVal>::commit] *)
Definition rle_commit (st : RLEStreamWriter * Base128StreamWriter)
    : option Base128StreamWriter :=
  let '(rle, stream) := st in
  stream1 ← writer_put (rle_reps_ rle) stream;
  writer_put (rle_prev_ rle) stream1.

(** [RLEStreamReader<TVal>]: [prev_], [reps_] and the stream it reads. *)
Record RLEStreamReader := mkRLEReader {
  rd_prev_ : Z;
  rd_reps_ : Z;
  rd_stream_ : Base128StreamReader
}.

Definition new_RLEStreamReader (stream : Base128StreamReader) : RLEStreamReader :=
  mkRLEReader 0 0 stream.

(** [RLEStreamReader<TVal>::next] *)
Definition rle_next (t : TVal) (r : RLEStreamReader) : option (Z * RLEStreamReader) :=
  r1 ← (if rd_reps_ r =? 0
        then '(reps, s1) ← reader_next t (rd_stream_ r);
             '(prev, s2) ← reader_next t s1;
             Some (mkRLEReader prev reps s2)
        else Some r);
  Some (rd_prev_ r1, mkRLEReader (rd_prev_ r1) (as_TVal t (rd_reps_ r1 - 1)) (rd_stream_ r1)).

(** [ZigZagStreamWriter<Stream, int64_t>::put]: what is handed to the
    stream below, [(value << 1) ^ (value >> shift_width)] as an
    [int64_t]. *)
Definition zigzag_encode (value : Z) : Z :=
  wrap_int64 (Z.lxor (wrap_int64 (Z.shiftl value 1)) (Z.shiftr value 63)).

(** [ZigZagStreamReader<Stream, int64_t>::next]: what is made of the
    [int64_t] read from the stream below, [(n >> 1) ^ (-(n & 1))]. *)
Definition zigzag_decode (n : Z) : Z :=
  wrap_int64 (Z.lxor (Z.shiftr n 1) (wrap_int64 (- Z.land n 1))).

(** [DeltaRLEWriter]: [DeltaStreamWriter] over [ZigZagStreamWriter] over
    [RLEStreamWriter<int64_t>]; the state is [prev_] of the delta stage,
    the RLE stage and the byte stream. *)
Definition DeltaRLEWriter : Type := Z * (RLEStreamWriter * Base128StreamWriter).

Definition new_DeltaRLEWriter (stream : Base128StreamWriter) : DeltaRLEWriter :=
  (0, (new_RLEStreamWriter, stream)).

(** [DeltaStreamWriter::put] down to the byte stream. *)
Definition delta_rle_put (w : DeltaRLEWriter) (value : Z) : option DeltaRLEWriter :=
  let '(prev, below) := w in
  below' ← rle_put Int64 (zigzag_encode (wrap_int64 (value - prev))) below;
  Some (value, below').

(** [commit] *)
Definition delta_rle_commit (w : DeltaRLEWriter) : option Base128StreamWriter :=
  rle_commit w.2.

(** [DeltaRLEReader], the other way round. *)
Definition DeltaRLEReader : Type := Z * RLEStreamReader.

Definition new_DeltaRLEReader (stream : Base128StreamReader) : DeltaRLEReader :=
  (0, new_RLEStreamReader stream).

(** [DeltaStreamReader::next] *)
Definition delta_rle_next (r : DeltaRLEReader) : option (Z * DeltaRLEReader) :=
  let '(prev, below) := r in
  '(n, below') ← rle_next Int64 below;
  let delta := zigzag_decode n in
  let value := wrap_int64 (prev + delta) in
  Some (value, (value, below')).

(** [put] for every value of a column, in order. *)
Fixpoint write_column (w : DeltaRLEWriter) (column : list Z) : option DeltaRLEWriter :=
  match column with
  | [] => Some w
  | value :: column' => w' ← delta_rle_put w value; write_column w' column'
  end.

(** A column written to a fresh region of [capacity] bytes and committed:
    the bytes of the region. *)
Definition encode_column (capacity : nat) (column : list Z) : option (list Z) :=
  w ← write_column (new_DeltaRLEWriter (mkWriter capacity [])) column;
  stream ← delta_rle_commit w;
  Some (written stream).

(** [n] values read back. *)
Fixpoint read_column (n : nat) (r : DeltaRLEReader) : option (list Z) :=
  match n with
  | O => Some []
  | S n' =>
      '(value, r') ← delta_rle_next r;
      rest ← read_column n' r';
      Some (value :: rest)
  end.

Definition decode_column (n : nat) (bytes : list Z) : option (list Z) :=
  read_column n (new_DeltaRLEReader bytes).

(** *** The stages as functions on columns *)

(** The bytes of a value below [2^63]. *)
Definition varint (v : Z) : list Z := default [] (base128_put 9 v).

(** The [(count, value)] pairs the RLE writer emits for the values [zs],
    starting from [prev_ = prev] and [reps_ = reps]. *)
Fixpoint runs_of (prev reps : Z) (zs : list Z) : list (Z * Z) :=
  match zs with
  | [] => [(reps, prev)]
  | z :: zs' =>
      if z =? prev then runs_of prev (reps + 1) zs'
      else (if reps =? 0 then [] else [(reps, prev)]) ++ runs_of z 1 zs'
  end.

Definition enc_pairs (ps : list (Z * Z)) : list Z :=
  concat (map (fun p => varint p.1 ++ varint p.2) ps).

Definition expand (ps : list (Z * Z)) : list Z :=
  concat (map (fun p => replicate (Z.to_nat p.1) p.2) ps).

(** What the delta and zig-zag stages hand to the RLE stage. *)
Fixpoint deltas (prev : Z) (column : list Z) : list Z :=
  match column with
  | [] => []
  | v :: column' => zigzag_encode (wrap_int64 (v - prev)) :: deltas v column'
  end.

Definition in_varint_range (z : Z) : Prop := 0 <= z < 2 ^ 63.

(** [n] values read from the RLE stage. *)
Fixpoint rle_read (n : nat) (r : RLEStreamReader) : option (list Z * RLEStreamReader) :=
  match n with
  | O => Some ([], r)
  | S n' =>
      '(z, r') ← rle_next Int64 r;
      '(zs, r'') ← rle_read n' r';
      Some (z :: zs, r'')
  end.

Definition pair_ok (p : Z * Z) : Prop := 1 <= p.1 < 2 ^ 63 /\ 0 <= p.2 < 2 ^ 63.

Definition total (ps : list (Z * Z)) : nat :=
  fold_right (fun p n => (Z.to_nat p.1 + n)%nat) 0%nat ps.

(** A column the writer can take: values of [int64_t] whose successive
    differences stay within 63 bits. *)
Fixpoint column_ok (prev : Z) (column : list Z) : Prop :=
  match column with
  | [] => True
  | v :: column' =>
      - 2 ^ 63 <= v < 2 ^ 63
      /\ - 2 ^ 62 <= wrap_int64 (v - prev) < 2 ^ 62
      /\ column_ok v column'
  end.

(** What the reader's zig-zag and delta stages make of the values the RLE
    stage returns. *)
Fixpoint undeltas (prev : Z) (zs : list Z) : list Z :=
  match zs with
  | [] => []
  | n :: zs' =>
      let value := wrap_int64 (prev + zigzag_decode n) in
      value :: undeltas value zs'
  end.

(** *** Facts about the codec *)

Lemma land_low_high (acc i cnt : Z) :
  0 <= cnt -> 0 <= acc < 2 ^ cnt -> Z.land acc (Z.shiftl i cnt) = 0.
Proof.
  intros Hc Ha. apply Z.bits_inj'. intros n Hn.
  rewrite Z.land_spec, Z.bits_0.
  destruct (Z.lt_ge_cases n cnt) as [Hlt | Hge].
  - rewrite (Z.shiftl_spec_low i cnt n Hlt). apply andb_false_r.
  - replace (Z.testbit acc n) with false; [reflexivity |].
    symmetry. destruct (Z.eq_dec acc 0) as [-> | Hne]; [apply Z.bits_0 |].
    apply Z.bits_above_log2; [lia |].
    apply Z.log2_lt_pow2; [lia |].
    eapply Z.lt_le_trans; [apply Ha |]. apply Z.pow_le_mono_r; lia.
Qed.

Lemma lor_low_high (acc i cnt : Z) :
  0 <= cnt -> 0 <= acc < 2 ^ cnt ->
  Z.lor acc (Z.shiftl i cnt) = acc + i * 2 ^ cnt.
Proof.
  intros Hc Ha.
  pose proof (Z.add_lor_land acc (Z.shiftl i cnt)) as Hadd.
  rewrite (land_low_high acc i cnt Hc Ha), Z.add_0_r in Hadd.
  rewrite Hadd, Z.shiftl_mul_pow2 by exact Hc. reflexivity.
Qed.

Lemma wrap_int64_small (x : Z) : - 2 ^ 63 <= x < 2 ^ 63 -> wrap_int64 x = x.
Proof. intros Hx. unfold wrap_int64. rewrite Z.mod_small; lia. Qed.

Lemma lor_shifted (acc i cnt : Z) :
  0 <= cnt -> 0 <= acc < 2 ^ cnt -> 0 <= i -> i * 2 ^ cnt < 2 ^ 63 ->
  Z.lor acc (wrap_int64 (Z.shiftl i cnt)) = acc + i * 2 ^ cnt.
Proof.
  intros Hc Ha Hi Hfit.
  assert (Hpow : 0 < 2 ^ cnt) by (apply Z.pow_pos_nonneg; lia).
  rewrite (wrap_int64_small (Z.shiftl i cnt))
    by (rewrite Z.shiftl_mul_pow2 by exact Hc; nia).
  apply lor_low_high; assumption.
Qed.

Lemma byte_split (v : Z) :
  0 <= v ->
  Z.land v 127 = v mod 128 /\ Z.shiftr v 7 = v / 128
  /\ 0 <= v mod 128 < 128 /\ 0 <= v / 128
  /\ v = 128 * (v / 128) + v mod 128.
Proof.
  intros Hv. change 127 with (Z.ones 7).
  rewrite Z.land_ones, Z.shiftr_div_pow2 by lia. change (2 ^ 7) with 128.
  pose proof (Z.mod_pos_bound v 128 ltac:(lia)).
  pose proof (Z.div_pos v 128 Hv ltac:(lia)).
  pose proof (Z.div_mod v 128 ltac:(lia)). auto.
Qed.

Lemma low7 (b : Z) :
  0 <= b < 128 ->
  Z.land b 127 = b /\ Z.land b 128 = 0
  /\ Z.land (Z.lor b 128) 127 = b /\ Z.land (Z.lor b 128) 128 = 128.
Proof.
  intros Hb.
  assert (Hall : forallb (fun b => (Z.land b 127 =? b) && (Z.land b 128 =? 0)
                            && (Z.land (Z.lor b 128) 127 =? b)
                            && (Z.land (Z.lor b 128) 128 =? 128))
                   (map Z.of_nat (seq 0 128)) = true) by (vm_compute; reflexivity).
  rewrite forallb_forall in Hall.
  specialize (Hall b). 
  assert (Hin : In b (map Z.of_nat (seq 0 128))).
  { apply in_map_iff. exists (Z.to_nat b). split; [lia |]. apply in_seq. lia. }
  apply Hall in Hin. rewrite !andb_true_iff, !Z.eqb_eq in Hin. tauto.
Qed.

(** What [put] wrote, [get] reads back, whatever follows. *)
Lemma base128_put_get (space : nat) :
  forall (v cnt acc : Z) (bs rest : list Z),
    0 <= v -> 0 <= cnt -> v * 2 ^ cnt < 2 ^ 63 -> 0 <= acc < 2 ^ cnt ->
    base128_put space v = Some bs ->
    base128_get Int64 (bs ++ rest) cnt acc = Some (acc + v * 2 ^ cnt, rest).
Proof.
  induction space as [| space IH]; intros v cnt acc bs rest Hv Hc Hfit Ha Hput;
    [discriminate |].
  cbn [base128_put] in Hput.
  destruct (byte_split v Hv) as (Hland & Hshr & Hb & Hq & Hsplit).
  rewrite Hland, Hshr in Hput.
  destruct (low7 (v mod 128) Hb) as (L1 & L2 & L3 & L4).
  assert (Hpow : 0 < 2 ^ cnt) by (apply Z.pow_pos_nonneg; lia).
  destruct (Z.eqb_spec (v / 128) 0) as [Hz | Hnz].
  - injection Hput as <-. cbn [app base128_get].
    rewrite L1, L2. cbn [Z.eqb]. rewrite Hz, Z.mul_0_r, Z.add_0_l in Hsplit.
    rewrite <- Hsplit. cbn [as_TVal].
    rewrite lor_shifted by assumption. reflexivity.
  - destruct (base128_put space (v / 128)) as [bs' |] eqn:Eput; [| discriminate].
    cbn [mbind option_bind] in Hput. injection Hput as <-.
    cbn [app base128_get]. rewrite L3, L4. cbn [Z.eqb as_TVal].
    assert (Hcnt : cnt < 63).
    { destruct (Z.lt_ge_cases cnt 63) as [? | Hge]; [assumption |].
      assert (2 ^ 63 <= 2 ^ cnt) by (apply Z.pow_le_mono_r; lia). nia. }
    rewrite (wrap_int64_small (cnt + 7)) by lia.
    rewrite lor_shifted by (assumption || lia || nia).
    assert (Hp7 : 2 ^ (cnt + 7) = 128 * 2 ^ cnt)
      by (rewrite Z.pow_add_r by lia; change (2 ^ 7) with 128; lia).
    rewrite (IH (v / 128) (cnt + 7) (acc + v mod 128 * 2 ^ cnt) bs' rest);
      [f_equal; f_equal; rewrite Hp7; nia | lia | lia | rewrite Hp7; nia
      | rewrite Hp7; nia | exact Eput].
Qed.

(** A value below [2^(7k)] takes at most [k] bytes, and the bytes do not
    depend on the room there is beyond them. *)
Lemma base128_put_fits (space : nat) :
  forall (v : Z) (k : nat),
    0 <= v < 2 ^ (7 * Z.of_nat k) -> (1 <= k <= space)%nat ->
    exists bs, base128_put space v = Some bs /\ (length bs <= k)%nat.
Proof.
  induction space as [| space IH]; intros v k Hv Hk; [lia |].
  cbn [base128_put].
  destruct (byte_split v (proj1 Hv)) as (Hland & Hshr & Hb & Hq & Hsplit).
  rewrite Hland, Hshr.
  destruct (Z.eqb_spec (v / 128) 0) as [Hz | Hnz].
  - eexists. split; [reflexivity |]. simpl. lia.
  - destruct k as [| k]; [lia |].
    assert (Hk1 : (1 <= k)%nat).
    { destruct k; [| lia]. exfalso. change (2 ^ (7 * Z.of_nat 1)) with 128 in Hv.
      apply Hnz. apply Z.div_small. lia. }
    destruct (IH (v / 128) k) as (bs & -> & Hlen); [| lia |].
    + split; [lia |]. apply Z.div_lt_upper_bound; [lia |].
      replace (128 * 2 ^ (7 * Z.of_nat k)) with (2 ^ (7 * Z.of_nat (S k))); [lia |].
      replace (7 * Z.of_nat (S k)) with (7 + 7 * Z.of_nat k) by lia.
      rewrite Z.pow_add_r by lia. reflexivity.
    + eexists. split; [reflexivity |]. simpl. lia.
Qed.

Lemma base128_put_more (space : nat) :
  forall (v : Z) (bs : list Z) (space' : nat),
    base128_put space v = Some bs -> (space <= space')%nat ->
    base128_put space' v = Some bs.
Proof.
  induction space as [| space IH]; intros v bs space' Hput Hle; [discriminate |].
  destruct space' as [| space']; [lia |].
  cbn [base128_put] in *.
  destruct (Z.shiftr v 7 =? 0); [exact Hput |].
  destruct (base128_put space (Z.shiftr v 7)) as [bs' |] eqn:E; [| discriminate].
  rewrite (IH _ _ space' E) by lia. exact Hput.
Qed.

Lemma varint_spec (v : Z) :
  0 <= v < 2 ^ 63 ->
  base128_put 9 v = Some (varint v) /\ (length (varint v) <= 9)%nat
  /\ forall rest, reader_next Int64 (varint v ++ rest) = Some (v, rest).
Proof.
  intros Hv. unfold varint.
  destruct (base128_put_fits 9 v 9) as (bs & Hput & Hlen); [simpl; lia | lia |].
  rewrite Hput. cbn [default from_option]. unfold id.
  split; [reflexivity |]. split; [exact Hlen |].
  intros rest. unfold reader_next.
  pose proof (base128_put_get 9 v 0 0 bs rest ltac:(lia) ltac:(lia)
                ltac:(simpl; lia) ltac:(simpl; lia) Hput) as Hget.
  unfold id. rewrite Hget. f_equal. f_equal. simpl. lia.
Qed.

Lemma writer_put_varint (v : Z) (w : Base128StreamWriter) :
  0 <= v < 2 ^ 63 ->
  (length (written w) + 9 <= capacity w)%nat ->
  writer_put v w = Some (mkWriter (capacity w) (written w ++ varint v)).
Proof.
  intros Hv Hroom. unfold writer_put.
  destruct (varint_spec v Hv) as (Hput & _ & _).
  rewrite (base128_put_more 9 v (varint v) _ Hput) by lia. reflexivity.
Qed.

Lemma write_column_spec (column : list Z) :
  forall (prev rp rr : Z) (w : Base128StreamWriter),
    Forall in_varint_range (deltas prev column) ->
    in_varint_range rp -> 0 <= rr ->
    rr + Z.of_nat (length column) < 2 ^ 63 ->
    (length (written w) + 18 * (length column + 1) <= capacity w)%nat ->
    exists w',
      write_column (prev, (mkRLEWriter rp rr, w)) column = Some w'
      /\ delta_rle_commit w'
         = Some (mkWriter (capacity w)
                   (written w ++ enc_pairs (runs_of rp rr (deltas prev column)))).
Proof.
  induction column as [| v column IH]; intros prev rp rr w Hz Hrp Hrr Hn Hroom.
  - eexists. split; [reflexivity |].
    unfold delta_rle_commit, rle_commit. cbn [snd rle_reps_ rle_prev_].
    destruct (varint_spec rr) as (_ & Hlen & _); [unfold in_varint_range in *; simpl in Hn; lia |].
    rewrite writer_put_varint by (simpl in *; unfold in_varint_range in *; lia).
    cbn [mbind option_bind].
    rewrite writer_put_varint
      by (cbn [written capacity]; try rewrite length_app; simpl in *;
          unfold in_varint_range in *; lia).
    cbn [capacity written deltas runs_of enc_pairs map concat fst snd].
    rewrite app_nil_r, <- app_assoc. reflexivity.
  - cbn [deltas] in Hz. apply Forall_cons in Hz as [Hz0 Hz].
    cbn [write_column delta_rle_put deltas runs_of].
    set (z := zigzag_encode (wrap_int64 (v - prev))) in *.
    cbn [length] in Hn, Hroom.
    unfold rle_put. cbn [rle_prev_ rle_reps_].
    destruct (Z.eqb_spec z rp) as [-> | Hne]; cbn [negb mbind option_bind].
    + change (as_TVal Int64 (rr + 1)) with (wrap_int64 (rr + 1)).
      rewrite wrap_int64_small by lia.
      apply IH; try assumption; lia.
    + change (as_TVal Int64 (0 + 1)) with 1.
      destruct (Z.eqb_spec rr 0) as [-> | Hrr0]; cbn [negb mbind option_bind app].
      * apply IH; try assumption; lia.
      * destruct (varint_spec rr) as (_ & Hl1 & _); [unfold in_varint_range; lia |].
        destruct (varint_spec rp Hrp) as (_ & Hl2 & _).
        rewrite writer_put_varint by (unfold in_varint_range in *; lia).
        cbn [mbind option_bind].
        rewrite writer_put_varint
          by (cbn [written capacity]; try rewrite length_app;
              unfold in_varint_range in *; lia).
        cbn [mbind option_bind capacity written].
        destruct (IH v z 1 (mkWriter (capacity w) ((written w ++ varint rr) ++ varint rp)))
          as (w' & Hw & Hc); try assumption; try lia.
        { cbn [written capacity]. rewrite !length_app. lia. }
        exists w'. split; [exact Hw |]. rewrite Hc. cbn [capacity written].
        unfold enc_pairs. cbn [map concat fst snd].
        rewrite <- !app_assoc. reflexivity.
Qed.

Lemma rle_read_app (n m : nat) (r : RLEStreamReader) :
  rle_read (n + m) r
  = '(zs1, r1) ← rle_read n r; '(zs2, r2) ← rle_read m r1; Some (zs1 ++ zs2, r2).
Proof.
  revert r. induction n as [| n IH]; intros r; cbn [Nat.add rle_read].
  - cbn [mbind option_bind]. destruct (rle_read m r) as [[zs2 r2] |]; reflexivity.
  - destruct (rle_next Int64 r) as [[z r'] |]; [| reflexivity].
    cbn [mbind option_bind]. rewrite IH.
    destruct (rle_read n r') as [[zs1 r1] |]; [| reflexivity].
    cbn [mbind option_bind].
    destruct (rle_read m r1) as [[zs2 r2] |]; reflexivity.
Qed.

Lemma rle_read_run (k : nat) (v : Z) (stream : Base128StreamReader) :
  Z.of_nat k < 2 ^ 63 ->
  rle_read k (mkRLEReader v (Z.of_nat k) stream)
  = Some (replicate k v, mkRLEReader v 0 stream).
Proof.
  induction k as [| k IH]; intros Hk; [reflexivity |].
  cbn [rle_read]. unfold rle_next. cbn [rd_reps_ rd_prev_ rd_stream_].
  replace (Z.of_nat (S k) =? 0) with false by (symmetry; apply Z.eqb_neq; lia).
  cbn [mbind option_bind rd_reps_ rd_prev_ rd_stream_].
  change (as_TVal Int64 (Z.of_nat (S k) - 1)) with (wrap_int64 (Z.of_nat (S k) - 1)).
  rewrite wrap_int64_small by lia.
  replace (Z.of_nat (S k) - 1) with (Z.of_nat k) by lia.
  rewrite IH by lia. reflexivity.
Qed.

Lemma rle_read_pairs (ps : list (Z * Z)) :
  forall (prev0 : Z) (rest : list Z),
    Forall pair_ok ps ->
    exists pv,
      rle_read (total ps) (mkRLEReader prev0 0 (enc_pairs ps ++ rest))
      = Some (expand ps, mkRLEReader pv 0 rest).
Proof.
  induction ps as [| [r v] ps IH]; intros prev0 rest Hok.
  - exists prev0. reflexivity.
  - apply Forall_cons in Hok as [[Hr Hv] Hok]. cbn [fst snd] in Hr, Hv.
    cbn [total fold_right fst]. rewrite rle_read_app.
    destruct (Z.to_nat r) as [| k] eqn:Ek; [lia |].
    assert (Hrk : r = Z.of_nat (S k)) by lia.
    cbn [rle_read]. unfold rle_next at 1. cbn [rd_reps_ rd_prev_ rd_stream_ Z.eqb].
    unfold enc_pairs. cbn [map concat fst snd]. rewrite <- !app_assoc.
    destruct (varint_spec r) as (_ & _ & Hget1); [lia |].
    destruct (varint_spec v Hv) as (_ & _ & Hget2).
    rewrite Hget1. cbn [mbind option_bind]. rewrite Hget2.
    cbn [mbind option_bind rd_reps_ rd_prev_ rd_stream_].
    change (as_TVal Int64 (r - 1)) with (wrap_int64 (r - 1)).
    rewrite wrap_int64_small by lia.
    replace (r - 1) with (Z.of_nat k) by lia.
    rewrite rle_read_run by lia. cbn [mbind option_bind].
    destruct (IH v rest Hok) as [pv Hread].
    fold (enc_pairs ps). fold (total ps). rewrite Hread. cbn [mbind option_bind].
    exists pv. unfold expand. cbn [map concat fst snd]. rewrite Ek.
    reflexivity.
Qed.

Lemma runs_of_first (prev z : Z) (zs : list Z) :
  runs_of prev 0 (z :: zs) = runs_of z 1 zs.
Proof.
  cbn [runs_of Z.eqb Z.add]. destruct (Z.eqb_spec z prev) as [-> | Hne]; reflexivity.
Qed.

Lemma runs_of_expand (zs : list Z) :
  forall prev reps,
    0 <= reps ->
    expand (runs_of prev reps zs) = replicate (Z.to_nat reps) prev ++ zs
    /\ total (runs_of prev reps zs) = (Z.to_nat reps + length zs)%nat.
Proof.
  induction zs as [| z zs IH]; intros prev reps Hr; cbn [runs_of].
  - unfold expand. cbn. rewrite !app_nil_r. split; [reflexivity | lia].
  - destruct (Z.eqb_spec z prev) as [-> | Hne].
    + destruct (IH prev (reps + 1)) as [He Ht]; [lia |].
      rewrite He, Ht. replace (Z.to_nat (reps + 1)) with (S (Z.to_nat reps)) by lia.
      split; [| simpl; lia].
      rewrite replicate_S_end, <- app_assoc. reflexivity.
    + destruct (IH z 1) as [He Ht]; [lia |].
      destruct (Z.eqb_spec reps 0) as [-> | Hr0]; cbn [app].
      * rewrite He, Ht. split; [reflexivity | simpl; lia].
      * unfold expand, total in *. cbn [map concat fold_right fst snd].
        rewrite He, Ht. split; [reflexivity | simpl; lia].
Qed.

Lemma runs_of_ok (zs : list Z) :
  forall prev reps,
    in_varint_range prev -> Forall in_varint_range zs ->
    1 <= reps -> reps + Z.of_nat (length zs) < 2 ^ 63 ->
    Forall pair_ok (runs_of prev reps zs).
Proof.
  induction zs as [| z zs IH]; intros prev reps Hp Hz Hr Hn; cbn [runs_of].
  - constructor; [| constructor]. split; cbn [fst snd]; [simpl in Hn; lia | exact Hp].
  - apply Forall_cons in Hz as [Hz0 Hz]. cbn [length] in Hn.
    destruct (Z.eqb_spec z prev) as [-> | Hne].
    + apply IH; try assumption; lia.
    + replace (reps =? 0) with false by (symmetry; apply Z.eqb_neq; lia).
      cbn [app]. constructor.
      * split; cbn [fst snd]; [lia | exact Hp].
      * apply IH; try assumption; lia.
Qed.

Lemma land_1 (x : Z) : Z.land x 1 = x mod 2.
Proof. change 1 with (Z.ones 1). rewrite Z.land_ones by lia. reflexivity. Qed.

Lemma zigzag_roundtrip (d : Z) :
  - 2 ^ 62 <= d < 2 ^ 62 ->
  in_varint_range (zigzag_encode d) /\ zigzag_decode (zigzag_encode d) = d.
Proof.
  intros Hd. unfold zigzag_encode, zigzag_decode, in_varint_range.
  rewrite Z.shiftl_mul_pow2, (wrap_int64_small (d * 2 ^ 1)) by lia.
  rewrite Z.shiftr_div_pow2 by lia.
  destruct (Z.lt_ge_cases d 0) as [Hneg | Hpos].
  - replace (d / 2 ^ 63) with (-1)
      by (apply Z.div_unique with (r := d + 2 ^ 63); lia).
    rewrite Z.lxor_m1_r, Z.lnot_eq_pred_opp.
    rewrite (wrap_int64_small (- (d * 2 ^ 1) - 1)) by lia.
    split; [lia |].
    rewrite Z.shiftr_div_pow2, land_1 by lia.
    replace ((- (d * 2 ^ 1) - 1) / 2 ^ 1) with (- d - 1)
      by (apply Z.div_unique with (r := 1); lia).
    replace ((- (d * 2 ^ 1) - 1) mod 2) with 1
      by (apply Z.mod_unique with (q := - d - 1); lia).
    rewrite (wrap_int64_small (- (1))) by lia.
    rewrite Z.lxor_m1_r, Z.lnot_eq_pred_opp.
    rewrite wrap_int64_small by lia. lia.
  - rewrite (Z.div_small d (2 ^ 63)) by lia.
    rewrite Z.lxor_0_r, (wrap_int64_small (d * 2 ^ 1)) by lia.
    split; [lia |].
    rewrite Z.shiftr_div_pow2, land_1 by lia.
    rewrite Z.div_mul by lia. change (2 ^ 1) with 2. rewrite Z.mod_mul by lia.
    change (wrap_int64 (- 0)) with 0.
    rewrite Z.lxor_0_r. apply wrap_int64_small. lia.
Qed.

Lemma wrap_int64_add_r (a b : Z) : wrap_int64 (a + wrap_int64 b) = wrap_int64 (a + b).
Proof.
  unfold wrap_int64.
  replace (a + ((b + 2 ^ 63) mod 2 ^ 64 - 2 ^ 63) + 2 ^ 63)
    with (a + (b + 2 ^ 63) mod 2 ^ 64) by lia.
  rewrite Zplus_mod_idemp_r. f_equal. f_equal. lia.
Qed.

Lemma undeltas_deltas (column : list Z) :
  forall prev,
    column_ok prev column ->
    Forall in_varint_range (deltas prev column)
    /\ undeltas prev (deltas prev column) = column.
Proof.
  induction column as [| v column IH]; intros prev Hok.
  - split; [constructor | reflexivity].
  - destruct Hok as (Hv & Hd & Hok). cbn [deltas undeltas].
    destruct (zigzag_roundtrip _ Hd) as [Hz Hrt].
    destruct (IH v Hok) as [Hzs Hun].
    split; [constructor; assumption |].
    rewrite Hrt, wrap_int64_add_r.
    replace (prev + (v - prev)) with v by lia.
    rewrite wrap_int64_small by lia. rewrite Hun. reflexivity.
Qed.

Lemma read_column_spec (n : nat) :
  forall prev rd zs rd',
    rle_read n rd = Some (zs, rd') ->
    read_column n (prev, rd) = Some (undeltas prev zs).
Proof.
  induction n as [| n IH]; intros prev rd zs rd' Hread; cbn [rle_read read_column] in *.
  - injection Hread as <- <-. reflexivity.
  - unfold delta_rle_next.
    destruct (rle_next Int64 rd) as [[z r1] |]; [| discriminate].
    cbn [mbind option_bind] in *.
    destruct (rle_read n r1) as [[zs1 r2] |] eqn:E; [| discriminate].
    cbn [mbind option_bind] in Hread. injection Hread as <- <-.
    rewrite (IH _ _ _ _ E). reflexivity.
Qed.

(** Below the limit the codec is lossless: a column of [int64_t] values
    whose successive differences fit in 63 bits, written to a region with
    18 bytes of room for each value and 18 more, is written in full and
    read back as it was. *)
Lemma delta_rle_roundtrip (capacity : nat) (column : list Z) :
  column_ok 0 column ->
  Z.of_nat (length column) < 2 ^ 62 ->
  (18 * (length column + 1) <= capacity)%nat ->
  exists bytes,
    encode_column capacity column = Some bytes
    /\ decode_column (length column) bytes = Some column.
Proof.
  intros Hok Hlen Hroom.
  destruct (undeltas_deltas column 0 Hok) as [Hzs Hun].
  destruct (write_column_spec column 0 0 0 (mkWriter capacity []))
    as (w' & Hw & Hc); try assumption; try (unfold in_varint_range; lia).
  unfold encode_column, new_DeltaRLEWriter, new_RLEStreamWriter.
  rewrite Hw. cbn [mbind option_bind]. rewrite Hc. cbn [mbind option_bind written app].
  eexists. split; [reflexivity |].
  unfold decode_column, new_DeltaRLEReader, new_RLEStreamReader.
  destruct column as [| v column]; [reflexivity |].
  cbn [deltas]. rewrite runs_of_first.
  cbn [deltas] in Hzs, Hun. apply Forall_cons in Hzs as [Hz0 Hzs].
  set (z := zigzag_encode (wrap_int64 (v - 0))) in *.
  set (zs := deltas v column) in *.
  assert (Hzlen : length zs = length column).
  { subst zs. clear. revert v. induction column; intros; simpl; auto. }
  destruct (runs_of_expand zs z 1 ltac:(lia)) as [Hexp Htot].
  destruct (rle_read_pairs (runs_of z 1 zs) 0 []) as [pv Hread].
  { apply runs_of_ok; try assumption; try lia. rewrite Hzlen. cbn [length] in Hlen. lia. }
  rewrite app_nil_r, Htot, Hexp in Hread.
  change (Z.to_nat 1) with 1%nat in Hread. cbn [replicate app Nat.add] in Hread.
  rewrite Hzlen in Hread. cbn [length].
  rewrite (read_column_spec _ _ _ _ _ Hread). f_equal. exact Hun.
Qed.

Lemma base128_put_negative (space : nat) :
  forall v, v < 0 -> base128_put space v = None.
Proof.
  induction space as [| space IH]; intros v Hv; [reflexivity |].
  cbn [base128_put].
  assert (Hs : Z.shiftr v 7 < 0) by (apply Z.shiftr_neg; exact Hv).
  replace (Z.shiftr v 7 =? 0) with false by (symmetry; apply Z.eqb_neq; lia).
  rewrite (IH _ Hs). reflexivity.
Qed.

(** C2, at its limit.  The column that holds the one value [2^62] cannot
    be written, however large the region: its zig-zag image has the top
    bit set, as an [int64_t] it is negative, [>>= 7] never brings it to
    zero and [put] runs to the end of the region, and the writer throws.
    The reader's side has the same flaw: [(n >> 1)] on the signed [n]
    turns the image of [2^62] into [-2^62].  One below the limit the
    column passes, and so does a column with zeros. *)
Theorem zigzag_top_bit_lost :
  (forall capacity, encode_column capacity [2 ^ 62] = None)
  /\ zigzag_encode (2 ^ 62) = - 2 ^ 63
  /\ zigzag_decode (zigzag_encode (2 ^ 62)) = - 2 ^ 62
  /\ (exists bytes, encode_column 64 [2 ^ 62 - 1] = Some bytes
                    /\ decode_column 1 bytes = Some [2 ^ 62 - 1])
  /\ (exists bytes, encode_column 64 [0; 0; 7; 7; 0] = Some bytes
                    /\ decode_column 5 bytes = Some [0; 0; 7; 7; 0]).
Proof.
  split.
  { intros capacity. unfold encode_column, new_DeltaRLEWriter.
    cbn [write_column delta_rle_put mbind option_bind].
    change (zigzag_encode (wrap_int64 (2 ^ 62 - 0))) with (- 2 ^ 63).
    cbn [rle_put new_RLEStreamWriter rle_prev_ rle_reps_ Z.eqb negb
         mbind option_bind delta_rle_commit rle_commit snd].
    change (- 2 ^ 63 =? 0) with false.
    cbn [negb mbind option_bind delta_rle_commit rle_commit snd rle_reps_ rle_prev_].
    destruct (writer_put (as_TVal Int64 (0 + 1)) (mkWriter capacity []))
      as [stream1 |]; [| reflexivity].
    cbn [mbind option_bind]. unfold writer_put.
    rewrite base128_put_negative by reflexivity. reflexivity. }
  split; [vm_compute; reflexivity |].
  split; [vm_compute; reflexivity |].
  split; eexists; (split; [vm_compute; reflexivity | vm_compute; reflexivity]).
Qed.

(** *** Base128 at the unsigned types *)

(** The number of value bits of a type: what a non-negative value may
    use. *)
Definition value_bits (t : TVal) : Z :=
  match t with
  | UInt32 => 32
  | UInt64 => 64
  | Int64 => 63
  end.

Lemma as_TVal_small (t : TVal) (x : Z) :
  0 <= x < 2 ^ value_bits t -> as_TVal t x = x.
Proof.
  destruct t; cbn [as_TVal value_bits]; intros Hx.
  - unfold wrap32. apply Z.mod_small. exact Hx.
  - unfold wrap64. apply Z.mod_small. exact Hx.
  - apply wrap_int64_small. lia.
Qed.

Lemma value_bits_range (t : TVal) : 32 <= value_bits t <= 64.
Proof. destruct t; simpl; lia. Qed.

(** What [put] wrote, [get] reads back at every type, whatever follows. *)
Lemma base128_put_get_at (t : TVal) (space : nat) :
  forall (v cnt acc : Z) (bs rest : list Z),
    0 <= v -> 0 <= cnt -> v * 2 ^ cnt < 2 ^ value_bits t -> 0 <= acc < 2 ^ cnt ->
    base128_put space v = Some bs ->
    base128_get t (bs ++ rest) cnt acc = Some (acc + v * 2 ^ cnt, rest).
Proof.
  pose proof (value_bits_range t) as Hbits.
  induction space as [| space IH]; intros v cnt acc bs rest Hv Hc Hfit Ha Hput;
    [discriminate |].
  cbn [base128_put] in Hput.
  destruct (byte_split v Hv) as (Hland & Hshr & Hb & Hq & Hsplit).
  rewrite Hland, Hshr in Hput.
  destruct (low7 (v mod 128) Hb) as (L1 & L2 & L3 & L4).
  assert (Hpow : 0 < 2 ^ cnt) by (apply Z.pow_pos_nonneg; lia).
  assert (Hlor : forall i, 0 <= i -> i * 2 ^ cnt < 2 ^ value_bits t ->
                           Z.lor acc (as_TVal t (Z.shiftl i cnt)) = acc + i * 2 ^ cnt).
  { intros i Hi Hifit.
    rewrite as_TVal_small by (rewrite Z.shiftl_mul_pow2 by exact Hc; nia).
    apply lor_low_high; assumption. }
  destruct (Z.eqb_spec (v / 128) 0) as [Hz | Hnz].
  - injection Hput as <-. cbn [app base128_get].
    rewrite L1, L2. cbn [Z.eqb]. rewrite Hz, Z.mul_0_r, Z.add_0_l in Hsplit.
    rewrite <- Hsplit. rewrite Hlor by lia. reflexivity.
  - destruct (base128_put space (v / 128)) as [bs' |] eqn:Eput; [| discriminate].
    cbn [mbind option_bind] in Hput. injection Hput as <-.
    cbn [app base128_get]. rewrite L3, L4. cbn [Z.eqb].
    assert (Hcnt : cnt < value_bits t).
    { destruct (Z.lt_ge_cases cnt (value_bits t)) as [? | Hge]; [assumption |].
      assert (2 ^ value_bits t <= 2 ^ cnt) by (apply Z.pow_le_mono_r; lia). nia. }
    assert (Hsmall : 0 <= cnt + 7 < 2 ^ value_bits t).
    { split; [lia |]. apply Z.lt_le_trans with (2 ^ 32); [lia |].
      apply Z.pow_le_mono_r; lia. }
    rewrite (as_TVal_small t (cnt + 7) Hsmall).
    rewrite Hlor by (lia || nia).
    assert (Hp7 : 2 ^ (cnt + 7) = 128 * 2 ^ cnt)
      by (rewrite Z.pow_add_r by lia; change (2 ^ 7) with 128; lia).
    rewrite (IH (v / 128) (cnt + 7) (acc + v mod 128 * 2 ^ cnt) bs' rest);
      [f_equal; f_equal; rewrite Hp7; nia | lia | lia | rewrite Hp7; nia
      | rewrite Hp7; nia | exact Eput].
Qed.

(** A value cut short is never read as a value. *)
Lemma base128_get_truncated (t : TVal) (space : nat) :
  forall (v : Z) (bs : list Z) (n : nat) (cnt acc : Z),
    0 <= v -> base128_put space v = Some bs -> (n < length bs)%nat ->
    base128_get t (take n bs) cnt acc = None.
Proof.
  induction space as [| space IH]; intros v bs n cnt acc Hv Hput Hn; [discriminate |].
  cbn [base128_put] in Hput.
  destruct (byte_split v Hv) as (Hland & Hshr & Hb & Hq & Hsplit).
  rewrite Hland, Hshr in Hput.
  destruct (low7 (v mod 128) Hb) as (L1 & L2 & L3 & L4).
  destruct (Z.eqb_spec (v / 128) 0) as [Hz | Hnz].
  - injection Hput as <-. cbn [length] in Hn.
    replace n with 0%nat by lia. reflexivity.
  - destruct (base128_put space (v / 128)) as [bs' |] eqn:Eput; [| discriminate].
    cbn [mbind option_bind] in Hput. injection Hput as <-.
    destruct n as [| n]; [reflexivity |].
    cbn [take base128_get]. rewrite L4. cbn [Z.eqb].
    apply (IH (v / 128) bs' n); [exact Hq | exact Eput |].
    cbn [length] in Hn. lia.
Qed.

Lemma base128_put_length (space : nat) :
  forall (v : Z) (bs : list Z),
    base128_put space v = Some bs -> (1 <= length bs <= space)%nat.
Proof.
  induction space as [| space IH]; intros v bs Hput; [discriminate |].
  cbn [base128_put] in Hput.
  destruct (Z.shiftr v 7 =? 0); [injection Hput as <-; simpl; lia |].
  destruct (base128_put space (Z.shiftr v 7)) as [bs' |] eqn:E; [| discriminate].
  cbn [mbind option_bind] in Hput. injection Hput as <-.
  apply IH in E. simpl. lia.
Qed.

(** X11.  Base128 at every type of the header.  A non-negative
    value that fits the type, put into a stream with ten bytes of room,
    is written as one to ten bytes, one byte when it is below 128.  Read
    at that type from these bytes, whatever bytes follow, it comes back
    as it was and the reader stands right behind it.  When the bytes are
    cut short, but not to nothing, the reader throws [StreamOutOfBounds]
    instead of returning a value; with no byte left at all it is the
    [assert(begin < end)] of [get] that fails. *)
Theorem base128_roundtrip (t : TVal) (v : Z) (w : Base128StreamWriter) :
  0 <= v < 2 ^ value_bits t ->
  (length (written w) + 10 <= capacity w)%nat ->
  exists bytes,
    writer_put v w = Some (mkWriter (capacity w) (written w ++ bytes))
    /\ (1 <= length bytes <= 10)%nat
    /\ (v < 128 -> length bytes = 1%nat)
    /\ (forall rest, reader_next t (bytes ++ rest) = Some (v, rest))
    /\ (forall rest, reader_next_outcome t (bytes ++ rest) = ReadValue v rest)
    /\ (forall n, (0 < n < length bytes)%nat ->
                  reader_next_outcome t (take n bytes) = ReadOutOfBounds)
    /\ reader_next_outcome t (take 0 bytes) = ReadAssertFailed.
Proof.
  intros Hv Hroom.
  pose proof (value_bits_range t) as Hbits.
  destruct (base128_put_fits 10 v 10) as (bytes & Hput & Hlen); [| lia |].
  { split; [lia |]. apply Z.lt_le_trans with (2 ^ value_bits t); [lia |].
    apply Z.pow_le_mono_r; lia. }
  exists bytes. unfold writer_put.
  rewrite (base128_put_more 10 v bytes _ Hput) by lia.
  split; [reflexivity |].
  pose proof (base128_put_length 10 v bytes Hput) as Hl.
  assert (Hread : forall rest, reader_next t (bytes ++ rest) = Some (v, rest)).
  { intros rest. unfold reader_next.
    rewrite (base128_put_get_at t 10 v 0 0 bytes rest); try lia; [| exact Hput].
    f_equal. f_equal. simpl. lia. }
  split; [lia |]. split; [| split; [exact Hread | split; [| split]]].
  - intros Hsmall. destruct (base128_put_fits 10 v 1) as (b1 & Hp1 & Hl1);
      [simpl; lia | lia |].
    rewrite Hput in Hp1. injection Hp1 as <-. lia.
  - intros rest. unfold reader_next_outcome. rewrite Hread.
    destruct bytes as [| b bytes']; [cbn [length] in Hl; lia | reflexivity].
  - intros n Hn. unfold reader_next_outcome, reader_next.
    rewrite (base128_get_truncated t 10 v bytes n 0 0) by (lia || exact Hput).
    destruct bytes as [| b bytes']; [cbn [length] in Hn; lia |].
    destruct n as [| n']; [lia | reflexivity].
  - reflexivity.
Qed.

(** *** The room a column needs *)

Lemma base128_put_exact (space : nat) :
  forall (v : Z) (bs : list Z),
    base128_put space v = Some bs -> base128_put (length bs) v = Some bs.
Proof.
  induction space as [| space IH]; intros v bs Hput; [discriminate |].
  cbn [base128_put] in Hput.
  destruct (Z.shiftr v 7 =? 0) eqn:Ez.
  - injection Hput as <-. cbn [length base128_put]. rewrite Ez. reflexivity.
  - destruct (base128_put space (Z.shiftr v 7)) as [bs' |] eqn:E; [| discriminate].
    cbn [mbind option_bind] in Hput. injection Hput as <-.
    cbn [length base128_put]. rewrite Ez, (IH _ _ E). reflexivity.
Qed.

Lemma base128_put_varint (space : nat) (v : Z) (bs : list Z) :
  in_varint_range v -> base128_put space v = Some bs -> bs = varint v.
Proof.
  intros Hv Hput. destruct (varint_spec v Hv) as (H9 & _ & _).
  destruct (Nat.le_gt_cases space 9) as [Hle | Hgt].
  - rewrite (base128_put_more space v bs 9 Hput Hle) in H9. congruence.
  - rewrite (base128_put_more 9 v (varint v) space H9 ltac:(lia)) in Hput. congruence.
Qed.

(** [put] succeeds exactly when the bytes of the value fit. *)
Lemma writer_put_exact (v : Z) (w : Base128StreamWriter) :
  in_varint_range v ->
  writer_put v w
  = (if decide (length (written w) + length (varint v) <= capacity w)%nat
     then Some (mkWriter (capacity w) (written w ++ varint v))
     else None).
Proof.
  intros Hv. unfold writer_put.
  destruct (varint_spec v Hv) as (H9 & _ & _).
  destruct (decide (length (written w) + length (varint v) <= capacity w)%nat)
    as [Hfit | Hshort].
  - rewrite (base128_put_more _ v (varint v) _ (base128_put_exact 9 v _ H9))
      by lia. reflexivity.
  - destruct (base128_put (capacity w - length (written w)) v) as [bs |] eqn:E;
      [| reflexivity].
    exfalso. apply Hshort.
    rewrite <- (base128_put_varint _ v bs Hv E).
    apply base128_put_length in E. lia.
Qed.

Lemma write_column_exact (column : list Z) :
  forall (prev rp rr : Z) (w : Base128StreamWriter),
    Forall in_varint_range (deltas prev column) ->
    in_varint_range rp -> 0 <= rr ->
    rr + Z.of_nat (length column) < 2 ^ 63 ->
    write_column (prev, (mkRLEWriter rp rr, w)) column ≫= delta_rle_commit
    = (if decide (length (written w)
                  + length (enc_pairs (runs_of rp rr (deltas prev column)))
                  <= capacity w)%nat
       then Some (mkWriter (capacity w)
                    (written w ++ enc_pairs (runs_of rp rr (deltas prev column))))
       else None).
Proof.
  induction column as [| v column IH]; intros prev rp rr w Hz Hrp Hrr Hn.
  - cbn [write_column mbind option_bind deltas runs_of].
    unfold delta_rle_commit, rle_commit. cbn [snd rle_reps_ rle_prev_].
    unfold enc_pairs. cbn [map concat fst snd].
    rewrite (app_nil_r (varint rr ++ varint rp)), length_app.
    assert (Hrr' : in_varint_range rr) by (unfold in_varint_range; simpl in Hn; lia).
    rewrite (writer_put_exact rr w Hrr').
    destruct (decide (length (written w) + length (varint rr) <= capacity w)%nat)
      as [H1 | H1]; cbn [mbind option_bind].
    + rewrite (writer_put_exact rp _ Hrp). cbn [written capacity].
      rewrite length_app.
      destruct (decide (_ + _ + _ <= _)%nat) as [H2 | H2];
        destruct (decide (length (written w) + (_ + _) <= _)%nat) as [H3 | H3];
        try lia; [rewrite <- app_assoc; reflexivity | reflexivity].
    + destruct (decide (_ <= _)%nat) as [H3 | H3]; [lia | reflexivity].
  - cbn [deltas] in Hz. apply Forall_cons in Hz as [Hz0 Hz].
    cbn [write_column delta_rle_put deltas runs_of].
    set (z := zigzag_encode (wrap_int64 (v - prev))) in *.
    cbn [length] in Hn.
    unfold rle_put. cbn [rle_prev_ rle_reps_].
    destruct (Z.eqb_spec z rp) as [-> | Hne]; cbn [negb mbind option_bind].
    + change (as_TVal Int64 (rr + 1)) with (wrap_int64 (rr + 1)).
      rewrite wrap_int64_small by lia.
      apply IH; try assumption; lia.
    + change (as_TVal Int64 (0 + 1)) with 1.
      destruct (Z.eqb_spec rr 0) as [-> | Hrr0]; cbn [negb mbind option_bind app].
      * apply IH; try assumption; lia.
      * assert (Hrr' : in_varint_range rr) by (unfold in_varint_range; lia).
        assert (Hsize : length (enc_pairs ((rr, rp) :: runs_of z 1 (deltas v column)))
                        = (length (varint rr) + length (varint rp)
                           + length (enc_pairs (runs_of z 1 (deltas v column))))%nat).
        { unfold enc_pairs. cbn [map concat fst snd]. rewrite !length_app. lia. }
        assert (Hbytes : forall pre : list Z,
                   ((pre ++ varint rr) ++ varint rp)
                   ++ enc_pairs (runs_of z 1 (deltas v column))
                   = pre ++ enc_pairs ((rr, rp) :: runs_of z 1 (deltas v column))).
        { intros pre. unfold enc_pairs. cbn [map concat fst snd].
          rewrite <- !app_assoc. reflexivity. }
        rewrite (writer_put_exact rr w Hrr').
        destruct (decide (length (written w) + length (varint rr) <= capacity w)%nat)
          as [H1 | H1]; cbn [mbind option_bind].
        2:{ destruct (decide (_ <= _)%nat) as [H3 | H3]; [lia | reflexivity]. }
        rewrite (writer_put_exact rp _ Hrp). cbn [written capacity].
        destruct (decide (length (written w ++ varint rr) + length (varint rp)
                          <= capacity w)%nat) as [H2 | H2]; cbn [mbind option_bind].
        2:{ rewrite length_app in H2.
            destruct (decide (_ <= _)%nat) as [H3 | H3]; [lia | reflexivity]. }
        rewrite (IH v z 1 _ Hz Hz0 ltac:(lia) ltac:(lia)).
        cbn [written capacity]. rewrite length_app in H2.
        destruct (decide (length ((written w ++ varint rr) ++ varint rp) + _ <= _)%nat)
          as [H3 | H3]; rewrite !length_app in H3;
          destruct (decide (length (written w) + _ <= _)%nat) as [H4 | H4];
          try lia; [rewrite Hbytes; reflexivity | reflexivity].
Qed.

(** The number of bytes a column is written as: those of the run-length
    pairs of its zig-zag coded differences. *)
Definition encoded_size (column : list Z) : nat :=
  length (enc_pairs (runs_of 0 0 (deltas 0 column))).

Lemma deltas_length (column : list Z) : forall prev, length (deltas prev column) = length column.
Proof. induction column as [| v column IH]; intros prev; simpl; auto. Qed.

Lemma decode_runs (column : list Z) :
  column_ok 0 column ->
  Z.of_nat (length column) < 2 ^ 62 ->
  decode_column (length column) (enc_pairs (runs_of 0 0 (deltas 0 column)))
  = Some column.
Proof.
  intros Hok Hlen.
  destruct (undeltas_deltas column 0 Hok) as [Hzs Hun].
  unfold decode_column, new_DeltaRLEReader, new_RLEStreamReader.
  destruct column as [| v column]; [reflexivity |].
  cbn [deltas]. rewrite runs_of_first.
  cbn [deltas] in Hzs, Hun. apply Forall_cons in Hzs as [Hz0 Hzs].
  set (z := zigzag_encode (wrap_int64 (v - 0))) in *.
  pose proof (deltas_length column v) as Hzlen.
  set (zs := deltas v column) in *.
  destruct (runs_of_expand zs z 1 ltac:(lia)) as [Hexp Htot].
  destruct (rle_read_pairs (runs_of z 1 zs) 0 []) as [pv Hread].
  { apply runs_of_ok; try assumption; try lia. rewrite Hzlen. cbn [length] in Hlen. lia. }
  rewrite app_nil_r, Htot, Hexp in Hread.
  change (Z.to_nat 1) with 1%nat in Hread. cbn [replicate app Nat.add] in Hread.
  rewrite Hzlen in Hread. cbn [length].
  rewrite (read_column_spec _ _ _ _ _ Hread). f_equal. exact Hun.
Qed.

Lemma encode_column_exact (room : nat) (column : list Z) :
  column_ok 0 column ->
  Z.of_nat (length column) < 2 ^ 62 ->
  ((encoded_size column <= room)%nat ->
   exists bytes,
     encode_column room column = Some bytes
     /\ length bytes = encoded_size column
     /\ decode_column (length column) bytes = Some column)
  /\ ((room < encoded_size column)%nat ->
      encode_column room column = None).
Proof.
  intros Hok Hlen.
  destruct (undeltas_deltas column 0 Hok) as [Hzs _].
  pose proof (write_column_exact column 0 0 0 (mkWriter room []) Hzs
                ltac:(unfold in_varint_range; lia) ltac:(lia) ltac:(lia)) as Hw.
  cbn [written capacity length Nat.add app] in Hw.
  fold (encoded_size column) in Hw.
  assert (Henc : encode_column room column
                 = (write_column (0, (mkRLEWriter 0 0, mkWriter room [])) column
                      ≫= delta_rle_commit) ≫= fun stream => Some (written stream)).
  { unfold encode_column, new_DeltaRLEWriter, new_RLEStreamWriter.
    destruct (write_column _ column) as [w' |]; [| reflexivity].
    cbn [mbind option_bind]. reflexivity. }
  rewrite Henc, Hw. split; intros Hcap.
  - rewrite decide_True by exact Hcap. cbn [mbind option_bind written].
    eexists. split; [reflexivity |]. split; [reflexivity |].
    apply decode_runs; assumption.
  - rewrite decide_False by lia. reflexivity.
Qed.

(** X12.  The room a column needs is that of its runs.  A column of
    [int64_t] values whose successive differences fit in 63 bits is
    written in full exactly when the region holds [encoded_size] bytes;
    it then takes that many bytes and is read back as it was.  In a
    smaller region the writer throws [StreamOutOfBounds]. *)
Theorem encode_column_room (room : nat) (column : list Z) :
  column_ok 0 column ->
  Z.of_nat (length column) < 2 ^ 62 ->
  ((encoded_size column <= room)%nat ->
   exists bytes,
     encode_column room column = Some bytes
     /\ length bytes = encoded_size column
     /\ decode_column (length column) bytes = Some column)
  /\ ((room < encoded_size column)%nat ->
      encode_column room column = None).
Proof. exact (encode_column_exact room column). Qed.

(** A column that starts at [t0] and goes on in steps of [d]. *)
Definition regular (t0 d : Z) (n : nat) : list Z :=
  map (fun i => t0 + d * Z.of_nat i) (seq 0 n).

Lemma varint_length (v : Z) : in_varint_range v -> (length (varint v) <= 9)%nat.
Proof. intros Hv. apply (varint_spec v Hv). Qed.

Lemma enc_pairs_length (ps : list (Z * Z)) :
  Forall (fun p => in_varint_range p.1 /\ in_varint_range p.2) ps ->
  (length (enc_pairs ps) <= 18 * length ps)%nat.
Proof.
  induction 1 as [| [r v] ps [Hr Hv] _ IH]; [simpl; lia |].
  unfold enc_pairs in *. cbn [map concat fst snd length] in *.
  rewrite !length_app.
  pose proof (varint_length r Hr). pose proof (varint_length v Hv). lia.
Qed.

Lemma runs_of_constant (z : Z) (k : nat) :
  forall reps, runs_of z reps (replicate k z) = [(reps + Z.of_nat k, z)].
Proof.
  induction k as [| k IH]; intros reps; cbn [replicate runs_of].
  - rewrite Z.add_0_r. reflexivity.
  - rewrite Z.eqb_refl, IH. do 2 f_equal. lia.
Qed.

Lemma deltas_regular (t0 d : Z) (n : nat) :
  - 2 ^ 63 <= d < 2 ^ 63 ->
  forall k : nat,
    deltas (t0 + d * Z.of_nat k)
      (map (fun i => t0 + d * Z.of_nat i) (seq (S k) n))
    = replicate n (zigzag_encode d).
Proof.
  intros Hd. induction n as [| n IH]; intros k; cbn [seq map deltas replicate];
    [reflexivity |].
  rewrite IH. f_equal. f_equal.
  replace (t0 + d * Z.of_nat (S k) - (t0 + d * Z.of_nat k)) with d by lia.
  apply wrap_int64_small. exact Hd.
Qed.

Lemma regular_column_ok (t0 d : Z) (n : nat) :
  - 2 ^ 62 <= t0 < 2 ^ 62 -> - 2 ^ 62 <= d < 2 ^ 62 ->
  - 2 ^ 63 <= t0 + d * Z.of_nat n < 2 ^ 63 ->
  column_ok 0 (regular t0 d n).
Proof.
  intros Ht Hd Hend. unfold regular.
  assert (Hin : forall i : nat, (i <= n)%nat -> - 2 ^ 63 <= t0 + d * Z.of_nat i < 2 ^ 63).
  { intros i Hi. assert (0 <= Z.of_nat i <= Z.of_nat n) by lia. nia. }
  destruct n as [| n]; [exact I |].
  cbn [seq map column_ok]. rewrite Z.mul_0_r, Z.add_0_r, Z.sub_0_r.
  split; [lia |]. split; [rewrite wrap_int64_small; lia |].
  assert (Hgen : forall m k : nat,
             (k + m <= n)%nat ->
             column_ok (t0 + d * Z.of_nat k)
               (map (fun i => t0 + d * Z.of_nat i) (seq (S k) m))).
  { induction m as [| m IH]; intros k Hk; cbn [seq map column_ok]; [exact I |].
    split; [apply Hin; lia |]. split; [| apply IH; lia].
    replace (t0 + d * Z.of_nat (S k) - (t0 + d * Z.of_nat k)) with d by lia.
    rewrite wrap_int64_small; lia. }
  pose proof (Hgen n 0%nat ltac:(lia)) as H0.
  rewrite Z.mul_0_r, Z.add_0_r in H0. exact H0.
Qed.

(** X13.  What delta and run-length coding are for: a column that
    starts at [t0] and goes on in steps of [d], timestamps at a fixed
    rate say, takes no more than 36 bytes however long it is, and is
    read back as it was. *)
Theorem regular_column_in_36_bytes (t0 d : Z) (n : nat) (room : nat) :
  - 2 ^ 62 <= t0 < 2 ^ 62 -> - 2 ^ 62 <= d < 2 ^ 62 ->
  - 2 ^ 63 <= t0 + d * Z.of_nat n < 2 ^ 63 ->
  Z.of_nat n < 2 ^ 62 ->
  (36 <= room)%nat ->
  exists bytes,
    encode_column room (regular t0 d n) = Some bytes
    /\ (length bytes <= 36)%nat
    /\ decode_column n bytes = Some (regular t0 d n).
Proof.
  intros Ht Hd Hend Hn Hcap.
  pose proof (regular_column_ok t0 d n Ht Hd Hend) as Hok.
  assert (Hlen : length (regular t0 d n) = n)
    by (unfold regular; rewrite length_map, length_seq; reflexivity).
  assert (Hsize : (encoded_size (regular t0 d n) <= 36)%nat).
  { unfold encoded_size, regular.
    destruct (zigzag_roundtrip t0 Ht) as [Hz0 _].
    destruct (zigzag_roundtrip d Hd) as [Hzd _].
    destruct n as [| n].
    - cbn [seq map deltas runs_of].
      etransitivity; [apply enc_pairs_length |]; [| simpl; lia].
      repeat constructor; unfold in_varint_range; simpl; lia.
    - cbn [seq map deltas]. rewrite Z.mul_0_r, Z.add_0_r, Z.sub_0_r.
      rewrite (wrap_int64_small t0) by lia.
      pose proof (deltas_regular t0 d n ltac:(lia) 0%nat) as Hdel.
      rewrite Z.mul_0_r, Z.add_0_r in Hdel. rewrite Hdel.
      rewrite runs_of_first.
      destruct (Z.eq_dec (zigzag_encode d) (zigzag_encode t0)) as [He | Hne].
      + rewrite He, runs_of_constant.
        etransitivity; [apply enc_pairs_length |]; [| simpl; lia].
        repeat constructor; unfold in_varint_range in *; cbn [fst snd]; lia.
      + destruct n as [| n].
        * cbn [replicate runs_of].
          etransitivity; [apply enc_pairs_length |]; [| simpl; lia].
          repeat constructor; unfold in_varint_range in *; cbn [fst snd]; lia.
        * cbn [replicate runs_of].
          replace (zigzag_encode d =? zigzag_encode t0) with false
            by (symmetry; apply Z.eqb_neq; exact Hne).
          cbn [Z.eqb app]. rewrite runs_of_constant.
          etransitivity; [apply enc_pairs_length |]; [| simpl; lia].
          repeat constructor; unfold in_varint_range in *; cbn [fst snd]; lia. }
  destruct (proj1 (encode_column_exact room (regular t0 d n) Hok
                     ltac:(rewrite Hlen; exact Hn)) ltac:(lia))
    as (bytes & Henc & Hbl & Hdec).
  exists bytes. rewrite Hlen in Hdec. split; [exact Henc |]. split; [lia | exact Hdec].
Qed.

(** *** Examples *)

Lemma base128_roundtrip_witness :
  exists bytes,
    writer_put 300 (mkWriter 16 [7]) = Some (mkWriter 16 ([7] ++ bytes))
    /\ (1 <= length bytes <= 10)%nat
    /\ (300 < 128 -> length bytes = 1%nat)
    /\ (forall rest, reader_next UInt32 (bytes ++ rest) = Some (300, rest))
    /\ (forall rest, reader_next_outcome UInt32 (bytes ++ rest) = ReadValue 300 rest)
    /\ (forall n, (0 < n < length bytes)%nat ->
                  reader_next_outcome UInt32 (take n bytes) = ReadOutOfBounds)
    /\ reader_next_outcome UInt32 (take 0 bytes) = ReadAssertFailed.
Proof.
  apply (base128_roundtrip UInt32 300 (mkWriter 16 [7])).
  - unfold value_bits. lia.
  - simpl. lia.
Defined.

Definition four_values : list Z := [100; 110; 120; 120].

Lemma encode_column_room_witness :
  ((encoded_size four_values <= 8)%nat ->
   exists bytes,
     encode_column 8 four_values = Some bytes
     /\ length bytes = encoded_size four_values
     /\ decode_column (length four_values) bytes = Some four_values)
  /\ ((8 < encoded_size four_values)%nat ->
      encode_column 8 four_values = None).
Proof.
  apply (encode_column_room 8 four_values).
  - repeat split; vm_compute; congruence.
  - unfold four_values. simpl. lia.
Defined.

Lemma regular_column_in_36_bytes_witness :
  exists bytes,
    encode_column 36 (regular 1000 10 100) = Some bytes
    /\ (length bytes <= 36)%nat
    /\ decode_column 100 bytes = Some (regular 1000 10 100).
Proof.
  apply (regular_column_in_36_bytes 1000 10 100 36); lia.
Defined.

End Codec.

(** ** Page (page.cpp) *)
Module Page.

(** The write statuses of [add_entry] and the error codes of [add_chunk]
    share the [int] that [complete_chunk] returns. *)
Inductive write_status :=
| AKU_WRITE_STATUS_SUCCESS
| AKU_WRITE_STATUS_BAD_DATA
| AKU_WRITE_STATUS_OVERFLOW.

#[global] Instance write_status_eq_dec : EqDecision write_status.
Proof. solve_decision. Defined.

Inductive chunk_status :=
| Code (s : aku_Status)
| WriteCode (w : write_status).

(** Modelled from the spec: akumuli.h is not part of this source tree;
    the page file layout gives an entry header as [param_id:u64],
    [time:u64], [length:u32] and the offset index as [u32] slots. *)
Definition sizeof_aku_Entry : Z := 20.
Definition sizeof_aku_EntryOffset : Z := 4.
Definition sizeof_ChunkDesc : Z := 16.

(** What page.cpp takes from headers that are not part of this source
    tree: sizes and limits of akumuli_def.h and page.h, the CRC of boost,
    and the four column writers of the compression header this version of
    the page was written against. *)
Class PageEnv := {
  sizeof_PageHeader : Z;
  AKU_HISTOGRAM_SIZE : Z;
  AKU_MIN_TIMESTAMP : Z;
  AKU_MAX_TIMESTAMP : Z;
  AKU_CHUNK_FWD_ID : Z;
  AKU_CHUNK_BWD_ID : Z;
  crc_32 : list Z -> Z;
  DeltaRLETSWriter : list Z -> list Z;
  Base128IdWriter : list Z -> list Z;
  DeltaRLEOffWriter : list Z -> list Z;
  RLELenWriter : list Z -> list Z
}.

Record PageBoundingBox := mkBBox {
  max_id : Z;
  min_id : Z;
  max_timestamp : Z;
  min_timestamp : Z
}.

Record PageHistogramEntry := mkHEntry {
  timestamp : Z;
  index : Z
}.

(** [PageHeader] and the mapped region behind it.  [histogram] is
    [histogram.entries[0 .. histogram.size)]; [page_index] is the offset
    index that follows the header, slot by slot; [data] is the region by
    byte offset from the start of the page. *)
Record PageHeader := mkPage {
  version : Z;
  count : Z;
  last_offset : Z;
  sync_count : Z;
  checkpoint : Z;
  open_count : Z;
  close_count : Z;
  page_id : Z;
  length_ : Z;
  bbox : PageBoundingBox;
  histogram : list PageHistogramEntry;
  page_index : gmap Z Z;
  data : gmap Z Z
}.

(** [ChunkHeader]: the four columns of a chunk. *)
Record ChunkHeader := mkChunkHeader {
  timestamps : list Z;
  paramids : list Z;
  offsets : list Z;
  lengths : list Z
}.

(** Little-endian bytes of the low [8 * n] bits. *)
Fixpoint le_bytes (n : nat) (x : Z) : list Z :=
  match n with
  | O => []
  | S n' => x mod 256 :: le_bytes n' (x / 256)
  end.

Fixpoint of_le_bytes (bs : list Z) : Z :=
  match bs with
  | [] => 0
  | b :: bs' => b + 256 * of_le_bytes bs'
  end.

(** [memcpy] into the region, and a read of [n] bytes from it; a byte
    never written reads as 0. *)
Fixpoint store (off : Z) (bytes : list Z) (m : gmap Z Z) : gmap Z Z :=
  match bytes with
  | [] => m
  | b :: bytes' => store (off + 1) bytes' (<[off := b]> m)
  end.

Definition load (off : Z) (n : nat) (m : gmap Z Z) : list Z :=
  map (fun i => default 0 (m !! (off + Z.of_nat i))) (seq 0 n).

Section WithEnv.

Context `{PageEnv}.

(** [PageBoundingBox::PageBoundingBox()] *)
Definition new_bbox : PageBoundingBox :=
  mkBBox 0 (2 ^ 32 - 1) AKU_MIN_TIMESTAMP AKU_MAX_TIMESTAMP.

(** [PageHeader::PageHeader(count, length, page_id)] *)
Definition new_page (count length page_id : Z) : PageHeader :=
  mkPage 0 count (wrap64 (length - 1)) 0 0 0 0 page_id length new_bbox [] ∅ ∅.

(** [get_free_space]: the bytes between the end of the offset index and
    [last_offset]; [None] is the failed [assert(end >= begin)]. *)
Definition get_free_space (p : PageHeader) : option Z :=
  let begin := sizeof_PageHeader + sizeof_aku_EntryOffset * count p in
  let end_ := last_offset p in
  if end_ <? begin then None else Some (end_ - begin).

Definition update_bounding_box (p : PageHeader) (param time : Z) : PageBoundingBox :=
  let b := bbox p in
  let b1 := if param >? max_id b
            then mkBBox param (min_id b) (max_timestamp b) (min_timestamp b) else b in
  let b2 := if param <? min_id b1
            then mkBBox (max_id b1) param (max_timestamp b1) (min_timestamp b1) else b1 in
  let b3 := if time >? max_timestamp b2
            then mkBBox (max_id b2) (min_id b2) time (min_timestamp b2) else b2 in
  if time <? min_timestamp b3
  then mkBBox (max_id b3) (min_id b3) (max_timestamp b3) time else b3.

(** [PageHeader::reuse] *)
Definition reuse (p : PageHeader) : PageHeader :=
  mkPage (version p) 0 (wrap64 (length_ p - 1)) 0 0 (wrap32 (open_count p + 1))
    (close_count p) (page_id p) (length_ p) new_bbox [] (page_index p) (data p).

(** [PageHeader::close] *)
Definition close (p : PageHeader) : PageHeader :=
  mkPage (version p) (count p) (last_offset p) (sync_count p) (checkpoint p)
    (open_count p) (wrap32 (close_count p + 1)) (page_id p) (length_ p) (bbox p)
    (histogram p) (page_index p) (data p).

(** [PageHeader::add_entry]; [range] is the payload, [range.length] its
    number of bytes. *)
Definition add_entry (p : PageHeader) (param timestamp : Z) (range : list Z)
    : option (write_status * PageHeader) :=
  let range_length := Z.of_nat (length range) in
  let SPACE_REQUIRED := sizeof_aku_Entry + range_length + sizeof_aku_EntryOffset in
  let ENTRY_SIZE := sizeof_aku_Entry + range_length in
  if range_length =? 0 then Some (AKU_WRITE_STATUS_BAD_DATA, p)
  else
    free ← get_free_space p;
    if SPACE_REQUIRED >? free then Some (AKU_WRITE_STATUS_OVERFLOW, p)
    else
      let free_slot := last_offset p - ENTRY_SIZE in
      let entry := le_bytes 8 param ++ le_bytes 8 timestamp
                   ++ le_bytes 4 range_length ++ range in
      Some (AKU_WRITE_STATUS_SUCCESS,
            mkPage (version p) (wrap32 (count p + 1)) free_slot (sync_count p)
              (checkpoint p) (open_count p) (close_count p) (page_id p)
              (length_ p) (update_bounding_box p param timestamp) (histogram p)
              (<[count p := wrap32 free_slot]> (page_index p))
              (store free_slot entry (data p))).

(** [PageHeader::add_chunk]; [None] when the [assert] of [get_free_space]
    fails or the copy would land before the start of the page. *)
Definition add_chunk (p : PageHeader) (range : list Z) (free_space_required : Z)
    : option (aku_Status * PageHeader) :=
  let range_length := Z.of_nat (length range) in
  let SPACE_REQUIRED := wrap32 (range_length + free_space_required) in
  let SPACE_NEEDED := range_length in
  free ← get_free_space p;
  if free <? SPACE_REQUIRED then Some (AKU_EOVERFLOW, p)
  else if last_offset p <? SPACE_NEEDED then None
  else
    let free_slot := last_offset p - SPACE_NEEDED in
    Some (AKU_SUCCESS,
          mkPage (version p) (count p) free_slot (sync_count p)
            (checkpoint p) (open_count p) (close_count p) (page_id p)
            (length_ p) (bbox p) (histogram p) (page_index p)
            (store free_slot range (data p))).

(** [read_entry(offset)->time] *)
Definition read_entry_time (p : PageHeader) (offset : Z) : Z :=
  of_le_bytes (load (offset + 8) 8 (data p)).

(** [gfx::timsort] on the histogram: a stable sort by timestamp. *)
Fixpoint insert_by_timestamp (e : PageHistogramEntry) (l : list PageHistogramEntry)
    : list PageHistogramEntry :=
  match l with
  | [] => [e]
  | x :: l' =>
      if timestamp e <=? timestamp x then e :: l
      else x :: insert_by_timestamp e l'
  end.

Definition sort_histogram (l : list PageHistogramEntry) : list PageHistogramEntry :=
  fold_right insert_by_timestamp [] l.

Definition set_histogram (p : PageHeader) (h : list PageHistogramEntry) : PageHeader :=
  mkPage (version p) (count p) (last_offset p) (sync_count p) (checkpoint p)
    (open_count p) (close_count p) (page_id p) (length_ p) (bbox p)
    h (page_index p) (data p).

(** [PageHeader::sync_next_index]; [None] is the [AKU_PANIC]. *)
Definition sync_next_index (p : PageHeader) (offset rand_val : Z)
    (sort_histogram_flag : bool) : option PageHeader :=
  if negb sort_histogram_flag then
    if sync_count p >=? count p then None
    else
      let index := sync_count p in
      let sync_count' := wrap32 (sync_count p + 1) in
      let entry := mkHEntry (read_entry_time p offset) index in
      let histogram_size := Z.of_nat (length (histogram p)) in
      let histogram' :=
        if histogram_size <? AKU_HISTOGRAM_SIZE then histogram p ++ [entry]
        else
          let rindex := wrap32 (Z.rem rand_val sync_count') in
          if rindex <? histogram_size
          then <[Z.to_nat rindex := entry]> (histogram p)
          else histogram p in
      Some (mkPage (version p) (count p) (last_offset p) sync_count'
              (checkpoint p) (open_count p) (close_count p) (page_id p)
              (length_ p) (bbox p) histogram'
              (<[index := wrap32 offset]> (page_index p)) (data p))
  else Some (set_histogram p (sort_histogram (histogram p))).

(** [PageHeader::complete_chunk].  [rand1] and [rand2] are the two draws
    of [Rand]; [None] is a panic of [sync_next_index], a failed [assert], an
    [at(i)] past the end of a column, or [front()] of an empty one. *)
Definition complete_chunk (p : PageHeader) (chunk : ChunkHeader) (rand1 rand2 : Z)
    : option (chunk_status * PageHeader) :=
  let n := length (timestamps chunk) in
  if ((length (paramids chunk) <? n) || (length (offsets chunk) <? n)
      || (length (lengths chunk) <? n))%nat
  then None
  else
    let timestamp_stream := DeltaRLETSWriter (timestamps chunk) in
    let paramid_stream := Base128IdWriter (take n (paramids chunk)) in
    let offset_stream := DeltaRLEOffWriter (take n (offsets chunk)) in
    let length_stream := RLELenWriter (take n (lengths chunk)) in
    let size (s : list Z) := Z.of_nat (length s) in
    let size_estimate0 :=
      wrap32 (size timestamp_stream + size paramid_stream
              + size offset_stream + size length_stream) in
    '(status, p1) ← add_chunk p offset_stream size_estimate0;
    if negb (bool_decide (status = AKU_SUCCESS)) then Some (Code status, p1) else
    let size_estimate1 := wrap32 (size_estimate0 - size offset_stream) in
    '(status, p2) ← add_chunk p1 length_stream size_estimate1;
    if negb (bool_decide (status = AKU_SUCCESS)) then Some (Code status, p2) else
    let size_estimate2 := wrap32 (size_estimate1 - size offset_stream) in
    '(status, p3) ← add_chunk p2 paramid_stream size_estimate2;
    if negb (bool_decide (status = AKU_SUCCESS)) then Some (Code status, p3) else
    let size_estimate3 := wrap32 (size_estimate2 - size paramid_stream) in
    '(status, p4) ← add_chunk p3 timestamp_stream size_estimate3;
    if negb (bool_decide (status = AKU_SUCCESS)) then Some (Code status, p4) else
    let begin := wrap32 (last_offset p4) in
    let end_ := if count p4 =? 0 then wrap32 (length_ p4 - 1)
                else default 0 (page_index p4 !! (count p4 - 1)) in
    let checksum := crc_32 (load begin (Z.to_nat (end_ - begin)) (data p4)) in
    let desc := le_bytes 4 (Z.of_nat (length (lengths chunk)))
                ++ le_bytes 4 begin ++ le_bytes 4 end_ ++ le_bytes 4 checksum in
    first_ts ← head (timestamps chunk);
    last_ts ← last (timestamps chunk);
    '(_, p5) ← add_entry p4 AKU_CHUNK_BWD_ID first_ts desc;
    p6 ← sync_next_index p5 (last_offset p5) rand1 false;
    '(status, p7) ← add_entry p6 AKU_CHUNK_FWD_ID last_ts desc;
    p8 ← sync_next_index p7 (last_offset p7) rand2 false;
    p9 ← sync_next_index p8 0 0 true;
    Some (WriteCode status, p9).

(** The operations a writer applies to a page. *)
Inductive page_op :=
| OpAddEntry (param timestamp : Z) (range : list Z)
| OpCompleteChunk (chunk : ChunkHeader) (rand1 rand2 : Z)
| OpSyncNextIndex (offset rand_val : Z) (sort_histogram_flag : bool)
| OpReuse.

Definition apply_op (p : PageHeader) (op : page_op) : option PageHeader :=
  match op with
  | OpAddEntry param timestamp range =>
      '(_, p') ← add_entry p param timestamp range; Some p'
  | OpCompleteChunk chunk rand1 rand2 =>
      '(_, p') ← complete_chunk p chunk rand1 rand2; Some p'
  | OpSyncNextIndex offset rand_val flag => sync_next_index p offset rand_val flag
  | OpReuse => Some (reuse p)
  end.

Fixpoint apply_ops (p : PageHeader) (ops : list page_op) : option PageHeader :=
  match ops with
  | [] => Some p
  | op :: ops' => p' ← apply_op p op; apply_ops p' ops'
  end.

(** (P1) with the ranges the header fields live in: a page of at most
    4 GiB, the write cursor inside it, and [sync_count] no further than
    [count]. *)
Definition page_ok (p : PageHeader) : Prop :=
  1 <= length_ p <= 2 ^ 32
  /\ 0 <= last_offset p < 2 ^ 32
  /\ 0 <= sync_count p
  /\ sync_count p <= count p < 2 ^ 32.

End WithEnv.

(** *** Facts about the page *)

Section PageFacts.

Context `{PageEnv}.
Hypothesis header_size : 0 <= sizeof_PageHeader.

Lemma add_entry_counts (p : PageHeader) (param timestamp : Z) (range : list Z)
    (st : write_status) (p' : PageHeader) :
  add_entry p param timestamp range = Some (st, p') ->
  sync_count p' = sync_count p
  /\ length_ p' = length_ p
  /\ (st <> AKU_WRITE_STATUS_SUCCESS -> p' = p)
  /\ (st = AKU_WRITE_STATUS_SUCCESS ->
      count p' = wrap32 (count p + 1)
      /\ last_offset p' = last_offset p - (sizeof_aku_Entry + Z.of_nat (length range))
      /\ sizeof_PageHeader + sizeof_aku_EntryOffset * (count p + 1) <= last_offset p').
Proof.
  unfold add_entry, get_free_space.
  destruct (Z.of_nat (length range) =? 0).
  { intros [= <- <-]. repeat split; intros; congruence. }
  destruct (last_offset p <? _) eqn:Ea; [discriminate |]. cbn [mbind option_bind].
  rewrite Z.gtb_ltb.
  destruct (Z.ltb_spec (last_offset p - (sizeof_PageHeader + sizeof_aku_EntryOffset * count p))
              (sizeof_aku_Entry + Z.of_nat (length range) + sizeof_aku_EntryOffset))
    as [Hlt | Hge].
  { intros [= <- <-]. repeat split; intros; congruence. }
  intros Heq. apply (inj Some) in Heq.
  pose proof (f_equal fst Heq) as Hst. pose proof (f_equal snd Heq) as Hp.
  cbn [fst snd] in Hst, Hp. subst st p'. clear Heq.
  cbn [sync_count length_ count last_offset].
  unfold sizeof_aku_EntryOffset, sizeof_aku_Entry in *.
  repeat split; intros; try congruence; lia.
Qed.

Lemma add_entry_ok (p : PageHeader) (param timestamp : Z) (range : list Z)
    (st : write_status) (p' : PageHeader) :
  page_ok p ->
  add_entry p param timestamp range = Some (st, p') ->
  page_ok p'
  /\ count p' = (if decide (st = AKU_WRITE_STATUS_SUCCESS) then count p + 1 else count p).
Proof.
  intros (Hlen & Hoff & Hs0 & Hsc) Hrun.
  destruct (add_entry_counts _ _ _ _ _ _ Hrun) as (Hsync & Hl & Hfail & Hsucc).
  destruct (decide (st = AKU_WRITE_STATUS_SUCCESS)) as [-> | Hne].
  - destruct (Hsucc eq_refl) as (Hc & Hlo & Hroom).
    unfold sizeof_aku_EntryOffset, sizeof_aku_Entry in *.
    assert (Hsmall : count p + 1 < 2 ^ 32) by lia.
    rewrite Hc. unfold wrap32. rewrite Z.mod_small by lia.
    split; [| reflexivity].
    unfold page_ok. rewrite Hsync, Hl, Hc. unfold wrap32.
    rewrite Z.mod_small by lia. lia.
  - rewrite (Hfail Hne). split; [| reflexivity]. repeat split; lia.
Qed.

Lemma add_chunk_ok (p : PageHeader) (range : list Z) (required : Z)
    (st : aku_Status) (p' : PageHeader) :
  page_ok p ->
  add_chunk p range required = Some (st, p') ->
  page_ok p' /\ count p' = count p /\ sync_count p' = sync_count p.
Proof.
  intros Hok. unfold add_chunk.
  destruct (get_free_space p) as [free |]; [| discriminate]. cbn [mbind option_bind].
  destruct (free <? _); [intros [= <- <-]; auto |].
  destruct (Z.ltb_spec (last_offset p) (Z.of_nat (length range))); [discriminate |].
  intros [= <- <-]. unfold page_ok in *. cbn [length_ last_offset sync_count count].
  repeat split; lia.
Qed.

Lemma sync_next_index_counts (p : PageHeader) (offset rand_val : Z) :
  (sync_count p < count p ->
   exists p', sync_next_index p offset rand_val false = Some p'
              /\ sync_count p' = wrap32 (sync_count p + 1)
              /\ count p' = count p
              /\ length_ p' = length_ p /\ last_offset p' = last_offset p)
  /\ (count p <= sync_count p -> sync_next_index p offset rand_val false = None)
  /\ (exists p', sync_next_index p offset rand_val true = Some p'
                 /\ sync_count p' = sync_count p /\ count p' = count p
                 /\ length_ p' = length_ p /\ last_offset p' = last_offset p).
Proof.
  unfold sync_next_index. cbn [negb]. rewrite Z.geb_leb.
  split; [| split].
  - intros Hlt. destruct (Z.leb_spec (count p) (sync_count p)); [lia |].
    eexists. split; [reflexivity |]. repeat split.
  - intros Hge. destruct (Z.leb_spec (count p) (sync_count p)); [reflexivity | lia].
  - eexists. split; [reflexivity |]. repeat split.
Qed.

Lemma sync_next_index_ok (p : PageHeader) (offset rand_val : Z) (flag : bool)
    (p' : PageHeader) :
  page_ok p ->
  sync_next_index p offset rand_val flag = Some p' ->
  page_ok p' /\ count p' = count p.
Proof.
  intros (Hlen & Hoff & Hs0 & Hsc) Hrun.
  destruct (sync_next_index_counts p offset rand_val) as (Hinc & Hpanic & Hsort).
  destruct flag.
  - destruct Hsort as (q & Hq & Hs & Hc & Hl & Ho).
    rewrite Hq in Hrun. injection Hrun as <-.
    unfold page_ok. rewrite Hs, Hc, Hl, Ho. auto.
  - destruct (Z.lt_ge_cases (sync_count p) (count p)) as [Hlt | Hge].
    + destruct (Hinc Hlt) as (q & Hq & Hs & Hc & Hl & Ho).
      rewrite Hq in Hrun. injection Hrun as <-.
      unfold page_ok. rewrite Hs, Hc, Hl, Ho. unfold wrap32.
      rewrite Z.mod_small by lia. split; [| reflexivity]. repeat split; lia.
    + rewrite (Hpanic Hge) in Hrun. discriminate.
Qed.

Lemma reuse_ok (p : PageHeader) : page_ok p -> page_ok (reuse p).
Proof.
  intros (Hlen & _). unfold page_ok, reuse. cbn [length_ last_offset sync_count count].
  unfold wrap64. rewrite Z.mod_small by lia. lia.
Qed.

Lemma complete_chunk_ok (p : PageHeader) (chunk : ChunkHeader) (rand1 rand2 : Z)
    (st : chunk_status) (p' : PageHeader) :
  page_ok p ->
  complete_chunk p chunk rand1 rand2 = Some (st, p') ->
  page_ok p'.
Proof.
  intros Hok. unfold complete_chunk.
  destruct (_ || _)%bool; [discriminate |].
  repeat
    (let E := fresh "E" in
     let Hq := fresh "Hq" in
     match goal with
     | |- context [add_chunk ?q ?r ?n] =>
         destruct (add_chunk q r n) as [[? ?] |] eqn:E; [| discriminate];
         cbn [mbind option_bind];
         apply add_chunk_ok in E as (Hq & _ & _); [| assumption];
         match goal with
         | |- context [bool_decide ?P] =>
             destruct (bool_decide P); cbn [negb];
             [| intros [= <- <-]; assumption]
         end
     end).
  destruct (head _) as [first_ts |]; [| discriminate].
  destruct (last _) as [last_ts |]; [| discriminate].
  cbn [mbind option_bind].
  repeat
    (let E := fresh "E" in
     let Hq := fresh "Hq" in
     match goal with
     | |- context [add_entry ?q ?a ?b ?c] =>
         destruct (add_entry q a b c) as [[? ?] |] eqn:E; [| discriminate];
         cbn [mbind option_bind];
         apply add_entry_ok in E as (Hq & _); [| assumption]
     | |- context [sync_next_index ?q ?a ?b ?c] =>
         destruct (sync_next_index q a b c) as [? |] eqn:E; [| discriminate];
         cbn [mbind option_bind];
         apply sync_next_index_ok in E as (Hq & _); [| assumption]
     end).
  intros [= <- <-]. assumption.
Qed.

Lemma apply_ops_ok (ops : list page_op) :
  forall p p', page_ok p -> apply_ops p ops = Some p' -> page_ok p'.
Proof.
  induction ops as [| op ops IH]; intros p p' Hok Hrun; simpl in Hrun.
  - injection Hrun as <-. exact Hok.
  - destruct (apply_op p op) as [q |] eqn:Eop; [| discriminate].
    cbn [mbind option_bind] in Hrun.
    apply (IH q p'); [| exact Hrun].
    destruct op as [param ts range | chunk r1 r2 | off rv flag |]; simpl in Eop.
    + destruct (add_entry p param ts range) as [[st q'] |] eqn:E; [| discriminate].
      injection Eop as ->. eapply add_entry_ok; eassumption.
    + destruct (complete_chunk p chunk r1 r2) as [[st q'] |] eqn:E; [| discriminate].
      injection Eop as ->. eapply complete_chunk_ok; eassumption.
    + eapply sync_next_index_ok; eassumption.
    + injection Eop as <-. apply reuse_ok, Hok.
Qed.

(** C7.  On a page of at most 4 GiB whose counters satisfy (P1), every
    sequence of [add_entry], [complete_chunk], [sync_next_index] and
    [reuse] that runs without a panic ends in a page that satisfies (P1):
    [sync_count <= count].  Step by step: [add_entry] leaves [sync_count]
    alone and adds one to [count] exactly when it succeeds;
    [sync_next_index], asked to publish an entry, adds one to
    [sync_count] when [sync_count < count] and panics otherwise (asked to
    sort the histogram it changes neither counter); [reuse] sets both to
    zero. *)
Theorem sync_count_never_passes_count (p : PageHeader) :
  page_ok p ->
  (forall ops p', apply_ops p ops = Some p' ->
                  page_ok p' /\ sync_count p' <= count p')
  /\ (forall param timestamp range st p',
        add_entry p param timestamp range = Some (st, p') ->
        sync_count p' = sync_count p
        /\ count p' = (if decide (st = AKU_WRITE_STATUS_SUCCESS)
                       then count p + 1 else count p))
  /\ (forall offset rand_val,
        (sync_count p < count p ->
         exists p', sync_next_index p offset rand_val false = Some p'
                    /\ sync_count p' = sync_count p + 1 /\ count p' = count p)
        /\ (count p <= sync_count p ->
            sync_next_index p offset rand_val false = None)
        /\ (exists p', sync_next_index p offset rand_val true = Some p'
                       /\ sync_count p' = sync_count p /\ count p' = count p))
  /\ count (reuse p) = 0 /\ sync_count (reuse p) = 0.
Proof.
  intros Hok. split; [| split; [| split]].
  - intros ops p' Hrun. pose proof (apply_ops_ok ops p p' Hok Hrun) as Hok'.
    split; [exact Hok' |]. destruct Hok' as (_ & _ & _ & Hle & _). exact Hle.
  - intros param timestamp range st p' Hrun. split.
    + apply (add_entry_counts _ _ _ _ _ _ Hrun).
    + apply (add_entry_ok _ _ _ _ _ _ Hok Hrun).
  - intros offset rand_val.
    destruct (sync_next_index_counts p offset rand_val) as (Hinc & Hpanic & Hsort).
    split; [| split].
    + intros Hlt. destruct (Hinc Hlt) as (q & Hq & Hs & Hc & _).
      exists q. split; [exact Hq |]. split; [| exact Hc].
      rewrite Hs. unfold wrap32. destruct Hok as (_ & _ & Hs0 & Hsc).
      apply Z.mod_small. lia.
    + exact Hpanic.
    + destruct Hsort as (q & Hq & Hs & Hc & _). exists q. auto.
  - split; reflexivity.
Qed.

(** C10 (as the code has it).  [add_entry] changes nothing unless it
    succeeds.  It answers [AKU_WRITE_STATUS_BAD_DATA] exactly when the
    payload is empty; that test comes first, so it answers
    [AKU_WRITE_STATUS_OVERFLOW] exactly when the payload is not empty and
    entry header, payload and one offset slot together exceed the free
    space.  It returns whenever the payload is empty or the free space is
    defined (the offset index has not run past [last_offset]). *)
Theorem add_entry_failure_atomic (p : PageHeader) (param timestamp : Z)
    (range : list Z) :
  (forall st p',
     add_entry p param timestamp range = Some (st, p') ->
     (st = AKU_WRITE_STATUS_BAD_DATA <-> range = [])
     /\ (st = AKU_WRITE_STATUS_OVERFLOW <->
         range <> []
         /\ exists free,
              get_free_space p = Some free
              /\ free < sizeof_aku_Entry + Z.of_nat (length range)
                        + sizeof_aku_EntryOffset)
     /\ (st <> AKU_WRITE_STATUS_SUCCESS -> p' = p))
  /\ (is_Some (add_entry p param timestamp range)
      <-> range = [] \/ is_Some (get_free_space p)).
Proof.
  unfold add_entry.
  destruct range as [| b range].
  - cbn [length Z.of_nat Z.eqb]. split.
    + intros st p' [= <- <-]. split; [tauto |]. split; [| reflexivity].
      split; [discriminate | intros [Hne _]; contradiction].
    + split; [auto | eexists; reflexivity].
  - replace (Z.of_nat (length (b :: range)) =? 0) with false
      by (symmetry; apply Z.eqb_neq; simpl; lia).
    destruct (get_free_space p) as [free |]; cbn [mbind option_bind].
    + rewrite Z.gtb_ltb.
      destruct (Z.ltb_spec free (sizeof_aku_Entry + Z.of_nat (length (b :: range))
                                 + sizeof_aku_EntryOffset)) as [Hlt | Hge].
      * split; [| split; [right |]; eexists; reflexivity].
        intros st p' [= <- <-].
        split; [split; discriminate |]. split; [| reflexivity].
        split; [| reflexivity].
        intros _. split; [discriminate |]. exists free. auto.
      * split; [| split; [right |]; eexists; reflexivity].
        intros st p' Heq. apply (inj Some) in Heq.
        pose proof (f_equal fst Heq) as Hst. cbn [fst] in Hst. subst st. clear Heq.
        split; [split; discriminate |]. split; [| intros Hc; contradiction].
        split; [discriminate |].
        intros (_ & free' & [= <-] & Hlt). lia.
    + split; [discriminate |].
      split; [intros [x Hx]; discriminate |].
      intros [Hnil | [x Hx]]; discriminate.
Qed.

End PageFacts.

(** An environment for closed examples.  The timestamp limits and the
    chunk ids are those of akumuli_def.h; the header and the histogram
    are scaled down (128 bytes, four entries) so that a page of 4 KiB
    will do; the column writers are those of [Codec] on a region of 4 KiB
    (the identifiers as plain varints), and a byte sum stands where the
    CRC goes. *)
Definition varints (column : list Z) : list Z :=
  concat (map (fun v => default [] (Codec.base128_put 10 v)) column).

Definition sample_env : PageEnv := {|
  sizeof_PageHeader := 128;
  AKU_HISTOGRAM_SIZE := 4;
  AKU_MIN_TIMESTAMP := 0;
  AKU_MAX_TIMESTAMP := 2 ^ 64 - 1;
  AKU_CHUNK_FWD_ID := 2 ^ 64 - 2;
  AKU_CHUNK_BWD_ID := 2 ^ 64 - 1;
  crc_32 := fun bytes => wrap32 (fold_right Z.add 0 bytes);
  DeltaRLETSWriter := fun c => default [] (Codec.encode_column 4096 c);
  Base128IdWriter := varints;
  DeltaRLEOffWriter := fun c => default [] (Codec.encode_column 4096 c);
  RLELenWriter := fun c => default [] (Codec.encode_column 4096 c)
|}.

(** A fresh page of 4 KiB; one entry written and published, one chunk
    completed, then the page reused. *)
Definition fresh_4k : PageHeader := new_page (H := sample_env) 0 4096 1.

Definition sample_ops : list page_op :=
  [OpAddEntry 7 42 [1; 2; 3];
   OpSyncNextIndex 4072 5 false;
   OpCompleteChunk (mkChunkHeader [10; 20; 30] [1; 1; 2] [0; 8; 16] [8; 8; 8]) 3 9;
   OpSyncNextIndex 0 0 true;
   OpAddEntry 8 43 [4];
   OpReuse;
   OpAddEntry 9 44 [5; 6]].

Lemma fresh_4k_ok : page_ok fresh_4k.
Proof. vm_compute. repeat split; discriminate. Qed.

Lemma sync_count_never_passes_count_witness :
  (apply_ops (H := sample_env) fresh_4k sample_ops
     ≫= fun p' => Some (count p', sync_count p')) = Some (1, 0)
  /\ (forall p',
        apply_ops (H := sample_env) fresh_4k sample_ops = Some p' ->
        page_ok p' /\ sync_count p' <= count p')
  /\ count (reuse (H := sample_env) fresh_4k) = 0
  /\ sync_count (reuse (H := sample_env) fresh_4k) = 0.
Proof.
  split; [vm_compute; reflexivity |].
  assert (Hsize : 0 <= sizeof_PageHeader (PageEnv := sample_env)) by (simpl; lia).
  destruct (sync_count_never_passes_count (H := sample_env) Hsize
              fresh_4k fresh_4k_ok) as (Hops & _ & _ & Hreuse).
  split; [exact (Hops sample_ops) | exact Hreuse].
Defined.

(** A fresh page of 256 bytes after one entry with a payload of 93 bytes:
    ten bytes are left between the offset index and the data. *)
Definition fresh_256 : PageHeader := new_page (H := sample_env) 0 256 2.

Definition nearly_full : PageHeader :=
  default fresh_256
    ('(_, p) ← add_entry (H := sample_env) fresh_256 1 1 (replicate 93 0); Some p).

Lemma nearly_full_reached :
  add_entry (H := sample_env) fresh_256 1 1 (replicate 93 0)
  = Some (AKU_WRITE_STATUS_SUCCESS, nearly_full)
  /\ count nearly_full = 1
  /\ get_free_space (H := sample_env) nearly_full = Some 10.
Proof. vm_compute. repeat split. Qed.

(** C10, the claim as worded: on the page with ten free bytes an entry
    with an empty payload needs 24 bytes, more than are free, and the
    answer is [AKU_WRITE_STATUS_BAD_DATA], not
    [AKU_WRITE_STATUS_OVERFLOW]. *)
Lemma add_entry_empty_payload_on_full_page :
  get_free_space (H := sample_env) nearly_full = Some 10
  /\ 10 < sizeof_aku_Entry + Z.of_nat (length (@nil Z)) + sizeof_aku_EntryOffset
  /\ add_entry (H := sample_env) nearly_full 2 2 []
     = Some (AKU_WRITE_STATUS_BAD_DATA, nearly_full).
Proof.
  split; [vm_compute; reflexivity |]. split; [reflexivity |]. reflexivity.
Qed.

Lemma add_entry_failure_atomic_witness :
  add_entry (H := sample_env) nearly_full 2 2 [7]
  = Some (AKU_WRITE_STATUS_OVERFLOW, nearly_full)
  /\ ((AKU_WRITE_STATUS_OVERFLOW = AKU_WRITE_STATUS_BAD_DATA <-> [7] = [])
      /\ (AKU_WRITE_STATUS_OVERFLOW = AKU_WRITE_STATUS_OVERFLOW <->
          [7] <> []
          /\ exists free,
               get_free_space (H := sample_env) nearly_full = Some free
               /\ free < sizeof_aku_Entry + Z.of_nat (length [7])
                         + sizeof_aku_EntryOffset)
      /\ (AKU_WRITE_STATUS_OVERFLOW <> AKU_WRITE_STATUS_SUCCESS ->
          nearly_full = nearly_full)).
Proof.
  assert (Hfree : get_free_space (H := sample_env) nearly_full = Some 10)
    by (vm_compute; reflexivity).
  assert (Hrun : add_entry (H := sample_env) nearly_full 2 2 [7]
                 = Some (AKU_WRITE_STATUS_OVERFLOW, nearly_full))
    by (unfold add_entry; rewrite Hfree; reflexivity).
  split; [exact Hrun |].
  exact (proj1 (add_entry_failure_atomic (H := sample_env) nearly_full 2 2 [7])
           _ _ Hrun).
Defined.

(** *** Reading entries back (page.cpp) *)

Section Reading.

Context `{PageEnv}.

(** [PageHeader::inside_bbox] *)
Definition inside_bbox (p : PageHeader) (param time : Z) : bool :=
  (time <=? max_timestamp (bbox p)) && (time >=? min_timestamp (bbox p))
  && (param <=? max_id (bbox p)) && (param >=? min_id (bbox p)).

(** [PageHeader::index_to_offset] *)
Definition index_to_offset (p : PageHeader) (index : Z) : Z * aku_Status :=
  if index >? count p then (0, AKU_EBAD_ARG)
  else (default 0 (page_index p !! index), AKU_SUCCESS).

(** [PageHeader::read_entry_at]: the offset of the entry in the page, or
    [None] where the code returns the null pointer. *)
Definition read_entry_at (p : PageHeader) (index : Z) : option Z :=
  if index <? count p then Some (default 0 (page_index p !! index)) else None.

(** The fields of the [aku_Entry] at an offset. *)
Definition entry_param_id (p : PageHeader) (offset : Z) : Z :=
  of_le_bytes (load offset 8 (data p)).

Definition entry_length (p : PageHeader) (offset : Z) : Z :=
  of_le_bytes (load (offset + 16) 4 (data p)).

(** [PageHeader::get_entry_length_at]; the index is an [int] handed to a
    [uint32_t] parameter, the length a [uint32_t] returned as [int]. *)
Definition get_entry_length_at (p : PageHeader) (entry_index : Z) : Z :=
  match read_entry_at p (wrap32 entry_index) with
  | Some offset => wrap_int32 (entry_length p offset)
  | None => 0
  end.

(** [PageHeader::copy_entry_at]: the value returned and the bytes copied
    to the receiver, if any; [receiver_length] is [receiver->length] on
    entry. *)
Definition copy_entry_at (p : PageHeader) (index receiver_length : Z)
    : Z * option (list Z) :=
  match read_entry_at p (wrap32 index) with
  | Some offset =>
      let size := entry_length p offset + sizeof_aku_Entry in
      if entry_length p offset >? receiver_length
      then (wrap_int32 (wrap32 (-1 * entry_length p offset)), None)
      else (wrap_int32 (entry_length p offset),
            Some (load offset (Z.to_nat size) (data p)))
  | None => (0, None)
  end.

(** What the histogram may hold: no more entries than the array has, each
    the index of a published entry. *)
Definition histogram_ok (p : PageHeader) : Prop :=
  Z.of_nat (length (histogram p)) <= AKU_HISTOGRAM_SIZE
  /\ Forall (fun e => 0 <= index e < sync_count p) (histogram p).

End Reading.

(** *** Facts about the region *)

Lemma store_lookup_outside (bytes : list Z) :
  forall (off : Z) (m : gmap Z Z) (k : Z),
    k < off \/ off + Z.of_nat (length bytes) <= k ->
    store off bytes m !! k = m !! k.
Proof.
  induction bytes as [| b bytes IH]; intros off m k Hk; cbn [store]; [reflexivity |].
  cbn [length] in Hk. rewrite IH by lia. apply lookup_insert_ne. lia.
Qed.

Lemma store_lookup_inside (bytes : list Z) :
  forall (off : Z) (m : gmap Z Z) (i : nat),
    (i < length bytes)%nat ->
    store off bytes m !! (off + Z.of_nat i) = bytes !! i.
Proof.
  induction bytes as [| b bytes IH]; intros off m i Hi; cbn [store length] in *; [lia |].
  destruct i as [| i].
  - rewrite Z.add_0_r, store_lookup_outside by lia.
    rewrite lookup_insert. destruct (decide (off = off)); [reflexivity | contradiction].
  - replace (off + Z.of_nat (S i)) with (off + 1 + Z.of_nat i) by lia.
    rewrite IH by lia. reflexivity.
Qed.

Lemma load_store_part (before part after : list Z) (off : Z) (m : gmap Z Z) :
  load (off + Z.of_nat (length before)) (length part)
    (store off (before ++ part ++ after) m) = part.
Proof.
  unfold load. apply list_eq. intros i.
  rewrite list_lookup_fmap.
  destruct (decide (i < length part)%nat) as [Hi | Hi].
  - rewrite lookup_seq_lt by exact Hi. cbn [fmap option_fmap option_map Nat.add].
    replace (off + Z.of_nat (length before) + Z.of_nat i)
      with (off + Z.of_nat (length before + i)) by lia.
    rewrite store_lookup_inside by (rewrite !length_app; lia).
    rewrite lookup_app_r by lia.
    replace (length before + i - length before)%nat with i by lia.
    rewrite lookup_app_l by exact Hi.
    destruct (part !! i) as [b |] eqn:E; [reflexivity |].
    apply lookup_ge_None in E. lia.
  - rewrite lookup_seq_ge by lia. symmetry. apply lookup_ge_None. lia.
Qed.

Lemma le_bytes_length (n : nat) : forall x, length (le_bytes n x) = n.
Proof. induction n as [| n IH]; intros x; cbn [le_bytes length]; auto. Qed.

Lemma of_le_bytes_le_bytes (n : nat) :
  forall x, 0 <= x < 256 ^ Z.of_nat n -> of_le_bytes (le_bytes n x) = x.
Proof.
  induction n as [| n IH]; intros x Hx; cbn [le_bytes of_le_bytes].
  - simpl in Hx. lia.
  - rewrite Nat2Z.inj_succ, Z.pow_succ_r in Hx by lia.
    rewrite IH.
    + pose proof (Z.div_mod x 256 ltac:(lia)). lia.
    + split; [apply Z.div_pos; lia |]. apply Z.div_lt_upper_bound; lia.
Qed.

Section ReadFacts.

Context `{PageEnv}.
Hypothesis header_size : 0 <= sizeof_PageHeader.

Lemma update_bounding_box_covers (p : PageHeader) (param time : Z) :
  let b := update_bounding_box p param time in
  (min_id b <= param <= max_id b /\ min_timestamp b <= time <= max_timestamp b)
  /\ min_id b <= min_id (bbox p) /\ max_id (bbox p) <= max_id b
  /\ min_timestamp b <= min_timestamp (bbox p)
  /\ max_timestamp (bbox p) <= max_timestamp b.
Proof.
  unfold update_bounding_box. rewrite !Z.gtb_ltb.
  destruct (bbox p) as [xi ni xt nt]. cbn [max_id min_id max_timestamp min_timestamp].
  destruct (Z.ltb_spec xi param);
    cbn [max_id min_id max_timestamp min_timestamp];
    destruct (Z.ltb_spec param ni);
    cbn [max_id min_id max_timestamp min_timestamp];
    destruct (Z.ltb_spec xt time);
    cbn [max_id min_id max_timestamp min_timestamp];
    destruct (Z.ltb_spec time nt);
    cbn [max_id min_id max_timestamp min_timestamp]; lia.
Qed.

Lemma inside_bbox_spec (p : PageHeader) (param time : Z) :
  inside_bbox p param time = true
  <-> (min_id (bbox p) <= param <= max_id (bbox p)
       /\ min_timestamp (bbox p) <= time <= max_timestamp (bbox p)).
Proof.
  unfold inside_bbox. rewrite !andb_true_iff, !Z.geb_leb, !Z.leb_le. lia.
Qed.

(** An operation other than [reuse] leaves the box as it is or widens
    it. *)
Definition bbox_within (p p' : PageHeader) : Prop :=
  min_id (bbox p') <= min_id (bbox p) /\ max_id (bbox p) <= max_id (bbox p')
  /\ min_timestamp (bbox p') <= min_timestamp (bbox p)
  /\ max_timestamp (bbox p) <= max_timestamp (bbox p').

Lemma bbox_within_refl (p : PageHeader) : bbox_within p p.
Proof. unfold bbox_within. lia. Qed.

Lemma bbox_within_trans (p q r : PageHeader) :
  bbox_within p q -> bbox_within q r -> bbox_within p r.
Proof. unfold bbox_within. lia. Qed.

Lemma bbox_within_same (p q : PageHeader) : bbox q = bbox p -> bbox_within p q.
Proof. intros E. unfold bbox_within. rewrite E. lia. Qed.

Lemma add_entry_bbox (p : PageHeader) (param time : Z) (range : list Z)
    (st : write_status) (p' : PageHeader) :
  add_entry p param time range = Some (st, p') ->
  bbox_within p p'
  /\ (st = AKU_WRITE_STATUS_SUCCESS -> inside_bbox p' param time = true).
Proof.
  unfold add_entry.
  destruct (Z.of_nat (length range) =? 0).
  { intros [= <- <-]. split; [apply bbox_within_refl | discriminate]. }
  destruct (get_free_space p) as [free |]; [| discriminate]. cbn [mbind option_bind].
  destruct (_ >? free).
  { intros [= <- <-]. split; [apply bbox_within_refl | discriminate]. }
  intros Heq. apply (inj Some) in Heq.
  pose proof (f_equal snd Heq) as Hp. cbn [snd] in Hp. subst p'. clear Heq.
  pose proof (update_bounding_box_covers p param time) as Hb. cbn zeta in Hb.
  split.
  - unfold bbox_within. cbn [bbox]. lia.
  - intros _. apply inside_bbox_spec. cbn [bbox]. lia.
Qed.

Lemma add_chunk_bbox (p : PageHeader) (range : list Z) (required : Z)
    (st : aku_Status) (p' : PageHeader) :
  add_chunk p range required = Some (st, p') -> bbox p' = bbox p.
Proof.
  unfold add_chunk.
  destruct (get_free_space p) as [free |]; [| discriminate]. cbn [mbind option_bind].
  destruct (free <? _); [intros [= <- <-]; reflexivity |].
  destruct (last_offset p <? _); [discriminate |].
  intros [= <- <-]. reflexivity.
Qed.

Lemma sync_next_index_bbox (p : PageHeader) (offset rand_val : Z) (flag : bool)
    (p' : PageHeader) :
  sync_next_index p offset rand_val flag = Some p' -> bbox p' = bbox p.
Proof.
  unfold sync_next_index. destruct flag; cbn [negb].
  - intros [= <-]. reflexivity.
  - destruct (_ >=? _); [discriminate |]. intros [= <-]. reflexivity.
Qed.

Lemma complete_chunk_bbox (p : PageHeader) (chunk : ChunkHeader) (rand1 rand2 : Z)
    (st : chunk_status) (p' : PageHeader) :
  complete_chunk p chunk rand1 rand2 = Some (st, p') -> bbox_within p p'.
Proof.
  unfold complete_chunk.
  destruct (_ || _)%bool; [discriminate |].
  assert (Hstart : bbox_within p p) by apply bbox_within_refl.
  revert Hstart. generalize p at 2 3 as q. intros q Hq.
  repeat
    (let E := fresh "E" in
     match goal with
     | |- context [add_chunk ?q ?r ?n] =>
         destruct (add_chunk q r n) as [[? ?] |] eqn:E; [| discriminate];
         cbn [mbind option_bind];
         apply add_chunk_bbox in E;
         match goal with
         | |- context [bool_decide ?P] =>
             destruct (bool_decide P); cbn [negb];
             [| intros [= <- <-];
                eapply bbox_within_trans; [exact Hq |];
                apply bbox_within_same; congruence]
         end
     end).
  destruct (head _) as [first_ts |]; [| discriminate].
  destruct (last _) as [last_ts |]; [| discriminate].
  cbn [mbind option_bind].
  destruct (add_entry _ _ first_ts _) as [[? p5] |] eqn:E5; [| discriminate].
  cbn [mbind option_bind].
  destruct (sync_next_index p5 _ _ _) as [p6 |] eqn:E6; [| discriminate].
  cbn [mbind option_bind].
  destruct (add_entry p6 _ last_ts _) as [[? p7] |] eqn:E7; [| discriminate].
  cbn [mbind option_bind].
  destruct (sync_next_index p7 _ _ _) as [p8 |] eqn:E8; [| discriminate].
  cbn [mbind option_bind].
  destruct (sync_next_index p8 _ _ _) as [p9 |] eqn:E9; [| discriminate].
  cbn [mbind option_bind].
  intros [= <- <-].
  apply add_entry_bbox in E5 as [H5 _]. apply add_entry_bbox in E7 as [H7 _].
  apply sync_next_index_bbox in E6, E8, E9.
  unfold bbox_within in *. rewrite E9, E8. rewrite E6 in H7.
  repeat match goal with E : bbox _ = bbox _ |- _ => rewrite E in *; clear E end.
  lia.
Qed.

Lemma apply_ops_bbox (ops : list page_op) :
  forall p p',
    OpReuse ∉ ops -> apply_ops p ops = Some p' -> bbox_within p p'.
Proof.
  induction ops as [| op ops IH]; intros p p' Hno Hrun; simpl in Hrun.
  - injection Hrun as <-. apply bbox_within_refl.
  - destruct (apply_op p op) as [q |] eqn:Eop; [| discriminate].
    cbn [mbind option_bind] in Hrun.
    apply not_elem_of_cons in Hno as [Hop Hno].
    apply (bbox_within_trans p q p'); [| apply IH; assumption].
    destruct op as [param ts range | chunk r1 r2 | off rv flag |]; simpl in Eop.
    + destruct (add_entry p param ts range) as [[st q'] |] eqn:E; [| discriminate].
      injection Eop as ->. apply (add_entry_bbox _ _ _ _ _ _ E).
    + destruct (complete_chunk p chunk r1 r2) as [[st q'] |] eqn:E; [| discriminate].
      injection Eop as ->. eapply complete_chunk_bbox; eassumption.
    + apply bbox_within_same. eapply sync_next_index_bbox; eassumption.
    + contradiction.
Qed.

(** X14.  The bounding box covers every entry written since the page
    was last reused: once [add_entry] has stored an entry, [inside_bbox]
    answers true for its parameter id and timestamp, and goes on doing
    so after any further [add_entry], [complete_chunk] and
    [sync_next_index]. *)
Theorem bbox_covers_added_entries (p : PageHeader) (param time : Z)
    (range : list Z) (p1 : PageHeader) (ops : list page_op) (p2 : PageHeader) :
  add_entry p param time range = Some (AKU_WRITE_STATUS_SUCCESS, p1) ->
  OpReuse ∉ ops ->
  apply_ops p1 ops = Some p2 ->
  inside_bbox p1 param time = true /\ inside_bbox p2 param time = true.
Proof.
  intros Hadd Hno Hrun.
  destruct (add_entry_bbox _ _ _ _ _ _ Hadd) as [_ Hin].
  specialize (Hin eq_refl). split; [exact Hin |].
  pose proof (apply_ops_bbox ops p1 p2 Hno Hrun) as Hw.
  apply inside_bbox_spec in Hin. apply inside_bbox_spec.
  unfold bbox_within in Hw. lia.
Qed.

Lemma add_entry_stored (p : PageHeader) (param time : Z) (range : list Z)
    (p' : PageHeader) :
  add_entry p param time range = Some (AKU_WRITE_STATUS_SUCCESS, p') ->
  let free_slot := last_offset p - (sizeof_aku_Entry + Z.of_nat (length range)) in
  page_index p' = <[count p := wrap32 free_slot]> (page_index p)
  /\ data p'
     = store free_slot
         (le_bytes 8 param ++ le_bytes 8 time
          ++ le_bytes 4 (Z.of_nat (length range)) ++ range) (data p)
  /\ histogram p' = histogram p.
Proof.
  unfold add_entry.
  destruct (Z.of_nat (length range) =? 0); [discriminate |].
  destruct (get_free_space p) as [free |]; [| discriminate]. cbn [mbind option_bind].
  destruct (_ >? free); [discriminate |].
  intros Heq. apply (inj Some) in Heq.
  pose proof (f_equal snd Heq) as Hp. cbn [snd] in Hp. subst p'.
  cbn [page_index data histogram]. auto.
Qed.

(** X15.  An entry that [add_entry] has stored is read back as it
    was written, under the index the page had as its count: parameter id,
    timestamp, length and payload.  [copy_entry_at] hands out the whole
    entry when the receiver has room for the payload and answers minus
    the length otherwise.  The index slots and the bytes of the entries
    written before are left as they were. *)
Theorem add_entry_read_back (p : PageHeader) (param time : Z) (range : list Z)
    (p' : PageHeader) :
  page_ok p ->
  0 <= param < 2 ^ 64 -> 0 <= time < 2 ^ 64 ->
  Z.of_nat (length range) < 2 ^ 31 ->
  add_entry p param time range = Some (AKU_WRITE_STATUS_SUCCESS, p') ->
  read_entry_at p' (count p) = Some (last_offset p')
  /\ index_to_offset p' (count p) = (last_offset p', AKU_SUCCESS)
  /\ entry_param_id p' (last_offset p') = param
  /\ read_entry_time p' (last_offset p') = time
  /\ load (last_offset p' + sizeof_aku_Entry) (length range) (data p') = range
  /\ get_entry_length_at p' (count p) = Z.of_nat (length range)
  /\ (forall room,
        Z.of_nat (length range) <= room ->
        copy_entry_at p' (count p) room
        = (Z.of_nat (length range),
           Some (le_bytes 8 param ++ le_bytes 8 time
                 ++ le_bytes 4 (Z.of_nat (length range)) ++ range)))
  /\ (forall room,
        room < Z.of_nat (length range) ->
        copy_entry_at p' (count p) room = (- Z.of_nat (length range), None))
  /\ (forall i, i < count p -> read_entry_at p' i = read_entry_at p i)
  /\ (forall k, last_offset p <= k -> data p' !! k = data p !! k).
Proof.
  intros Hok Hparam Htime Hshort Hadd.
  destruct (add_entry_counts _ _ _ _ _ _ Hadd) as (_ & _ & _ & Hsucc).
  destruct (Hsucc eq_refl) as (Hc & Hlo & Hroom). clear Hsucc.
  destruct (add_entry_stored _ _ _ _ _ Hadd) as (Hidx & Hdata & _).
  cbn zeta in Hidx, Hdata. rewrite <- Hlo in Hidx, Hdata.
  destruct Hok as (Hlen & Hoff & Hs0 & Hsc).
  set (len := Z.of_nat (length range)) in *.
  assert (Hlen0 : 0 <= len) by (unfold len; lia).
  unfold sizeof_aku_EntryOffset, sizeof_aku_Entry in *.
  assert (Hcount : wrap32 (count p + 1) = count p + 1)
    by (unfold wrap32; apply Z.mod_small; lia).
  assert (Hslot : wrap32 (last_offset p') = last_offset p')
    by (unfold wrap32; apply Z.mod_small; lia).
  assert (Hwc : wrap32 (count p) = count p)
    by (unfold wrap32; apply Z.mod_small; lia).
  rewrite Hslot in Hidx.
  set (entry := le_bytes 8 param ++ le_bytes 8 time ++ le_bytes 4 len ++ range) in *.
  assert (Hread : read_entry_at p' (count p) = Some (last_offset p')).
  { unfold read_entry_at. rewrite Hc, Hcount.
    destruct (Z.ltb_spec (count p) (count p + 1)); [| lia].
    rewrite Hidx, lookup_insert.
    destruct (decide (count p = count p)); [reflexivity | contradiction]. }
  assert (Hpid : entry_param_id p' (last_offset p') = param).
  { unfold entry_param_id. rewrite Hdata.
    pose proof (load_store_part [] (le_bytes 8 param)
                  (le_bytes 8 time ++ le_bytes 4 len ++ range)
                  (last_offset p') (data p)) as Hl.
    cbn [length app Z.of_nat] in Hl. rewrite Z.add_0_r, le_bytes_length in Hl.
    fold entry in Hl. rewrite Hl. apply of_le_bytes_le_bytes. lia. }
  assert (Htm : read_entry_time p' (last_offset p') = time).
  { unfold read_entry_time. rewrite Hdata.
    pose proof (load_store_part (le_bytes 8 param) (le_bytes 8 time)
                  (le_bytes 4 len ++ range) (last_offset p') (data p)) as Hl.
    rewrite !le_bytes_length in Hl. fold entry in Hl.
    change (Z.of_nat 8) with 8 in Hl. rewrite Hl.
    apply of_le_bytes_le_bytes. lia. }
  assert (Hln : entry_length p' (last_offset p') = len).
  { unfold entry_length. rewrite Hdata.
    pose proof (load_store_part (le_bytes 8 param ++ le_bytes 8 time)
                  (le_bytes 4 len) range (last_offset p') (data p)) as Hl.
    rewrite <- app_assoc in Hl. fold entry in Hl.
    rewrite length_app, !le_bytes_length in Hl.
    change (Z.of_nat (8 + 8)) with 16 in Hl. rewrite Hl.
    apply of_le_bytes_le_bytes. lia. }
  assert (Hval : load (last_offset p' + 20) (length range) (data p') = range).
  { rewrite Hdata.
    pose proof (load_store_part
                  (le_bytes 8 param ++ le_bytes 8 time ++ le_bytes 4 len)
                  range [] (last_offset p') (data p)) as Hl.
    rewrite app_nil_r, <- !app_assoc in Hl. fold entry in Hl.
    rewrite !length_app, !le_bytes_length in Hl.
    change (Z.of_nat (8 + (8 + 4))) with 20 in Hl. exact Hl. }
  assert (Hwhole : load (last_offset p') (Z.to_nat (len + 20)) (data p') = entry).
  { rewrite Hdata.
    pose proof (load_store_part [] entry [] (last_offset p') (data p)) as Hl.
    cbn [length app Z.of_nat] in Hl. rewrite Z.add_0_r, app_nil_r in Hl.
    replace (Z.to_nat (len + 20)) with (length entry); [exact Hl |].
    unfold entry. rewrite !length_app, !le_bytes_length. unfold len. lia. }
  split; [exact Hread |].
  split.
  { unfold index_to_offset. rewrite Hc, Hcount, Z.gtb_ltb.
    destruct (Z.ltb_spec (count p + 1) (count p)); [lia |].
    rewrite Hidx, lookup_insert.
    destruct (decide (count p = count p)); [reflexivity | contradiction]. }
  split; [exact Hpid |]. split; [exact Htm |]. split; [exact Hval |].
  split.
  { unfold get_entry_length_at. rewrite Hwc, Hread, Hln.
    apply Seq.wrap_int32_small. lia. }
  split.
  { intros room Hr. unfold copy_entry_at. rewrite Hwc, Hread, Hln, Z.gtb_ltb.
    destruct (Z.ltb_spec room len); [lia |].
    unfold sizeof_aku_Entry. rewrite Hwhole, Seq.wrap_int32_small by lia.
    reflexivity. }
  split.
  { intros room Hr. unfold copy_entry_at. rewrite Hwc, Hread, Hln, Z.gtb_ltb.
    destruct (Z.ltb_spec room len); [| lia].
    f_equal. unfold wrap_int32, wrap32.
    replace (-1 * len) with (- len) by lia.
    destruct (Z.eq_dec len 0) as [-> | Hne]; [reflexivity |].
    replace (- len) with (2 ^ 32 - len + (-1) * 2 ^ 32) by lia.
    rewrite Z.mod_add by lia. rewrite (Z.mod_small (2 ^ 32 - len)) by lia.
    replace (2 ^ 32 - len + 2 ^ 31) with (2 ^ 31 - len + 1 * 2 ^ 32) by lia.
    rewrite Z.mod_add by lia. rewrite Z.mod_small by lia. lia. }
  split.
  { intros i Hi. unfold read_entry_at. rewrite Hc, Hcount, Hidx.
    destruct (Z.ltb_spec i (count p + 1)); [| lia].
    destruct (Z.ltb_spec i (count p)); [| lia].
    rewrite lookup_insert_ne by lia. reflexivity. }
  intros k Hk. rewrite Hdata. apply store_lookup_outside.
  right. unfold entry. rewrite !length_app, !le_bytes_length. fold len. lia.
Qed.

(** *** The histogram *)

Lemma insert_by_timestamp_perm (e : PageHistogramEntry) (l : list PageHistogramEntry) :
  insert_by_timestamp e l ≡ₚ e :: l.
Proof.
  induction l as [| x l IH]; cbn [insert_by_timestamp]; [reflexivity |].
  destruct (timestamp e <=? timestamp x); [reflexivity |].
  rewrite IH. apply Permutation_swap.
Qed.

Lemma sort_histogram_perm (l : list PageHistogramEntry) : sort_histogram l ≡ₚ l.
Proof.
  unfold sort_histogram. induction l as [| x l IH]; cbn [fold_right]; [reflexivity |].
  rewrite insert_by_timestamp_perm, IH. reflexivity.
Qed.

Definition by_timestamp (a b : PageHistogramEntry) : Prop :=
  timestamp a <= timestamp b.

Lemma insert_by_timestamp_sorted (e : PageHistogramEntry) (l : list PageHistogramEntry) :
  Sorted by_timestamp l -> Sorted by_timestamp (insert_by_timestamp e l).
Proof.
  induction l as [| x l IH]; intros Hs; cbn [insert_by_timestamp].
  - repeat constructor.
  - destruct (Z.leb_spec (timestamp e) (timestamp x)) as [Hle | Hgt].
    + constructor; [exact Hs |]. constructor. exact Hle.
    + apply Sorted_inv in Hs as [Hs Hhd]. constructor; [apply IH, Hs |].
      assert (Hex : by_timestamp x e) by (unfold by_timestamp; lia).
      destruct l as [| y l]; cbn [insert_by_timestamp].
      * constructor. exact Hex.
      * destruct (timestamp e <=? timestamp y); constructor;
          [exact Hex | inversion Hhd; assumption].
Qed.

(** The sort is stable: entries of one timestamp keep their order. *)
Lemma sort_histogram_stable (l : list PageHistogramEntry) (t : Z) :
  List.filter (fun e => timestamp e =? t) (sort_histogram l)
  = List.filter (fun e => timestamp e =? t) l.
Proof.
  assert (Hins : forall e l',
             List.filter (fun e => timestamp e =? t) (insert_by_timestamp e l')
             = List.filter (fun e => timestamp e =? t) (e :: l')).
  { intros e l'. induction l' as [| x l' IH]; cbn [insert_by_timestamp];
      [reflexivity |].
    destruct (Z.leb_spec (timestamp e) (timestamp x)) as [Hle | Hgt];
      [reflexivity |].
    cbn [List.filter] in IH |- *. rewrite IH.
    destruct (Z.eqb_spec (timestamp e) t) as [He | He];
      destruct (Z.eqb_spec (timestamp x) t) as [Hx | Hx]; try reflexivity; lia. }
  unfold sort_histogram. induction l as [| x l IH]; cbn [fold_right];
    [reflexivity |].
  rewrite Hins. cbn [List.filter]. rewrite IH. reflexivity.
Qed.

Lemma sort_histogram_sorted (l : list PageHistogramEntry) :
  Sorted by_timestamp (sort_histogram l).
Proof.
  unfold sort_histogram. induction l as [| x l IH]; cbn [fold_right].
  - constructor.
  - apply insert_by_timestamp_sorted, IH.
Qed.

Lemma add_entry_histogram (p : PageHeader) (param time : Z) (range : list Z)
    (st : write_status) (p' : PageHeader) :
  add_entry p param time range = Some (st, p') ->
  histogram p' = histogram p /\ sync_count p' = sync_count p.
Proof.
  intros Hadd. split; [| apply (add_entry_counts _ _ _ _ _ _ Hadd)].
  destruct (decide (st = AKU_WRITE_STATUS_SUCCESS)) as [-> | Hne].
  - apply (add_entry_stored _ _ _ _ _ Hadd).
  - destruct (add_entry_counts _ _ _ _ _ _ Hadd) as (_ & _ & Hfail & _).
    rewrite (Hfail Hne). reflexivity.
Qed.

Lemma add_chunk_histogram (p : PageHeader) (range : list Z) (required : Z)
    (st : aku_Status) (p' : PageHeader) :
  add_chunk p range required = Some (st, p') ->
  histogram p' = histogram p /\ sync_count p' = sync_count p.
Proof.
  unfold add_chunk.
  destruct (get_free_space p) as [free |]; [| discriminate]. cbn [mbind option_bind].
  destruct (free <? _); [intros [= <- <-]; auto |].
  destruct (last_offset p <? _); [discriminate |].
  intros [= <- <-]. auto.
Qed.

Lemma histogram_ok_same (p q : PageHeader) :
  histogram q = histogram p -> sync_count q = sync_count p ->
  histogram_ok p -> histogram_ok q.
Proof. unfold histogram_ok. intros -> ->. auto. Qed.

Lemma sync_next_index_histogram (p : PageHeader) (offset rand_val : Z) (flag : bool)
    (p' : PageHeader) :
  page_ok p -> histogram_ok p ->
  sync_next_index p offset rand_val flag = Some p' ->
  histogram_ok p'
  /\ (flag = true -> Sorted by_timestamp (histogram p')
                     /\ histogram p' ≡ₚ histogram p).
Proof.
  intros (Hlen & Hoff & Hs0 & Hsc) [Hsize Hidx].
  unfold sync_next_index. destruct flag; cbn [negb].
  - intros [= <-]. unfold histogram_ok, set_histogram. cbn [histogram sync_count].
    pose proof (sort_histogram_perm (histogram p)) as Hperm.
    split; [| intros _; split; [apply sort_histogram_sorted | exact Hperm]].
    split; [rewrite Hperm; exact Hsize | rewrite Hperm; exact Hidx].
  - rewrite Z.geb_leb.
    destruct (Z.leb_spec (count p) (sync_count p)) as [| Hlt]; [discriminate |].
    intros [= <-]. split; [| discriminate].
    unfold histogram_ok. cbn [histogram sync_count].
    assert (Hnext : wrap32 (sync_count p + 1) = sync_count p + 1)
      by (unfold wrap32; apply Z.mod_small; lia).
    rewrite Hnext.
    assert (Hold : Forall (fun e => 0 <= index e < sync_count p + 1) (histogram p)).
    { eapply Forall_impl; [exact Hidx |]. cbn beta. intros e He. lia. }
    destruct (Z.ltb_spec (Z.of_nat (length (histogram p))) AKU_HISTOGRAM_SIZE)
      as [Hroom | Hfull].
    + split; [rewrite length_app; cbn [length]; lia |].
      apply Forall_app. split; [exact Hold |].
      constructor; [cbn [index]; lia | constructor].
    + destruct (_ <? Z.of_nat _).
      * split; [rewrite length_insert; exact Hsize |].
        apply Forall_insert; [exact Hold | cbn [index]; lia].
      * split; [exact Hsize | exact Hold].
Qed.

Lemma reuse_histogram (p : PageHeader) : histogram_ok p -> histogram_ok (reuse p).
Proof.
  intros [Hsize _]. unfold histogram_ok, reuse. cbn [histogram sync_count length].
  split; [lia | constructor].
Qed.

Lemma complete_chunk_histogram (p : PageHeader) (chunk : ChunkHeader)
    (rand1 rand2 : Z) (st : chunk_status) (p' : PageHeader) :
  page_ok p -> histogram_ok p ->
  complete_chunk p chunk rand1 rand2 = Some (st, p') ->
  histogram_ok p'
  /\ (forall w, st = WriteCode w -> Sorted by_timestamp (histogram p')).
Proof.
  intros Hok Hh. unfold complete_chunk.
  destruct (_ || _)%bool; [discriminate |].
  repeat
    (let E := fresh "E" in
     let Hq := fresh "Hq" in
     let Hn := fresh "Hn" in
     let q' := fresh "q" in
     match goal with
     | |- context [add_chunk ?q ?r ?n] =>
         destruct (add_chunk q r n) as [[? q'] |] eqn:E; [| discriminate];
         cbn [mbind option_bind];
         assert (Hn : histogram_ok q')
           by (destruct (add_chunk_histogram _ _ _ _ _ E);
               eapply (histogram_ok_same q q'); eassumption);
         apply add_chunk_ok in E as (Hq & _ & _); try assumption;
         match goal with
         | |- context [bool_decide ?P] =>
             destruct (bool_decide P); cbn [negb];
             [| intros [= <- <-]; split; [assumption | discriminate]]
         end
     end).
  match goal with
  | |- context [add_entry ?q _ _ _] =>
      assert (Hh4 : histogram_ok q) by assumption;
      assert (Hok4 : page_ok q) by assumption
  end.
  destruct (head _) as [first_ts |]; [| discriminate].
  destruct (last _) as [last_ts |]; [| discriminate].
  cbn [mbind option_bind].
  destruct (add_entry _ _ first_ts _) as [[? p5] |] eqn:E5; [| discriminate].
  cbn [mbind option_bind].
  destruct (sync_next_index p5 _ _ _) as [p6 |] eqn:E6; [| discriminate].
  cbn [mbind option_bind].
  destruct (add_entry p6 _ last_ts _) as [[? p7] |] eqn:E7; [| discriminate].
  cbn [mbind option_bind].
  destruct (sync_next_index p7 _ _ _) as [p8 |] eqn:E8; [| discriminate].
  cbn [mbind option_bind].
  destruct (sync_next_index p8 _ _ _) as [p9 |] eqn:E9; [| discriminate].
  cbn [mbind option_bind].
  intros [= <- <-].
  pose proof (add_entry_histogram _ _ _ _ _ _ E5) as [Hh5 Hs5].
  apply add_entry_ok in E5 as (Hok5 & _); try assumption.
  assert (Hhist5 : histogram_ok p5) by (eapply histogram_ok_same; eassumption).
  pose proof (sync_next_index_histogram _ _ _ _ _ Hok5 Hhist5 E6) as [Hhist6 _].
  apply sync_next_index_ok in E6 as (Hok6 & _); try assumption.
  pose proof (add_entry_histogram _ _ _ _ _ _ E7) as [Hh7 Hs7].
  apply add_entry_ok in E7 as (Hok7 & _); try assumption.
  assert (Hhist7 : histogram_ok p7) by (eapply histogram_ok_same; eassumption).
  pose proof (sync_next_index_histogram _ _ _ _ _ Hok7 Hhist7 E8) as [Hhist8 _].
  apply sync_next_index_ok in E8 as (Hok8 & _); try assumption.
  pose proof (sync_next_index_histogram _ _ _ _ _ Hok8 Hhist8 E9) as [Hhist9 Hsorted].
  split; [exact Hhist9 |]. intros _ _. apply Hsorted. reflexivity.
Qed.

Lemma apply_ops_histogram (ops : list page_op) :
  forall p p',
    page_ok p -> histogram_ok p -> apply_ops p ops = Some p' -> histogram_ok p'.
Proof.
  induction ops as [| op ops IH]; intros p p' Hok Hh Hrun; simpl in Hrun.
  - injection Hrun as <-. exact Hh.
  - destruct (apply_op p op) as [q |] eqn:Eop; [| discriminate].
    cbn [mbind option_bind] in Hrun.
    assert (Hq : page_ok q) by (apply (apply_ops_ok header_size [op] p q Hok);
                                simpl; rewrite Eop; reflexivity).
    apply (IH q p' Hq); [| exact Hrun].
    destruct op as [param ts range | chunk r1 r2 | off rv flag |]; simpl in Eop.
    + destruct (add_entry p param ts range) as [[st q'] |] eqn:E; [| discriminate].
      injection Eop as ->.
      destruct (add_entry_histogram _ _ _ _ _ _ E).
      eapply histogram_ok_same; eassumption.
    + destruct (complete_chunk p chunk r1 r2) as [[st q'] |] eqn:E; [| discriminate].
      injection Eop as ->.
      exact (proj1 (complete_chunk_histogram _ _ _ _ _ _ Hok Hh E)).
    + exact (proj1 (sync_next_index_histogram _ _ _ _ _ Hok Hh Eop)).
    + injection Eop as <-. apply reuse_histogram, Hh.
Qed.

(** X16.  The histogram stays within its array: on a page whose
    histogram holds no more than [AKU_HISTOGRAM_SIZE] entries, each the
    index of a published entry, every run of [add_entry],
    [complete_chunk], [sync_next_index] and [reuse] leaves it so; and a
    chunk that [complete_chunk] has written in full leaves the histogram
    in ascending order of timestamp, as the search by histogram needs
    it. *)
Theorem histogram_stays_in_bounds (p : PageHeader) :
  page_ok p -> histogram_ok p ->
  (forall ops p', apply_ops p ops = Some p' -> histogram_ok p')
  /\ (forall chunk rand1 rand2 w p',
        complete_chunk p chunk rand1 rand2 = Some (WriteCode w, p') ->
        Sorted by_timestamp (histogram p')).
Proof.
  intros Hok Hh. split.
  - intros ops p' Hrun. exact (apply_ops_histogram ops p p' Hok Hh Hrun).
  - intros chunk rand1 rand2 w p' Hrun.
    exact (proj2 (complete_chunk_histogram _ _ _ _ _ _ Hok Hh Hrun) w eq_refl).
Qed.

End ReadFacts.

(** A page of 4 KiB with one entry, and what is done to it afterwards:
    the entry is published, a chunk is completed and a second entry
    written. *)
Definition one_entry : PageHeader :=
  default fresh_4k
    ('(_, p) ← add_entry (H := sample_env) fresh_4k 7 42 [1; 2; 3]; Some p).

Definition later_ops : list page_op :=
  [OpSyncNextIndex 4072 5 false;
   OpCompleteChunk (mkChunkHeader [10; 20; 30] [1; 1; 2] [0; 8; 16] [8; 8; 8]) 3 9;
   OpAddEntry 8 43 [4]].

Definition after_later_ops : PageHeader :=
  default one_entry (apply_ops (H := sample_env) one_entry later_ops).

Lemma bbox_covers_added_entries_witness :
  inside_bbox one_entry 7 42 = true /\ inside_bbox after_later_ops 7 42 = true.
Proof.
  apply (bbox_covers_added_entries (H := sample_env) fresh_4k 7 42 [1; 2; 3]
           one_entry later_ops after_later_ops).
  - vm_compute. reflexivity.
  - unfold later_ops.
    repeat (apply not_elem_of_cons; split; [discriminate |]).
    apply not_elem_of_nil.
  - vm_compute. reflexivity.
Defined.

Lemma add_entry_read_back_witness :
  read_entry_at nearly_full (count fresh_256) = Some (last_offset nearly_full)
  /\ index_to_offset nearly_full (count fresh_256)
     = (last_offset nearly_full, AKU_SUCCESS)
  /\ entry_param_id nearly_full (last_offset nearly_full) = 1
  /\ read_entry_time nearly_full (last_offset nearly_full) = 1
  /\ load (last_offset nearly_full + sizeof_aku_Entry) (length (replicate 93 0))
       (data nearly_full) = replicate 93 0
  /\ get_entry_length_at nearly_full (count fresh_256)
     = Z.of_nat (length (replicate 93 0)).
Proof.
  assert (Hsize : 0 <= sizeof_PageHeader (PageEnv := sample_env)) by (simpl; lia).
  assert (Hok : page_ok fresh_256) by (vm_compute; repeat split; discriminate).
  destruct (add_entry_read_back (H := sample_env) Hsize fresh_256 1 1
              (replicate 93 0) nearly_full Hok ltac:(lia) ltac:(lia)
              ltac:(simpl; lia) (proj1 nearly_full_reached))
    as (H1 & H2 & H3 & H4 & H5 & H6 & _).
  repeat split; assumption.
Defined.

Lemma histogram_stays_in_bounds_witness :
  (forall ops p',
     apply_ops (H := sample_env) fresh_4k ops = Some p' ->
     histogram_ok (H := sample_env) p')
  /\ (forall chunk rand1 rand2 w p',
        complete_chunk (H := sample_env) fresh_4k chunk rand1 rand2
        = Some (WriteCode w, p') ->
        Sorted by_timestamp (histogram p')).
Proof.
  assert (Hsize : 0 <= sizeof_PageHeader (PageEnv := sample_env)) by (simpl; lia).
  apply (histogram_stays_in_bounds (H := sample_env) Hsize fresh_4k fresh_4k_ok).
  split; [vm_compute; discriminate | constructor].
Defined.

End Page.

(** ** Chunk cache (buffer_cache.cpp) *)
Module Cache.

Import Seq.

Section WithKey.

(** [KeyT] of buffer_cache.h, which is not part of this source tree:
    any type an [unordered_map] can be keyed by. *)
Context {KeyT : Type} `{Countable KeyT}.

(** [ChunkCache]: [fifo_] is the deque front first, [push_front] is
    [cons] and [back()] is the last element. *)
Record ChunkCache := mkCache {
  cache_ : gmap KeyT UncompressedChunk;
  fifo_ : list (KeyT * Z);
  total_size_ : Z;
  size_limit_ : Z
}.

(** [ChunkCache::ChunkCache(limit)] *)
Definition new_cache (limit : Z) : ChunkCache := mkCache ∅ [] 0 limit.

(** [contains] and [get] *)
Definition contains (c : ChunkCache) (key : KeyT) : bool :=
  bool_decide (is_Some (cache_ c !! key)).
Definition get (c : ChunkCache) (key : KeyT) : option UncompressedChunk :=
  cache_ c !! key.

(** [get_size]: three vectors of 8-byte elements, in [size_t]. *)
Definition get_size (header : UncompressedChunk) : Z :=
  wrap64 (Z.of_nat (length (paramids header)) * 8
          + Z.of_nat (length (timestamps header)) * 8
          + Z.of_nat (length (values header)) * 8).

(** [ChunkCache::put] *)
Definition put (c : ChunkCache) (key : KeyT) (header : UncompressedChunk)
    : ChunkCache :=
  let szdelta := get_size header in
  let c1 :=
    if wrap64 (total_size_ c + szdelta) >? size_limit_ c then
      match last (fifo_ c) with
      | Some (ekey, esz) =>
          mkCache (delete ekey (cache_ c)) (removelast (fifo_ c))
            (wrap64 (total_size_ c - esz)) (size_limit_ c)
      | None => c
      end
    else c in
  mkCache (<[key := header]> (cache_ c1)) ((key, szdelta) :: fifo_ c1)
    (wrap64 (total_size_ c1 + szdelta)) (size_limit_ c1).

(** A sequence of [put]s. *)
Definition puts (c : ChunkCache) (ops : list (KeyT * UncompressedChunk)) : ChunkCache :=
  foldl (fun acc op => put acc op.1 op.2) c ops.

(** *** Facts about the cache *)

Lemma put_no_eviction (c : ChunkCache) (key : KeyT) (header : UncompressedChunk) :
  wrap64 (total_size_ c + get_size header) <= size_limit_ c \/ fifo_ c = [] ->
  put c key header
  = mkCache (<[key := header]> (cache_ c)) ((key, get_size header) :: fifo_ c)
      (wrap64 (total_size_ c + get_size header)) (size_limit_ c).
Proof.
  intros Hc. unfold put. rewrite Z.gtb_ltb.
  destruct (Z.ltb_spec (size_limit_ c) (wrap64 (total_size_ c + get_size header)))
    as [Hlt | Hle]; [| reflexivity].
  destruct Hc as [Hle | Hnil]; [lia |].
  rewrite Hnil. cbn [last]. rewrite Hnil. reflexivity.
Qed.

Lemma put_eviction (c : ChunkCache) (key : KeyT) (header : UncompressedChunk)
    (rest : list (KeyT * Z)) (ekey : KeyT) (esz : Z) :
  size_limit_ c < wrap64 (total_size_ c + get_size header) ->
  fifo_ c = rest ++ [(ekey, esz)] ->
  put c key header
  = mkCache (<[key := header]> (delete ekey (cache_ c)))
      ((key, get_size header) :: rest)
      (wrap64 (wrap64 (total_size_ c - esz) + get_size header)) (size_limit_ c).
Proof.
  intros Hlt Hfifo. unfold put. rewrite Z.gtb_ltb.
  replace (size_limit_ c <? wrap64 (total_size_ c + get_size header)) with true
    by (symmetry; apply Z.ltb_lt; exact Hlt).
  rewrite Hfifo, last_snoc, removelast_last. reflexivity.
Qed.

(** The FIFO holds the most recent [put]s, newest first: what has left it
    left from the old end. *)
Lemma puts_fifo_order (limit : Z) (ops : list (KeyT * UncompressedChunk)) :
  exists evicted,
    map (fun op => (op.1, get_size op.2)) ops
    = evicted ++ rev (fifo_ (puts (new_cache limit) ops)).
Proof.
  induction ops as [| op ops IH] using rev_ind.
  - exists []. reflexivity.
  - destruct IH as [evicted IH]. unfold puts in *. rewrite foldl_snoc, map_app.
    cbn [map]. set (c := foldl _ _ ops) in *.
    destruct (Z.le_gt_cases (wrap64 (total_size_ c + get_size op.2)) (size_limit_ c))
      as [Hle | Hgt].
    + rewrite put_no_eviction by (left; exact Hle). cbn [fifo_ rev].
      exists evicted. rewrite IH, app_assoc. reflexivity.
    + destruct (fifo_ c) as [| e f] eqn:Ef using rev_ind.
      * rewrite put_no_eviction by (right; exact Ef). rewrite Ef. cbn [fifo_ rev].
        exists evicted. rewrite IH, app_assoc. reflexivity.
      * clear IHf. destruct e as [ekey esz].
        rewrite (put_eviction c _ _ f ekey esz) by (lia || exact Ef).
        cbn [fifo_ rev]. rewrite rev_app_distr in IH. cbn [rev app] in IH.
        exists (evicted ++ [(ekey, esz)]).
        rewrite IH, <- !app_assoc. reflexivity.
Qed.

Lemma get_size_range (header : UncompressedChunk) : 0 <= get_size header < 2 ^ 64.
Proof. unfold get_size, wrap64. apply Z.mod_pos_bound. lia. Qed.

(** With every key put once, the cache holds the chunks put last and the
    FIFO their entries: the chunks that have gone are the oldest. *)
Lemma puts_distinct_keys (limit : Z) (ops : list (KeyT * UncompressedChunk)) :
  NoDup ops.*1 ->
  exists evicted kept,
    ops = evicted ++ kept
    /\ fifo_ (puts (new_cache limit) ops)
       = rev (map (fun op => (op.1, get_size op.2)) kept)
    /\ cache_ (puts (new_cache limit) ops) = list_to_map kept.
Proof.
  induction ops as [| [key header] ops IH] using rev_ind; intros Hnd.
  - exists [], []. split; [reflexivity |]. split; reflexivity.
  - rewrite fmap_app in Hnd. apply NoDup_app in Hnd as (Hnd & Hfresh & _).
    destruct (IH Hnd) as (evicted & kept & Hops & Hfifo & Hcache).
    assert (Hkey : key ∉ kept.*1).
    { intros Hin. apply (Hfresh key); [| cbn; apply list_elem_of_here].
      rewrite Hops, fmap_app. apply elem_of_app. right. exact Hin. }
    unfold puts in *. rewrite foldl_snoc. cbn [fst snd].
    set (c := foldl _ _ ops) in *.
    assert (Hkeep : put c key header
                    = mkCache (<[key := header]> (cache_ c))
                        ((key, get_size header) :: fifo_ c)
                        (wrap64 (total_size_ c + get_size header)) (size_limit_ c) ->
                    exists evicted' kept',
                      ops ++ [(key, header)] = evicted' ++ kept'
                      /\ fifo_ (put c key header)
                         = rev (map (fun op => (op.1, get_size op.2)) kept')
                      /\ cache_ (put c key header) = list_to_map kept').
    { intros ->. exists evicted, (kept ++ [(key, header)]). cbn [fifo_ cache_].
      split; [rewrite Hops, app_assoc; reflexivity |].
      split.
      - rewrite map_app, rev_app_distr, Hfifo. reflexivity.
      - rewrite Hcache. symmetry. apply list_to_map_snoc. exact Hkey. }
    destruct (Z.le_gt_cases (wrap64 (total_size_ c + get_size header)) (size_limit_ c))
      as [Hle | Hgt].
    { apply Hkeep, put_no_eviction. left. exact Hle. }
    destruct kept as [| [ekey eheader] kept'].
    { apply Hkeep, put_no_eviction. right. exact Hfifo. }
    cbn [map rev fst snd] in Hfifo.
    rewrite (put_eviction c key header _ ekey (get_size eheader) Hgt Hfifo).
    cbn [fifo_ cache_].
    exists (evicted ++ [(ekey, eheader)]), (kept' ++ [(key, header)]).
    split; [rewrite Hops, <- !app_assoc; reflexivity |].
    split.
    + rewrite map_app, rev_app_distr. reflexivity.
    + rewrite Hcache. cbn [list_to_map foldr]. fold (list_to_map (M := gmap KeyT UncompressedChunk) kept').
      assert (Hnd' : NoDup ((ekey, eheader) :: kept').*1).
      { rewrite Hops, fmap_app in Hnd. apply NoDup_app in Hnd as (_ & _ & Hnd).
        exact Hnd. }
      rewrite fmap_cons in Hnd'. apply NoDup_cons in Hnd' as [Hekey _].
      rewrite delete_insert_id by (apply not_elem_of_list_to_map_1; exact Hekey).
      symmetry. apply list_to_map_snoc.
      intros Hin. apply Hkey. rewrite fmap_cons. apply list_elem_of_further, Hin.
Qed.

(** With a key put twice, the entry that leaves the FIFO takes the newer
    chunk of its key along: of the chunks put under [key1], [key2],
    [key1] again and [key3], the last one over the limit, the third is
    gone and the second, which is older, is still cached. *)
Lemma put_erases_newer_chunk (limit : Z) (key1 key2 key3 : KeyT)
    (first second third fourth : UncompressedChunk) :
  key1 <> key2 -> key1 <> key3 -> key2 <> key3 ->
  get_size first + get_size second + get_size third <= limit ->
  limit < get_size first + get_size second + get_size third + get_size fourth
        < 2 ^ 64 ->
  let c := puts (new_cache limit)
             [(key1, first); (key2, second); (key1, third); (key3, fourth)] in
  get c key1 = None
  /\ get c key2 = Some second
  /\ get c key3 = Some fourth
  /\ fifo_ c = [(key3, get_size fourth); (key1, get_size third);
                (key2, get_size second)].
Proof.
  intros H12 H13 H23 Hfit Hover.
  pose proof (get_size_range first). pose proof (get_size_range second).
  pose proof (get_size_range third). pose proof (get_size_range fourth).
  assert (Hsmall : forall x, 0 <= x < 2 ^ 64 -> wrap64 x = x)
    by (intros x Hx; unfold wrap64; apply Z.mod_small; lia).
  cbn [puts foldl fst snd].
  set (c1 := put (new_cache limit) key1 first).
  assert (Hc1 : c1 = mkCache (<[key1 := first]> ∅) [(key1, get_size first)]
                      (get_size first) limit).
  { subst c1. rewrite put_no_eviction by (right; reflexivity).
    cbn [new_cache cache_ fifo_ total_size_ size_limit_].
    rewrite Z.add_0_l, Hsmall by lia. reflexivity. }
  set (c2 := put c1 key2 second).
  assert (Hc2 : c2 = mkCache (<[key2 := second]> (<[key1 := first]> ∅))
                      [(key2, get_size second); (key1, get_size first)]
                      (get_size first + get_size second) limit).
  { subst c2. rewrite Hc1.
    rewrite put_no_eviction
      by (left; cbn [total_size_ size_limit_]; rewrite Hsmall; lia).
    cbn [cache_ fifo_ total_size_ size_limit_]. rewrite Hsmall by lia. reflexivity. }
  set (c3 := put c2 key1 third).
  assert (Hc3 : c3 = mkCache (<[key1 := third]> (<[key2 := second]> (<[key1 := first]> ∅)))
                      [(key1, get_size third); (key2, get_size second);
                       (key1, get_size first)]
                      (get_size first + get_size second + get_size third) limit).
  { subst c3. rewrite Hc2.
    rewrite put_no_eviction
      by (left; cbn [total_size_ size_limit_]; rewrite Hsmall; lia).
    cbn [cache_ fifo_ total_size_ size_limit_]. rewrite Hsmall by lia. reflexivity. }
  rewrite Hc3.
  rewrite (put_eviction _ key3 fourth
             [(key1, get_size third); (key2, get_size second)]
             key1 (get_size first))
    by (cbn [total_size_ size_limit_ fifo_]; first [reflexivity | rewrite Hsmall; lia]).
  unfold get. cbn [cache_ fifo_].
  split; [| split; [| split; [| reflexivity]]].
  - rewrite lookup_insert_ne by congruence. apply lookup_delete_eq.
  - rewrite lookup_insert_ne by congruence.
    rewrite lookup_delete_ne by congruence.
    rewrite lookup_insert_ne by congruence.
    rewrite lookup_insert_eq. reflexivity.
  - rewrite lookup_insert_eq. reflexivity.
Qed.

(** C3 (as the code has it).  A [put] evicts when the new chunk takes the
    total over the limit and the FIFO is not empty; it then removes one
    entry, the one at the old end of the FIFO, and no second one, whether
    or not the new chunk now fits, and erases what is cached under the
    key of that entry.  The new chunk is always stored.  The total is
    within the limit after a [put] that needed no eviction; over any
    sequence of [put]s the entries leave the FIFO in the order they came.
    With every key put once, the cache holds the chunks put last: the
    chunk evicted is the oldest one.  With a key put twice it need not
    be: the entry of the first chunk takes the newer chunk of its key
    along, while an older chunk of another key stays. *)
Theorem put_evicts_one_oldest (c : ChunkCache) (key : KeyT)
    (header : UncompressedChunk) :
  (wrap64 (total_size_ c + get_size header) <= size_limit_ c ->
   put c key header
   = mkCache (<[key := header]> (cache_ c)) ((key, get_size header) :: fifo_ c)
       (wrap64 (total_size_ c + get_size header)) (size_limit_ c)
   /\ total_size_ (put c key header) <= size_limit_ c)
  /\ (size_limit_ c < wrap64 (total_size_ c + get_size header) ->
      forall rest ekey esz,
        fifo_ c = rest ++ [(ekey, esz)] ->
        put c key header
        = mkCache (<[key := header]> (delete ekey (cache_ c)))
            ((key, get_size header) :: rest)
            (wrap64 (wrap64 (total_size_ c - esz) + get_size header))
            (size_limit_ c))
  /\ (fifo_ c = [] ->
      put c key header
      = mkCache (<[key := header]> (cache_ c)) [(key, get_size header)]
          (wrap64 (total_size_ c + get_size header)) (size_limit_ c))
  /\ (forall limit ops,
        exists evicted,
          map (fun op => (op.1, get_size op.2)) ops
          = evicted ++ rev (fifo_ (puts (new_cache limit) ops)))
  /\ (forall limit ops,
        NoDup ops.*1 ->
        exists evicted kept,
          ops = evicted ++ kept
          /\ fifo_ (puts (new_cache limit) ops)
             = rev (map (fun op => (op.1, get_size op.2)) kept)
          /\ cache_ (puts (new_cache limit) ops) = list_to_map kept)
  /\ (forall limit key1 key2 key3 first second third fourth,
        key1 <> key2 -> key1 <> key3 -> key2 <> key3 ->
        get_size first + get_size second + get_size third <= limit ->
        limit < get_size first + get_size second + get_size third
                + get_size fourth < 2 ^ 64 ->
        let c' := puts (new_cache limit)
                    [(key1, first); (key2, second); (key1, third); (key3, fourth)] in
        get c' key1 = None
        /\ get c' key2 = Some second
        /\ get c' key3 = Some fourth
        /\ fifo_ c' = [(key3, get_size fourth); (key1, get_size third);
                       (key2, get_size second)]).
Proof.
  split; [| split; [| split; [| split; [| split]]]].
  - intros Hle. rewrite put_no_eviction by (left; exact Hle).
    split; [reflexivity | exact Hle].
  - intros Hlt rest ekey esz Hfifo. apply put_eviction; assumption.
  - intros Hnil. rewrite put_no_eviction by (right; exact Hnil).
    rewrite Hnil. reflexivity.
  - intros limit ops. apply puts_fifo_order.
  - intros limit ops. apply puts_distinct_keys.
  - intros limit key1 key2 key3 first second third fourth.
    apply put_erases_newer_chunk.
Qed.

(** The chunk most recently [put] under a key. *)
Definition last_put (key : KeyT) (ops : list (KeyT * UncompressedChunk))
    : option UncompressedChunk :=
  snd <$> last (List.filter (fun op => bool_decide (op.1 = key)) ops).

(** The sizes the FIFO accounts for. *)
Definition fifo_size (fifo : list (KeyT * Z)) : Z :=
  fold_right (fun e acc => e.2 + acc) 0 fifo.

Lemma last_put_snoc (key key' : KeyT) (header : UncompressedChunk)
    (ops : list (KeyT * UncompressedChunk)) :
  last_put key' (ops ++ [(key, header)])
  = (if decide (key = key') then Some header else last_put key' ops).
Proof.
  unfold last_put. rewrite List.filter_app. cbn [List.filter fst].
  destruct (decide (key = key')) as [-> | Hne].
  - rewrite bool_decide_eq_true_2 by reflexivity. rewrite last_snoc. reflexivity.
  - rewrite bool_decide_eq_false_2 by exact Hne. rewrite app_nil_r. reflexivity.
Qed.

Lemma fifo_size_snoc (fifo : list (KeyT * Z)) (e : KeyT * Z) :
  fifo_size (fifo ++ [e]) = fifo_size fifo + e.2.
Proof.
  unfold fifo_size. induction fifo as [| x fifo IH]; cbn [app fold_right]; lia.
Qed.

Lemma wrap64_add_l (a b : Z) : wrap64 (wrap64 a + b) = wrap64 (a + b).
Proof. unfold wrap64. apply Zplus_mod_idemp_l. Qed.

Lemma wrap64_sub_l (a b : Z) : wrap64 (wrap64 a - b) = wrap64 (a - b).
Proof. unfold wrap64. apply Zminus_mod_idemp_l. Qed.

(** What holds of the cache after any sequence of [put]s. *)
Definition cache_ok (ops : list (KeyT * UncompressedChunk)) (c : ChunkCache) : Prop :=
  (forall key header,
     cache_ c !! key = Some header ->
     last_put key ops = Some header /\ key ∈ (fifo_ c).*1)
  /\ total_size_ c = wrap64 (fifo_size (fifo_ c)).

Lemma put_keeps_cache_ok (ops : list (KeyT * UncompressedChunk)) (c : ChunkCache)
    (key : KeyT) (header : UncompressedChunk) :
  cache_ok ops c -> cache_ok (ops ++ [(key, header)]) (put c key header).
Proof.
  intros [Hget Htotal].
  assert (Hstep : forall cache1 fifo1 total1,
             (forall k h, cache1 !! k = Some h ->
                          last_put k ops = Some h /\ k ∈ fifo1.*1) ->
             total1 = wrap64 (fifo_size fifo1) ->
             cache_ok (ops ++ [(key, header)])
               (mkCache (<[key := header]> cache1) ((key, get_size header) :: fifo1)
                  (wrap64 (total1 + get_size header)) (size_limit_ c))).
  { intros cache1 fifo1 total1 Hg Ht. split; cbn [cache_ fifo_ total_size_].
    - intros k h Hk. rewrite last_put_snoc, fmap_cons. cbn [fst].
      destruct (decide (key = k)) as [-> | Hne].
      + rewrite lookup_insert in Hk.
        destruct (decide (k = k)); [| contradiction].
        split; [congruence | apply list_elem_of_here].
      + rewrite lookup_insert_ne in Hk by exact Hne.
        destruct (Hg k h Hk) as [Hl Hin].
        split; [exact Hl | apply list_elem_of_further, Hin].
    - rewrite Ht, wrap64_add_l. cbn [fifo_size fold_right snd]. f_equal.
      fold (fifo_size fifo1). lia. }
  destruct (Z.le_gt_cases (wrap64 (total_size_ c + get_size header)) (size_limit_ c))
    as [Hle | Hgt].
  - rewrite put_no_eviction by (left; exact Hle). apply Hstep; assumption.
  - assert (Hcase : fifo_ c = []
                    \/ exists rest ekey esz, fifo_ c = rest ++ [(ekey, esz)]).
    { destruct (fifo_ c) as [| [ekey esz] rest _] using rev_ind;
        [left; reflexivity | right; eauto]. }
    destruct Hcase as [Ef | (rest & ekey & esz & Ef)].
    + rewrite put_no_eviction by (right; exact Ef). apply Hstep; assumption.
    + rewrite (put_eviction c _ _ rest ekey esz) by (lia || exact Ef).
      apply Hstep.
      * intros k h Hk. apply lookup_delete_Some in Hk as [Hne Hk].
        destruct (Hget k h Hk) as [Hl Hin]. split; [exact Hl |].
        rewrite Ef, fmap_app in Hin. apply elem_of_app in Hin as [Hin | Hin];
          [exact Hin |].
        cbn in Hin. apply list_elem_of_singleton in Hin. congruence.
      * rewrite Htotal, wrap64_sub_l, Ef, fifo_size_snoc. cbn [snd]. f_equal. lia.
Qed.

Lemma puts_cache_ok (limit : Z) (ops : list (KeyT * UncompressedChunk)) :
  cache_ok ops (puts (new_cache limit) ops).
Proof.
  induction ops as [| op ops IH] using rev_ind.
  - split; [| reflexivity]. intros key header Hk. cbn in Hk.
    rewrite lookup_empty in Hk. discriminate.
  - unfold puts in *. rewrite foldl_snoc. destruct op as [key header].
    apply put_keeps_cache_ok, IH.
Qed.

(** X17.  The cache never hands out a stale chunk: after any sequence
    of [put]s, what [get] returns for a key is the chunk most recently
    put under it, that key still has an entry in the FIFO, and
    [total_size_] is the sum of the sizes in the FIFO.  A chunk just put
    is always there to [get], whatever its size and the limit. *)
Theorem get_returns_latest_put (limit : Z) (ops : list (KeyT * UncompressedChunk)) :
  (forall key header,
     get (puts (new_cache limit) ops) key = Some header ->
     last_put key ops = Some header
     /\ contains (puts (new_cache limit) ops) key = true
     /\ key ∈ (fifo_ (puts (new_cache limit) ops)).*1)
  /\ total_size_ (puts (new_cache limit) ops)
     = wrap64 (fifo_size (fifo_ (puts (new_cache limit) ops)))
  /\ (forall key header,
        get (put (puts (new_cache limit) ops) key header) key = Some header).
Proof.
  destruct (puts_cache_ok limit ops) as [Hget Htotal].
  split; [| split; [exact Htotal |]].
  - intros key header Hk. unfold get in Hk.
    destruct (Hget key header Hk) as [Hl Hin].
    split; [exact Hl |]. split; [| exact Hin].
    unfold contains. apply bool_decide_eq_true_2. rewrite Hk. eexists; reflexivity.
  - intros key header. unfold get, put. cbn [cache_].
    rewrite lookup_insert. destruct (decide (key = key)); [reflexivity | contradiction].
Qed.

End WithKey.

(** A chunk of [n] samples: [24 * n] bytes. *)
Definition chunk_of (n : nat) : UncompressedChunk :=
  mkChunk (replicate n 0) (replicate n 0) (replicate n 0).

(** C3, the claim as worded.  With a limit of 100 bytes: one chunk of 120
    bytes put into the empty cache leaves the total at 120; and after four
    chunks of 24 bytes, a chunk of 96 bytes evicts the first of them only
    and leaves 168 bytes cached, three old chunks still in the FIFO. *)
Lemma put_exceeds_limit :
  (let c := put (new_cache 100) 1 (chunk_of 5) in
   total_size_ c = 120 /\ size_limit_ c < total_size_ c)
  /\ (let c := puts (new_cache 100)
                 [(1, chunk_of 1); (2, chunk_of 1); (3, chunk_of 1); (4, chunk_of 1)] in
      total_size_ c = 96
      /\ total_size_ (put c 5 (chunk_of 4)) = 168
      /\ size_limit_ (put c 5 (chunk_of 4)) < total_size_ (put c 5 (chunk_of 4))
      /\ map fst (fifo_ (put c 5 (chunk_of 4))) = [5; 4; 3; 2]).
Proof. vm_compute. repeat split. Qed.

Lemma put_evicts_one_oldest_witness :
  (let c := new_cache (KeyT := Z) 100 in
   put c 1 (chunk_of 1)
   = mkCache (<[1 := chunk_of 1]> (cache_ c)) ((1, get_size (chunk_of 1)) :: fifo_ c)
       (wrap64 (total_size_ c + get_size (chunk_of 1))) (size_limit_ c)
   /\ total_size_ (put c 1 (chunk_of 1)) <= size_limit_ c)
  /\ (let c := puts (new_cache 100) [(1, chunk_of 2); (2, chunk_of 2)] in
      put c 3 (chunk_of 1)
      = mkCache (<[3 := chunk_of 1]> (delete 1 (cache_ c)))
          ((3, get_size (chunk_of 1)) :: [(2, 48)])
          (wrap64 (wrap64 (total_size_ c - 48) + get_size (chunk_of 1)))
          (size_limit_ c))
  /\ (let c := new_cache (KeyT := Z) 10 in
      put c 1 (chunk_of 1)
      = mkCache (<[1 := chunk_of 1]> (cache_ c)) [(1, get_size (chunk_of 1))]
          (wrap64 (total_size_ c + get_size (chunk_of 1))) (size_limit_ c))
  /\ (let ops := [(1, chunk_of 2); (2, chunk_of 2); (3, chunk_of 1)] in
      exists evicted kept,
        ops = evicted ++ kept
        /\ fifo_ (puts (new_cache 100) ops)
           = rev (map (fun op => (op.1, get_size op.2)) kept)
        /\ cache_ (puts (new_cache 100) ops) = list_to_map kept)
  /\ (let c' := puts (new_cache 100)
                  [(1, chunk_of 1); (2, chunk_of 1); (1, chunk_of 2); (3, chunk_of 1)] in
      get c' 1 = None
      /\ get c' 2 = Some (chunk_of 1)
      /\ get c' 3 = Some (chunk_of 1)
      /\ fifo_ c' = [(3, get_size (chunk_of 1)); (1, get_size (chunk_of 2));
                     (2, get_size (chunk_of 1))]).
Proof.
  split; [| split; [| split; [| split]]].
  4:{ apply (proj1 (proj2 (proj2 (proj2 (proj2
               (put_evicts_one_oldest (new_cache 100) 1 (chunk_of 1))))))).
      cbn. apply (bool_decide_unpack _). vm_compute. exact I. }
  4:{ apply (proj2 (proj2 (proj2 (proj2 (proj2
               (put_evicts_one_oldest (new_cache 100) 1 (chunk_of 1)))))));
        try discriminate; vm_compute; split; congruence. }
  - apply (proj1 (put_evicts_one_oldest (new_cache 100) 1 (chunk_of 1))).
    vm_compute. discriminate.
  - apply (proj1 (proj2 (put_evicts_one_oldest
                           (puts (new_cache 100) [(1, chunk_of 2); (2, chunk_of 2)])
                           3 (chunk_of 1)))).
    + vm_compute. reflexivity.
    + reflexivity.
  - apply (proj1 (proj2 (proj2 (put_evicts_one_oldest (new_cache 10) 1 (chunk_of 1))))).
    reflexivity.
Defined.

End Cache.

(** ** The write path of Storage (storage.cpp) *)
Module Storage.

Import Seq.

(** [config_.durability] *)
Inductive durability :=
| AKU_MAX_DURABILITY
| AKU_DURABILITY_SPEED_TRADEOFF
| AKU_MAX_WRITE_SPEED.

(** What the write path does to the volumes, in order: [Volume::flush] of
    the active volume, or the rotation of [advance_volume_]. *)
Inductive volume_event :=
| Flush
| AdvanceVolume.

#[global] Instance volume_event_eq_dec : EqDecision volume_event.
Proof. solve_decision. Defined.

Section WithVolume.

Variable AKU_LIMITS_MAX_ID : Z.

(** The page of the active volume with the flush it is the target of, and
    the rotation: [Volume], [PageHeader::complete_chunk] for an
    [UncompressedChunk] and the files behind [advance_volume_] are not part
    of this source tree. *)
Context {Page : Type}.
Variable complete_chunk : Page -> UncompressedChunk -> aku_Status * Page.
Variable convert_from_time_order : UncompressedChunk -> option UncompressedChunk.
Variable advance_volume_ : Page -> Page.

(** The part of [Storage] the write path works on: the durability
    setting, the Sequencer of the active volume ([cache_], which the
    rotation hands over to the next volume) and the active page. *)
Record Storage := mkStorage {
  config_durability : durability;
  cache_ : Sequencer;
  active_page_ : Page
}.

(** [Storage::_write_impl]: the status, the storage and the volume events
    of the call; [None] is a panic. *)
Definition _write_impl (st : Storage) (ts_value : TimeSeriesValue)
    : option (aku_Status * Storage * list volume_event) :=
  '(status, merge_lock, cache1) ← add AKU_LIMITS_MAX_ID (cache_ st) ts_value;
  let st1 := mkStorage (config_durability st) cache1 (active_page_ st) in
  match status with
  | AKU_SUCCESS =>
      if Z.rem merge_lock 2 =? 1 then
        '(status', cache2, page2, _) ←
          merge_and_compress complete_chunk convert_from_time_order
            cache1 (active_page_ st) false;
        let st2 := mkStorage (config_durability st) cache2 page2 in
        match status' with
        | AKU_SUCCESS =>
            match config_durability st with
            | AKU_MAX_DURABILITY => Some (AKU_SUCCESS, st2, [Flush])
            | AKU_DURABILITY_SPEED_TRADEOFF =>
                if Z.rem merge_lock 8 =? 1
                then Some (AKU_SUCCESS, st2, [Flush])
                else Some (AKU_SUCCESS, st2, [])
            | AKU_MAX_WRITE_SPEED => Some (AKU_SUCCESS, st2, [])
            end
        | AKU_EOVERFLOW =>
            Some (AKU_SUCCESS,
                  mkStorage (config_durability st) cache2 (advance_volume_ page2),
                  [AdvanceVolume])
        | _ => None
        end
      else Some (status, st1, [])
  | _ => Some (status, st1, [])
  end.

(** C9 (as the code has it).  Whenever a write returns: the active volume
    is flushed exactly when [add] handed out an odd flush token, the
    flush of the Sequencer that followed succeeded, and the setting is
    MAX, or it is TRADEOFF and the token leaves remainder 1 modulo 8 (the
    tokens 1, 9, 17, ...: one odd token in four).  Under SPEED the write
    path never flushes by itself.  Under every setting the volume is
    rotated exactly when the flush of the Sequencer met a full page. *)
Theorem write_flush_policy (st : Storage) (ts_value : TimeSeriesValue)
    (status : aku_Status) (st' : Storage) (events : list volume_event) :
  _write_impl st ts_value = Some (status, st', events) ->
  exists add_status merge_lock cache1,
    add AKU_LIMITS_MAX_ID (cache_ st) ts_value = Some (add_status, merge_lock, cache1)
    /\ (events = [Flush] \/ events = [AdvanceVolume] \/ events = [])
    /\ (Flush ∈ events <->
        add_status = AKU_SUCCESS /\ Z.rem merge_lock 2 = 1
        /\ (exists cache2 page2 log,
              merge_and_compress complete_chunk convert_from_time_order
                cache1 (active_page_ st) false
              = Some (AKU_SUCCESS, cache2, page2, log))
        /\ match config_durability st with
           | AKU_MAX_DURABILITY => True
           | AKU_DURABILITY_SPEED_TRADEOFF => Z.rem merge_lock 8 = 1
           | AKU_MAX_WRITE_SPEED => False
           end)
    /\ (AdvanceVolume ∈ events <->
        add_status = AKU_SUCCESS /\ Z.rem merge_lock 2 = 1
        /\ exists cache2 page2 log,
             merge_and_compress complete_chunk convert_from_time_order
               cache1 (active_page_ st) false
             = Some (AKU_EOVERFLOW, cache2, page2, log)).
Proof.
  unfold _write_impl. intros Hrun.
  destruct (add AKU_LIMITS_MAX_ID (cache_ st) ts_value)
    as [[[add_status merge_lock] cache1] |]; [| discriminate].
  cbn [mbind option_bind] in Hrun.
  exists add_status, merge_lock, cache1. split; [reflexivity |].
  assert (Hno : forall e : volume_event, e ∈ @nil volume_event -> False)
    by (intros e He; inversion He).
  destruct (decide (add_status = AKU_SUCCESS)) as [-> | Hne].
  2:{ assert (events = []) as -> by (destruct add_status; congruence).
      split; [auto |]. split; split; intros Hin;
        solve [exfalso; eapply Hno; exact Hin | destruct Hin as [? _]; contradiction]. }
  destruct (Z.eqb_spec (Z.rem merge_lock 2) 1) as [Hodd | Heven].
  2:{ injection Hrun as <- <- <-.
      split; [auto |]. split; split; intros Hin;
        solve [exfalso; eapply Hno; exact Hin | destruct Hin as (_ & ? & _); contradiction]. }
  destruct (merge_and_compress _ _ _ _ _) as [[[[status' cache2] page2] log] |];
    [| discriminate].
  cbn [mbind option_bind] in Hrun.
  destruct status'; try discriminate.
  - (* the flush succeeded *)
    assert (Hadv : AdvanceVolume ∈ events <-> False).
    { split; [| tauto]. intros Hin.
      destruct (config_durability st); [| destruct (Z.rem merge_lock 8 =? 1) |];
        injection Hrun as <- <- <-;
        solve [ apply list_elem_of_singleton in Hin; discriminate
              | eapply Hno; exact Hin ]. }
    destruct (config_durability st) eqn:Ed.
    + injection Hrun as <- <- <-. split; [auto |]. split.
      * split; [| intros _; apply list_elem_of_singleton; reflexivity].
        intros _. repeat split; eauto.
      * rewrite Hadv. split; [tauto |]. intros (_ & _ & c & p & l & Heq). discriminate.
    + destruct (Z.eqb_spec (Z.rem merge_lock 8) 1) as [H8 | H8];
        injection Hrun as <- <- <-.
      * split; [auto |]. split.
        -- split; [| intros _; apply list_elem_of_singleton; reflexivity].
           intros _. repeat split; eauto.
        -- rewrite Hadv. split; [tauto |]. intros (_ & _ & c & p & l & Heq). discriminate.
      * split; [auto |]. split.
        -- split; [intros Hin; exfalso; eapply Hno; exact Hin |].
           intros (_ & _ & _ & Hc). contradiction.
        -- rewrite Hadv. split; [tauto |]. intros (_ & _ & c & p & l & Heq). discriminate.
    + injection Hrun as <- <- <-. split; [auto |]. split.
      * split; [intros Hin; exfalso; eapply Hno; exact Hin |].
        intros (_ & _ & _ & Hc). contradiction.
      * rewrite Hadv. split; [tauto |]. intros (_ & _ & c & p & l & Heq). discriminate.
  - (* the page was full *)
    injection Hrun as <- <- <-. split; [auto |]. split.
    + split.
      * intros Hin. apply list_elem_of_singleton in Hin. discriminate.
      * intros (_ & _ & (c & p & l & Heq) & _). discriminate.
    + split; [| intros _; apply list_elem_of_singleton; reflexivity].
      intros _. repeat split; eauto.
Qed.

End WithVolume.

(** A storage on a fresh Sequencer with window 10 and threshold 1, and a
    page with room for twenty chunks. *)
Definition fresh_storage (d : durability) : Storage (Page := nat) :=
  mkStorage d (new_sequencer 10 1) 20%nat.

Definition write (st : Storage) (v : TimeSeriesValue)
    : option (aku_Status * Storage * list volume_event) :=
  _write_impl max_id_sample slot_page keep_order (fun p => p) st v.

(** Writes in a row; for each one the flush token [add] hands out and the
    volume events of the write. *)
Fixpoint write_all (st : Storage) (vs : list TimeSeriesValue)
    : option (list (Z * list volume_event)) :=
  match vs with
  | [] => Some []
  | v :: vs' =>
      '(_, merge_lock, _) ← add max_id_sample (cache_ st) v;
      '(_, st', events) ← write st v;
      rest ← write_all st' vs';
      Some ((merge_lock, events) :: rest)
  end.

(** C9, the claim as worded.  Ten writes, one per window, to a fresh
    storage under TRADEOFF: every write from the second on seals the sample
    before it and is handed the next odd token.  The volume is flushed at
    the tokens 1, 9 and 17, the first, fifth and ninth odd generation; at
    token 15, the eighth odd generation, it is not. *)
Lemma tradeoff_flushes_tokens_1_mod_8 :
  write_all (fresh_storage AKU_DURABILITY_SPEED_TRADEOFF)
    (map tick [0; 10; 20; 30; 40; 50; 60; 70; 80; 90])
  = Some [(0, []); (1, [Flush]); (3, []); (5, []); (7, []);
          (9, [Flush]); (11, []); (13, []); (15, []); (17, [Flush])].
Proof. vm_compute. reflexivity. Qed.

(** The storage after the first of these writes. *)
Definition one_written : Storage (Page := nat) :=
  mkStorage AKU_DURABILITY_SPEED_TRADEOFF
    (mkSequencer 10 0 0 0 1 [[tick 0]] [] [tick 0]) 20%nat.

Lemma one_written_reached :
  write (fresh_storage AKU_DURABILITY_SPEED_TRADEOFF) (tick 0)
  = Some (AKU_SUCCESS, one_written, []).
Proof. vm_compute. reflexivity. Qed.

Lemma write_flush_policy_witness :
  exists st' add_status merge_lock cache1,
    write one_written (tick 10) = Some (AKU_SUCCESS, st', [Flush])
    /\ add max_id_sample (cache_ one_written) (tick 10)
       = Some (add_status, merge_lock, cache1)
    /\ ([Flush] = [Flush] \/ [Flush] = [AdvanceVolume] \/ [Flush] = [])
    /\ (Flush ∈ [Flush] <->
        add_status = AKU_SUCCESS /\ Z.rem merge_lock 2 = 1
        /\ (exists cache2 page2 log,
              merge_and_compress slot_page keep_order cache1 20%nat false
              = Some (AKU_SUCCESS, cache2, page2, log))
        /\ Z.rem merge_lock 8 = 1)
    /\ (AdvanceVolume ∈ [Flush] <->
        add_status = AKU_SUCCESS /\ Z.rem merge_lock 2 = 1
        /\ exists cache2 page2 log,
             merge_and_compress slot_page keep_order cache1 20%nat false
             = Some (AKU_EOVERFLOW, cache2, page2, log)).
Proof.
  eexists.
  assert (Hrun : write one_written (tick 10)
                 = Some (AKU_SUCCESS,
                         (default (AKU_SUCCESS, one_written, [])
                            (write one_written (tick 10))).1.2, [Flush]))
    by (vm_compute; reflexivity).
  destruct (write_flush_policy max_id_sample slot_page keep_order (fun p => p)
              one_written (tick 10) _ _ _ Hrun) as (a & m & c & H1 & H2 & H3 & H4).
  exists a, m, c. split; [exact Hrun |]. split; [exact H1 |].
  split; [exact H2 |]. split; [exact H3 | exact H4].
Defined.

(** *** The write path end to end *)

Section WriteFacts.

Variable AKU_LIMITS_MAX_ID : Z.
Context {Page : Type}.
Variable complete_chunk : Page -> UncompressedChunk -> aku_Status * Page.
Variable convert_from_time_order : UncompressedChunk -> option UncompressedChunk.
Variable advance_volume_ : Page -> Page.

(** The samples a Sequencer holds. *)
Definition held (s : Sequencer) : list TimeSeriesValue :=
  concat (runs_ s) ++ concat (ready_ s).

Lemma make_checkpoint_returns (s : Sequencer) (new_checkpoint : Z) :
  Z.even (sequence_number_ s) = true ->
  exists flag s',
    make_checkpoint_ AKU_LIMITS_MAX_ID s new_checkpoint = Some (flag, s')
    /\ (flag = wrap_int32 (sequence_number_ s + 1)
        \/ flag = wrap_int32 (wrap_int32 (sequence_number_ s + 1) + 1)).
Proof.
  intros Heven. unfold make_checkpoint_, fetch_add1.
  rewrite rem2_odd, <- Z.negb_even, wrap_int32_succ_even, negb_involutive, Heven.
  cbn [runs_ ready_ set_checkpoint set_sequence_number].
  destruct (fold_left _ _ _) as [new_runs ready].
  destruct (_ <? _); eexists; eexists; (split; [reflexivity |]);
    cbn [sequence_number_ set_ready set_runs set_checkpoint set_sequence_number];
    [right | left]; reflexivity.
Qed.

Lemma add_returns (s : Sequencer) (v : TimeSeriesValue) :
  Z.even (sequence_number_ s) = true ->
  window_size_ s <> 0 ->
  is_Some (add AKU_LIMITS_MAX_ID s v).
Proof.
  intros Heven HW. unfold add, check_timestamp_, get_checkpoint_.
  destruct (key_ts_ v <? top_timestamp_ s).
  - destruct (_ >? _); cbn [mbind option_bind].
    + rewrite decide_False by discriminate. eexists; reflexivity.
    + rewrite decide_True by reflexivity. destruct (negb _); eexists; reflexivity.
  - destruct (Z.eqb_spec (window_size_ s) 0) as [| _]; [contradiction |].
    cbn [mbind option_bind].
    destruct (_ >? _); cbn [mbind option_bind].
    + destruct (make_checkpoint_returns s (key_ts_ v / window_size_ s) Heven)
        as (flag & s' & -> & _).
      cbn [mbind option_bind]. rewrite decide_True by reflexivity.
      destruct (negb _); eexists; reflexivity.
    + rewrite decide_True by reflexivity. destruct (negb _); eexists; reflexivity.
Qed.

(** What [add] hands to the write path from a Sequencer that is not in
    the middle of a flush: the flush token is 0 or the sequence number
    moved on by two, and nothing is sealed; or it is the sequence number
    moved on by one, odd, and the ready set is not empty. *)
Lemma add_outcome (s : Sequencer) (v : TimeSeriesValue) :
  Z.even (sequence_number_ s) = true ->
  0 <= sequence_number_ s < 2 ^ 31 - 2 ->
  ready_ s = [] ->
  window_size_ s <> 0 ->
  0 < c_threshold_ s ->
  exists status lock s',
    add AKU_LIMITS_MAX_ID s v = Some (status, lock, s')
    /\ ((status = AKU_ELATE_WRITE /\ lock = 0 /\ s' = s)
        \/ (status = AKU_SUCCESS
            /\ held s' ≡ₚ v :: held s
            /\ window_size_ s' = window_size_ s
            /\ c_threshold_ s' = c_threshold_ s
            /\ ((lock = 0 /\ sequence_number_ s' = sequence_number_ s
                 /\ ready_ s' = [])
                \/ (lock = sequence_number_ s + 2 /\ sequence_number_ s' = lock
                    /\ ready_ s' = [])
                \/ (lock = sequence_number_ s + 1 /\ sequence_number_ s' = lock
                    /\ ready_ s' <> [])))).
Proof.
  intros Heven Hseq Hready HW HC.
  destruct (add_returns s v Heven HW) as [[[status lock] s'] Hadd].
  exists status, lock, s'. split; [exact Hadd |].
  destruct (add_two_outcomes AKU_LIMITS_MAX_ID s v status lock s' Hadd)
    as [(-> & -> & -> & _) | (-> & Hperm & _ & _ & Hw & Hc)]; [left; auto | right].
  split; [reflexivity |]. split; [exact Hperm |].
  split; [exact Hw |]. split; [exact Hc |].
  apply add_cases in Hadd as (s1 & Hcheck & [[Hne _] | (_ & Hrd & _ & _ & Hsn & _)]);
    [contradiction |].
  rewrite Hrd, Hsn.
  apply check_timestamp_cases in Hcheck
    as [(Hst & _) | [(_ & -> & -> & _) | [(_ & -> & -> & _)
        | (_ & _ & _ & s2 & Hmk & ->)]]].
  - discriminate.
  - left. auto.
  - left. cbn [sequence_number_ ready_ set_top_timestamp]. auto.
  - right. cbn [sequence_number_ ready_ set_top_timestamp].
    destruct (make_checkpoint_returns s (key_ts_ v / window_size_ s) Heven)
      as (flag & s2' & Hmk' & Hflag).
    rewrite Hmk in Hmk'. injection Hmk' as <- <-.
    apply make_checkpoint_cases in Hmk as (_ & Hcase & Hfs & _).
    cbn zeta in Hcase.
    rewrite !(wrap_int32_small) in Hflag by (rewrite ?wrap_int32_small; lia).
    destruct Hcase as [(Hsize & Hodd & _ & Hr2) | (_ & Hev & _ & Hr2)].
    + right. destruct Hflag as [-> | ->].
      * split; [reflexivity |]. split; [symmetry; exact Hfs |].
        rewrite Hr2. intros Hnil. rewrite Hnil in Hsize.
        unfold run_sizes in Hsize. simpl in Hsize. lia.
      * exfalso. rewrite <- Z.negb_even in Hodd.
        replace (sequence_number_ s + 1 + 1) with (sequence_number_ s + 2 * 1) in Hodd
          by lia.
        rewrite Z.even_add_mul_2, Heven in Hodd. discriminate.
    + left. destruct Hflag as [-> | ->].
      * exfalso. rewrite Z.even_add, Heven in Hev. discriminate.
      * split; [lia |]. split; [symmetry; exact Hfs | exact Hr2].
Qed.

Lemma compress_loop_status (enforce_write : bool) (c_threshold : Z) (fuel : nat) :
  forall (ready : list SortedRun) (page : Page) (log : FlushLog)
         (status : aku_Status) (ready' : list SortedRun) (page' : Page)
         (log' : FlushLog),
    compress_loop complete_chunk convert_from_time_order fuel enforce_write
      c_threshold ready page log = Some (status, ready', page', log') ->
    status = AKU_SUCCESS
    \/ exists p c, status = (complete_chunk p c).1.
Proof.
  induction fuel as [| fuel IH]; intros ready page log status ready' page' log' Hrun.
  - destruct ready; [| discriminate]. injection Hrun as <- <- <- <-. left. reflexivity.
  - destruct ready as [| run ready0].
    { injection Hrun as <- <- <- <-. left. reflexivity. }
    cbn [compress_loop] in Hrun.
    destruct (kway_merge _ _ _ _) as [[ready1 [threshold chunk_header]] |];
      [| discriminate].
    cbn [mbind option_bind] in Hrun.
    destruct (enforce_write || _).
    + destruct (convert_from_time_order chunk_header) as [reindexed |];
        [| discriminate].
      cbn [mbind option_bind] in Hrun.
      destruct (complete_chunk page reindexed) as [st page1] eqn:Ec.
      destruct (decide (st = AKU_SUCCESS)) as [-> | Hne].
      * eapply IH. exact Hrun.
      * injection Hrun as <- <- <- <-.
        destruct (decide (st = AKU_ENO_DATA)); [left; reflexivity | right].
        exists page, reindexed. rewrite Ec. reflexivity.
    + injection Hrun as <- <- <- <-. left. reflexivity.
Qed.

(** The flush of a ready set that is not empty. *)
Lemma merge_and_compress_outcome (s : Sequencer) (target : Page) :
  Z.odd (sequence_number_ s) = true ->
  ready_ s <> [] ->
  0 < c_threshold_ s < 2 ^ 31 ->
  (forall c, is_Some (convert_from_time_order c)) ->
  exists status s' page' log,
    merge_and_compress complete_chunk convert_from_time_order s target false
    = Some (status, s', page', log)
    /\ ready_ s' = []
    /\ sequence_number_ s' = wrap_int32 (sequence_number_ s + 1)
    /\ window_size_ s' = window_size_ s
    /\ c_threshold_ s' = c_threshold_ s
    /\ concat (runs_ s') ++ flushed log ≡ₚ held s
    /\ (status = AKU_SUCCESS \/ exists p c, status = (complete_chunk p c).1).
Proof.
  intros Hodd Hready HC Hconv. unfold merge_and_compress.
  rewrite rem2_odd, Hodd. cbn [negb].
  destruct (ready_ s) as [| run ready0] eqn:Er; [contradiction |].
  cbn [length Nat.eqb].
  destruct (compress_loop_total complete_chunk convert_from_time_order false
              (c_threshold_ s) HC Hconv (S (total_size (run :: ready0)))
              (run :: ready0) target [] ltac:(lia))
    as [[[[status ready] page1] log1] El].
  rewrite El. cbn [mbind option_bind].
  exists status. eexists. exists page1, log1. split; [reflexivity |].
  pose proof (compress_loop_status _ _ _ _ _ _ _ _ _ _ El) as Hst.
  apply compress_loop_spec in El as (oks & failed & Hlog & Hoks & Hperm & Hlast).
  cbn [app] in Hlog.
  assert (Hfl : flushed log1 = flushed oks).
  { rewrite Hlog, flushed_app.
    destruct Hlast as [[-> _] | (c & st0 & rest & -> & Hne & _)].
    - apply app_nil_r.
    - unfold flushed at 2. cbn [map concat fst snd].
      rewrite decide_False by exact Hne. apply app_nil_r. }
  unfold held. rewrite Er, Hfl.
  destruct ready as [| r ready1];
    cbn [fetch_add1 snd ready_ runs_ sequence_number_ window_size_ c_threshold_
         set_ready set_runs set_sequence_number].
  - repeat split; try reflexivity; [| exact Hst].
    cbn [concat] in Hperm. rewrite app_nil_r in Hperm. rewrite Hperm. reflexivity.
  - repeat split; try reflexivity; [| exact Hst].
    rewrite concat_app, <- app_assoc, <- Hperm.
    apply Permutation_app_head, Permutation_app_comm.
Qed.

Lemma rem2_token (x : Z) : 0 <= x -> (Z.rem x 2 =? 1) = Z.odd x.
Proof.
  intros Hx. rewrite <- rem2_odd.
  pose proof (Z.rem_bound_pos x 2 Hx ltac:(lia)) as Hb.
  destruct (Z.eqb_spec (Z.rem x 2) 1) as [-> | Hne]; [reflexivity |].
  destruct (Z.eqb_spec (Z.rem x 2) 0); [reflexivity | lia].
Qed.

(** X18.  A write to a storage whose Sequencer is between flushes
    returns, and with one of two answers.  The conditions: the sequence
    number is even, not negative and below [2^31 - 2] (two steps on it
    stays an [int]); the ready set is empty; the window is not zero; the
    threshold is an [int] above zero; the conversion to chunk order never
    fails; the page answers a chunk with [AKU_SUCCESS] or
    [AKU_EOVERFLOW].  Then the answer is [AKU_ELATE_WRITE] and nothing
    has changed, or it is [AKU_SUCCESS] and the sample is kept: it is
    among the samples the Sequencer holds, or, when the write was handed
    the flush token, in the Sequencer or in a chunk the page took, with
    every sample that was there before; the Sequencer is between flushes
    again, the ready set empty and the sequence number even.  A page that
    turned a chunk down for lack of room is rotated and the write still
    answers [AKU_SUCCESS]. *)
Theorem write_stores_or_rejects (st : Storage) (ts_value : TimeSeriesValue) :
  Z.even (sequence_number_ (cache_ st)) = true ->
  0 <= sequence_number_ (cache_ st) < 2 ^ 31 - 2 ->
  ready_ (cache_ st) = [] ->
  window_size_ (cache_ st) <> 0 ->
  0 < c_threshold_ (cache_ st) < 2 ^ 31 ->
  (forall c, is_Some (convert_from_time_order c)) ->
  (forall p c, (complete_chunk p c).1 = AKU_SUCCESS
               \/ (complete_chunk p c).1 = AKU_EOVERFLOW) ->
  exists status st' events,
    _write_impl AKU_LIMITS_MAX_ID complete_chunk convert_from_time_order
      advance_volume_ st ts_value = Some (status, st', events)
    /\ ((status = AKU_ELATE_WRITE /\ st' = st /\ events = [])
        \/ (status = AKU_SUCCESS
            /\ Z.even (sequence_number_ (cache_ st')) = true
            /\ sequence_number_ (cache_ st) <= sequence_number_ (cache_ st')
               <= sequence_number_ (cache_ st) + 2
            /\ ready_ (cache_ st') = []
            /\ window_size_ (cache_ st') = window_size_ (cache_ st)
            /\ c_threshold_ (cache_ st') = c_threshold_ (cache_ st)
            /\ config_durability st' = config_durability st
            /\ ((active_page_ st' = active_page_ st /\ events = []
                 /\ held (cache_ st') ≡ₚ ts_value :: held (cache_ st))
                \/ exists lock cache1 status' page2 log,
                     add AKU_LIMITS_MAX_ID (cache_ st) ts_value
                     = Some (AKU_SUCCESS, lock, cache1)
                     /\ merge_and_compress complete_chunk convert_from_time_order
                          cache1 (active_page_ st) false
                        = Some (status', cache_ st', page2, log)
                     /\ concat (runs_ (cache_ st')) ++ flushed log
                        ≡ₚ ts_value :: held (cache_ st)
                     /\ ((status' = AKU_SUCCESS /\ active_page_ st' = page2
                          /\ (events = [] \/ events = [Flush]))
                         \/ (status' = AKU_EOVERFLOW
                             /\ active_page_ st' = advance_volume_ page2
                             /\ events = [AdvanceVolume]))))).
Proof.
  intros Heven Hseq Hready HW HC Hconv Hpage.
  destruct (add_outcome (cache_ st) ts_value Heven Hseq Hready HW ltac:(lia))
    as (status & lock & s' & Hadd & Hcase).
  unfold _write_impl. rewrite Hadd. cbn [mbind option_bind].
  destruct Hcase as [(-> & -> & ->) | (-> & Hperm & Hw & Hc & Hlock)].
  { eexists _, _, _. split; [reflexivity |]. left.
    split; [reflexivity |]. split; [destruct st; reflexivity | reflexivity]. }
  assert (Hplus2 : Z.even (sequence_number_ (cache_ st) + 2) = true).
  { replace (sequence_number_ (cache_ st) + 2)
      with (sequence_number_ (cache_ st) + 2 * 1) by lia.
    rewrite Z.even_add_mul_2. exact Heven. }
  destruct Hlock as [(-> & Hsn & Hrd) | [(-> & Hsn & Hrd) | (-> & Hsn & Hrd)]].
  - change (Z.rem 0 2 =? 1) with false. cbn iota.
    eexists _, _, _. split; [reflexivity |]. right.
    cbn [cache_ active_page_ config_durability]. rewrite Hsn.
    split; [reflexivity |]. split; [exact Heven |]. split; [lia |].
    split; [exact Hrd |]. split; [exact Hw |]. split; [exact Hc |].
    split; [reflexivity |]. left. auto.
  - rewrite (rem2_token (sequence_number_ (cache_ st) + 2) ltac:(lia)),
      <- Z.negb_even, Hplus2. cbn [negb].
    eexists _, _, _. split; [reflexivity |]. right.
    cbn [cache_ active_page_ config_durability]. rewrite Hsn.
    split; [reflexivity |]. split; [exact Hplus2 |]. split; [lia |].
    split; [exact Hrd |]. split; [exact Hw |]. split; [exact Hc |].
    split; [reflexivity |]. left. auto.
  - assert (Hodd : Z.odd (sequence_number_ (cache_ st) + 1) = true)
      by (rewrite <- Z.negb_even, Z.even_add, Heven; reflexivity).
    rewrite (rem2_token (sequence_number_ (cache_ st) + 1) ltac:(lia)), Hodd.
    destruct (merge_and_compress_outcome s' (active_page_ st)
                ltac:(rewrite Hsn; exact Hodd) Hrd ltac:(lia) Hconv)
      as (status' & cache2 & page2 & log & Hmc & Hrd2 & Hsn2 & Hw2 & Hc2 & Hperm2 & Hst).
    rewrite Hmc. cbn [mbind option_bind].
    rewrite Hsn, wrap_int32_small in Hsn2 by lia.
    assert (Hev2 : Z.even (sequence_number_ cache2) = true).
    { rewrite Hsn2.
      replace (sequence_number_ (cache_ st) + 1 + 1)
        with (sequence_number_ (cache_ st) + 2) by lia.
      exact Hplus2. }
    assert (Hst' : status' = AKU_SUCCESS \/ status' = AKU_EOVERFLOW).
    { destruct Hst as [-> | (p & c & ->)]; [left; reflexivity | apply Hpage]. }
    assert (Hkept : concat (runs_ cache2) ++ flushed log
                    ≡ₚ ts_value :: held (cache_ st))
      by (rewrite Hperm2; exact Hperm).
    destruct Hst' as [-> | ->];
      [destruct (config_durability st) eqn:Ed;
         [| destruct (Z.rem _ 8 =? 1) |] |];
      (eexists _, _, _; split; [reflexivity |]; right;
       cbn [cache_ active_page_ config_durability];
       split; [reflexivity |]; split; [exact Hev2 |]; split; [lia |];
       split; [exact Hrd2 |]; split; [congruence |]; split; [congruence |];
       split; [first [reflexivity | symmetry; exact Ed] |]; right;
       eexists _, s', _, page2, log;
       split; [reflexivity |]; split; [exact Hmc |]; split; [exact Hkept |]);
      [left | left | left | left | right]; auto.
Qed.

End WriteFacts.

Lemma write_stores_or_rejects_witness :
  exists status st' events,
    write one_written (tick 10) = Some (status, st', events)
    /\ ((status = AKU_ELATE_WRITE /\ st' = one_written /\ events = [])
        \/ (status = AKU_SUCCESS
            /\ Z.even (sequence_number_ (cache_ st')) = true
            /\ ready_ (cache_ st') = [])).
Proof.
  destruct (write_stores_or_rejects max_id_sample slot_page keep_order (fun p => p)
              one_written (tick 10)) as (status & st' & events & Hrun & Hcase).
  - reflexivity.
  - cbn. lia.
  - reflexivity.
  - cbn. lia.
  - cbn. lia.
  - intros c. eexists. reflexivity.
  - intros [| p] c; [right | left]; reflexivity.
  - exists status, st', events. split; [exact Hrun |].
    destruct Hcase as [Hlate | (Hs & Hev & _ & Hrd & _)]; [left; exact Hlate | right].
    auto.
Defined.

End Storage.

(** ** The ring of volumes (storage.cpp) *)

Module Volumes.

Import Seq.
Import Page.

Section WithConfig.

Context `{PageEnv}.

(** The two settings of [aku_FineTuneParams] the Sequencer of a volume is
    built from, and [AKU_MAX_PAGE_SIZE] of akumuli_def.h. *)
Variable conf_window_size conf_compression_threshold : Z.
Variable AKU_MAX_PAGE_SIZE : Z.

(** [Volume]: the page at the start of the mapped file and the Sequencer.
    The calls on the mapping ([flush], [protect_all], [move_file]) are
    taken to succeed. *)
Record Volume := mkVolume {
  page_ : PageHeader;
  cache_ : Sequencer
}.

(** The part of [Storage] the rotation works on.  [active_volume_] and
    [active_page_] are [volumes_[active_volume_index_ % volumes_.size()]]
    wherever the code sets them, and are read from there. *)
Record Storage := mkStorage {
  volumes_ : list Volume;
  active_volume_index_ : Z
}.

(** [set_open_count] and [set_close_count] of page.h. *)
Definition set_open_count (p : PageHeader) (cnt : Z) : PageHeader :=
  mkPage (version p) (count p) (last_offset p) (sync_count p) (checkpoint p)
    cnt (close_count p) (page_id p) (length_ p) (bbox p)
    (histogram p) (page_index p) (data p).

Definition set_close_count (p : PageHeader) (cnt : Z) : PageHeader :=
  mkPage (version p) (count p) (last_offset p) (sync_count p) (checkpoint p)
    (open_count p) cnt (page_id p) (length_ p) (bbox p)
    (histogram p) (page_index p) (data p).

(** [create_page_file]: the header written to the new file. *)
Definition create_page_file (page_index page_size : Z) : PageHeader :=
  let size := if page_size =? 0 then AKU_MAX_PAGE_SIZE else page_size in
  let index_page := new_page 0 size page_index in
  if page_index =? 0 then reuse index_page else index_page.

(** [create_page_files] *)
Definition create_page_files (targets : nat) (page_size : Z) : list PageHeader :=
  map (fun ix => create_page_file (wrap32 (Z.of_nat ix)) page_size) (seq 0 targets).

(** [Volume::Volume] on a file that holds [page]. *)
Definition new_volume (page : PageHeader) : Volume :=
  mkVolume page (new_sequencer conf_window_size conf_compression_threshold).

(** [Volume::safe_realloc] *)
Definition safe_realloc (v : Volume) : Volume :=
  let newvol := new_volume (create_page_file (page_id (page_ v)) (length_ (page_ v))) in
  mkVolume
    (set_close_count (set_open_count (page_ newvol) (open_count (page_ v)))
       (close_count (page_ v)))
    (cache_ newvol).

(** [Volume::open] and [Volume::close] *)
Definition volume_open (v : Volume) : Volume := mkVolume (reuse (page_ v)) (cache_ v).
Definition volume_close (v : Volume) : Volume := mkVolume (close (page_ v)) (cache_ v).

(** [Storage::advance_volume_]; [None] is a failed [assert] or an index
    outside [volumes_]. *)
Definition advance_volume_ (st : Storage) (local_rev : Z) : option Storage :=
  if local_rev =? active_volume_index_ st then
    let size := Z.of_nat (length (volumes_ st)) in
    let prev_index := Z.to_nat (wrap64 (active_volume_index_ st) mod size) in
    prev_volume ← volumes_ st !! prev_index;
    let old_page_id := page_id (page_ prev_volume) in
    let closed := volume_close prev_volume in
    let volumes1 := <[prev_index := closed]> (volumes_ st) in
    let index' := wrap_int32 (active_volume_index_ st + 1) in
    let next_volume_index := Z.to_nat (wrap64 index' mod size) in
    next_volume ← volumes1 !! next_volume_index;
    let realloc := safe_realloc next_volume in
    let prev' := mkVolume (page_ closed) (cache_ realloc) in
    let active' := volume_open (mkVolume (page_ realloc) (cache_ closed)) in
    let volumes2 :=
      <[next_volume_index := active']> (<[prev_index := prev']> volumes1) in
    if page_id (page_ active') =? old_page_id then None
    else Some (mkStorage volumes2 index')
  else Some st.

(** The loop of [select_active_page]. *)
Fixpoint select_loop (volumes : list Volume) (i max_index max_overwrites : Z)
    : Z * Z :=
  match volumes with
  | [] => (max_index, max_overwrites)
  | volume :: rest =>
      if open_count (page_ volume) >=? max_overwrites
      then select_loop rest (i + 1) i (open_count (page_ volume))
      else select_loop rest (i + 1) max_index max_overwrites
  end.

(** [Storage::select_active_page]; [None] is the exception of
    [volumes_.at]. *)
Definition select_active_page (st : Storage) : option Storage :=
  let '(max_index, _) := select_loop (volumes_ st) 0 (-1) (-1) in
  if max_index <? 0 then None
  else
    active_volume ← volumes_ st !! Z.to_nat max_index;
    let st1 := mkStorage (volumes_ st) max_index in
    if close_count (page_ active_volume) =? open_count (page_ active_volume)
    then advance_volume_ st1 max_index
    else Some st1.

(** The volume being written. *)
Definition active_volume (st : Storage) : option Volume :=
  volumes_ st
  !! Z.to_nat (wrap64 (active_volume_index_ st) mod Z.of_nat (length (volumes_ st))).

(** The ring between rotations: the page ids are the positions; the
    volumes up to the active one, at position [a], have been opened
    [k + 1] times and those behind it [k] times; every volume but the
    active one has been closed as often as opened. *)
Definition ring_ok (st : Storage) (a : nat) (k : Z) : Prop :=
  (2 <= length (volumes_ st))%nat
  /\ (a < length (volumes_ st))%nat
  /\ 0 <= active_volume_index_ st
  /\ active_volume_index_ st mod Z.of_nat (length (volumes_ st)) = Z.of_nat a
  /\ 0 <= k
  /\ forall (i : nat) (v : Volume),
       volumes_ st !! i = Some v ->
       page_id (page_ v) = Z.of_nat i
       /\ open_count (page_ v) = (if (i <=? a)%nat then k + 1 else k)
       /\ close_count (page_ v) = (if (i <? a)%nat then k + 1 else k).

(** *** Facts about the ring *)

Lemma select_loop_app (l1 l2 : list Volume) :
  forall i max_index max_overwrites,
    select_loop (l1 ++ l2) i max_index max_overwrites
    = select_loop l2 (i + Z.of_nat (length l1))
        (select_loop l1 i max_index max_overwrites).1
        (select_loop l1 i max_index max_overwrites).2.
Proof.
  induction l1 as [| v l1 IH]; intros i mi mo; cbn [app select_loop length].
  - rewrite Z.add_0_r. reflexivity.
  - destruct (_ >=? _); rewrite IH; f_equal; lia.
Qed.

(** Volumes opened equally often, and no less often than the best so far:
    the last of them is chosen. *)
Lemma select_loop_level (c : Z) (l : list Volume) :
  Forall (fun v => open_count (page_ v) = c) l ->
  l <> [] ->
  forall i max_index max_overwrites,
    max_overwrites <= c ->
    select_loop l i max_index max_overwrites = (i + Z.of_nat (length l) - 1, c).
Proof.
  induction 1 as [| v l Hv Hl IH]; intros Hne i mi mo Hmo; [contradiction |].
  cbn [select_loop length]. rewrite Hv, Z.geb_leb.
  destruct (Z.leb_spec mo c); [| lia]. cbn iota.
  destruct l as [| w l].
  - cbn [select_loop length]. f_equal. lia.
  - rewrite IH by (discriminate || lia). f_equal. cbn [length]. lia.
Qed.

(** Volumes opened less often than the best so far are passed over. *)
Lemma select_loop_below (l : list Volume) :
  forall i max_index max_overwrites,
    Forall (fun v => open_count (page_ v) < max_overwrites) l ->
    select_loop l i max_index max_overwrites = (max_index, max_overwrites).
Proof.
  induction l as [| v l IH]; intros i mi mo Hl; cbn [select_loop]; [reflexivity |].
  apply Forall_cons in Hl as [Hv Hl]. rewrite Z.geb_leb.
  destruct (Z.leb_spec mo (open_count (page_ v))); [lia |]. cbn iota.
  apply IH, Hl.
Qed.

Lemma ring_select_loop (st : Storage) (a : nat) (k : Z) :
  ring_ok st a k ->
  select_loop (volumes_ st) 0 (-1) (-1) = (Z.of_nat a, k + 1).
Proof.
  intros (Hn & Ha & _ & _ & Hk & Hvol).
  rewrite <- (take_drop (S a) (volumes_ st)), select_loop_app.
  assert (Hlen : length (take (S a) (volumes_ st)) = S a)
    by (rewrite length_take; lia).
  assert (Hfirst : select_loop (take (S a) (volumes_ st)) 0 (-1) (-1)
                   = (Z.of_nat a, k + 1)).
  { rewrite (select_loop_level (k + 1) (take (S a) (volumes_ st))).
    - f_equal. rewrite Hlen. lia.
    - apply Forall_forall. intros v Hv.
      apply list_elem_of_lookup in Hv as [i Hi].
      apply lookup_take_Some in Hi as [Hi Hlt].
      destruct (Hvol _ _ Hi) as (_ & Ho & _).
      destruct (Nat.leb_spec i a); lia.
    - intros Hnil. rewrite Hnil in Hlen. discriminate.
    - lia. }
  rewrite Hfirst. cbn [fst snd]. apply select_loop_below.
  apply Forall_forall. intros v Hv.
  apply list_elem_of_lookup in Hv as [i Hi].
  rewrite lookup_drop in Hi. destruct (Hvol _ _ Hi) as (_ & Ho & _).
  destruct (Nat.leb_spec (S a + i) a); lia.
Qed.

(** A restart between rotations finds the volume that was being
    written, and leaves the ring alone. *)
Lemma ring_select (st : Storage) (a : nat) (k : Z) :
  ring_ok st a k ->
  select_active_page st = Some (mkStorage (volumes_ st) (Z.of_nat a)).
Proof.
  intros Hring. unfold select_active_page.
  rewrite (ring_select_loop st a k Hring).
  destruct Hring as (Hn & Ha & _ & _ & Hk & Hvol).
  destruct (Z.ltb_spec (Z.of_nat a) 0); [lia |].
  rewrite Nat2Z.id.
  destruct (lookup_lt_is_Some_2 (volumes_ st) a Ha) as [v Hv].
  rewrite Hv. cbn [mbind option_bind].
  destruct (Hvol _ _ Hv) as (_ & Ho & Hc).
  rewrite Ho, Hc, Nat.leb_refl, Nat.ltb_irrefl.
  destruct (Z.eqb_spec k (k + 1)); [lia | reflexivity].
Qed.

Lemma create_page_file_id (page_index page_size : Z) :
  page_id (create_page_file page_index page_size) = page_index.
Proof.
  unfold create_page_file. destruct (page_index =? 0); reflexivity.
Qed.

(** Where the rotation goes next, and how often the volumes behind the
    active one have been opened once it has got there. *)
Definition next_position (size a : nat) : nat :=
  if decide (S a < size)%nat then S a else 0%nat.

Definition next_round (size a : nat) (k : Z) : Z :=
  if decide (S a < size)%nat then k else k + 1.

(** The rotation of a ring gives a ring, one position on; the Sequencer
    goes with the writer and the page it moves to is empty. *)
Lemma ring_advance (st : Storage) (a : nat) (k : Z) :
  ring_ok st a k ->
  k + 2 < 2 ^ 32 ->
  active_volume_index_ st + 1 < 2 ^ 31 ->
  exists st' prev_volume next_volume,
    advance_volume_ st (active_volume_index_ st) = Some st'
    /\ volumes_ st !! a = Some prev_volume
    /\ volumes_ st' !! next_position (length (volumes_ st)) a = Some next_volume
    /\ ring_ok st' (next_position (length (volumes_ st)) a)
         (next_round (length (volumes_ st)) a k)
    /\ active_volume_index_ st' = active_volume_index_ st + 1
    /\ length (volumes_ st') = length (volumes_ st)
    /\ cache_ next_volume = cache_ prev_volume
    /\ count (page_ next_volume) = 0
    /\ sync_count (page_ next_volume) = 0.
Proof.
  intros (Hn & Ha & Hidx & Hmod & Hk & Hvol) Hk2 Hidx2.
  set (n := length (volumes_ st)) in *.
  set (a' := next_position n a). set (k' := next_round n a k).
  assert (Ha' : (a' < n)%nat /\ a' <> a
                /\ (active_volume_index_ st + 1) mod Z.of_nat n = Z.of_nat a').
  { unfold a', next_position.
    rewrite <- Zplus_mod_idemp_l, Hmod.
    destruct (decide (S a < n)%nat) as [Hlt | Hge].
    - split; [exact Hlt |]. split; [lia |]. rewrite Z.mod_small; lia.
    - split; [lia |]. split; [lia |].
      replace (Z.of_nat a + 1) with (Z.of_nat n) by lia.
      apply Z_mod_same_full. }
  destruct Ha' as (Ha'n & Hne & Hmod').
  assert (Hopen : forall i : nat,
             (i < n)%nat ->
             (i <> a' ->
              (if (i <=? a')%nat then k' + 1 else k')
              = (if (i <=? a)%nat then k + 1 else k))
             /\ (i = a' ->
                 k' + 1 = (if (i <=? a)%nat then k + 1 else k) + 1)).
  { intros i Hi. unfold a', k', next_position, next_round.
    destruct (decide (S a < n)%nat);
      destruct (Nat.leb_spec i a); split; intros Hia;
      repeat match goal with
             | |- context [(?x <=? ?y)%nat] => destruct (Nat.leb_spec x y)
             end; lia. }
  assert (Hclose : forall i : nat,
             (i < n)%nat ->
             (i <> a ->
              (if (i <? a')%nat then k' + 1 else k')
              = (if (i <? a)%nat then k + 1 else k))
             /\ (i = a -> (if (i <? a')%nat then k' + 1 else k') = k + 1)).
  { intros i Hi. unfold a', k', next_position, next_round.
    destruct (decide (S a < n)%nat);
      destruct (Nat.ltb_spec i a); split; intros Hia;
      repeat match goal with
             | |- context [(?x <? ?y)%nat] => destruct (Nat.ltb_spec x y)
             end; lia. }
  destruct (lookup_lt_is_Some_2 (volumes_ st) a Ha) as [prev Hprev].
  destruct (lookup_lt_is_Some_2 (volumes_ st) a' Ha'n) as [next Hnext].
  destruct (Hvol _ _ Hprev) as (Hpid & Hpo & Hpc).
  destruct (Hvol _ _ Hnext) as (Hnid & Hno & Hnc).
  rewrite Nat.leb_refl in Hpo. rewrite Nat.ltb_irrefl in Hpc.
  unfold advance_volume_. rewrite Z.eqb_refl. fold n.
  assert (Hw : wrap64 (active_volume_index_ st) = active_volume_index_ st)
    by (unfold wrap64; apply Z.mod_small; lia).
  rewrite Hw, Hmod, Nat2Z.id, Hprev. cbn [mbind option_bind].
  rewrite (wrap_int32_small (active_volume_index_ st + 1)) by lia.
  assert (Hw' : wrap64 (active_volume_index_ st + 1) = active_volume_index_ st + 1)
    by (unfold wrap64; apply Z.mod_small; lia).
  rewrite Hw', Hmod', Nat2Z.id.
  rewrite list_lookup_insert_ne by (intros E; apply Hne; symmetry; exact E).
  rewrite Hnext. cbn [mbind option_bind].
  cbn [volume_open volume_close safe_realloc new_volume page_ cache_ reuse
       set_close_count set_open_count page_id].
  rewrite create_page_file_id, Hpid, Hnid.
  destruct (Z.eqb_spec (Z.of_nat a') (Z.of_nat a)) as [E | _]; [lia |].
  eexists _, prev, _. split; [reflexivity |].
  cbn [volumes_ active_volume_index_].
  split; [reflexivity |].
  split.
  { rewrite list_lookup_insert_eq; [reflexivity |].
    rewrite !length_insert. exact Ha'n. }
  split.
  { unfold ring_ok. cbn [volumes_ active_volume_index_].
    rewrite !length_insert. fold n.
    split; [exact Hn |]. split; [exact Ha'n |]. split; [lia |].
    split; [exact Hmod' |].
    split; [unfold k', next_round; destruct (decide _); lia |].
    intros i v Hi.
    assert (Hin : (i < n)%nat).
    { apply lookup_lt_Some in Hi. rewrite !length_insert in Hi. exact Hi. }
    destruct (Hopen i Hin) as [Ho1 Ho2]. destruct (Hclose i Hin) as [Hc1 Hc2].
    destruct (decide (i = a')) as [-> | Hia'].
    - rewrite list_lookup_insert_eq in Hi by (rewrite !length_insert; exact Ha'n).
      injection Hi as <-. unfold volume_open.
      cbn [page_ cache_ reuse set_close_count set_open_count
           page_id open_count close_count].
      rewrite ?create_page_file_id, ?Hno, ?Hnc.
      split; [reflexivity |]. split.
      + rewrite Nat.leb_refl, (Ho2 eq_refl).
        unfold wrap32. apply Z.mod_small.
        destruct (a' <=? a)%nat; lia.
      + pose proof (Hc1 Hne) as Hx. rewrite Nat.ltb_irrefl in Hx |- *.
        symmetry. exact Hx.
    - rewrite list_lookup_insert_ne in Hi by (intros E; apply Hia'; symmetry; exact E).
      destruct (decide (i = a)) as [-> | Hia].
      + rewrite list_lookup_insert_eq in Hi by (rewrite length_insert; exact Ha).
        injection Hi as <-. unfold volume_close.
        cbn [page_ cache_ page_id open_count close_count close].
        rewrite ?Hpid, ?Hpo, ?Hpc, (Hc2 eq_refl), (Ho1 Hia').
        rewrite Nat.leb_refl.
        split; [reflexivity |]. split; [reflexivity |].
        unfold wrap32. apply Z.mod_small. lia.
      + rewrite !list_lookup_insert_ne in Hi
          by (intros E; apply Hia; symmetry; exact E).
        destruct (Hvol _ _ Hi) as (Hid & Hio & Hic).
        rewrite (Ho1 Hia'), (Hc1 Hia). auto. }
  split; [reflexivity |].
  split; [rewrite !length_insert; reflexivity |].
  repeat split.
Qed.

(** The files of a new storage as [Storage::Storage] opens them. *)
Definition created_volumes (targets : nat) (page_size : Z) : list Volume :=
  map new_volume (create_page_files targets page_size).

Lemma created_volumes_lookup (targets : nat) (page_size : Z) (i : nat) (v : Volume) :
  Z.of_nat targets < 2 ^ 32 ->
  created_volumes targets page_size !! i = Some v ->
  page_id (page_ v) = Z.of_nat i
  /\ open_count (page_ v) = (if (i <=? 0)%nat then 1 else 0)
  /\ close_count (page_ v) = 0.
Proof.
  intros Hn Hi. unfold created_volumes, create_page_files in Hi.
  rewrite !list_lookup_fmap in Hi.
  destruct (seq 0 targets !! i) as [ix |] eqn:Es; [| discriminate].
  apply lookup_seq in Es as [-> Hlt]. cbn in Hi. injection Hi as <-.
  cbn [page_ new_volume].
  assert (Hw : wrap32 (Z.of_nat i) = Z.of_nat i)
    by (unfold wrap32; apply Z.mod_small; lia).
  rewrite Hw, create_page_file_id. split; [reflexivity |].
  unfold create_page_file.
  destruct i as [| i].
  - cbn [Z.of_nat Z.eqb Nat.leb]. split; reflexivity.
  - destruct (Z.eqb_spec (Z.of_nat (S i)) 0) as [E | _]; [lia |].
    split; reflexivity.
Qed.

Lemma created_volumes_length (targets : nat) (page_size : Z) :
  length (created_volumes targets page_size) = targets.
Proof.
  unfold created_volumes, create_page_files.
  rewrite !length_map, length_seq. reflexivity.
Qed.

(** A storage just created is a ring with the first volume active. *)
Lemma created_ring (targets : nat) (page_size : Z) :
  (2 <= targets)%nat -> Z.of_nat targets < 2 ^ 32 ->
  ring_ok (mkStorage (created_volumes targets page_size) 0) 0 0.
Proof.
  intros Hn Hlim. unfold ring_ok. cbn [volumes_ active_volume_index_].
  rewrite created_volumes_length.
  split; [exact Hn |]. split; [lia |]. split; [lia |].
  split; [apply Z.mod_0_l; lia |]. split; [lia |].
  intros i v Hi.
  destruct (created_volumes_lookup _ _ _ _ Hlim Hi) as (Hid & Ho & Hc).
  rewrite Hid, Ho, Hc. split; [reflexivity |].
  destruct i; auto.
Qed.

Lemma ring_active (st : Storage) (a : nat) (k : Z) :
  ring_ok st a k ->
  active_volume_index_ st < 2 ^ 31 ->
  active_volume st = volumes_ st !! a.
Proof.
  intros (_ & _ & Hidx & Hmod & _) Hlim. unfold active_volume.
  assert (Hw : wrap64 (active_volume_index_ st) = active_volume_index_ st)
    by (unfold wrap64; apply Z.mod_small; lia).
  rewrite Hw, Hmod, Nat2Z.id. reflexivity.
Qed.

(** X19.  Rotation and restart agree.  On a ring of two or more
    volumes between rotations, [select_active_page] chooses the volume
    that was being written and rotates nothing.  [advance_volume_] moves
    the writer one position on, round robin, to a page that is empty; the
    Sequencer goes with it; what is left is again a ring between
    rotations, so a restart after the rotation chooses the new volume. *)
Theorem rotation_keeps_ring (st : Storage) (a : nat) (k : Z) :
  ring_ok st a k ->
  k + 2 < 2 ^ 32 ->
  active_volume_index_ st + 1 < 2 ^ 31 ->
  select_active_page st = Some (mkStorage (volumes_ st) (Z.of_nat a))
  /\ exists st' prev_volume next_volume,
       advance_volume_ st (active_volume_index_ st) = Some st'
       /\ active_volume st = Some prev_volume
       /\ active_volume st' = Some next_volume
       /\ ring_ok st' (next_position (length (volumes_ st)) a)
            (next_round (length (volumes_ st)) a k)
       /\ cache_ next_volume = cache_ prev_volume
       /\ count (page_ next_volume) = 0
       /\ sync_count (page_ next_volume) = 0
       /\ select_active_page st'
          = Some (mkStorage (volumes_ st')
                    (Z.of_nat (next_position (length (volumes_ st)) a))).
Proof.
  intros Hring Hk Hidx. split; [exact (ring_select st a k Hring) |].
  destruct (ring_advance st a k Hring Hk Hidx)
    as (st' & prev & next & Hadv & Hprev & Hnext & Hring' & Hidx' & _ & Hc & Hcnt & Hs).
  exists st', prev, next. split; [exact Hadv |].
  split; [rewrite (ring_active st a k Hring) by lia; exact Hprev |].
  split; [rewrite (ring_active st' _ _ Hring') by lia; exact Hnext |].
  split; [exact Hring' |]. split; [exact Hc |]. split; [exact Hcnt |].
  split; [exact Hs |]. exact (ring_select st' _ _ Hring').
Qed.

(** Rotations in a row. *)
Fixpoint rotate (r : nat) (st : Storage) : option Storage :=
  match r with
  | O => Some st
  | S r' =>
      st' ← advance_volume_ st (active_volume_index_ st);
      rotate r' st'
  end.

Lemma next_position_mod (n r : nat) :
  (2 <= n)%nat ->
  next_position n (r mod n) = (S r mod n)%nat
  /\ next_round n (r mod n) (Z.of_nat (r / n)) = Z.of_nat (S r / n).
Proof.
  intros Hn. unfold next_position, next_round.
  pose proof (Nat.div_mod_eq r n) as Hr.
  pose proof (Nat.mod_upper_bound r n ltac:(lia)) as Hb.
  destruct (decide (S (r mod n) < n)%nat) as [Hlt | Hge].
  - assert (Hq : (S r / n = r / n /\ S r mod n = S (r mod n))%nat).
    { symmetry in Hr.
      pose proof (Nat.div_mod_unique n (r / n) (S r / n) (S (r mod n)) (S r mod n)
                    Hlt (Nat.mod_upper_bound (S r) n ltac:(lia))) as Hu.
      pose proof (Nat.div_mod_eq (S r) n). destruct Hu as [H1 H2]; [lia |].
      split; congruence. }
    destruct Hq as [-> ->]. split; reflexivity.
  - assert (Hq : (S r / n = S (r / n) /\ S r mod n = 0)%nat).
    { pose proof (Nat.div_mod_unique n (S (r / n)) (S r / n) 0 (S r mod n)
                    ltac:(lia) (Nat.mod_upper_bound (S r) n ltac:(lia))) as Hu.
      pose proof (Nat.div_mod_eq (S r) n).
      destruct Hu as [H1 H2]; [nia |]. split; congruence. }
    destruct Hq as [-> ->]. split; [reflexivity | lia].
Qed.

Lemma rotate_ring (n : nat) :
  (2 <= n)%nat ->
  forall (r done : nat) (st : Storage),
    ring_ok st (done mod n) (Z.of_nat (done / n)) ->
    length (volumes_ st) = n ->
    active_volume_index_ st = Z.of_nat done ->
    Z.of_nat (done + r) < 2 ^ 31 ->
    exists st',
      rotate r st = Some st'
      /\ ring_ok st' ((done + r) mod n) (Z.of_nat ((done + r) / n))
      /\ length (volumes_ st') = n
      /\ active_volume_index_ st' = Z.of_nat (done + r).
Proof.
  intros Hn. induction r as [| r IH]; intros done st Hring Hlen Hidx Hlim.
  - exists st. rewrite Nat.add_0_r. auto.
  - cbn [rotate].
    assert (Hdiv : (done / n <= done)%nat) by (apply Nat.Div0.div_le_upper_bound; nia).
    destruct (ring_advance st _ _ Hring ltac:(lia) ltac:(lia))
      as (st1 & _ & _ & -> & _ & _ & Hring1 & Hidx1 & Hlen1 & _).
    cbn [mbind option_bind].
    rewrite Hlen in Hring1.
    destruct (next_position_mod n done Hn) as [Hp Hr].
    rewrite Hp, Hr in Hring1.
    destruct (IH (S done) st1 Hring1 ltac:(lia) ltac:(lia) ltac:(lia))
      as (st' & Hrot & Hring' & Hlen' & Hidx').
    exists st'. replace (done + S r)%nat with (S done + r)%nat by lia. auto.
Qed.

(** X20.  A storage created with two or more volumes opens on the
    first of them, and after any number of rotations a restart finds the
    volume the writer had reached: the one at the number of rotations
    modulo the number of volumes. *)
Theorem restart_after_rotations (targets : nat) (page_size : Z) (index0 : Z)
    (r : nat) :
  (2 <= targets)%nat ->
  Z.of_nat targets < 2 ^ 32 ->
  Z.of_nat r < 2 ^ 31 ->
  exists st0 st,
    select_active_page (mkStorage (created_volumes targets page_size) index0)
    = Some st0
    /\ st0 = mkStorage (created_volumes targets page_size) 0
    /\ rotate r st0 = Some st
    /\ length (volumes_ st) = targets
    /\ active_volume_index_ st = Z.of_nat r
    /\ select_active_page st
       = Some (mkStorage (volumes_ st) (Z.of_nat (r mod targets))).
Proof.
  intros Hn Hlim Hr.
  pose proof (created_ring targets page_size Hn Hlim) as Hring0.
  exists (mkStorage (created_volumes targets page_size) 0).
  assert (Hopen : select_active_page
                    (mkStorage (created_volumes targets page_size) index0)
                  = Some (mkStorage (created_volumes targets page_size) 0)).
  { pose proof (ring_select _ _ _ Hring0) as Hsel.
    unfold select_active_page in *. cbn [volumes_] in *. exact Hsel. }
  destruct (rotate_ring targets Hn r 0 (mkStorage (created_volumes targets page_size) 0))
    as (st & Hrot & Hring & Hlen & Hidx).
  - rewrite Nat.Div0.mod_0_l, Nat.Div0.div_0_l. exact Hring0.
  - apply created_volumes_length.
  - reflexivity.
  - cbn [Nat.add]. exact Hr.
  - exists st. cbn [Nat.add] in *.
    split; [exact Hopen |]. split; [reflexivity |]. split; [exact Hrot |].
    split; [exact Hlen |]. split; [exact Hidx |].
    exact (ring_select st _ _ Hring).
Qed.

(** *** The order a search visits the volumes in (Storage::search) *)

(** The loop of a forward search over
    [ix = starting_ix .. starting_ix + volumes_.size() - 1], [ix] a
    [uint32_t]: the indices [ix % volumes_.size()] of the volumes
    searched.  [None]: the fuel, one unit for each volume, has run out;
    the counter has wrapped and the loop does not end. *)
Fixpoint forward_loop (fuel : nat) (ix bound size : Z) : option (list Z) :=
  if ix <? bound then
    match fuel with
    | O => None
    | S fuel' =>
        rest ← forward_loop fuel' (wrap32 (ix + 1)) bound size;
        Some (ix mod size :: rest)
    end
  else Some [].

Definition forward_order (active_page_id : Z) (size : nat) : option (list Z) :=
  let starting_ix := wrap32 (active_page_id + 1) in
  forward_loop size starting_ix (starting_ix + Z.of_nat size) (Z.of_nat size).

(** The loop of a backward search over
    [ix = starting_ix + volumes_.size() .. starting_ix + 1], [ix] an
    [int64_t]. *)
Fixpoint backward_loop (fuel : nat) (ix starting_ix size : Z) : option (list Z) :=
  if ix >? starting_ix then
    match fuel with
    | O => None
    | S fuel' =>
        rest ← backward_loop fuel' (ix - 1) starting_ix size;
        Some (wrap32 (ix mod size) :: rest)
    end
  else Some [].

Definition backward_order (active_page_id : Z) (size : nat) : option (list Z) :=
  let starting_ix := active_page_id in
  backward_loop size (starting_ix + Z.of_nat size) starting_ix (Z.of_nat size).

Lemma forward_loop_spec (size : Z) (bound : Z) :
  bound < 2 ^ 32 ->
  forall (fuel : nat) (ix : Z),
    0 <= ix -> ix + Z.of_nat fuel = bound ->
    forward_loop fuel ix bound size
    = Some (map (fun j => (ix + Z.of_nat j) mod size) (seq 0 fuel)).
Proof.
  intros Hb. induction fuel as [| fuel IH]; intros ix Hix Hsum; cbn [forward_loop].
  - destruct (Z.ltb_spec ix bound); [lia | reflexivity].
  - destruct (Z.ltb_spec ix bound); [| lia].
    assert (Hw : wrap32 (ix + 1) = ix + 1) by (unfold wrap32; apply Z.mod_small; lia).
    rewrite Hw, IH by lia. cbn [mbind option_bind seq map].
    rewrite Z.add_0_r, <- seq_shift, map_map. do 2 f_equal.
    apply map_ext. intros j. f_equal. lia.
Qed.

Lemma backward_loop_spec (size : Z) (starting_ix : Z) :
  0 < size < 2 ^ 32 ->
  forall (fuel : nat) (ix : Z),
    ix = starting_ix + Z.of_nat fuel ->
    backward_loop fuel ix starting_ix size
    = Some (map (fun j => (ix - Z.of_nat j) mod size) (seq 0 fuel)).
Proof.
  intros Hs. induction fuel as [| fuel IH]; intros ix Hsum; cbn [backward_loop];
    rewrite Z.gtb_ltb.
  - destruct (Z.ltb_spec starting_ix ix); [lia | reflexivity].
  - destruct (Z.ltb_spec starting_ix ix); [| lia].
    rewrite IH by lia. cbn [mbind option_bind seq map].
    rewrite Z.sub_0_r, <- seq_shift, map_map.
    assert (Hw : wrap32 (ix mod size) = ix mod size).
    { unfold wrap32. apply Z.mod_small.
      pose proof (Z.mod_pos_bound ix size ltac:(lia)). lia. }
    rewrite Hw. do 2 f_equal.
    apply map_ext. intros j. f_equal. lia.
Qed.

(** The positions of a ring from [c] on, once round. *)
Lemma ring_order_perm (n : nat) (c : Z) :
  (0 < n)%nat ->
  map (fun j => (c + Z.of_nat j) mod Z.of_nat n) (seq 0 n)
  ≡ₚ map Z.of_nat (seq 0 n).
Proof.
  intros Hn. apply NoDup_Permutation.
  - apply NoDup_fmap_2_strong; [| apply NoDup_seq].
    intros j1 j2 H1 H2 Heq.
    apply elem_of_seq in H1, H2.
    rewrite !Z.mod_eq in Heq by lia.
    assert (Hq : (c + Z.of_nat j1) / Z.of_nat n = (c + Z.of_nat j2) / Z.of_nat n) by nia.
    rewrite Hq in Heq. lia.
  - apply NoDup_fmap_2; [apply _ | apply NoDup_seq].
  - intros x. rewrite !list_elem_of_fmap. split.
    + intros (j & -> & Hj).
      pose proof (Z.mod_pos_bound (c + Z.of_nat j) (Z.of_nat n) ltac:(lia)) as Hb.
      exists (Z.to_nat ((c + Z.of_nat j) mod Z.of_nat n)).
      split; [lia |]. apply elem_of_seq. lia.
    + intros (i & -> & Hi). apply elem_of_seq in Hi.
      pose proof (Z.mod_pos_bound (Z.of_nat i - c) (Z.of_nat n) ltac:(lia)) as Hb.
      exists (Z.to_nat ((Z.of_nat i - c) mod Z.of_nat n)).
      split; [| apply elem_of_seq; lia].
      rewrite Z2Nat.id by lia.
      rewrite Zplus_mod_idemp_r.
      replace (c + (Z.of_nat i - c)) with (Z.of_nat i) by lia.
      symmetry. apply Z.mod_small. lia.
Qed.

Lemma rev_seq (n : nat) : rev (seq 0 n) = map (fun j => (n - 1 - j)%nat) (seq 0 n).
Proof.
  induction n as [| n IH]; [reflexivity |].
  rewrite seq_S at 1. rewrite rev_app_distr. cbn [rev app Nat.add seq map].
  rewrite IH, <- seq_shift, map_map. f_equal; [lia |].
  apply map_ext. intros j. lia.
Qed.

(** X21.  A search goes through every volume once.  With the
    page ids the positions in the ring, a forward search starts behind
    the active volume, at the oldest one, and ends at the active one; a
    backward search takes the volumes the other way round, the active
    one first. *)
Theorem search_visits_each_volume_once (active_page_id : Z) (size : nat) :
  0 <= active_page_id < Z.of_nat size ->
  Z.of_nat size < 2 ^ 31 ->
  exists order,
    forward_order active_page_id size = Some order
    /\ backward_order active_page_id size = Some (rev order)
    /\ order ≡ₚ map Z.of_nat (seq 0 size)
    /\ head order = Some ((active_page_id + 1) mod Z.of_nat size)
    /\ last order = Some active_page_id.
Proof.
  intros Hid Hsize.
  set (n := Z.of_nat size) in *.
  exists (map (fun j => (active_page_id + 1 + Z.of_nat j) mod n) (seq 0 size)).
  assert (Hw : wrap32 (active_page_id + 1) = active_page_id + 1)
    by (unfold wrap32; apply Z.mod_small; lia).
  split.
  { unfold forward_order. rewrite Hw. fold n.
    apply forward_loop_spec; lia. }
  split.
  { unfold backward_order. fold n.
    rewrite (backward_loop_spec n active_page_id ltac:(lia) size) by reflexivity.
    f_equal. rewrite <- map_rev, rev_seq, map_map.
    apply map_ext_in. intros j Hj. apply in_seq in Hj. f_equal. lia. }
  split; [apply ring_order_perm; lia |].
  destruct size as [| m]; [lia |]. split.
  - cbn [seq map head]. f_equal. f_equal. lia.
  - rewrite seq_S, map_app. cbn [map Nat.add]. rewrite last_snoc. f_equal.
    replace (active_page_id + 1 + Z.of_nat m) with (active_page_id + 1 * n)
      by lia.
    rewrite Z.mod_add by lia. apply Z.mod_small. lia.
Qed.

End WithConfig.

(** A storage of three volumes of 4 KiB, just created. *)
Definition three_volumes : Storage :=
  mkStorage (created_volumes (H := Page.sample_env) 10 1 4096 3 4096) 0.

Lemma rotation_keeps_ring_witness :
  select_active_page (H := Page.sample_env) 10 1 4096 three_volumes
  = Some (mkStorage (volumes_ three_volumes) (Z.of_nat 0))
  /\ exists st' prev_volume next_volume,
       advance_volume_ (H := Page.sample_env) 10 1 4096 three_volumes
         (active_volume_index_ three_volumes) = Some st'
       /\ active_volume three_volumes = Some prev_volume
       /\ active_volume st' = Some next_volume
       /\ ring_ok st' (next_position (length (volumes_ three_volumes)) 0)
            (next_round (length (volumes_ three_volumes)) 0 0)
       /\ cache_ next_volume = cache_ prev_volume
       /\ Page.count (page_ next_volume) = 0
       /\ Page.sync_count (page_ next_volume) = 0
       /\ select_active_page (H := Page.sample_env) 10 1 4096 st'
          = Some (mkStorage (volumes_ st')
                    (Z.of_nat (next_position (length (volumes_ three_volumes)) 0))).
Proof.
  apply (rotation_keeps_ring (H := Page.sample_env) 10 1 4096 three_volumes 0 0).
  - apply created_ring; lia.
  - lia.
  - cbn. lia.
Defined.

Lemma restart_after_rotations_witness :
  exists st0 st,
    select_active_page (H := Page.sample_env) 10 1 4096
      (mkStorage (created_volumes (H := Page.sample_env) 10 1 4096 3 4096) 7)
    = Some st0
    /\ st0 = mkStorage (created_volumes (H := Page.sample_env) 10 1 4096 3 4096) 0
    /\ rotate (H := Page.sample_env) 10 1 4096 5 st0 = Some st
    /\ length (volumes_ st) = 3%nat
    /\ active_volume_index_ st = Z.of_nat 5
    /\ select_active_page (H := Page.sample_env) 10 1 4096 st
       = Some (mkStorage (volumes_ st) (Z.of_nat (5 mod 3))).
Proof.
  apply (restart_after_rotations (H := Page.sample_env) 10 1 4096 3 4096 7 5); lia.
Defined.

Lemma search_visits_each_volume_once_witness :
  exists order,
    forward_order 1 3 = Some order
    /\ backward_order 1 3 = Some (rev order)
    /\ order ≡ₚ map Z.of_nat (seq 0 3)
    /\ head order = Some ((1 + 1) mod Z.of_nat 3)
    /\ last order = Some 1.
Proof. apply (search_visits_each_volume_once 1 3); lia. Defined.

End Volumes.

(** ** The scan of a chunk (page.cpp, SearchAlgorithm) *)

Module PageSearch.

(** [CursorResult] as [put_entry] fills it; the page is the one searched. *)
Record CursorResult := mkResult {
  data_offset : Z;
  length_ : Z;
  timestamp : Z;
  param_id : Z
}.

(** The part of [SearchQuery] the scan of a chunk looks at; [param_pred]
    answers with a [ParamMatch], an enumerator carried as its integer. *)
Record SearchQuery := mkSearchQuery {
  lowerbound : Z;
  upperbound : Z;
  param_pred : Z -> Z
}.

Section WithCursor.

Context {Cur : Type} `{!Cursor.InternalCursor CursorResult Cur}.

(** Row [i] of the columns, as [put_entry] reads it; [None] is a read
    outside a column. *)
Definition result_at (header : Page.ChunkHeader) (i : nat) : option CursorResult :=
  offset ← Page.offsets header !! i;
  len ← Page.lengths header !! i;
  ts ← Page.timestamps header !! i;
  id ← Page.paramids header !! i;
  Some (mkResult offset len ts id).

(** [put_entry]; what [put] answers is dropped. *)
Definition put_entry (header : Page.ChunkHeader) (cursor : Cur) (i : nat)
    : option Cur :=
  result ← result_at header i;
  Some (Cursor.cursor_put cursor result).2.

(** One row: whether it is offered, and [probe_in_time_range] after it.
    The parameter id is read only for a timestamp within the bounds. *)
Definition offered (query : SearchQuery) (header : Page.ChunkHeader) (i : nat)
    : option bool :=
  ts ← Page.timestamps header !! i;
  if (lowerbound query <=? ts) && (upperbound query >=? ts) then
    id ← Page.paramids header !! i;
    Some (negb (param_pred query id =? 0))
  else Some false.

(** The loop of a backward scan, [i] going from [count - 1] down to 0:
    [probe_in_time_range] and the cursor when it is left. *)
Fixpoint backward_loop (query : SearchQuery) (header : Page.ChunkHeader)
    (count : nat) (cursor : Cur) : option (bool * Cur) :=
  match count with
  | O => Some (true, cursor)
  | S i =>
      ts ← Page.timestamps header !! i;
      put_it ← offered query header i;
      if put_it : bool then
        (cursor' ← put_entry header cursor i;
         backward_loop query header i cursor')
      else if lowerbound query <=? ts
      then backward_loop query header i cursor
      else Some (false, cursor)
  end.

(** The loop of a forward scan, [i] going up to [probe_length]. *)
Fixpoint forward_loop (query : SearchQuery) (header : Page.ChunkHeader)
    (remaining i : nat) (cursor : Cur) : option (bool * Cur) :=
  match remaining with
  | O => Some (true, cursor)
  | S remaining' =>
      ts ← Page.timestamps header !! i;
      put_it ← offered query header i;
      if put_it : bool then
        (cursor' ← put_entry header cursor i;
         forward_loop query header remaining' (S i) cursor')
      else if upperbound query >=? ts
      then forward_loop query header remaining' (S i) cursor
      else Some (false, cursor)
  end.

(** [SearchAlgorithm::scan_compressed_entries] from the point where the
    four columns have been read into [header]: the value returned and the
    cursor.  [None]: a read outside a column. *)
Definition scan_compressed_entries (IS_BACKWARD_ binary_search : bool)
    (query : SearchQuery) (header : Page.ChunkHeader) (cursor : Cur)
    : option (bool * Cur) :=
  let probe_length := Z.of_nat (length (Page.timestamps header)) in
  let key_ := if IS_BACKWARD_ then upperbound query else lowerbound query in
  let start_pos0 :=
    if IS_BACKWARD_ then wrap64 (wrap_int32 (wrap32 (probe_length - 1))) else 0 in
  let start_pos :=
    if binary_search then
      let it := Z.of_nat (lower_bound (fun x => x <? key_) (Page.timestamps header) 0) in
      if IS_BACKWARD_ then
        if negb (probe_length =? 0)
        then wrap64 (start_pos0 - wrap_int64 (start_pos0 - it))
        else start_pos0
      else wrap64 (start_pos0 + it)
    else start_pos0 in
  if IS_BACKWARD_ then
    let i := wrap_int32 start_pos in
    if i <? 0 then Some (true, cursor)
    else backward_loop query header (S (Z.to_nat i)) cursor
  else
    if start_pos >? probe_length then None
    else forward_loop query header (Z.to_nat (probe_length - start_pos))
           (Z.to_nat start_pos) cursor.


(** *** Facts about the scan *)

(** The rows of a chunk, and the ones a query asks for. *)
Definition rows_from (header : Page.ChunkHeader) (i count : nat) : list CursorResult :=
  omap (result_at header) (seq i count).

Definition rows (header : Page.ChunkHeader) : list CursorResult :=
  rows_from header 0 (length (Page.timestamps header)).

Definition matching (query : SearchQuery) (r : CursorResult) : bool :=
  (lowerbound query <=? timestamp r) && (upperbound query >=? timestamp r)
  && negb (param_pred query (param_id r) =? 0).

(** The columns of a chunk have one length. *)
Definition header_ok (header : Page.ChunkHeader) : Prop :=
  length (Page.paramids header) = length (Page.timestamps header)
  /\ length (Page.offsets header) = length (Page.timestamps header)
  /\ length (Page.lengths header) = length (Page.timestamps header).

Lemma row_at (query : SearchQuery) (header : Page.ChunkHeader) (i : nat) :
  header_ok header ->
  (i < length (Page.timestamps header))%nat ->
  exists r,
    result_at header i = Some r
    /\ Page.timestamps header !! i = Some (timestamp r)
    /\ offered query header i = Some (matching query r)
    /\ (forall cursor : Cur,
          put_entry header cursor i = Some (Cursor.cursor_put cursor r).2).
Proof.
  intros (Hp & Ho & Hl) Hi. unfold put_entry, offered, result_at, matching.
  destruct (lookup_lt_is_Some_2 (Page.timestamps header) i Hi) as [ts Hts].
  destruct (lookup_lt_is_Some_2 (Page.paramids header) i ltac:(lia)) as [id Hid].
  destruct (lookup_lt_is_Some_2 (Page.offsets header) i ltac:(lia)) as [off Hoff].
  destruct (lookup_lt_is_Some_2 (Page.lengths header) i ltac:(lia)) as [len Hlen].
  rewrite Hts, Hid, Hoff, Hlen. cbn [mbind option_bind].
  exists (mkResult off len ts id). cbn [timestamp param_id].
  split; [reflexivity |]. split; [reflexivity |]. split; [| reflexivity].
  destruct ((lowerbound query <=? ts) && (upperbound query >=? ts));
    reflexivity.
Qed.

Lemma rows_from_snoc (header : Page.ChunkHeader) (i : nat) (r : CursorResult) :
  result_at header i = Some r ->
  rows_from header 0 (S i) = rows_from header 0 i ++ [r].
Proof.
  intros Hr. unfold rows_from. rewrite seq_S, omap_app. simpl.
  rewrite Hr. reflexivity.
Qed.

Lemma rows_from_cons (header : Page.ChunkHeader) (i count : nat) (r : CursorResult) :
  result_at header i = Some r ->
  rows_from header i (S count) = r :: rows_from header (S i) count.
Proof. intros Hr. unfold rows_from. simpl. rewrite Hr. reflexivity. Qed.

Lemma rows_from_timestamps (header : Page.ChunkHeader) (count : nat) :
  header_ok header ->
  forall i,
    (i + count <= length (Page.timestamps header))%nat ->
    map timestamp (rows_from header i count)
    = take count (drop i (Page.timestamps header)).
Proof.
  intros Hok. induction count as [| count IH]; intros i Hi.
  - reflexivity.
  - destruct (row_at (mkSearchQuery 0 0 (fun _ => 0)) header i Hok ltac:(lia))
      as (r & Hr & Hts & _).
    rewrite (rows_from_cons _ _ _ _ Hr). cbn [map]. rewrite IH by lia.
    rewrite (drop_S _ _ _ Hts). reflexivity.
Qed.

Lemma not_matching_below (query : SearchQuery) (l : list CursorResult) :
  Forall (fun r => timestamp r < lowerbound query) l ->
  List.filter (matching query) l = [].
Proof.
  induction 1 as [| r l Hr _ IH]; [reflexivity |].
  cbn [List.filter]. unfold matching at 1.
  destruct (Z.leb_spec (lowerbound query) (timestamp r)); [lia |]. exact IH.
Qed.

Lemma not_matching_above (query : SearchQuery) (l : list CursorResult) :
  Forall (fun r => upperbound query < timestamp r) l ->
  List.filter (matching query) l = [].
Proof.
  induction 1 as [| r l Hr _ IH]; [reflexivity |].
  cbn [List.filter]. unfold matching at 1. rewrite Z.geb_leb.
  destruct (Z.leb_spec (timestamp r) (upperbound query)); [lia |].
  rewrite andb_false_r. exact IH.
Qed.

Lemma sorted_lookup (l : list Z) (i j : nat) (x y : Z) :
  StronglySorted Z.le l ->
  l !! i = Some x -> l !! j = Some y -> (i <= j)%nat -> x <= y.
Proof.
  intros Hs Hi Hj Hij.
  destruct (decide (i = j)) as [-> | Hne].
  { rewrite Hi in Hj. injection Hj as <-. lia. }
  rewrite <- (take_drop_middle l i x Hi) in Hs, Hj.
  apply StronglySorted_app in Hs as (_ & _ & Hs).
  apply StronglySorted_inv in Hs as [_ Hall].
  rewrite lookup_app_r in Hj by (rewrite length_take; lia).
  rewrite length_take in Hj.
  pose proof (lookup_lt_Some _ _ _ Hi) as Hlt.
  replace (j - i `min` length l)%nat with (S (j - i - 1)) in Hj by lia.
  cbn [lookup list_lookup] in Hj.
  rewrite Forall_forall in Hall. apply Hall.
  eapply list_elem_of_lookup_2. exact Hj.
Qed.

Section LoopFacts.

Variable query : SearchQuery.
Variable header : Page.ChunkHeader.
Hypothesis Hok : header_ok header.
Hypothesis Hsorted : StronglySorted Z.le (Page.timestamps header).

Lemma scan_backward_loop_spec (count : nat) :
  (count <= length (Page.timestamps header))%nat ->
  forall cursor : Cur,
    exists flag,
      backward_loop query header count cursor
      = Some (flag,
              (Cursor.puts cursor
                 (rev (List.filter (matching query) (rows_from header 0 count)))).2)
      /\ (flag = true
          <-> Forall (fun t => lowerbound query <= t)
                (take count (Page.timestamps header))).
Proof.
  induction count as [| i IH]; intros Hn cursor.
  - exists true. split; [reflexivity |]. split; [constructor | reflexivity].
  - destruct (row_at query header i Hok ltac:(lia)) as (r & Hr & Hts & Hoff & Hput).
    pose proof (take_S_r _ _ _ Hts) as Htake.
    assert (Hrows : rev (List.filter (matching query) (rows_from header 0 (S i)))
                    = rev (List.filter (matching query) [r])
                      ++ rev (List.filter (matching query) (rows_from header 0 i)))
      by (rewrite (rows_from_snoc _ _ _ Hr), List.filter_app, rev_app_distr;
          reflexivity).
    cbn [backward_loop]. rewrite Hts, Hoff, Hrows, Htake. cbn [mbind option_bind].
    cbn [List.filter].
    destruct (matching query r) eqn:Em.
    + rewrite Hput. cbn [mbind option_bind rev app].
      destruct (IH ltac:(lia) (Cursor.cursor_put cursor r).2) as (flag & Hrun & Hflag).
      exists flag. rewrite Cursor.puts_cons_snd. split; [exact Hrun |].
      rewrite Forall_app, Hflag. split; [| tauto].
      intros Hall. split; [exact Hall |]. constructor; [| constructor].
      unfold matching in Em. apply andb_true_iff in Em as [Em _].
      apply andb_true_iff in Em as [Em _]. lia.
    + cbn [rev app].
      destruct (Z.leb_spec (lowerbound query) (timestamp r)) as [Hle | Hlt].
      * destruct (IH ltac:(lia) cursor) as (flag & Hrun & Hflag).
        exists flag. split; [exact Hrun |].
        rewrite Forall_app, Hflag. split; [| tauto].
        intros Hall. split; [exact Hall |]. constructor; [exact Hle | constructor].
      * exists false. rewrite not_matching_below.
        -- split; [reflexivity |]. split; [discriminate |].
           rewrite Forall_app.
           intros [_ Hall]. apply Forall_cons in Hall as [Hall _]. lia.
        -- apply Forall_forall. intros r' Hin.
           apply (list_elem_of_fmap_2 timestamp) in Hin.
           rewrite rows_from_timestamps in Hin by (assumption || lia).
           rewrite drop_0 in Hin.
           apply list_elem_of_lookup in Hin as [j Hj].
           apply lookup_take_Some in Hj as [Hj Hji].
           pose proof (sorted_lookup _ j i _ _ Hsorted Hj Hts ltac:(lia)). lia.
Qed.

Lemma scan_forward_loop_spec (remaining : nat) :
  forall (i : nat) (cursor : Cur),
    (i + remaining = length (Page.timestamps header))%nat ->
    exists flag,
      forward_loop query header remaining i cursor
      = Some (flag,
              (Cursor.puts cursor
                 (List.filter (matching query) (rows_from header i remaining))).2)
      /\ (flag = true
          <-> Forall (fun t => t <= upperbound query)
                (drop i (Page.timestamps header))).
Proof.
  induction remaining as [| remaining IH]; intros i cursor Hn.
  - exists true. split; [reflexivity |].
    rewrite drop_ge by lia. split; [constructor | reflexivity].
  - destruct (row_at query header i Hok ltac:(lia)) as (r & Hr & Hts & Hoff & Hput).
    pose proof (drop_S _ _ _ Hts) as Hdrop.
    cbn [forward_loop].
    rewrite Hts, Hoff, (rows_from_cons _ _ _ _ Hr), Hdrop.
    cbn [mbind option_bind List.filter].
    destruct (matching query r) eqn:Em.
    + rewrite Hput. cbn [mbind option_bind].
      destruct (IH (S i) (Cursor.cursor_put cursor r).2 ltac:(lia))
        as (flag & Hrun & Hflag).
      exists flag. rewrite Cursor.puts_cons_snd. split; [exact Hrun |].
      rewrite Forall_cons, Hflag. split; [| tauto].
      intros Hall. split; [| exact Hall].
      unfold matching in Em. apply andb_true_iff in Em as [Em _].
      apply andb_true_iff in Em as [_ Em]. lia.
    + rewrite Z.geb_leb.
      destruct (Z.leb_spec (timestamp r) (upperbound query)) as [Hle | Hlt].
      * destruct (IH (S i) cursor ltac:(lia)) as (flag & Hrun & Hflag).
        exists flag. split; [exact Hrun |].
        rewrite Forall_cons, Hflag. tauto.
      * exists false. rewrite not_matching_above.
        -- split; [reflexivity |]. split; [discriminate |].
           rewrite Forall_cons. lia.
        -- apply Forall_forall. intros r' Hin.
           apply (list_elem_of_fmap_2 timestamp) in Hin.
           rewrite rows_from_timestamps in Hin by (assumption || lia).
           apply list_elem_of_lookup in Hin as [j Hj].
           apply lookup_take_Some in Hj as [Hj _].
           rewrite lookup_drop in Hj.
           pose proof (sorted_lookup _ i (S i + j) _ _ Hsorted Hts Hj ltac:(lia)).
           lia.
Qed.

End LoopFacts.

Lemma lower_bound_split (ts : list Z) (key : Z) :
  StronglySorted Z.le ts ->
  (lower_bound (fun x => (x <? key)%Z) ts 0%Z <= length ts)%nat
  /\ Forall (fun t => t < key) (take (lower_bound (fun x => x <? key) ts 0) ts)
  /\ Forall (fun t => key <= t) (drop (lower_bound (fun x => x <? key) ts 0) ts).
Proof.
  intros Hs.
  pose proof (Seq.lower_bound_le (fun x => x <? key) ts 0) as Hle.
  assert (Hnth : forall i, (i < length ts)%nat -> ts !! i = Some (nth i ts 0)).
  { intros i Hi. destruct (lookup_lt_is_Some_2 ts i Hi) as [x Hx].
    rewrite (nth_lookup_Some _ _ 0 _ Hx). exact Hx. }
  destruct (Seq.lower_bound_loop_partition (fun x => x <? key) ts 0 (length ts))
    with (first := 0%nat) (len := length ts) as [Hlo Hhi]; try lia.
  { intros i j Hij Hj. cbn beta in *. apply Z.ltb_lt in Hj. apply Z.ltb_lt.
    pose proof (sorted_lookup ts i j _ _ Hs (Hnth i ltac:(lia)) (Hnth j ltac:(lia))
                  ltac:(lia)). lia. }
  fold (lower_bound (fun x => x <? key) ts 0) in Hlo, Hhi.
  split; [exact Hle |]. split.
  - apply Forall_forall. intros t Ht. apply list_elem_of_lookup in Ht as [i Hi].
    apply lookup_take_Some in Hi as [Hi Hlt].
    specialize (Hlo i Hlt). cbn beta in Hlo.
    rewrite (nth_lookup_Some _ _ 0 _ Hi) in Hlo. apply Z.ltb_lt, Hlo.
  - apply Forall_forall. intros t Ht. apply list_elem_of_lookup in Ht as [i Hi].
    rewrite lookup_drop in Hi. pose proof (lookup_lt_Some _ _ _ Hi) as Hlt.
    specialize (Hhi _ (conj (Nat.le_add_r _ i) Hlt)). cbn beta in Hhi.
    rewrite (nth_lookup_Some _ _ 0 _ Hi) in Hhi. apply Z.ltb_ge, Hhi.
Qed.

Lemma rows_from_app (header : Page.ChunkHeader) (i a b : nat) :
  rows_from header i (a + b) = rows_from header i a ++ rows_from header (i + a) b.
Proof. unfold rows_from. rewrite seq_app, omap_app. reflexivity. Qed.

Lemma rows_take (header : Page.ChunkHeader) (count : nat) :
  header_ok header ->
  (count <= length (Page.timestamps header))%nat ->
  take count (rows header) = rows_from header 0 count.
Proof.
  intros Hok Hc. unfold rows.
  replace (length (Page.timestamps header))
    with (count + (length (Page.timestamps header) - count))%nat by lia.
  rewrite rows_from_app.
  assert (Hlen : length (rows_from header 0 count) = count).
  { rewrite <- (length_map timestamp), rows_from_timestamps by (assumption || lia).
    rewrite length_take, length_drop. lia. }
  rewrite take_app_le by lia. rewrite take_ge by lia. reflexivity.
Qed.

(** X22.  The forward scan of a chunk offers what the query
    asks for.  With the timestamps of the chunk in ascending order, the
    results put to the cursor are the rows whose timestamp lies within the
    bounds and whose parameter id the predicate takes, all of them, in
    the order of the chunk; the value returned says whether the scan of
    the page is to go on: whether no timestamp of the chunk is above the
    upper bound. *)
Theorem chunk_scan_forward (query : SearchQuery) (header : Page.ChunkHeader)
    (cursor : Cur) :
  header_ok header ->
  Sorted Z.le (Page.timestamps header) ->
  Z.of_nat (length (Page.timestamps header)) < 2 ^ 31 ->
  lowerbound query <= upperbound query ->
  exists flag,
    scan_compressed_entries false true query header cursor
    = Some (flag,
            (Cursor.puts cursor (List.filter (matching query) (rows header))).2)
    /\ (flag = true
        <-> Forall (fun t => t <= upperbound query) (Page.timestamps header)).
Proof.
  intros Hok Hsorted Hn Hbounds.
  apply Sorted_StronglySorted in Hsorted; [| intros x y z; lia].
  destruct (lower_bound_split _ (lowerbound query) Hsorted) as (Hk & Hlow & Hhigh).
  unfold scan_compressed_entries.
  set (k := lower_bound (fun x => x <? lowerbound query) (Page.timestamps header) 0)
    in *.
  set (n := length (Page.timestamps header)) in *.
  rewrite Z.add_0_l.
  assert (Hw : wrap64 (Z.of_nat k) = Z.of_nat k)
    by (unfold wrap64; apply Z.mod_small; lia).
  rewrite Hw, Z.gtb_ltb.
  destruct (Z.ltb_spec (Z.of_nat n) (Z.of_nat k)); [lia |].
  replace (Z.to_nat (Z.of_nat n - Z.of_nat k)) with (n - k)%nat by lia.
  rewrite Nat2Z.id.
  destruct (scan_forward_loop_spec query header Hok Hsorted (n - k) k cursor
              ltac:(fold n; lia)) as (flag & Hrun & Hflag).
  exists flag. split.
  - rewrite Hrun. do 3 f_equal. unfold rows. fold n.
    replace n with (k + (n - k))%nat at 2 by lia.
    rewrite rows_from_app, List.filter_app.
    rewrite (not_matching_below query (rows_from header 0 k)); [reflexivity |].
    apply Forall_forall. intros r Hin.
    apply (list_elem_of_fmap_2 timestamp) in Hin.
    rewrite rows_from_timestamps, drop_0 in Hin by (assumption || (fold n; lia)).
    rewrite Forall_forall in Hlow. exact (Hlow _ Hin).
  - rewrite Hflag. rewrite <- (take_drop k (Page.timestamps header)) at 2.
    rewrite Forall_app. split; [| tauto].
    intros Hd. split; [| exact Hd].
    eapply Forall_impl; [exact Hlow |]. intros t Ht. cbn beta in *. lia.
Qed.

(** X23.  The backward scan of a chunk starts at the first
    timestamp that is not below the upper bound.  From there down it
    offers the rows the query asks for, the latest first; rows behind
    that position are not looked at, also where their timestamp is the
    upper bound itself.  With every timestamp of the chunk below the
    upper bound the position is one past the last row, and the scan reads
    the timestamp there, outside the column. *)
Theorem chunk_scan_backward (query : SearchQuery) (header : Page.ChunkHeader)
    (cursor : Cur) :
  header_ok header ->
  Sorted Z.le (Page.timestamps header) ->
  0 < Z.of_nat (length (Page.timestamps header)) < 2 ^ 31 ->
  (Forall (fun t => t < upperbound query) (Page.timestamps header) ->
   scan_compressed_entries true true query header cursor = None)
  /\ (forall below t above,
        Page.timestamps header = below ++ t :: above ->
        Forall (fun t' => t' < upperbound query) below ->
        upperbound query <= t ->
        exists flag,
          scan_compressed_entries true true query header cursor
          = Some (flag,
                  (Cursor.puts cursor
                     (rev (List.filter (matching query)
                             (take (S (length below)) (rows header))))).2)
          /\ (flag = true
              <-> Forall (fun t' => lowerbound query <= t') (below ++ [t]))).
Proof.
  intros Hok Hsorted Hn.
  apply Sorted_StronglySorted in Hsorted; [| intros x y z; lia].
  destruct (lower_bound_split _ (upperbound query) Hsorted) as (Hk & Hlow & Hhigh).
  unfold scan_compressed_entries.
  set (k := lower_bound (fun x => x <? upperbound query) (Page.timestamps header) 0)
    in *.
  set (n := length (Page.timestamps header)) in *.
  assert (Hstart : wrap64 (wrap_int32 (wrap32 (Z.of_nat n - 1))) = Z.of_nat n - 1).
  { unfold wrap32. rewrite Z.mod_small by lia.
    rewrite Seq.wrap_int32_small by lia. unfold wrap64. apply Z.mod_small. lia. }
  rewrite Hstart.
  destruct (Z.eqb_spec (Z.of_nat n) 0) as [| _]; [lia |]. cbn [negb].
  rewrite Codec.wrap_int64_small by lia.
  replace (Z.of_nat n - 1 - (Z.of_nat n - 1 - Z.of_nat k)) with (Z.of_nat k) by lia.
  assert (Hw : wrap64 (Z.of_nat k) = Z.of_nat k)
    by (unfold wrap64; apply Z.mod_small; lia).
  rewrite Hw, Seq.wrap_int32_small by lia.
  destruct (Z.ltb_spec (Z.of_nat k) 0); [lia |]. rewrite Nat2Z.id.
  split.
  - intros Hall.
    assert (Hkn : k = n).
    { destruct (decide (k = n)) as [E | Hne]; [exact E | exfalso].
      destruct (lookup_lt_is_Some_2 (Page.timestamps header) k ltac:(fold n; lia))
        as [t Ht].
      rewrite Forall_forall in Hall, Hhigh.
      pose proof (Hall t (list_elem_of_lookup_2 _ _ _ Ht)).
      assert (t ∈ drop k (Page.timestamps header)).
      { apply list_elem_of_lookup. exists 0%nat.
        rewrite lookup_drop, Nat.add_0_r. exact Ht. }
      pose proof (Hhigh t ltac:(assumption)). lia. }
    rewrite Hkn. cbn [backward_loop].
    rewrite (lookup_ge_None_2 (Page.timestamps header) n) by (fold n; lia).
    reflexivity.
  - intros below t above Hts Hbelow Ht.
    assert (Hkb : k = length below).
    { rewrite Forall_forall in Hlow, Hhigh, Hbelow.
      destruct (Nat.lt_trichotomy k (length below)) as [Hlt | [E | Hgt]];
        [exfalso | exact E | exfalso].
      - destruct (lookup_lt_is_Some_2 below k Hlt) as [x Hx].
        assert (Hin : x ∈ drop k (Page.timestamps header)).
        { apply list_elem_of_lookup. exists 0%nat.
          rewrite lookup_drop, Nat.add_0_r, Hts, lookup_app_l by lia. exact Hx. }
        pose proof (Hhigh x Hin).
        pose proof (Hbelow x (list_elem_of_lookup_2 _ _ _ Hx)). lia.
      - assert (Hin : t ∈ take k (Page.timestamps header)).
        { apply list_elem_of_lookup. exists (length below).
          apply lookup_take_Some. split; [| exact Hgt].
          rewrite Hts. apply list_lookup_middle. reflexivity. }
        pose proof (Hlow t Hin). lia. }
    assert (Hlen : (S k <= n)%nat).
    { unfold n. rewrite Hts, length_app. cbn [length]. lia. }
    destruct (scan_backward_loop_spec query header Hok Hsorted (S k) Hlen cursor)
      as (flag & Hrun & Hflag).
    exists flag. rewrite <- Hkb, (rows_take header (S k) Hok Hlen).
    split; [exact Hrun |].
    assert (Htake : take (S (length below)) (below ++ t :: above) = below ++ [t]).
    { clear. induction below as [| b below IH]; [reflexivity |].
      cbn [length app take] in *. rewrite IH. reflexivity. }
    rewrite Hflag, Hts, Hkb, Htake. reflexivity.
Qed.

End WithCursor.

(** Four rows of two parameters. *)
Definition four_rows : Page.ChunkHeader :=
  Page.mkChunkHeader [10; 20; 20; 30] [1; 2; 1; 1] [100; 200; 300; 400] [8; 8; 8; 8].

(** The rows of parameter 1 from 15 to 20. *)
Definition from_15_to_20 : SearchQuery :=
  mkSearchQuery 15 20 (fun id => if id =? 1 then 1 else 0).

Lemma chunk_scan_forward_witness :
  exists flag,
    scan_compressed_entries (Cur := Cursor.RecordingCursor CursorResult)
      false true from_15_to_20 four_rows (Cursor.mkRecording [] false AKU_SUCCESS)
    = Some (flag,
            (Cursor.puts (Cursor.mkRecording [] false AKU_SUCCESS)
               (List.filter (matching from_15_to_20) (rows four_rows))).2)
    /\ (flag = true
        <-> Forall (fun t => t <= upperbound from_15_to_20)
              (Page.timestamps four_rows)).
Proof.
  apply (chunk_scan_forward (Cur := Cursor.RecordingCursor CursorResult)).
  - repeat split.
  - cbn. repeat first [lia | constructor].
  - cbn. lia.
  - cbn. lia.
Defined.

Lemma chunk_scan_backward_witness :
  (Forall (fun t => t < upperbound from_15_to_20) (Page.timestamps four_rows) ->
   scan_compressed_entries (Cur := Cursor.RecordingCursor CursorResult)
     true true from_15_to_20 four_rows (Cursor.mkRecording [] false AKU_SUCCESS)
   = None)
  /\ (forall below t above,
        Page.timestamps four_rows = below ++ t :: above ->
        Forall (fun t' => t' < upperbound from_15_to_20) below ->
        upperbound from_15_to_20 <= t ->
        exists flag,
          scan_compressed_entries (Cur := Cursor.RecordingCursor CursorResult)
            true true from_15_to_20 four_rows
            (Cursor.mkRecording [] false AKU_SUCCESS)
          = Some (flag,
                  (Cursor.puts (Cursor.mkRecording [] false AKU_SUCCESS)
                     (rev (List.filter (matching from_15_to_20)
                             (take (S (length below)) (rows four_rows))))).2)
          /\ (flag = true
              <-> Forall (fun t' => lowerbound from_15_to_20 <= t') (below ++ [t]))).
Proof.
  apply (chunk_scan_backward (Cur := Cursor.RecordingCursor CursorResult)).
  - repeat split.
  - cbn. repeat first [lia | constructor].
  - cbn. lia.
Defined.

End PageSearch.
